(** * mlsgpu: a shallow embedding of the data-flow core

  The development follows the C++ sources function by function:
  - [Machine]: the fixed-width integer arithmetic the code relies on;
  - [Bucket]: [SplatRange] and its [append] (bucket.cpp);
  - [SplatTree]: [makeCode] (splat_tree.cpp);
  - [SplatSet]: [SequenceSet::MySplatStream::read] and [merge]
    (splat_set_impl.h);
  - [Blob]: the blob index writer [FastBlobSet::addBlob] and its reader
    [FastBlobSet::MyBlobStream::refill] (splat_set_impl.h);
  - [Workers]: the copy worker and the device worker group (workers.cpp);
  - [SplatTreeInit]: [SplatTree::initialize] (splat_tree.cpp);
  - [Bucketing]: the range counter, the octree walk, the two passes over the
    splats and [bucketRecurse] (bucket.cpp);
  - [BlobCompute]: the threads of [FastBlobSet::computeBlobsRange]
    (splat_set_impl.h);
  - [FileRanges]: [FileSet::FileRangeIterator] (splat_set_impl.h).
  The definitions come first; what is proved about them is in the modules
  named [...Facts] in the second half of the file.

  Integers of a fixed width are integers of [Z] together with the wrap-around
  the hardware performs; floating-point quantities that the code only
  compares are kept abstract or taken as rationals. *)

From Stdlib Require Import ZArith Lia List Bool QArith Permutation.
From stdpp Require Import base option list gmap.

Local Open Scope Z_scope.

(* ===================================================================== *)
(** * Machine integers *)
(* ===================================================================== *)

Module Machine.

(** Conversion to an unsigned [w]-bit integer. *)
Definition to_unsigned (w : Z) (x : Z) : Z := x mod 2 ^ w.

(** Conversion to a signed [w]-bit integer (two's complement). *)
Definition to_signed (w : Z) (x : Z) : Z :=
  let u := x mod 2 ^ w in
  if u <? 2 ^ (w - 1) then u else u - 2 ^ w.

Definition u32 (x : Z) : Z := to_unsigned 32 x.
Definition u64 (x : Z) : Z := to_unsigned 64 x.
Definition s32 (x : Z) : Z := to_signed 32 x.

Definition UINT32_MAX : Z := 2 ^ 32 - 1.
Definition UINT64_MAX : Z := 2 ^ 64 - 1.
Definition INT32_MIN : Z := - 2 ^ 31.
Definition INT32_MAX : Z := 2 ^ 31 - 1.

Definition is_u32 (x : Z) : Prop := 0 <= x <= UINT32_MAX.
Definition is_u64 (x : Z) : Prop := 0 <= x <= UINT64_MAX.
Definition is_s32 (x : Z) : Prop := INT32_MIN <= x <= INT32_MAX.

(** The conversion of an [int] to [float], which C++ applies to the integer
    operand of a comparison with a [float]: the value is rounded to the 24
    significant bits of a [float], to the nearest such value and to the one
    with an even last bit on a tie (the rounding of IEEE 754 hardware).
    [2 ^ e] is the weight of the last of the 24 bits; an [int] of magnitude
    up to [2 ^ 24] is kept as it is. The result is again an integer. *)
Definition float_of_int (z : Z) : Z :=
  let a := Z.abs z in
  let e := Z.log2 a - 23 in
  if e <=? 0 then z
  else
    let ulp := 2 ^ e in
    let q := a / ulp in
    let r := a mod ulp in
    let up := (ulp <? 2 * r) || ((ulp =? 2 * r) && Z.odd q) in
    Z.sgn z * ((if up then q + 1 else q) * ulp).

End Machine.

(* ===================================================================== *)
(** * bucket.cpp: ranges of splats *)
(* ===================================================================== *)

Module Bucket.
Import Machine.

(** [SplatRange]: [scan_type] and [size_type] are 32-bit, [index_type] is
    64-bit, all unsigned (the typedefs of bucket.h). *)
Record SplatRange : Type := mkRange {
  scan : Z;
  size : Z;
  start : Z
}.

Definition SIZE_MAX : Z := UINT32_MAX.
Definition SCAN_MAX : Z := UINT32_MAX.
Definition INDEX_MAX : Z := UINT64_MAX.

Definition wf_range (r : SplatRange) : Prop :=
  is_u32 (scan r) /\ is_u32 (size r) /\ is_u64 (start r).

(** [SplatRange::SplatRange()]. *)
Definition emptyRange : SplatRange := mkRange SCAN_MAX 0 INDEX_MAX.

(** [SplatRange::SplatRange(scan, splat)]. *)
Definition singleRange (sc splat : Z) : SplatRange := mkRange sc 1 splat.

(** [SplatRange::append]: the returned pair is the boolean result and the
    range after the call. *)
Definition append (r : SplatRange) (sc splat : Z) : bool * SplatRange :=
  if size r =? 0 then
    (true, mkRange sc 1 splat)
  else if (scan r =? sc) && (start r <=? splat)
          && (u64 (splat - start r) <=? size r) then
    if u64 (splat - start r) =? size r then
      if size r =? SIZE_MAX then (false, r)
      else (true, mkRange (scan r) (u32 (size r + 1)) (start r))
    else (true, r)
  else (false, r).

End Bucket.

(* ===================================================================== *)
(** * Outcomes of fallible code *)
(* ===================================================================== *)

Module Outcome.

(** The exceptions the modelled code raises. *)
Inductive exn : Type :=
| RangeError        (* std::range_error *)
| OutOfRange        (* std::out_of_range *)
| LengthError       (* std::length_error *)
| IosFailure        (* std::ios::failure *)
| AssertFailure     (* a failed assert() *)
| DensityError (cellSplats : Z)    (* Bucket::DensityError *)
| DivisionByZero    (* an integer division by zero *)
| StateError        (* state_error *)
| InvalidArgument.  (* std::invalid_argument *)

(** A call returns a value, raises, or is cut off by the fuel that bounds a
    loop or a recursion of the model. *)
Inductive outcome (A : Type) : Type :=
| Ok (a : A)
| Throw (e : exn)
| OutOfFuel.

Arguments Ok {A} a.
Arguments Throw {A} e.
Arguments OutOfFuel {A}.

Definition bind {A B : Type} (m : outcome A) (k : A -> outcome B) : outcome B :=
  match m with
  | Ok a => k a
  | Throw e => Throw e
  | OutOfFuel => OutOfFuel
  end.

(** [MLSGPU_ASSERT(cond, exception)]: always checked. *)
Definition mlsgpu_assert (cond : bool) (e : exn) : outcome unit :=
  if cond then Ok tt else Throw e.

End Outcome.

Notation "'let!' x ':=' m 'in' k" := (Outcome.bind m (fun x => k))
  (at level 10, x pattern, m at level 100, k at level 200).

(* ===================================================================== *)
(** * splat_tree.cpp: position codes *)
(* ===================================================================== *)

Module SplatTree.
Import Machine Outcome.

(** [std::numeric_limits<code_type>::digits]. The typedef of [code_type] is
    in splat_tree.h, which is not among the sources; the codes are read as
    32-bit unsigned integers by the unit test, and [digit], of type
    [unsigned int], is shifted into them. *)
Definition code_digits : Z := 32.

Definition code (x : Z) : Z := to_unsigned code_digits x.

(** The body of the [while (x || y || z)] loop of [SplatTree::makeCode], run
    at most [fuel] times on the state [(x, y, z, shift, ans)]. *)
Fixpoint makeCode_loop (fuel : nat) (x y z shift ans : Z) : outcome (Z * Z) :=
  if (x =? 0) && (y =? 0) && (z =? 0) then Ok (shift, ans)
  else
    match fuel with
    | O => OutOfFuel
    | S fuel' =>
        let digit :=
          u32 (Z.land x 1 + Z.shiftl (Z.land y 1) 1 + Z.shiftl (Z.land z 1) 2) in
        let ans' := code (ans + u32 (Z.shiftl digit shift)) in
        makeCode_loop fuel' (Z.shiftr x 1) (Z.shiftr y 1) (Z.shiftr z 1)
                      (shift + 3) ans'
    end.

(** [SplatTree::makeCode]. Every turn of the loop halves [x], [y] and [z],
    so [code_digits] turns always suffice. *)
Definition makeCode (x y z : Z) : outcome Z :=
  let! (shift, ans) := makeCode_loop (Z.to_nat code_digits) x y z 0 0 in
  let! _ := mlsgpu_assert (shift <? code_digits) RangeError in
  Ok ans.

(** The arithmetic reading of bit interleaving on [n] bits, used to state
    what [makeCode] computes. *)
Fixpoint interleave (n : nat) (x y z : Z) : Z :=
  match n with
  | O => 0
  | S n' =>
      (x mod 2 + 2 * (y mod 2) + 4 * (z mod 2))
      + 8 * interleave n' (x / 2) (y / 2) (z / 2)
  end.

End SplatTree.

(* ===================================================================== *)
(** * splat_set_impl.h: splat streams and range merging *)
(* ===================================================================== *)

Module SplatSet.
Import Machine Outcome.

(** A half-open range [[first, second)] of splat ids
    ([std::pair<splat_id, splat_id>]). *)
Abbreviation range := (Z * Z)%type (only parsing).

Definition covers (r : range) (x : Z) : Prop := fst r <= x < snd r.

Definition covered (l : list range) (x : Z) : Prop :=
  Exists (fun r => covers r x) l.

Section Stream.

(** [Splat] and [Splat::isFinite] are declared in splat.h. *)
Variable Splat : Type.
Variable isFinite : Splat -> bool.

(** The state of a [MySplatStream]: the position [cur] and the ranges from
    [curRange] to [lastRange]. *)
Record stream : Type := mkStream {
  cur : Z;
  ranges : list range
}.

(** What a call of [read] leaves behind: the splats and ids written to the
    output buffers, the stream, and the count still wanted. *)
Record reading : Type := mkReading {
  outSplats : list Splat;
  outIds : list Z;
  position : stream;
  remaining : Z
}.

(** The inner loop [while (cur < end && count > 0)] of [read]. The sequence
    of the owner is [owner]; [ownerFirst + cur] is its element [cur]. *)
Fixpoint read_range (fuel : nat) (owner : list Splat) (endId : Z)
    (c count : Z) (splats : list Splat) (ids : list Z)
    : outcome (Z * Z * list Splat * list Z) :=
  if (c <? endId) && (0 <? count) then
    match fuel with
    | O => OutOfFuel
    | S fuel' =>
        match owner !! Z.to_nat c with
        | None => Throw OutOfRange   (* dereferencing past ownerLast *)
        | Some x =>
            if isFinite x then
              read_range fuel' owner endId (c + 1) (count - 1)
                         (splats ++ [x]) (ids ++ [c])
            else
              read_range fuel' owner endId (c + 1) count splats ids
        end
    end
  else Ok (c, count, splats, ids).

(** The outer loop [while (count > 0 && curRange != lastRange)]. *)
Fixpoint read_loop (fuel : nat) (owner : list Splat) (st : stream)
    (count : Z) (splats : list Splat) (ids : list Z) : outcome reading :=
  match ranges st with
  | [] => Ok (mkReading splats ids st count)
  | r :: rest =>
      if 0 <? count then
        match fuel with
        | O => OutOfFuel
        | S fuel' =>
            let ownerSize := Z.of_nat (length owner) in
            let endId := if ownerSize <? snd r then ownerSize else snd r in
            let! (c, count', splats', ids') :=
              read_range (S (Z.to_nat (endId - cur st))) owner endId
                         (cur st) count splats ids in
            if endId <=? c then
              (* ++curRange; if (curRange != lastRange) cur = curRange->first *)
              let c' := match rest with r' :: _ => fst r' | [] => c end in
              read_loop fuel' owner (mkStream c' rest) count' splats' ids'
            else
              read_loop fuel' owner (mkStream c (r :: rest)) count' splats' ids'
        end
      else Ok (mkReading splats ids st count)
  end.

(** [SequenceSet::MySplatStream::read]: the returned count is
    [oldCount - count]. When [splatIds] is [NULL] the ids are not written. *)
Definition read (owner : list Splat) (st : stream) (count : Z)
    (wantIds : bool) : outcome (Z * reading) :=
  let! res := read_loop (length (ranges st)) owner st count [] [] in
  Ok (count - remaining res,
      mkReading (outSplats res) (if wantIds then outIds res else [])
                (position res) (remaining res)).

End Stream.

Arguments mkReading {Splat} _ _ _ _.
Arguments outSplats {Splat} _.
Arguments outIds {Splat} _.
Arguments position {Splat} _.
Arguments remaining {Splat} _.
Arguments read_range {Splat} isFinite fuel owner endId c count splats ids.
Arguments read_loop {Splat} isFinite fuel owner st count splats ids.
Arguments read {Splat} isFinite owner st count wantIds.

(** The inner loop [while (true)] of [merge]: extend [last] for as far as
    the ranges at [p1] and [p2] are contiguous with it. *)
Fixpoint extend (fuel : nat) (last : Z) (p1 p2 : list range)
    : outcome (Z * list range * list range) :=
  match fuel with
  | O => OutOfFuel
  | S fuel' =>
      match p1 with
      | r1 :: t1 =>
          if fst r1 <=? last then extend fuel' (Z.max last (snd r1)) t1 p2
          else
            match p2 with
            | r2 :: t2 =>
                if fst r2 <=? last then extend fuel' (Z.max last (snd r2)) p1 t2
                else Ok (last, p1, p2)
            | [] => Ok (last, p1, p2)
            end
      | [] =>
          match p2 with
          | r2 :: t2 =>
              if fst r2 <=? last then extend fuel' (Z.max last (snd r2)) p1 t2
              else Ok (last, p1, p2)
          | [] => Ok (last, p1, p2)
          end
      end
  end.

(** The outer loop [while (p1 != last1 && p2 != last2)] of [merge], followed
    by the two [std::copy] calls for the tail pieces. *)
Fixpoint merge_loop (fuel : nat) (p1 p2 : list range) : outcome (list range) :=
  match p1, p2 with
  | r1 :: _, r2 :: _ =>
      match fuel with
      | O => OutOfFuel
      | S fuel' =>
          let first := Z.min (fst r1) (fst r2) in
          let! (last, p1', p2') := extend (S (length p1 + length p2)) first p1 p2 in
          let! rest := merge_loop fuel' p1' p2' in
          Ok ((first, last) :: rest)
      end
  | _, _ => Ok (p1 ++ p2)
  end.

(** [SplatSet::merge]. Every turn of either loop consumes a range, so the
    number of ranges bounds the number of turns. *)
Definition merge (l1 l2 : list range) : outcome (list range) :=
  merge_loop (length l1 + length l2) l1 l2.

(** Sorted by first endpoint and maximally coalesced: each range starts no
    earlier than the one before it, and strictly after that one ends. *)
Fixpoint coalesced (l : list range) : Prop :=
  match l with
  | r :: ((r' :: _) as t) => fst r <= fst r' /\ snd r < fst r' /\ coalesced t
  | _ => True
  end.

End SplatSet.

(* ===================================================================== *)
(** * splat_set_impl.h: the blob index *)
(* ===================================================================== *)

Module Blob.
Import Machine Outcome.

(** [boost::array<Grid::difference_type, 3>]: three signed 32-bit
    coordinates. *)
Record array3 : Type := mkArray3 { ax : Z; ay : Z; az : Z }.

Definition get (a : array3) (i : nat) : Z :=
  match i with
  | O => ax a
  | S O => ay a
  | _ => az a
  end.

Definition set (a : array3) (i : nat) (v : Z) : array3 :=
  match i with
  | O => mkArray3 v (ay a) (az a)
  | S O => mkArray3 (ax a) v (az a)
  | _ => mkArray3 (ax a) (ay a) v
  end.

(** [BlobInfo]: [firstSplat] and [lastSplat] are [splat_id] (unsigned 64-bit),
    [lower] and [upper] hold [Grid::difference_type] (signed 32-bit). *)
Record BlobInfo : Type := mkBlob {
  firstSplat : Z;
  lastSplat : Z;
  lower : array3;
  upper : array3
}.

Definition wf_array3 (a : array3) : Prop :=
  is_s32 (ax a) /\ is_s32 (ay a) /\ is_s32 (az a).

Definition wf_blob (b : BlobInfo) : Prop :=
  is_u64 (firstSplat b) /\ is_u64 (lastSplat b)
  /\ wf_array3 (lower b) /\ wf_array3 (upper b).

Section Assertions.

(** Whether [assert] is compiled in (it is not when [NDEBUG] is defined, as
    in the release variant of the build). *)
Variable assertions : bool.

Definition c_assert (cond : bool) : outcome unit :=
  if assertions && negb cond then Throw AssertFailure else Ok tt.

Definition field_asserts (lbit hbit : Z) : outcome unit :=
  let! _ := c_assert ((0 <=? lbit) && (lbit <? hbit) && (hbit <=? 32)) in
  c_assert (hbit - lbit <? 32).

(** [extractUnsigned]: the result is an [int32_t]. *)
Definition extractUnsigned (value : Z) (lbit hbit : Z) : outcome Z :=
  let! _ := field_asserts lbit hbit in
  let value := Z.shiftr value lbit in
  let value := Z.land value (u32 (u32 (Z.shiftl 1 (hbit - lbit)) - 1)) in
  Ok (s32 value).

(** [extractSigned]: the result is converted to [uint32_t]. *)
Definition extractSigned (value : Z) (lbit hbit : Z) : outcome Z :=
  let bits := hbit - lbit in
  let! ans := extractUnsigned value lbit hbit in
  let ans :=
    if negb (Z.land (u32 ans) (u32 (Z.shiftl 1 (bits - 1))) =? 0)
    then s32 (ans - s32 (Z.shiftl 1 bits))
    else ans in
  Ok (u32 ans).

(** [insertUnsigned]. *)
Definition insertUnsigned (payload value : Z) (lbit hbit : Z) : outcome Z :=
  let! _ := field_asserts lbit hbit in
  let! _ := c_assert (value <? u32 (Z.shiftl 1 (hbit - lbit))) in
  Ok (Z.lor payload (u32 (Z.shiftl value lbit))).

(** [insertSigned]: [value] is an [int32_t]; adding the unsigned
    [1 << (hbit - lbit)] to it is done in [uint32_t] and stored back. *)
Definition insertSigned (payload value : Z) (lbit hbit : Z) : outcome Z :=
  let! _ := field_asserts lbit hbit in
  let! _ := c_assert ((- s32 (Z.shiftl 1 (hbit - lbit)) <=? value)
                      && (value <? s32 (Z.shiftl 1 (hbit - lbit)))) in
  let value :=
    if value <? 0
    then s32 (u32 (u32 value + u32 (Z.shiftl 1 (hbit - lbit))))
    else value in
  Ok (Z.lor payload (u32 (s32 (Z.shiftl value lbit)))).

(** The test of [addBlob] that decides between the two encodings;
    [nonempty] is [!blobData.empty()]. The loop over the axes stops at the
    first axis that rules the differential encoding out. *)
Definition axis_ok (prevBlob curBlob : BlobInfo) (i : nat) : bool :=
  negb ((1 <? s32 (get (upper curBlob) i - get (lower curBlob) i))
        || (get (lower curBlob) i <? s32 (get (upper prevBlob) i - 4))
        || (s32 (get (upper prevBlob) i + 3) <? get (lower curBlob) i)).

Definition differential (nonempty : bool) (prevBlob curBlob : BlobInfo) : bool :=
  if nonempty
     && (lastSplat prevBlob =? firstSplat curBlob)
     && (u64 (lastSplat curBlob - firstSplat curBlob) <? u32 (Z.shiftl 1 19))
  then
    fold_left (fun (d : bool) (i : nat) =>
                 if d then axis_ok prevBlob curBlob i else d)
              [0%nat; 1%nat; 2%nat] true
  else false.

Definition nonempty (blobData : list Z) : bool :=
  match blobData with
  | [] => false
  | _ :: _ => true
  end.

(** The payload of a differential record: the loop over the axes, then the
    splat count. *)
Definition axis_payload (prevBlob curBlob : BlobInfo) (payload : Z) (i : nat)
    : outcome Z :=
  let d := s32 (get (lower curBlob) i - get (upper prevBlob) i) in
  let! payload := insertSigned payload d (Z.of_nat i * 4) (Z.of_nat i * 4 + 3) in
  let s := u32 (s32 (get (upper curBlob) i - get (lower curBlob) i)) in
  insertUnsigned payload s (Z.of_nat i * 4 + 3) (Z.of_nat i * 4 + 4).

Definition differential_payload (prevBlob curBlob : BlobInfo) : outcome Z :=
  let payload := Z.lor 0 2147483648 in   (* UINT32_C(0x80000000) *)
  let! payload := axis_payload prevBlob curBlob payload 0 in
  let! payload := axis_payload prevBlob curBlob payload 1 in
  let! payload := axis_payload prevBlob curBlob payload 2 in
  insertUnsigned payload
                 (u32 (u64 (lastSplat curBlob - firstSplat curBlob))) 12 31.

(** The ten words of a full record. *)
Definition full_record (curBlob : BlobInfo) : list Z :=
  [ u32 (Z.shiftr (firstSplat curBlob) 32);
    u32 (Z.land (firstSplat curBlob) 4294967295);
    u32 (Z.shiftr (lastSplat curBlob) 32);
    u32 (Z.land (lastSplat curBlob) 4294967295);
    u32 (get (lower curBlob) 0); u32 (get (upper curBlob) 0);
    u32 (get (lower curBlob) 1); u32 (get (upper curBlob) 1);
    u32 (get (lower curBlob) 2); u32 (get (upper curBlob) 2) ].

(** [FastBlobSet::addBlob]: the words of [BlobData] (unsigned 32-bit) after
    the call. *)
Definition addBlob (blobData : list Z) (prevBlob curBlob : BlobInfo)
    : outcome (list Z) :=
  if differential (nonempty blobData) prevBlob curBlob then
    let! payload := differential_payload prevBlob curBlob in
    Ok (blobData ++ [payload])
  else
    Ok (blobData ++ full_record curBlob).

(** The blobs of one thread in [computeBlobsRange]: each is added with the
    blob added before it as [prevBlob]. *)
Fixpoint addBlobs (blobData : list Z) (prevBlob : BlobInfo)
    (blobs : list BlobInfo) : outcome (list Z) :=
  match blobs with
  | [] => Ok blobData
  | curBlob :: rest =>
      let! blobData := addBlob blobData prevBlob curBlob in
      addBlobs blobData curBlob rest
  end.

(** A blob file: its words and the number of blobs it holds. *)
Record BlobFile : Type := mkBlobFile {
  words : list Z;
  nBlobs : Z
}.

(** The state of a [MyBlobStream]: [curFile], the words not yet read of the
    file that is open (if one is), [remaining] and [curBlob]. *)
Record MyBlobStream : Type := mkBlobStream {
  curFile : nat;
  stream : option (list Z);
  remaining : Z;
  curBlob : BlobInfo
}.

(** [stream.read] of [n] words; reading past the end raises
    [std::ios::failure]. *)
Definition stream_read (n : nat) (ws : list Z) : outcome (list Z * list Z) :=
  if (n <=? length ws)%nat then Ok (take n ws, drop n ws)
  else Throw IosFailure.

(** The differential record [data] applied to [curBlob], axis [i]. *)
Definition decode_axis (data : Z) (b : BlobInfo) (i : nat) : outcome BlobInfo :=
  let! d := extractSigned data (Z.of_nat i * 4) (Z.of_nat i * 4 + 3) in
  let lo := s32 (u32 (u32 (get (upper b) i) + d)) in
  let! s := extractUnsigned data (Z.of_nat i * 4 + 3) (Z.of_nat i * 4 + 4) in
  let up := s32 (lo + s) in
  Ok (mkBlob (firstSplat b) (lastSplat b) (set (lower b) i lo) (set (upper b) i up)).

Definition decode_differential (data : Z) (b : BlobInfo) : outcome BlobInfo :=
  let! b := decode_axis data b 0 in
  let! b := decode_axis data b 1 in
  let! b := decode_axis data b 2 in
  let first := lastSplat b in
  let! count := extractUnsigned data 12 31 in
  Ok (mkBlob first (u64 (first + count)) (lower b) (upper b)).

(** The full record whose first word is [data] and whose other nine words
    are [buffer]. *)
Definition decode_full (data : Z) (buffer : list Z) : BlobInfo :=
  let word i := nth i buffer 0 in
  mkBlob (Z.lor (u64 (Z.shiftl data 32)) (word 0%nat))
         (Z.lor (u64 (Z.shiftl (word 1%nat) 32)) (word 2%nat))
         (mkArray3 (s32 (word 3%nat)) (s32 (word 5%nat)) (s32 (word 7%nat)))
         (mkArray3 (s32 (word 4%nat)) (s32 (word 6%nat)) (s32 (word 8%nat))).

(** The [try] block of [refill]: read one record from the open stream. *)
Definition read_record (ws : list Z) (b : BlobInfo) : outcome (list Z * BlobInfo) :=
  let! (hd, ws) := stream_read 1 ws in
  let data := nth 0 hd 0 in
  if negb (Z.land data 2147483648 =? 0) then
    let! b := decode_differential data b in
    Ok (ws, b)
  else
    let! (buffer, ws) := stream_read 9 ws in
    Ok (ws, decode_full data buffer).

(** The loop [while (remaining == 0)] of [refill]. The boolean tells whether
    the loop returned from [refill] at the end of the files, with the empty
    blob [(1, 0)] in [curBlob]. *)
Fixpoint refill_open (fuel : nat) (blobFiles : list BlobFile) (st : MyBlobStream)
    : outcome (MyBlobStream * bool) :=
  if remaining st =? 0 then
    match fuel with
    | O => OutOfFuel
    | S fuel' =>
        let cf := match stream st with
                  | Some _ => S (curFile st)   (* stream.close(); curFile++ *)
                  | None => curFile st
                  end in
        match blobFiles !! cf with
        | None =>
            Ok (mkBlobStream cf None (remaining st)
                  (mkBlob 1 0 (lower (curBlob st)) (upper (curBlob st))), true)
        | Some f =>
            refill_open fuel' blobFiles
              (mkBlobStream cf (Some (words f)) (nBlobs f) (curBlob st))
        end
    end
  else Ok (st, false).

(** [FastBlobSet::MyBlobStream::refill]. Each turn of its loop but the first
    moves to the next file. *)
Definition refill (blobFiles : list BlobFile) (st : MyBlobStream)
    : outcome MyBlobStream :=
  let! (st, atEnd) := refill_open (S (S (length blobFiles))) blobFiles st in
  if atEnd then Ok st
  else
    match stream st with
    | None => Throw IosFailure   (* reading from a stream that is not open *)
    | Some ws =>
        let! (ws, b) := read_record ws (curBlob st) in
        Ok (mkBlobStream (curFile st) (Some ws) (u64 (remaining st - 1)) b)
    end.

(** [n] calls of [refill] (the constructor's, then one per [operator++]),
    with the blob each call leaves in [curBlob]. *)
Fixpoint readBlobs (n : nat) (blobFiles : list BlobFile) (st : MyBlobStream)
    : outcome (list BlobInfo * MyBlobStream) :=
  match n with
  | O => Ok ([], st)
  | S n' =>
      let! st := refill blobFiles st in
      let! (bs, st') := readBlobs n' blobFiles st in
      Ok (curBlob st :: bs, st')
  end.

(** [MyBlobStream::empty]: the end is marked by a blob whose first splat is
    after its last. *)
Definition empty (st : MyBlobStream) : bool :=
  lastSplat (curBlob st) <? firstSplat (curBlob st).

End Assertions.

End Blob.

(* ===================================================================== *)
(** * Grids *)
(* ===================================================================== *)

Module Grids.

(** Modelled from the spec: class [Grid] of grid.h, which is not among the
    sources. Of "reference point, spacing and integer extents
    [[lo_i, hi_i)] per axis" only the extents are kept: reference point and
    spacing are floating-point values that a grid shares with its subgrids.
    [numCells(i) = hi_i - lo_i], [numVertices(i) = hi_i - lo_i + 1], and
    [subGrid] takes the bounds of the subgrid relative to the lower extents
    of the grid. *)
Record Grid : Type := mkGrid {
  extentX : Z * Z;
  extentY : Z * Z;
  extentZ : Z * Z
}.

Definition getExtent (g : Grid) (i : nat) : Z * Z :=
  match i with
  | O => extentX g
  | S O => extentY g
  | _ => extentZ g
  end.

Definition numCells (g : Grid) (i : nat) : Z :=
  snd (getExtent g i) - fst (getExtent g i).

Definition numVertices (g : Grid) (i : nat) : Z := numCells g i + 1.

Definition subGrid (g : Grid) (x0 x1 y0 y1 z0 z1 : Z) : Grid :=
  mkGrid (fst (extentX g) + x0, fst (extentX g) + x1)
         (fst (extentY g) + y0, fst (extentY g) + y1)
         (fst (extentZ g) + z0, fst (extentZ g) + z1).

End Grids.

(* ===================================================================== *)
(** * workers.cpp: the copy worker and the device worker group *)
(* ===================================================================== *)

Module Workers.
Import Machine Grids.

(** [DeviceWorkerGroup::SubItem]; the chunk id plays no part here and is
    kept as a number. *)
Record SubItem : Type := mkSubItem {
  chunkId : Z;
  grid : Grid;
  numSplats : Z;
  firstSplat : Z;
  progressSplats : Z
}.

(** The total of [numSplats] over a list of SubItems. *)
Definition totalSplats (subItems : list SubItem) : Z :=
  fold_right (fun sub acc => numSplats sub + acc) 0 subItems.

Section Copy.

(** [Splat] is declared in splat.h; a position is three finite floats, and
    every finite float is a rational. *)
Variable Splat : Type.
Variable position : Splat -> nat -> Q.

(** [CopyGroupBase::WorkItem]: [getSplats()] points at [numSplats] splats. *)
Record WorkItem : Type := mkWorkItem {
  work_chunkId : Z;
  work_grid : Grid;
  work_numSplats : Z;
  work_splats : list Splat
}.

(** The test [p >= e.first && p < e.second] on axis [j]: [p] is a [float]
    and the extents are [int], so each extent is converted to [float] and
    the two floats are compared. *)
Definition inside_axis (g : Grid) (s : Splat) (j : nat) : bool :=
  let e := getExtent g j in
  let p := position s j in
  Qle_bool (inject_Z (float_of_int (fst e))) p
  && negb (Qle_bool (inject_Z (float_of_int (snd e))) p).

(** The loop [for (int j = 0; j < 3; j++)] that computes [inside]. *)
Definition inside (g : Grid) (s : Splat) : bool :=
  fold_left (fun (acc : bool) (j : nat) => acc && inside_axis g s j)
            [0%nat; 1%nat; 2%nat] true.

(** The loop over the splats of the work item: it counts the splats inside
    the grid and copies them to the pinned buffer at [out]. [fuel] is the
    number of turns, [numSplats]. *)
Fixpoint copy_splats (fuel : nat) (g : Grid) (input : list Splat)
    (progress : Z) (out : list Splat) : Z * list Splat :=
  match fuel with
  | O => (progress, out)
  | S fuel' =>
      match input with
      | [] => (progress, out)     (* reading past the splats of the item *)
      | s :: rest =>
          copy_splats fuel' g rest
                      (progress + (if inside g s then 1 else 0))
                      (out ++ [s])
      end
  end.

(** The state of the one copy worker: the SubItems and the number of splats
    buffered in pinned memory. *)
Record CopyWorker : Type := mkCopyWorker {
  pinned : list Splat;
  bufferedItems : list SubItem;
  bufferedSplats : Z
}.

(** A device worker group: [unallocated_], the number of items in
    [itemPool], and for each item handed out the SubItems it holds that no
    worker has completed yet. *)
Record DeviceWorkerGroup : Type := mkGroup {
  unallocated_ : Z;
  itemPool : nat;
  inFlight : list (list SubItem)
}.

(** The constructor: [numWorkers + spare] items, and
    [unallocated_ = maxItemSplats * items] in [std::size_t]. *)
Definition newGroup (numWorkers spare maxItemSplats : Z) : DeviceWorkerGroup :=
  mkGroup (u64 (maxItemSplats * (numWorkers + spare)))
          (Z.to_nat (numWorkers + spare)) [].

(** [DeviceWorkerGroup::canGet]. *)
Definition canGet (g : DeviceWorkerGroup) : bool :=
  negb (Nat.eqb (itemPool g) 0).

(** The loop of [flush] over [owner.outGroups] that chooses the device
    group: [best] and [outGroup], which is [NULL] or points at the group of
    some index. *)
Fixpoint pick_from (i : nat) (outGroups : list DeviceWorkerGroup) (best : Z)
    (outGroup : option nat) : option nat :=
  match outGroups with
  | [] => outGroup
  | g :: rest =>
      if canGet g then
        let u := unallocated_ g in
        if best <=? u then pick_from (S i) rest u (Some i)
        else pick_from (S i) rest best outGroup
      else pick_from (S i) rest best outGroup
  end.

(** One turn of the loop [while (true)] of [flush]: the group chosen, or
    [None] when the worker has to wait on [popCondition]. *)
Definition pick_group (outGroups : list DeviceWorkerGroup) : option nat :=
  pick_from 0 outGroups 0 None.

(** [DeviceWorkerGroup::get], followed by what [flush] does with the item:
    the buffered SubItems are swapped into it and it is pushed to the
    workers. [itemPool.pop()] blocks on an empty pool; [flush] only calls
    [get] on a group that can deliver. *)
Definition get (g : DeviceWorkerGroup) (n : Z) (subItems : list SubItem)
    : DeviceWorkerGroup :=
  mkGroup (u64 (unallocated_ g - n)) (pred (itemPool g))
          (inFlight g ++ [subItems]).

(** [CopyGroupBase::Worker::flush] towards the device group [g]: [None]
    while the worker waits on [popCondition]. *)
Definition flush (c : CopyWorker) (g : DeviceWorkerGroup)
    : option (CopyWorker * DeviceWorkerGroup) :=
  match bufferedItems c with
  | [] => Some (c, g)
  | _ :: _ =>
      if canGet g then
        Some (mkCopyWorker (pinned c) [] 0,
              get g (bufferedSplats c) (bufferedItems c))
      else None
  end.

(** The SubItem that [operator()] appends for a work item, and the pinned
    buffer after the copy. *)
Definition copy_item (c : CopyWorker) (work : WorkItem) : SubItem * list Splat :=
  let (progress, out) :=
    copy_splats (Z.to_nat (work_numSplats work)) (work_grid work)
                (work_splats work) 0
                (take (Z.to_nat (bufferedSplats c)) (pinned c)) in
  (mkSubItem (work_chunkId work) (work_grid work) (work_numSplats work)
             (bufferedSplats c) progress, out).

(** [CopyGroupBase::Worker::operator()]. *)
Definition copy_operator (maxDeviceItemSplats : Z) (c : CopyWorker)
    (g : DeviceWorkerGroup) (work : WorkItem)
    : option (CopyWorker * DeviceWorkerGroup) :=
  match
    (if maxDeviceItemSplats <? u64 (bufferedSplats c + work_numSplats work)
     then flush c g else Some (c, g))
  with
  | None => None
  | Some (c, g) =>
      let (subItem, out) := copy_item c work in
      Some (mkCopyWorker out (bufferedItems c ++ [subItem])
                         (u64 (bufferedSplats c + work_numSplats work)), g)
  end.

(** A device worker completes the first SubItem of the [k]-th item in
    flight: [unallocated_ += sub.numSplats]. *)
Definition complete (g : DeviceWorkerGroup) (k : nat) : option DeviceWorkerGroup :=
  match inFlight g !! k with
  | Some (sub :: rest) =>
      Some (mkGroup (u64 (unallocated_ g + numSplats sub)) (itemPool g)
                    (<[k := rest]> (inFlight g)))
  | _ => None
  end.

(** [DeviceWorkerGroup::freeItem]: an item all of whose SubItems are
    completed goes back to the pool. *)
Definition freeItem (g : DeviceWorkerGroup) (k : nat) : option DeviceWorkerGroup :=
  match inFlight g !! k with
  | Some [] =>
      Some (mkGroup (unallocated_ g) (S (itemPool g)) (delete k (inFlight g)))
  | _ => None
  end.

(** The steps of the copy worker and of the device workers. The work items
    that reach the copy worker are buckets: they hold at most
    [maxDeviceItemSplats] splats. *)
Inductive step (maxDeviceItemSplats : Z)
  : CopyWorker * DeviceWorkerGroup -> CopyWorker * DeviceWorkerGroup -> Prop :=
| step_copy c g work c' g' :
    0 <= work_numSplats work <= maxDeviceItemSplats ->
    copy_operator maxDeviceItemSplats c g work = Some (c', g') ->
    step maxDeviceItemSplats (c, g) (c', g')
| step_flush c g c' g' :
    flush c g = Some (c', g') ->
    step maxDeviceItemSplats (c, g) (c', g')
| step_complete c g k g' :
    complete g k = Some g' ->
    step maxDeviceItemSplats (c, g) (c, g')
| step_free c g k g' :
    freeItem g k = Some g' ->
    step maxDeviceItemSplats (c, g) (c, g').

Inductive reachable (numWorkers spare maxItemSplats : Z)
  : CopyWorker * DeviceWorkerGroup -> Prop :=
| reachable_init pinnedBuffer :
    reachable numWorkers spare maxItemSplats
              (mkCopyWorker pinnedBuffer [] 0,
               newGroup numWorkers spare maxItemSplats)
| reachable_step s s' :
    reachable numWorkers spare maxItemSplats s ->
    step maxItemSplats s s' ->
    reachable numWorkers spare maxItemSplats s'.

(** The splats in flight to the device: those of the SubItems handed to the
    group that no worker has completed. *)
Definition splatsInFlight (g : DeviceWorkerGroup) : Z :=
  fold_right (fun item acc => totalSplats item + acc) 0 (inFlight g).

(** The splats of a work item: the [numSplats] splats at [getSplats()]. *)
Definition item_splats (work : WorkItem) : list Splat :=
  take (Z.to_nat (work_numSplats work)) (work_splats work).

(** Modelled from the spec: the worker loop of [WorkerGroup], which pops
    the work items from the work queue and invokes [operator()] on each, one
    after the other. The result holds the SubItem that each call appended to
    [bufferedItems], in the order of the calls, and the state at the end; it
    is [None] when a flush has to wait. *)
Fixpoint process (maxDeviceItemSplats : Z) (items : list WorkItem)
    (c : CopyWorker) (g : DeviceWorkerGroup)
    : option (list SubItem * (CopyWorker * DeviceWorkerGroup)) :=
  match items with
  | [] => Some ([], (c, g))
  | work :: rest =>
      match copy_operator maxDeviceItemSplats c g work with
      | None => None
      | Some (c', g') =>
          match process maxDeviceItemSplats rest c' g' with
          | None => None
          | Some (subs, st) =>
              Some (option_list (last (bufferedItems c')) ++ subs, st)
          end
      end
  end.

End Copy.

End Workers.

(* ===================================================================== *)
(** * splat_tree.cpp: building the octree of a splat tree *)
(* ===================================================================== *)

Module SplatTreeInit.
Import Machine Outcome SplatTree Grids.

(** [command_type]: commands and start values are 32-bit signed integers. *)
Definition command (x : Z) : Z := s32 x.

(** The transient [Entry] of the construction. *)
Record Entry : Type := mkEntry {
  entry_level : Z;
  entry_code : Z;
  entry_splatId : Z
}.

(** [Entry::operator<]: by level, then by decreasing code. *)
Definition entry_lt (a e : Entry) : bool :=
  if negb (entry_level a =? entry_level e)
  then entry_level a <? entry_level e
  else entry_code e <? entry_code a.

(** [stable_sort(entries.begin(), entries.end())]. A stable sort is
    determined by the order; it is written here as a stable insertion sort:
    an entry is put in front of the first sorted entry that is not less than
    it. *)
Fixpoint insert_entry (e : Entry) (sorted : list Entry) : list Entry :=
  match sorted with
  | [] => [e]
  | x :: rest => if entry_lt x e then x :: insert_entry e rest
                 else e :: x :: rest
  end.

Definition stable_sort (entries : list Entry) : list Entry :=
  fold_right insert_entry [] entries.

(** [while ((1U << maxLevel) < size) maxLevel++]. *)
Fixpoint maxLevel_loop (fuel : nat) (size maxLevel : Z) : outcome Z :=
  if u32 (Z.shiftl 1 maxLevel) <? size then
    match fuel with
    | O => OutOfFuel
    | S fuel' => maxLevel_loop fuel' size (u32 (maxLevel + 1))
    end
  else Ok maxLevel.

(** [while ((ihi[i] >> shift) - (ilo[i] >> shift) > 1) shift++]. *)
Fixpoint shift_loop (fuel : nat) (lo hi shift : Z) : outcome Z :=
  if 1 <? s32 (Z.shiftr hi shift - Z.shiftr lo shift) then
    match fuel with
    | O => OutOfFuel
    | S fuel' => shift_loop fuel' lo hi (u32 (shift + 1))
    end
  else Ok shift.

(** The values [lo], [lo + 1], ..., [hi] of a loop
    [for (unsigned int v = lo; v <= hi; v++)]. *)
Definition from_to (lo hi : Z) : list Z :=
  map (fun k => lo + Z.of_nat k) (seq 0 (Z.to_nat (hi - lo + 1))).

(** The three nested loops over [z], [y] and [x], [x] running fastest. *)
Definition cells (lo hi : nat -> Z) : list (Z * Z * Z) :=
  flat_map (fun z =>
    flat_map (fun y =>
      map (fun x => (x, y, z)) (from_to (lo 0%nat) (hi 0%nat)))
      (from_to (lo 1%nat) (hi 1%nat)))
    (from_to (lo 2%nat) (hi 2%nat)).

(** [e.code = makeCode(x, y, z); entries.push_back(e)] over the cells. *)
Fixpoint push_cells (level splatId : Z) (todo : list (Z * Z * Z))
    (entries : list Entry) : outcome (list Entry) :=
  match todo with
  | [] => Ok entries
  | (x, y, z) :: rest =>
      let! c := makeCode x y z in
      push_cells level splatId rest (entries ++ [mkEntry level c splatId])
  end.

(** [numCommands]: one command for each entry, one for the first sort key
    and one for each change of sort key. *)
Fixpoint key_changes (entries : list Entry) : Z :=
  match entries with
  | a :: (b :: _) as rest =>
      (if negb (entry_level b =? entry_level a) || negb (entry_code b =? entry_code a)
       then 1 else 0) + key_changes rest
  | _ => 0
  end.

Definition numCommands (entries : list Entry) : Z :=
  u64 (u64 (Z.of_nat (length entries) + 1) + key_changes entries).

(** The state of the loop that builds the command list: the [start] array,
    the commands written so far (they are written at [curCommand++], from
    0), [curCommand] and [p]. *)
Record build : Type := mkBuild {
  start : list Z;
  commands : list Z;
  curCommand : Z;
  next_entry : nat
}.

(** What [initialize] leaves: [numLevels], the commands, the size asked of
    [allocateCommands], the [start] array indexed by code, and the values
    transferred to the backing store for the vertices [(x, y, z)] in the
    order of the transfer. *)
Record tree : Type := mkTree {
  numLevels : Z;
  tree_commands : list Z;
  tree_numCommands : Z;
  tree_start : list Z;
  realStart : list (Z * Z * Z * Z)
}.

(** The transfer [realStart[...] = start[makeCode(x, y, z)]]. *)
Fixpoint transfer (st : list Z) (todo : list (Z * Z * Z))
    (real : list (Z * Z * Z * Z)) : outcome (list (Z * Z * Z * Z)) :=
  match todo with
  | [] => Ok real
  | (x, y, z) :: rest =>
      let! c := makeCode x y z in
      transfer st rest (real ++ [(x, y, z, nth (Z.to_nat c) st 0)])
  end.

(** The constructor [SplatTree::SplatTree]. *)
Definition SplatTree_new {Splat : Type} (splats : list Splat) : outcome unit :=
  mlsgpu_assert (Z.of_nat (length splats) <? INT32_MAX / 16) LengthError.

Section Build.

(** [Splat] is declared in splat.h and the conversion of a world position to
    vertex coordinates in grid.h; of a splat the construction uses
    [ilo[i] = RoundUp::convert(vlo[i])] and
    [ihi[i] = RoundDown::convert(vhi[i])], the integer bounds of its
    influence box on axis [i]. *)
Variable Splat : Type.
Variables ilo_of ihi_of : Splat -> nat -> Z.

(** Whether [assert] is compiled in. *)
Variable assertions : bool.

(** The loop that delimits the entries of a cell reads [entries[q]] with
    [q = entries.size()] once the last entry is passed; [stray] is what it
    finds there. *)
Variable stray : Entry.

(** The body of the loop over the axes: the two range checks and the
    coarsening of [shift]. *)
Definition axis_shift (fuel : nat) (dims : nat -> Z) (s : Splat) (shift : Z)
    (i : nat) : outcome Z :=
  let ilo := ilo_of s i in
  let ihi := ihi_of s i in
  let! _ := mlsgpu_assert ((0 <=? ihi) && (ihi <? s32 (dims i))) OutOfRange in
  let! _ := mlsgpu_assert ((0 <=? ilo) && (ilo <? s32 (dims i))) OutOfRange in
  shift_loop fuel ilo ihi shift.

(** The entries of one splat, pushed to [entries]. *)
Definition splat_entries (fuel : nat) (dims : nat -> Z) (maxLevel numLevels : Z)
    (splatId : Z) (s : Splat) (entries : list Entry) : outcome (list Entry) :=
  let! s0 := axis_shift fuel dims s 0 0%nat in
  let! s1 := axis_shift fuel dims s s0 1%nat in
  let! shift := axis_shift fuel dims s s1 2%nat in
  let! _ := Blob.c_assert assertions (shift <? numLevels) in
  let lo i := Z.shiftr (ilo_of s i) shift in
  let hi i := Z.shiftr (ihi_of s i) shift in
  let level := u32 (maxLevel - shift) in
  push_cells level (command splatId) (cells lo hi) entries.

(** The loop over the splats. *)
Fixpoint all_entries (fuel : nat) (dims : nat -> Z) (maxLevel numLevels : Z)
    (splatId : Z) (splats : list Splat) (entries : list Entry)
    : outcome (list Entry) :=
  match splats with
  | [] => Ok entries
  | s :: rest =>
      let! entries' :=
        splat_entries fuel dims maxLevel numLevels splatId s entries in
      all_entries fuel dims maxLevel numLevels (splatId + 1) rest entries'
  end.

(** [while (entries[q].level == level && entries[q].code == code) q++]. *)
Fixpoint scan (fuel : nat) (entries : list Entry) (level code : Z) (q : nat)
    : outcome nat :=
  let e := nth q entries stray in
  if (entry_level e =? level) && (entry_code e =? code) then
    match fuel with
    | O => OutOfFuel
    | S fuel' => scan fuel' entries level code (S q)
    end
  else Ok q.

(** The body of the loop over the codes of a level. The index [code >> 3]
    is below the size of [start]. *)
Definition build_cell (fuel : nat) (entries : list Entry) (level code : Z)
    (st : build) : outcome build :=
  let p := next_entry st in
  let! q := scan fuel entries level code p in
  let up := nth (Z.to_nat (Z.shiftr code 3)) (start st) 0 in
  if (p <? q)%nat then
    let ids := map (fun i => entry_splatId (nth (p + i) entries stray))
                   (seq 0 (q - p)) in
    let last := if up =? -1 then -1 else command (-2 - up) in
    Ok (mkBuild (<[Z.to_nat code := curCommand st]> (start st))
                (commands st ++ ids ++ [last])
                (command (curCommand st + Z.of_nat (q - p) + 1))
                q)
  else
    Ok (mkBuild (<[Z.to_nat code := up]> (start st))
                (commands st) (curCommand st) p).

(** The loop over the codes [n - 1], ..., [0] of a level. *)
Fixpoint build_codes (fuel : nat) (entries : list Entry) (level : Z) (n : nat)
    (st : build) : outcome build :=
  match n with
  | O => Ok st
  | S n' =>
      let! st' := build_cell fuel entries level (Z.of_nat n') st in
      build_codes fuel entries level n' st'
  end.

(** The loop over the levels. *)
Fixpoint build_levels (fuel : nat) (entries : list Entry) (levels : list Z)
    (st : build) : outcome build :=
  match levels with
  | [] => Ok st
  | level :: rest =>
      let! st' :=
        build_codes fuel entries level
                    (Z.to_nat (code (Z.shiftl 1 (3 * level)))) st in
      build_levels fuel entries rest st'
  end.

(** [SplatTree::initialize]. *)
Definition initialize (fuel : nat) (g : Grid) (splats : list Splat)
    : outcome tree :=
  let dims i := code (numVertices g i) in
  let size := Z.max (Z.max (dims 0%nat) (dims 1%nat)) (dims 2%nat) in
  let! maxLevel := maxLevel_loop fuel size 0 in
  let levels := u32 (maxLevel + 1) in
  let! entries := all_entries fuel dims maxLevel levels 0 splats [] in
  let entries := stable_sort entries in
  let first := replicate (Z.to_nat (code (Z.shiftl 1 (3 * maxLevel)))) (-1) in
  let! st := build_levels fuel entries (from_to 0 (levels - 1))
                          (mkBuild first [] 0 0) in
  let! real := transfer (start st)
                        (cells (fun _ => 0) (fun i => dims i - 1)) [] in
  Ok (mkTree levels (commands st) (numCommands entries) (start st) real).

End Build.

End SplatTreeInit.

(* ===================================================================== *)
(** * bucket.cpp: the bucket recursion *)
(* ===================================================================== *)

Module Bucketing.
Import Machine Outcome Bucket Grids.

(** [SplatRangeCounter]. *)
Record SplatRangeCounter : Type := mkCounter {
  ranges : Z;
  splats : Z;
  current : SplatRange
}.

Definition newCounter : SplatRangeCounter := mkCounter 0 0 emptyRange.

(** [SplatRangeCounter::append]. *)
Definition counter_append (c : SplatRangeCounter) (sc splat : Z)
    : SplatRangeCounter :=
  let n := u64 (splats c + 1) in
  if ranges c =? 0 then mkCounter (u64 (ranges c + 1)) n (singleRange sc splat)
  else
    let (ok, r) := append (current c) sc splat in
    if ok then mkCounter (ranges c) n r
    else mkCounter (u64 (ranges c + 1)) n (singleRange sc splat).

(** [mulSat] and [divUp] on [std::size_t]; [divUp] divides by [b]. *)
Definition mulSat (a b : Z) : Z :=
  if (a =? 0) || (b <=? UINT64_MAX / a) then u64 (a * b) else UINT64_MAX.

Definition divUp (a b : Z) : outcome Z :=
  if b =? 0 then Throw DivisionByZero else Ok (u64 (a + b - 1) / b).

(** [Cell]: a cube of side [2 ^ level] cells. *)
Record Cell : Type := mkCell {
  base : Z * Z * Z;
  level : nat
}.

Definition axis (v : Z * Z * Z) (i : nat) : Z :=
  match i with
  | O => fst (fst v)
  | S O => snd (fst v)
  | _ => snd v
  end.

Definition side (c : Cell) : Z := u64 (Z.shiftl 1 (Z.of_nat (level c))).

(** Modelled from the spec: [Grid::getVertex] of grid.h, which is not among
    the sources: coordinate [i] of the vertex [x] of a grid, in units of the
    spacing from the reference point, which a grid shares with its
    subgrids. *)
Definition getVertex (g : Grid) (x : Z) (i : nat) : Q :=
  inject_Z (fst (getExtent g i) + x).

(** [std::size_t(-1)], the block id of a cell that is not picked. *)
Definition BAD_BLOCK : Z := UINT64_MAX.

(** [BucketState::CellState]. *)
Record CellState : Type := mkCellState {
  counter : SplatRangeCounter;
  blockId : Z
}.

Definition newCellState : CellState := mkCellState newCounter BAD_BLOCK.

(** Modelled from the spec: [SplatRangeCollector] of bucket_internal.h,
    which is not among the sources: it "writes coalesced ranges to a
    random-access sink". [pos] is the output iterator, an index into the
    buffer of ranges; [append] extends the current range or writes it out
    and starts a new one; [flush] writes out a current range that is not
    empty. *)
Record Collector : Type := mkCollector {
  pos : Z;
  cur : SplatRange
}.

Definition collector_append (c : Collector) (buffer : list SplatRange)
    (sc splat : Z) : Collector * list SplatRange :=
  let (ok, r) := append (cur c) sc splat in
  if ok then (mkCollector (pos c) r, buffer)
  else (mkCollector (u64 (pos c + 1)) (singleRange sc splat),
        <[Z.to_nat (pos c) := cur c]> buffer).

Definition collector_flush (c : Collector) (buffer : list SplatRange)
    : list SplatRange :=
  if 0 <? size (cur c) then <[Z.to_nat (pos c) := cur c]> buffer else buffer.

(** [BucketState], with [childRanges], the local buffer of [bucketRecurse]
    that the collectors write to. The arrays [cellStates[level](coords)] are
    kept as a map from [(level, coords)]; a cell that was never written is
    in its initial state. *)
Record BucketState : Type := mkState {
  dims : Z * Z * Z;
  microShift : nat;
  macroLevels : nat;
  cellStates : gmap (nat * (Z * Z * Z)) CellState;
  picked : list Cell;
  pickedOffset : list Z;
  nextOffset : Z;
  childCur : list Collector;
  childRanges : list SplatRange
}.

Definition cell_key (st : BucketState) (c : Cell) : nat * (Z * Z * Z) :=
  let sh := Z.of_nat (level c) in
  ((level c - microShift st)%nat,
   (Z.shiftr (axis (base c) 0) sh, Z.shiftr (axis (base c) 1) sh,
    Z.shiftr (axis (base c) 2) sh)).

(** [BucketState::getCellState], and the assignment through the reference
    it returns. *)
Definition getCellState (st : BucketState) (c : Cell) : CellState :=
  default newCellState (cellStates st !! cell_key st c).

Definition setCellState (st : BucketState) (c : Cell) (cs : CellState)
    : BucketState :=
  mkState (dims st) (microShift st) (macroLevels st)
          (<[cell_key st c := cs]> (cellStates st))
          (picked st) (pickedOffset st) (nextOffset st) (childCur st)
          (childRanges st).

Section Traversal.

Context {S : Type}.
Variable assertions : bool.

(** [forEachCell_r]: [func] returns whether to visit the children. *)
Fixpoint forEachCell_r (func : Cell -> S -> outcome (bool * S))
    (d : Z * Z * Z) (lvl : nat) (b : Z * Z * Z) (st : S) : outcome S :=
  let! (go, st1) := func (mkCell b lvl) st in
  if go then
    match lvl with
    | O => Ok st1
    | Datatypes.S lvl' =>
        let half := u64 (Z.shiftl 1 (Z.of_nat lvl')) in
        fold_left
          (fun acc i =>
             let! st' := acc in
             let b' :=
               (u64 (axis b 0 + (if Nat.testbit i 0 then half else 0)),
                u64 (axis b 1 + (if Nat.testbit i 1 then half else 0)),
                u64 (axis b 2 + (if Nat.testbit i 2 then half else 0))) in
             if (axis b' 0 <? axis d 0) && (axis b' 1 <? axis d 1)
                && (axis b' 2 <? axis d 2)
             then forEachCell_r func d lvl' b' st'
             else Ok st')
          (seq 0 8) (Ok st1)
    end
  else Ok st1.

(** [forEachCell]. *)
Definition forEachCell (d : Z * Z * Z) (levels : nat)
    (func : Cell -> S -> outcome (bool * S)) (st : S) : outcome S :=
  let! _ := Blob.c_assert assertions (1 <=? Z.of_nat levels) in
  let lvl := Nat.pred levels in
  let top := u64 (Z.shiftl 1 (Z.of_nat lvl)) in
  let! _ := Blob.c_assert assertions (axis d 0 <=? top) in
  let! _ := Blob.c_assert assertions (axis d 1 <=? top) in
  let! _ := Blob.c_assert assertions (axis d 2 <=? top) in
  forEachCell_r func d lvl (0, 0, 0) st.

End Traversal.

Section Recursion.

(** [Splat] is declared in splat.h; [box s i] is the interval
    [[position[i] - radius, position[i] + radius]] of the splat on axis
    [i], in the units of [getVertex], taken as rationals. *)
Variable Splat : Type.
Variable box : Splat -> nat -> Q * Q.

(** Whether [assert] is compiled in. *)
Variable assertions : bool.

(** [BucketParameters]: the input files, each the list of its vertices, and
    the three limits. *)
Variable files : list (list Splat).
Variables maxSplats maxCells maxSplit : Z.

Definition Qlt_bool (a b : Q) : bool := negb (Qle_bool b a).

(** [splatCellIntersect]: the test of the bounding boxes. *)
Definition splatCellIntersect (s : Splat) (c : Cell) (g : Grid) : bool :=
  forallb
    (fun i =>
       let lo := getVertex g (axis (base c) i) i in
       let hi := getVertex g (u64 (axis (base c) i + side c)) i in
       negb (Qlt_bool (snd (box s i)) lo || Qlt_bool hi (fst (box s i))))
    [0%nat; 1%nat; 2%nat].

(** [forEachSplat]: [func] is called on the splats of the ranges in order.
    Modelled from the spec: [FastPly::Reader::readVertices] of fast_ply.h,
    which is not among the sources, raises [std::out_of_range] for a vertex
    that the file does not hold. *)
Definition forEachSplat {S : Type} (first_last : list SplatRange)
    (func : Z -> Z -> Splat -> S -> outcome S) (st : S) : outcome S :=
  fold_left
    (fun acc r =>
       fold_left
         (fun acc j =>
            let! st' := acc in
            let id := u64 (start r + Z.of_nat j) in
            match files !! Z.to_nat (scan r) with
            | Some file =>
                match file !! Z.to_nat id with
                | Some s => func (scan r) id s st'
                | None => Throw OutOfRange
                end
            | None => Throw OutOfRange
            end)
         (seq 0 (Z.to_nat (size r))) acc)
    first_last (Ok st).

(** [CountSplat::CountOneSplat::operator()]. *)
Definition CountOneSplat (g : Grid) (sc id : Z) (s : Splat) (c : Cell)
    (st : BucketState) : outcome (bool * BucketState) :=
  let! _ := Blob.c_assert assertions (microShift st <=? level c)%nat in
  if negb (splatCellIntersect s c g) then Ok (false, st)
  else
    let cs := getCellState st c in
    let st' := setCellState st c
                 (mkCellState (counter_append (counter cs) sc id) (blockId cs)) in
    Ok ((microShift st <? level c)%nat, st').

(** [CountSplat::operator()]. *)
Definition CountSplat (g : Grid) (sc id : Z) (s : Splat) (st : BucketState)
    : outcome BucketState :=
  forEachCell assertions (dims st) (microShift st + macroLevels st)
              (CountOneSplat g sc id s) st.

(** [PickCells::operator()]. *)
Definition PickCells (c : Cell) (st : BucketState)
    : outcome (bool * BucketState) :=
  let cs := getCellState st c in
  if splats (counter cs) =? 0 then Ok (false, st)
  else if (level c =? microShift st)%nat
          || ((side c <=? maxCells) && (splats (counter cs) <=? maxSplats))
  then
    let st1 := setCellState st c
                 (mkCellState (counter cs) (Z.of_nat (length (picked st)))) in
    Ok (false,
        mkState (dims st1) (microShift st1) (macroLevels st1) (cellStates st1)
                (picked st1 ++ [c]) (pickedOffset st1 ++ [nextOffset st1])
                (u64 (nextOffset st1 + ranges (counter cs)))
                (childCur st1) (childRanges st1))
  else Ok (true, st).

(** [BucketSplats::BucketOneSplat::operator()]. *)
Definition BucketOneSplat (g : Grid) (sc id : Z) (s : Splat) (c : Cell)
    (st : BucketState) : outcome (bool * BucketState) :=
  let! _ := Blob.c_assert assertions (microShift st <=? level c)%nat in
  if negb (splatCellIntersect s c g) then Ok (false, st)
  else
    let cs := getCellState st c in
    if blockId cs =? BAD_BLOCK then Ok (true, st)
    else
      let! _ := Blob.c_assert assertions
                  (blockId cs <? Z.of_nat (length (childCur st))) in
      let k := Z.to_nat (blockId cs) in
      match childCur st !! k with
      | Some col =>
          let (col', buffer) := collector_append col (childRanges st) sc id in
          Ok (false,
              mkState (dims st) (microShift st) (macroLevels st) (cellStates st)
                      (picked st) (pickedOffset st) (nextOffset st)
                      (<[k := col']> (childCur st)) buffer)
      | None => Ok (false, st)
      end.

(** [BucketSplats::operator()]. *)
Definition BucketSplats (g : Grid) (sc id : Z) (s : Splat) (st : BucketState)
    : outcome BucketState :=
  forEachCell assertions (dims st) (microShift st + macroLevels st)
              (BucketOneSplat g sc id s) st.

(** The loop [do ... while (microBlocks > params.maxSplit)]. *)
Fixpoint micro_loop (fuel : nat) (d : Z * Z * Z) (microSize : Z)
    (shift : nat) : outcome (Z * nat) :=
  match fuel with
  | O => OutOfFuel
  | S fuel' =>
      let microSize' := u64 (microSize * 2) in
      let! b0 := divUp (axis d 0) microSize' in
      let! b1 := divUp (axis d 1) microSize' in
      let! b2 := divUp (axis d 2) microSize' in
      let microBlocks := mulSat (mulSat (mulSat 1 b0) b1) b2 in
      if maxSplit <? microBlocks then micro_loop fuel' d microSize' (S shift)
      else Ok (microSize', S shift)
  end.

(** The loop [while (microSize << (macroLevels - 1) < maxDim)]. *)
Fixpoint macro_loop (fuel : nat) (microSize maxDim : Z) (levels : nat)
    : outcome nat :=
  if u64 (Z.shiftl microSize (Z.of_nat levels - 1)) <? maxDim then
    match fuel with
    | O => OutOfFuel
    | S fuel' => macro_loop fuel' microSize maxDim (S levels)
    end
  else Ok levels.

(** A call of the processing function, and the arguments of a recursive
    call: the number of splats, the ranges and the grid. *)
Record Call : Type := mkCall {
  call_numSplats : Z;
  call_ranges : list SplatRange;
  call_grid : Grid
}.

Definition cell_dims (g : Grid) : Z * Z * Z :=
  (u64 (numCells g 0), u64 (numCells g 1), u64 (numCells g 2)).

Definition maxDim (d : Z * Z * Z) : Z :=
  Z.max (Z.max (axis d 0) (axis d 1)) (axis d 2).

(** The [else] branch of [bucketRecurse] up to the recursive calls: it
    returns their arguments, in order. *)
Definition bucketSplit (loops : nat) (first_last : list SplatRange) (g : Grid)
    : outcome (list Call) :=
  let d := cell_dims g in
  let! (microSize, shift) := micro_loop loops d 1 0 in
  let! levels := macro_loop loops microSize (maxDim d) 1 in
  let st0 := mkState d shift levels ∅ [] [] 0 [] [] in
  let! st1 := forEachSplat first_last (CountSplat g) st0 in
  let! st2 := forEachCell assertions (dims st1)
                          (microShift st1 + macroLevels st1) PickCells st1 in
  let offsets := pickedOffset st2 ++ [nextOffset st2] in
  let numPicked := length (picked st2) in
  let st3 :=
    mkState (dims st2) (microShift st2) (macroLevels st2) (cellStates st2)
            (picked st2) offsets (nextOffset st2)
            (map (fun i => mkCollector (nth i offsets 0) emptyRange)
                 (seq 0 numPicked))
            (replicate (Z.to_nat (nextOffset st2)) emptyRange) in
  let! st4 := forEachSplat first_last (BucketSplats g) st3 in
  let buffer :=
    fold_left (fun buf col => collector_flush col buf)
              (childCur st4) (childRanges st4) in
  Ok (map
        (fun i =>
           let cell := nth i (picked st4) (mkCell (0, 0, 0) 0) in
           let b := base cell in
           let from := Z.to_nat (nth i offsets 0) in
           let to := Z.to_nat (nth (S i) offsets 0) in
           mkCall (splats (counter (getCellState st4 cell)))
                  (take (to - from) (drop from buffer))
                  (subGrid g (axis b 0) (u64 (axis b 0 + side cell))
                             (axis b 1) (u64 (axis b 1 + side cell))
                             (axis b 2) (u64 (axis b 2 + side cell))))
        (seq 0 numPicked)).

(** [bucketRecurse]: [log] holds the calls of [params.process] made so far;
    [depth] bounds the depth of the recursion and [loops] the turns of the
    two loops that choose the microblocks. *)
Fixpoint bucketRecurse (depth loops : nat) (first_last : list SplatRange)
    (numSplats : Z) (g : Grid) (log : list Call) : list Call * outcome unit :=
  match depth with
  | O => (log, OutOfFuel)
  | S depth' =>
      if (numSplats <=? maxSplats) && (maxDim (cell_dims g) <=? maxCells) then
        (log ++ [mkCall numSplats first_last g], Ok tt)
      else
        match bucketSplit loops first_last g with
        | Ok children =>
            (fix each (todo : list Call) (log : list Call) :=
               match todo with
               | [] => (log, Ok tt)
               | child :: rest =>
                   match bucketRecurse depth' loops (call_ranges child)
                                       (call_numSplats child) (call_grid child)
                                       log with
                   | (log', Ok _) => each rest log'
                   | stopped => stopped
                   end
               end) children log
        | Throw e => (log, Throw e)
        | OutOfFuel => (log, OutOfFuel)
        end
  end.

(** [makeRoot]: the ranges of a file of [vertices] vertices, from [first]
    on, in pieces of at most [2 ^ 32 - 1]. A piece holds at least one
    vertex, so one turn for each vertex is enough. *)
Fixpoint file_ranges (fuel : nat) (i vertices first : Z) : list SplatRange :=
  match fuel with
  | O => []
  | S fuel' =>
      if first <? vertices then
        let n := if vertices <? u64 (first + SIZE_MAX)
                 then u32 (vertices - first) else SIZE_MAX in
        mkRange i n first :: file_ranges fuel' i vertices (u64 (first + n))
      else []
  end.

Definition makeRoot : Z * list SplatRange :=
  (fold_left (fun n file => u64 (n + Z.of_nat (length file))) files 0,
   concat (imap (fun i file =>
                   let vertices := Z.of_nat (length file) in
                   file_ranges (S (length file)) (Z.of_nat i) vertices 0)
                files)).

(** [bucket]. *)
Definition bucket (depth loops : nat) (bbox : Grid) : list Call * outcome unit :=
  let (numSplats, root) := makeRoot in
  bucketRecurse depth loops root numSplats bbox [].

End Recursion.

End Bucketing.

(* ===================================================================== *)
(** * splat_set_impl.h: the blobs of a buffer of splats *)
(* ===================================================================== *)

Module BlobCompute.
Import Machine Outcome Blob.

(** [operator==] of [boost::array]. *)
Definition array3_eqb (a b : array3) : bool :=
  (ax a =? ax b) && (ay a =? ay b) && (az a =? az b).

(** The bounds [tid * nBuffer / nThreads] and
    [(tid + 1) * nBuffer / nThreads] of the subblock of thread [tid]: [tid]
    and [nThreads] are [int], [nBuffer] is [std::size_t], and the
    arithmetic is done in [std::size_t]. *)
Definition sub_first (tid nBuffer nThreads : Z) : Z :=
  u64 (u64 tid * nBuffer) / u64 nThreads.

Definition sub_last (tid nBuffer nThreads : Z) : Z :=
  u64 (u64 (s32 (tid + 1)) * nBuffer) / u64 nThreads.

(** The subblock of thread [tid] of a buffer. *)
Definition subblock {A : Type} (buffer : list A) (tid nThreads : Z) : list A :=
  let nBuffer := Z.of_nat (length buffer) in
  let first := sub_first tid nBuffer nThreads in
  let last := sub_last tid nBuffer nThreads in
  take (Z.to_nat (last - first)) (drop (Z.to_nat first) buffer).

(** The locals of the loop over a subblock: [threadBlobData], [prevBlob],
    [curBlob] (when [haveCurBlob]) and [threadBlobs]. *)
Record thread : Type := mkThread {
  threadBlobData : list Z;
  thread_prevBlob : BlobInfo;
  thread_curBlob : option BlobInfo;
  threadBlobs : Z
}.

Section Thread.

Variable assertions : bool.

(** The blob of one splat: [toBuckets] gives its [lower] and [upper], and
    its id is [bufferIds[i]]. The conversion of a splat to buckets is done
    in floating point; a splat is given here by what it yields. *)
Definition splat_blob (x : array3 * array3 * Z) : BlobInfo :=
  mkBlob (snd x) (u64 (snd x + 1)) (fst (fst x)) (snd (fst x)).

(** The body of the loop over the splats of a subblock. *)
Definition thread_step (st : thread) (x : array3 * array3 * Z)
    : outcome thread :=
  let blob := splat_blob x in
  match thread_curBlob st with
  | None =>
      Ok (mkThread (threadBlobData st) (thread_prevBlob st) (Some blob)
                   (threadBlobs st))
  | Some cur =>
      if array3_eqb (lower cur) (lower blob)
         && array3_eqb (upper cur) (upper blob)
         && (lastSplat cur =? firstSplat blob)
      then
        Ok (mkThread (threadBlobData st) (thread_prevBlob st)
                     (Some (mkBlob (firstSplat cur) (u64 (lastSplat cur + 1))
                                   (lower cur) (upper cur)))
                     (threadBlobs st))
      else
        let! data := addBlob assertions (threadBlobData st)
                             (thread_prevBlob st) cur in
        Ok (mkThread data cur (Some blob) (u64 (threadBlobs st + 1)))
  end.

Fixpoint thread_loop (st : thread) (todo : list (array3 * array3 * Z))
    : outcome thread :=
  match todo with
  | [] => Ok st
  | x :: rest =>
      let! st := thread_step st x in
      thread_loop st rest
  end.

(** The blobs of a subblock: the words written and their number.
    [prevBlob] is not initialized before the first blob is added;
    [garbage] is what it holds. *)
Definition thread_blobs (garbage : BlobInfo)
    (todo : list (array3 * array3 * Z)) : outcome (list Z * Z) :=
  let! st := thread_loop (mkThread [] garbage None 0) todo in
  match thread_curBlob st with
  | Some cur =>
      let! data := addBlob assertions (threadBlobData st)
                           (thread_prevBlob st) cur in
      Ok (data, u64 (threadBlobs st + 1))
  | None => Ok (threadBlobData st, threadBlobs st)
  end.

(** The loop over the threads for one buffer: the subblocks are taken in
    order of [tid], and the words of each are written to the file in that
    order; [bf.nBlobs] grows by the blobs of each. *)
Definition buffer_blobs (garbage : BlobInfo) (nThreads : nat)
    (buffer : list (array3 * array3 * Z)) (out : list Z) (nBlobs : Z)
    : outcome (list Z * Z) :=
  fold_left
    (fun acc tid =>
       let! (out, nBlobs) := acc in
       let! (data, n) :=
         thread_blobs garbage
                      (subblock buffer (Z.of_nat tid) (Z.of_nat nThreads)) in
       Ok (out ++ data, u64 (nBlobs + n)))
    (seq 0 nThreads) (Ok (out, nBlobs)).

End Thread.

End BlobCompute.

(* ===================================================================== *)
(** * splat_set_impl.h: the file ranges of a reader thread *)
(* ===================================================================== *)

Module FileRanges.
Import Machine Outcome.

(** Of a [FastPly::Reader] the iterator uses [size()], the number of
    vertices of the file, and [getVertexSize()], the bytes of one vertex. *)
Record Reader : Type := mkReader {
  reader_size : Z;
  vertexSize : Z
}.

(** [FileSet::FileRange]. *)
Record FileRange : Type := mkFileRange {
  fileId : Z;
  range_start : Z;
  range_end : Z
}.

(** [FileRangeIterator]: [curRange] is the index of the current range among
    the ranges given, [lastRange] their number; [first] is a splat id. *)
Record FileRangeIterator : Type := mkIter {
  curRange : nat;
  first : Z
}.

Section Iterator.

(** [scanIdShift] and [splatIdMask] are constants of splat_set.h, which is
    not among the sources: a splat id holds the number of its file from
    bit [scanIdShift] up, and [splatIdMask] selects the index in the file. *)
Variables scanIdShift splatIdMask : Z.

(** [owner->files], the ranges [[firstRange, lastRange)] and [maxSize]. *)
Variable files : list Reader.
Variable ranges : list (Z * Z).
Variable maxSize : Z.

(** The loop [while (true)] of [refill], entered with
    [curRange != lastRange]. *)
Fixpoint refill_loop (fuel : nat) (cur : nat) (first : Z)
    : outcome FileRangeIterator :=
  match fuel with
  | O => OutOfFuel
  | S fuel' =>
      match ranges !! cur with
      | None => Ok (mkIter cur first)
      | Some r =>
          let fileId := Z.shiftr first scanIdShift in
          if (snd r <=? first) || (Z.of_nat (length files) <=? fileId) then
            match ranges !! S cur with
            | None => Ok (mkIter (S cur) 0)
            | Some r' => refill_loop fuel' (S cur) (fst r')
            end
          else
            match files !! Z.to_nat fileId with
            | None => Throw OutOfRange   (* fileId < owner->files.size() *)
            | Some f =>
                if reader_size f <=? Z.land first splatIdMask then
                  refill_loop fuel' cur
                              (u64 (Z.shiftl (u64 (fileId + 1)) scanIdShift))
                else Ok (mkIter cur first)
            end
      end
  end.

(** [FileRangeIterator::refill]. *)
Definition refill (fuel : nat) (it : FileRangeIterator)
    : outcome FileRangeIterator :=
  if (curRange it <? length ranges)%nat
  then refill_loop fuel (curRange it) (first it)
  else Ok it.

(** The constructor of an iterator at the first range. *)
Definition FileRangeIterator_new (fuel : nat) : outcome FileRangeIterator :=
  let! _ := mlsgpu_assert (0 <? maxSize) InvalidArgument in
  let first := match ranges !! 0%nat with
               | Some r => fst r
               | None => 0
               end in
  refill fuel (mkIter 0 first).

(** The constructor of the iterator at [lastRange]. *)
Definition FileRangeIterator_end : FileRangeIterator :=
  mkIter (length ranges) 0.

(** [FileRangeIterator::equal]. *)
Definition equal (a b : FileRangeIterator) : bool :=
  if (curRange a =? length ranges)%nat then (curRange b =? length ranges)%nat
  else (curRange a =? curRange b)%nat && (first a =? first b).

(** [FileRangeIterator::dereference]. The checks on [owner] hold, as every
    constructor sets it. *)
Definition dereference (assertions : bool) (it : FileRangeIterator)
    : outcome FileRange :=
  match ranges !! curRange it with
  | None => Throw StateError
  | Some r =>
      let fileId := Z.shiftr (first it) scanIdShift in
      let start := Z.land (first it) splatIdMask in
      let! _ := Blob.c_assert assertions (fileId <? Z.of_nat (length files)) in
      match files !! Z.to_nat fileId with
      | None => Throw OutOfRange   (* past the end of owner->files *)
      | Some f =>
          let end_ := reader_size f in
          let end_ :=
            if Z.shiftr (snd r) scanIdShift =? fileId
            then Z.min end_ (Z.land (snd r) splatIdMask)
            else end_ in
          let end_ :=
            if maxSize <? u64 (u64 (end_ - start) * vertexSize f)
            then
              if vertexSize f =? 0 then None
              else Some (u64 (start + maxSize / vertexSize f))
            else Some end_ in
          match end_ with
          | None => Throw DivisionByZero
          | Some e => Ok (mkFileRange fileId start e)
          end
      end
  end.

(** [FileRangeIterator::increment]. *)
Definition increment (fuel : nat) (it : FileRangeIterator)
    : outcome FileRangeIterator :=
  match ranges !! curRange it with
  | None => Throw StateError
  | Some r =>
      let fileId := Z.shiftr (first it) scanIdShift in
      match files !! Z.to_nat fileId with
      | None => Throw OutOfRange   (* past the end of owner->files *)
      | Some f =>
          if vertexSize f =? 0 then Throw DivisionByZero
          else
            let first' :=
              Z.min (u64 (first it + maxSize / vertexSize f)) (snd r) in
            refill fuel (mkIter (curRange it) first')
      end
  end.

End Iterator.

End FileRanges.

(* ===================================================================== *)
(** * The splats inside a grid, as specified *)
(* ===================================================================== *)

Module ProgressSpec.
Import Grids.

Section Inside.

Variable Splat : Type.
Variable position : Splat -> nat -> Q.

(** The position of a splat lies, on every axis, in the half-open interval
    [[extent.first, extent.second)] of the grid, in the words of the
    specification: the integer extents are compared with the position as
    the numbers they are. *)
Definition in_extents (g : Grid) (s : Splat) : bool :=
  forallb (fun j =>
             Qle_bool (inject_Z (fst (getExtent g j))) (position s j)
             && negb (Qle_bool (inject_Z (snd (getExtent g j))) (position s j)))
          [0%nat; 1%nat; 2%nat].

(** The number of splats of [l] inside [g]. *)
Definition count_in_extents (g : Grid) (l : list Splat) : Z :=
  Z.of_nat (length (List.filter (in_extents g) l)).

End Inside.

End ProgressSpec.

(* ===================================================================== *)
(** * The legality conditions of a differential record, as specified *)
(* ===================================================================== *)

Module BlobSpec.
Import Machine Blob.

(** The conditions under which a differential record is legal, in the
    words of the specification. The differences are those of the program:
    coordinates are subtracted as signed 32-bit integers and splat ids as
    unsigned 64-bit integers. *)
Definition axis_legal (prevBlob curBlob : BlobInfo) (i : nat) : Prop :=
  (s32 (get (upper curBlob) i - get (lower curBlob) i) = 0
   \/ s32 (get (upper curBlob) i - get (lower curBlob) i) = 1)
  /\ s32 (get (upper prevBlob) i - 4) <= get (lower curBlob) i
     <= s32 (get (upper prevBlob) i + 3).

Definition legal (previousRecordExists : bool) (prevBlob curBlob : BlobInfo)
    : Prop :=
  previousRecordExists = true
  /\ (forall i, (i < 3)%nat -> axis_legal prevBlob curBlob i)
  /\ u64 (lastSplat curBlob - firstSplat curBlob) < 2 ^ 19
  /\ firstSplat curBlob = lastSplat prevBlob.

(** The box of a blob is not empty: on each axis the difference
    [upper - lower], as the program computes it, is not negative. *)
Definition box_nonempty (curBlob : BlobInfo) : Prop :=
  forall i, (i < 3)%nat ->
    0 <= s32 (get (upper curBlob) i - get (lower curBlob) i).

(** Size in bytes of a run of [BlobData] words. *)
Definition record_bytes (ws : list Z) : Z := 4 * Z.of_nat (length ws).

(** A sequence of blobs is written under the legality conditions when every
    blob that [addBlob] writes as a differential record is legal. [nonempty]
    tells whether a record has been written before the first blob of the
    sequence, and [prevBlob] is the blob written last. *)
Fixpoint emitted_legally (nonempty : bool) (prevBlob : BlobInfo)
    (blobs : list BlobInfo) : Prop :=
  match blobs with
  | [] => True
  | curBlob :: rest =>
      (differential nonempty prevBlob curBlob = true ->
       legal nonempty prevBlob curBlob)
      /\ emitted_legally true curBlob rest
  end.

(** The first splat id of every blob written as a full record is below
    [2^63], so that bit 31 of the first word of the record is clear. *)
Fixpoint full_records_tagged (nonempty : bool) (prevBlob : BlobInfo)
    (blobs : list BlobInfo) : Prop :=
  match blobs with
  | [] => True
  | curBlob :: rest =>
      (differential nonempty prevBlob curBlob = false ->
       firstSplat curBlob < 2 ^ 63)
      /\ full_records_tagged true curBlob rest
  end.

End BlobSpec.

(* ===================================================================== *)
(** * Facts about machine integers *)
(* ===================================================================== *)

Module MachineFacts.
Import Machine.

Lemma u32_small x : is_u32 x -> u32 x = x.
Proof.
  unfold is_u32, UINT32_MAX, u32, to_unsigned. intros H.
  apply Z.mod_small. lia.
Qed.

Lemma u64_small x : is_u64 x -> u64 x = x.
Proof.
  unfold is_u64, UINT64_MAX, u64, to_unsigned. intros H.
  apply Z.mod_small. lia.
Qed.

Lemma u32_range x : is_u32 (u32 x).
Proof.
  unfold is_u32, UINT32_MAX, u32, to_unsigned.
  pose proof (Z.mod_pos_bound x (2 ^ 32)). lia.
Qed.

Lemma u64_range x : is_u64 (u64 x).
Proof.
  unfold is_u64, UINT64_MAX, u64, to_unsigned.
  pose proof (Z.mod_pos_bound x (2 ^ 64)). lia.
Qed.

Lemma s32_small x : is_s32 x -> s32 x = x.
Proof.
  unfold is_s32, INT32_MIN, INT32_MAX, s32, to_signed. intros H.
  change (2 ^ (32 - 1)) with 2147483648. change (2 ^ 32) with 4294967296.
  change (2 ^ 31) with 2147483648 in H.
  destruct (Z_lt_dec x 0) as [Hneg | Hpos].
  - replace (x mod 4294967296) with (x + 4294967296).
    + destruct (Z.ltb_spec (x + 4294967296) 2147483648); lia.
    + apply Z.mod_unique with (q := -1); lia.
  - rewrite Z.mod_small by lia.
    destruct (Z.ltb_spec x 2147483648); lia.
Qed.

Lemma s32_range x : is_s32 (s32 x).
Proof.
  unfold is_s32, INT32_MIN, INT32_MAX, s32, to_signed.
  change (2 ^ (32 - 1)) with 2147483648. change (2 ^ 32) with 4294967296.
  change (2 ^ 31) with 2147483648.
  pose proof (Z.mod_pos_bound x 4294967296).
  destruct (Z.ltb_spec (x mod 4294967296) 2147483648); lia.
Qed.

(** Converting a signed value to unsigned and back is the identity. *)
Lemma s32_u32 x : is_s32 x -> s32 (u32 x) = x.
Proof.
  intros H. unfold s32, to_signed, u32, to_unsigned.
  rewrite Z.mod_mod by lia.
  apply (s32_small x H).
Qed.

(** Signed addition only depends on the operands modulo [2^32]. *)
Lemma s32_mod x : s32 (x mod 2 ^ 32) = s32 x.
Proof.
  unfold s32, to_signed. rewrite Z.mod_mod by lia. reflexivity.
Qed.

End MachineFacts.

(* ===================================================================== *)
(** * Facts about bucket.cpp *)
(* ===================================================================== *)

Module BucketFacts.
Import Machine MachineFacts Bucket.

Lemma sub_u64_no_wrap a b : is_u64 a -> is_u64 b -> b <= a -> u64 (a - b) = a - b.
Proof.
  unfold is_u64, UINT64_MAX. intros Ha Hb Hle.
  apply u64_small. unfold is_u64, UINT64_MAX. lia.
Qed.

Ltac append_cases :=
  repeat split; intros;
  try discriminate; try reflexivity; try lia; try tauto;
  try (intuition (try discriminate; try lia; try congruence; fail)).

(** C5. [SplatRange::append] on a range [(scan, start, size)] returns [true]
    exactly when the range is empty, or the scans agree and the id continues
    the range: it is not before [start], there is no gap beyond
    [start + size], and extending would not overflow the size type. On
    success with [splat = start + size] the size grows by one; a splat that
    is already inside the range leaves it as it is. [false] is returned
    exactly for a scan mismatch, an id before [start], a gap beyond
    [start + size] or a size overflow, and the range is then unchanged. *)
Theorem append_spec (r : SplatRange) (sc splat : Z) :
  wf_range r -> is_u32 sc -> is_u64 splat ->
  let res := append r sc splat in
  (fst res = true <->
     size r = 0 \/
     (scan r = sc /\ start r <= splat <= start r + size r /\
      ~ (splat = start r + size r /\ size r = SIZE_MAX)))
  /\ (size r = 0 -> snd res = mkRange sc 1 splat)
  /\ (size r <> 0 -> fst res = true -> splat = start r + size r ->
      snd res = mkRange (scan r) (size r + 1) (start r))
  /\ (size r <> 0 -> fst res = true -> splat <> start r + size r ->
      snd res = r)
  /\ (fst res = false <->
      size r <> 0 /\
      (scan r <> sc \/ splat < start r \/ start r + size r < splat \/
       (splat = start r + size r /\ size r = SIZE_MAX)))
  /\ (fst res = false -> snd res = r).
Proof.
  intros (Hscan & Hsize & Hstart) Hsc Hsplat res. subst res.
  unfold append, SIZE_MAX in *. unfold is_u32 in Hsize.
  destruct (Z.eqb_spec (size r) 0) as [Hz | Hnz]; cbn [fst snd];
    [append_cases |].
  destruct (Z.eqb_spec (scan r) sc) as [Hs | Hs]; cbn [andb fst snd];
    [| append_cases].
  destruct (Z.leb_spec (start r) splat) as [Hle | Hlt]; cbn [andb fst snd];
    [| append_cases].
  rewrite (sub_u64_no_wrap splat (start r)) by assumption.
  destruct (Z.leb_spec (splat - start r) (size r)) as [Hin | Hgap];
    cbn [fst snd]; [| append_cases].
  destruct (Z.eqb_spec (splat - start r) (size r)) as [Heq | Hneq];
    [| cbn [fst snd]; append_cases].
  destruct (Z.eqb_spec (size r) UINT32_MAX) as [Hmax | Hmax]; cbn [fst snd];
    [append_cases |].
  rewrite u32_small by (unfold is_u32; lia).
  append_cases.
Qed.

Lemma append_spec_witness :
  let r := mkRange 0 3 5 in
  let res := append r 0 8 in
  (fst res = true <->
     size r = 0 \/
     (scan r = 0 /\ start r <= 8 <= start r + size r /\
      ~ (8 = start r + size r /\ size r = SIZE_MAX)))
  /\ (size r = 0 -> snd res = mkRange 0 1 8)
  /\ (size r <> 0 -> fst res = true -> 8 = start r + size r ->
      snd res = mkRange (scan r) (size r + 1) (start r))
  /\ (size r <> 0 -> fst res = true -> 8 <> start r + size r ->
      snd res = r)
  /\ (fst res = false <->
      size r <> 0 /\
      (scan r <> 0 \/ 8 < start r \/ start r + size r < 8 \/
       (8 = start r + size r /\ size r = SIZE_MAX)))
  /\ (fst res = false -> snd res = r).
Proof.
  apply (append_spec (mkRange 0 3 5) 0 8);
    unfold wf_range, is_u32, is_u64, UINT32_MAX, UINT64_MAX; simpl; lia.
Defined.

End BucketFacts.

(* ===================================================================== *)
(** * Facts about splat_tree.cpp *)
(* ===================================================================== *)

Module SplatTreeFacts.
Import Machine MachineFacts Outcome SplatTree.

Lemma land_1 x : Z.land x 1 = x mod 2.
Proof. apply (Z.land_ones x 1). lia. Qed.

Lemma digit_value x y z :
  u32 (Z.land x 1 + Z.shiftl (Z.land y 1) 1 + Z.shiftl (Z.land z 1) 2)
  = x mod 2 + 2 * (y mod 2) + 4 * (z mod 2).
Proof.
  rewrite !land_1, !Z.shiftl_mul_pow2 by lia.
  change (2 ^ 1) with 2. change (2 ^ 2) with 4.
  rewrite u32_small.
  - ring.
  - unfold is_u32, UINT32_MAX.
    pose proof (Z.mod_pos_bound x 2). pose proof (Z.mod_pos_bound y 2).
    pose proof (Z.mod_pos_bound z 2). lia.
Qed.

Lemma interleave_zero n : interleave n 0 0 0 = 0.
Proof.
  induction n as [| n IH]; cbn [interleave]; [reflexivity |].
  change (0 / 2) with 0. change (0 mod 2) with 0. rewrite IH. reflexivity.
Qed.

Lemma interleave_range n x y z :
  0 <= interleave n x y z < 8 ^ Z.of_nat n.
Proof.
  revert x y z. induction n as [| n IH]; intros x y z.
  - simpl. lia.
  - rewrite Nat2Z.inj_succ, Z.pow_succ_r by lia. cbn [interleave].
    specialize (IH (x / 2) (y / 2) (z / 2)).
    pose proof (Z.mod_pos_bound x 2). pose proof (Z.mod_pos_bound y 2).
    pose proof (Z.mod_pos_bound z 2). lia.
Qed.

(** One turn of the loop adds the digit at position [shift]. *)
Lemma loop_step_value ans d shift :
  0 <= shift -> shift + 3 <= 32 -> 0 <= ans < 2 ^ shift -> 0 <= d < 8 ->
  code (ans + u32 (Z.shiftl d shift)) = ans + d * 2 ^ shift
  /\ 0 <= ans + d * 2 ^ shift < 2 ^ (shift + 3).
Proof.
  intros Hs Hs3 Hans Hd.
  assert (Hpow : 2 ^ (shift + 3) = 8 * 2 ^ shift).
  { rewrite Z.pow_add_r by lia. change (2 ^ 3) with 8. lia. }
  assert (Hle : 2 ^ (shift + 3) <= 2 ^ 32).
  { apply Z.pow_le_mono_r; lia. }
  assert (Hdp : 0 <= d * 2 ^ shift <= 7 * 2 ^ shift) by nia.
  assert (Hbound : 0 <= ans + d * 2 ^ shift < 2 ^ (shift + 3)) by lia.
  split; [| exact Hbound].
  rewrite Z.shiftl_mul_pow2 by lia.
  rewrite (u32_small (d * 2 ^ shift)) by (unfold is_u32, UINT32_MAX; lia).
  unfold code, to_unsigned, code_digits. apply Z.mod_small. lia.
Qed.

Lemma makeCode_loop_correct n :
  forall fuel x y z shift ans,
    (n <= fuel)%nat ->
    0 <= x < 2 ^ Z.of_nat n -> 0 <= y < 2 ^ Z.of_nat n ->
    0 <= z < 2 ^ Z.of_nat n ->
    0 <= shift -> shift + 3 * Z.of_nat n <= 32 ->
    0 <= ans < 2 ^ shift ->
    exists k, 0 <= k <= Z.of_nat n /\
      makeCode_loop fuel x y z shift ans
      = Ok (shift + 3 * k, ans + 2 ^ shift * interleave n x y z).
Proof.
  induction n as [| n IH]; intros fuel x y z shift ans Hfuel Hx Hy Hz Hs Hsn Hans.
  - exists 0. split; [lia |].
    assert (x = 0 /\ y = 0 /\ z = 0) as (-> & -> & ->) by (simpl in *; lia).
    destruct fuel; simpl; repeat f_equal; lia.
  - destruct ((x =? 0) && (y =? 0) && (z =? 0)) eqn:Hzero.
    + exists 0. split; [lia |].
      apply andb_prop in Hzero as [Hxy Hz0]. apply andb_prop in Hxy as [Hx0 Hy0].
      apply Z.eqb_eq in Hx0, Hy0, Hz0. subst x y z.
      rewrite interleave_zero.
      destruct fuel; simpl; repeat f_equal; lia.
    + destruct fuel as [| fuel]; [lia |].
      cbn [makeCode_loop]. rewrite Hzero.
      rewrite digit_value.
      set (d := x mod 2 + 2 * (y mod 2) + 4 * (z mod 2)).
      assert (Hd : 0 <= d < 8).
      { subst d. pose proof (Z.mod_pos_bound x 2). pose proof (Z.mod_pos_bound y 2).
        pose proof (Z.mod_pos_bound z 2). lia. }
      rewrite Nat2Z.inj_succ in *.
      destruct (loop_step_value ans d shift) as [Hval Hrange]; try lia.
      rewrite Hval, !Z.shiftr_div_pow2 by lia. change (2 ^ 1) with 2.
      rewrite Z.pow_succ_r in Hx, Hy, Hz by lia.
      destruct (IH fuel (x / 2) (y / 2) (z / 2) (shift + 3) (ans + d * 2 ^ shift))
        as (k & Hk & Heq); try lia.
      * split; [apply Z.div_pos; lia | apply Z.div_lt_upper_bound; lia].
      * split; [apply Z.div_pos; lia | apply Z.div_lt_upper_bound; lia].
      * split; [apply Z.div_pos; lia | apply Z.div_lt_upper_bound; lia].
      * exists (k + 1). split; [lia |].
        rewrite Heq. f_equal. f_equal; [lia |].
        cbn [interleave]. fold d.
        rewrite Z.pow_add_r by lia. change (2 ^ 3) with 8. ring.
Qed.

Definition in_cube (L x y z : Z) : Prop :=
  0 <= x < 2 ^ L /\ 0 <= y < 2 ^ L /\ 0 <= z < 2 ^ L.

(** On the cube of side [2^L], with [3L] below the width of [code_type],
    [makeCode] returns the interleaving and the assertion holds. *)
Lemma makeCode_interleave L x y z :
  0 <= L -> 3 * L < code_digits -> in_cube L x y z ->
  makeCode x y z = Ok (interleave (Z.to_nat L) x y z).
Proof.
  unfold code_digits, in_cube. intros HL H3 (Hx & Hy & Hz).
  unfold makeCode, code_digits.
  destruct (makeCode_loop_correct (Z.to_nat L) (Z.to_nat 32) x y z 0 0)
    as (k & Hk & Heq); rewrite ?Z2Nat.id by lia; try lia.
  rewrite Heq. cbn [bind].
  destruct (Z.ltb_spec (0 + 3 * k) 32); [| lia].
  cbn. f_equal. lia.
Qed.

Lemma b2z_inj a b : Z.b2z a = Z.b2z b -> a = b.
Proof. destruct a, b; simpl; intros H; congruence. Qed.

(** The three low bits of a code are its digit; the higher bits are the bits
    of the code of the halved coordinates. *)
Lemma testbit_digit d q :
  0 <= d < 8 ->
  Z.testbit (d + 8 * q) 0 = Z.odd d
  /\ Z.testbit (d + 8 * q) 1 = Z.odd (d / 2)
  /\ Z.testbit (d + 8 * q) 2 = Z.odd (d / 4)
  /\ forall m, 0 <= m -> Z.testbit (d + 8 * q) (m + 3) = Z.testbit q m.
Proof.
  intros Hd.
  assert (Hsh : Z.shiftr (d + 8 * q) 3 = q).
  { rewrite Z.shiftr_div_pow2 by lia. change (2 ^ 3) with 8.
    Z.div_mod_to_equations. lia. }
  repeat split.
  - rewrite Z.bit0_odd. rewrite Z.odd_add_mul_even.
    + reflexivity.
    + exists 4. lia.
  - apply b2z_inj. rewrite Z.testbit_spec' by lia.
    rewrite <- Z.bit0_odd, Z.testbit_spec' by lia.
    change (2 ^ 1) with 2. change (2 ^ 0) with 1.
    Z.div_mod_to_equations. lia.
  - apply b2z_inj. rewrite Z.testbit_spec' by lia.
    rewrite <- Z.bit0_odd, Z.testbit_spec' by lia.
    change (2 ^ 2) with 4. change (2 ^ 0) with 1.
    Z.div_mod_to_equations. lia.
  - intros m Hm. rewrite <- Hsh at 2. rewrite Z.shiftr_spec by lia. reflexivity.
Qed.

Lemma testbit_half x i : 0 <= i -> Z.testbit x (i + 1) = Z.testbit (x / 2) i.
Proof.
  intros Hi. change 2 with (2 ^ 1). rewrite <- Z.shiftr_div_pow2 by lia.
  rewrite Z.shiftr_spec by lia. reflexivity.
Qed.

Lemma odd_digit_bits a b c :
  0 <= a < 2 -> 0 <= b < 2 -> 0 <= c < 2 ->
  Z.odd (a + 2 * b + 4 * c) = Z.odd a
  /\ Z.odd ((a + 2 * b + 4 * c) / 2) = Z.odd b
  /\ Z.odd ((a + 2 * b + 4 * c) / 4) = Z.odd c.
Proof.
  intros Ha Hb Hc.
  assert (a = 0 \/ a = 1) as [-> | ->] by lia;
    assert (b = 0 \/ b = 1) as [-> | ->] by lia;
    assert (c = 0 \/ c = 1) as [-> | ->] by lia;
    repeat split; reflexivity.
Qed.

Lemma odd_mod2 x : Z.odd (x mod 2) = Z.testbit x 0.
Proof.
  rewrite Z.bit0_odd. rewrite Zodd_mod. rewrite Zodd_mod.
  rewrite Z.mod_mod by lia. reflexivity.
Qed.

(** Bit [i] of [x], [y] and [z] is bit [3i], [3i+1] and [3i+2] of the code:
    [x] is in the low position of each group of three and [z] in the high
    position. *)
Lemma interleave_testbit n :
  forall x y z i,
    0 <= x < 2 ^ Z.of_nat n -> 0 <= y < 2 ^ Z.of_nat n ->
    0 <= z < 2 ^ Z.of_nat n -> 0 <= i ->
    Z.testbit (interleave n x y z) (3 * i) = Z.testbit x i
    /\ Z.testbit (interleave n x y z) (3 * i + 1) = Z.testbit y i
    /\ Z.testbit (interleave n x y z) (3 * i + 2) = Z.testbit z i.
Proof.
  induction n as [| n IH]; intros x y z i Hx Hy Hz Hi.
  - assert (x = 0 /\ y = 0 /\ z = 0) as (-> & -> & ->) by (simpl in *; lia).
    cbn [interleave]. rewrite !Z.bits_0. auto.
  - rewrite Nat2Z.inj_succ, Z.pow_succ_r in Hx, Hy, Hz by lia.
    cbn [interleave].
    set (d := x mod 2 + 2 * (y mod 2) + 4 * (z mod 2)).
    set (q := interleave n (x / 2) (y / 2) (z / 2)).
    pose proof (Z.mod_pos_bound x 2 ltac:(lia)) as Hxm.
    pose proof (Z.mod_pos_bound y 2 ltac:(lia)) as Hym.
    pose proof (Z.mod_pos_bound z 2 ltac:(lia)) as Hzm.
    destruct (testbit_digit d q ltac:(subst d; lia)) as (H0 & H1 & H2 & Hhigh).
    destruct (odd_digit_bits (x mod 2) (y mod 2) (z mod 2) Hxm Hym Hzm)
      as (Ha & Hb & Hc).
    fold d in Ha, Hb, Hc.
    destruct (Z.eq_dec i 0) as [-> | Hne].
    + change (3 * 0) with 0. change (0 + 1) with 1. change (0 + 2) with 2.
      rewrite H0, H1, H2, Ha, Hb, Hc, !odd_mod2. auto.
    + destruct (IH (x / 2) (y / 2) (z / 2) (i - 1)) as (I0 & I1 & I2);
        try lia;
        try (split; [apply Z.div_pos; lia | apply Z.div_lt_upper_bound; lia]).
      fold q in I0, I1, I2.
      replace (3 * i) with (3 * (i - 1) + 3) by lia.
      replace (3 * (i - 1) + 3 + 1) with (3 * (i - 1) + 1 + 3) by lia.
      replace (3 * (i - 1) + 3 + 2) with (3 * (i - 1) + 2 + 3) by lia.
      rewrite !Hhigh by lia.
      replace i with ((i - 1) + 1) at 2 4 6 by lia.
      rewrite (testbit_half x), (testbit_half y), (testbit_half z) by lia.
      auto.
Qed.

Lemma half_range x n :
  0 <= x < 2 * 2 ^ n -> 0 <= x / 2 < 2 ^ n.
Proof.
  intros H. split; [apply Z.div_pos; lia | apply Z.div_lt_upper_bound; lia].
Qed.

Lemma interleave_inj n :
  forall x y z x' y' z',
    0 <= x < 2 ^ Z.of_nat n -> 0 <= y < 2 ^ Z.of_nat n ->
    0 <= z < 2 ^ Z.of_nat n ->
    0 <= x' < 2 ^ Z.of_nat n -> 0 <= y' < 2 ^ Z.of_nat n ->
    0 <= z' < 2 ^ Z.of_nat n ->
    interleave n x y z = interleave n x' y' z' ->
    x = x' /\ y = y' /\ z = z'.
Proof.
  induction n as [| n IH]; intros x y z x' y' z' Hx Hy Hz Hx' Hy' Hz' Heq.
  - simpl in *. lia.
  - rewrite Nat2Z.inj_succ, Z.pow_succ_r in Hx, Hy, Hz, Hx', Hy', Hz' by lia.
    cbn [interleave] in Heq.
    pose proof (Z.mod_pos_bound x 2 ltac:(lia)).
    pose proof (Z.mod_pos_bound y 2 ltac:(lia)).
    pose proof (Z.mod_pos_bound z 2 ltac:(lia)).
    pose proof (Z.mod_pos_bound x' 2 ltac:(lia)).
    pose proof (Z.mod_pos_bound y' 2 ltac:(lia)).
    pose proof (Z.mod_pos_bound z' 2 ltac:(lia)).
    assert (Hq : interleave n (x / 2) (y / 2) (z / 2)
                 = interleave n (x' / 2) (y' / 2) (z' / 2)) by lia.
    apply IH in Hq; auto using half_range.
    destruct Hq as (Q1 & Q2 & Q3).
    pose proof (Z.div_mod x 2 ltac:(lia)). pose proof (Z.div_mod x' 2 ltac:(lia)).
    pose proof (Z.div_mod y 2 ltac:(lia)). pose proof (Z.div_mod y' 2 ltac:(lia)).
    pose proof (Z.div_mod z 2 ltac:(lia)). pose proof (Z.div_mod z' 2 ltac:(lia)).
    lia.
Qed.

Lemma interleave_surj n :
  forall c, 0 <= c < 8 ^ Z.of_nat n ->
    exists x y z,
      (0 <= x < 2 ^ Z.of_nat n /\ 0 <= y < 2 ^ Z.of_nat n
       /\ 0 <= z < 2 ^ Z.of_nat n)
      /\ interleave n x y z = c.
Proof.
  induction n as [| n IH]; intros c Hc.
  - exists 0, 0, 0. simpl in *. lia.
  - rewrite Nat2Z.inj_succ, Z.pow_succ_r in Hc by lia.
    destruct (IH (c / 8)) as (x & y & z & (Hx & Hy & Hz) & Heq).
    { split; [apply Z.div_pos; lia | apply Z.div_lt_upper_bound; lia]. }
    exists (2 * x + (c mod 8) mod 2), (2 * y + (c mod 8 / 2) mod 2),
      (2 * z + (c mod 8 / 4) mod 2).
    rewrite Nat2Z.inj_succ, !Z.pow_succ_r by lia.
    pose proof (Z.mod_pos_bound (c mod 8) 2 ltac:(lia)).
    pose proof (Z.mod_pos_bound (c mod 8 / 2) 2 ltac:(lia)).
    pose proof (Z.mod_pos_bound (c mod 8 / 4) 2 ltac:(lia)).
    split; [lia |].
    cbn [interleave].
    replace ((2 * x + (c mod 8) mod 2) / 2) with x
      by (Z.div_mod_to_equations; lia).
    replace ((2 * y + (c mod 8 / 2) mod 2) / 2) with y
      by (Z.div_mod_to_equations; lia).
    replace ((2 * z + (c mod 8 / 4) mod 2) / 2) with z
      by (Z.div_mod_to_equations; lia).
    rewrite Heq.
    Z.div_mod_to_equations. lia.
Qed.

Lemma pow2_3L L : 0 <= L -> 2 ^ (3 * L) = 8 ^ Z.of_nat (Z.to_nat L).
Proof.
  intros HL. rewrite Z2Nat.id by lia.
  rewrite Z.pow_mul_r by lia. reflexivity.
Qed.

(** C4. On the cube [[0, 2^L)^3], with [3L] below the bit width of
    [code_type], [makeCode] returns a code below [2^(3L)] whose bits
    interleave those of the coordinates ([x] lowest in each group of three,
    [z] highest); it is injective on the cube and reaches every code below
    [2^(3L)]. In particular [makeCode(2,5,3) = 174], [makeCode(7,7,7) = 511]
    and [makeCode(0,0,0) = 0]. *)
Theorem makeCode_bijection (L : Z) :
  0 <= L -> 3 * L < code_digits ->
  (forall x y z, in_cube L x y z ->
     exists c, makeCode x y z = Ok c /\ 0 <= c < 2 ^ (3 * L) /\
       forall i, 0 <= i ->
         Z.testbit c (3 * i) = Z.testbit x i
         /\ Z.testbit c (3 * i + 1) = Z.testbit y i
         /\ Z.testbit c (3 * i + 2) = Z.testbit z i)
  /\ (forall x y z x' y' z',
        in_cube L x y z -> in_cube L x' y' z' ->
        makeCode x y z = makeCode x' y' z' ->
        x = x' /\ y = y' /\ z = z')
  /\ (forall c, 0 <= c < 2 ^ (3 * L) ->
        exists x y z, in_cube L x y z /\ makeCode x y z = Ok c)
  /\ makeCode 2 5 3 = Ok 174
  /\ makeCode 7 7 7 = Ok 511
  /\ makeCode 0 0 0 = Ok 0.
Proof.
  intros HL H3.
  assert (Hn : Z.of_nat (Z.to_nat L) = L) by lia.
  refine (conj _ (conj _ (conj _ (conj _ (conj _ _))))).
  - intros x y z Hc. exists (interleave (Z.to_nat L) x y z).
    split; [apply makeCode_interleave; assumption |].
    split.
    + rewrite pow2_3L by lia. apply interleave_range.
    + intros i Hi. destruct Hc as (Hx & Hy & Hz).
      apply interleave_testbit; rewrite ?Hn; assumption.
  - intros x y z x' y' z' Hc Hc' Heq.
    rewrite (makeCode_interleave L x y z), (makeCode_interleave L x' y' z') in Heq
      by assumption.
    injection Heq as Heq.
    destruct Hc as (Hx & Hy & Hz), Hc' as (Hx' & Hy' & Hz').
    apply (interleave_inj (Z.to_nat L)) in Heq; rewrite ?Hn; assumption.
  - intros c Hc. rewrite pow2_3L in Hc by lia.
    destruct (interleave_surj (Z.to_nat L) c Hc) as (x & y & z & Hcube & Heq).
    rewrite Hn in Hcube.
    exists x, y, z. split; [exact Hcube |].
    rewrite (makeCode_interleave L x y z) by assumption. f_equal. exact Heq.
  - vm_compute. reflexivity.
  - vm_compute. reflexivity.
  - vm_compute. reflexivity.
Qed.

Lemma makeCode_bijection_witness :
  (forall x y z, in_cube 3 x y z ->
     exists c, makeCode x y z = Ok c /\ 0 <= c < 2 ^ (3 * 3) /\
       forall i, 0 <= i ->
         Z.testbit c (3 * i) = Z.testbit x i
         /\ Z.testbit c (3 * i + 1) = Z.testbit y i
         /\ Z.testbit c (3 * i + 2) = Z.testbit z i)
  /\ (forall x y z x' y' z',
        in_cube 3 x y z -> in_cube 3 x' y' z' ->
        makeCode x y z = makeCode x' y' z' ->
        x = x' /\ y = y' /\ z = z')
  /\ (forall c, 0 <= c < 2 ^ (3 * 3) ->
        exists x y z, in_cube 3 x y z /\ makeCode x y z = Ok c)
  /\ makeCode 2 5 3 = Ok 174
  /\ makeCode 7 7 7 = Ok 511
  /\ makeCode 0 0 0 = Ok 0.
Proof.
  apply (makeCode_bijection 3); unfold code_digits; lia.
Defined.

End SplatTreeFacts.

(* ===================================================================== *)
(** * Facts about splat_set_impl.h: merge *)
(* ===================================================================== *)

Module MergeFacts.
Import Outcome SplatSet.

(** The first range of [l], if any, starts after [b]. *)
Definition head_after (b : Z) (l : list range) : Prop :=
  match l with
  | r :: _ => b < fst r
  | [] => True
  end.

(** The first range of [l] exists and starts at or before [b]. *)
Definition head_reached (b : Z) (l : list range) : Prop :=
  match l with
  | r :: _ => fst r <= b
  | [] => False
  end.

Lemma covered_nil x : ~ covered [] x.
Proof. unfold covered. intros H. inversion H. Qed.

Lemma covered_cons r l x : covered (r :: l) x <-> covers r x \/ covered l x.
Proof.
  unfold covered. split.
  - intros H. inversion H; subst; auto.
  - intros [H | H]; [apply Exists_cons_hd | apply Exists_cons_tl]; assumption.
Qed.

Lemma covered_app l1 l2 x : covered (l1 ++ l2) x <-> covered l1 x \/ covered l2 x.
Proof.
  induction l1 as [| r l1 IH]; cbn [app].
  - split; [auto | intros [H | H]; [destruct (covered_nil x H) | exact H]].
  - rewrite !covered_cons, IH. tauto.
Qed.

Lemma coalesced_tail r l : coalesced (r :: l) -> coalesced l.
Proof. destruct l as [| r' l]; cbn; tauto. Qed.

Lemma coalesced_suffix c l : coalesced (c ++ l) -> coalesced l.
Proof.
  induction c as [| r c IH]; cbn [app]; [auto |].
  intros H. apply IH. eapply coalesced_tail. exact H.
Qed.

(** In a sorted list no range starts before the first one. *)
Lemma coalesced_first_le l :
  coalesced l ->
  forall lo, match l with r :: _ => lo <= fst r | [] => True end ->
  Forall (fun r => lo <= fst r) l.
Proof.
  induction l as [| r l IH]; intros Hc lo Hlo; [constructor |].
  constructor; [exact Hlo |].
  apply IH; [eapply coalesced_tail; exact Hc |].
  destruct l as [| r' l]; [exact I |].
  cbn in Hc. lia.
Qed.

(** What the inner loop establishes: it returns, having consumed a prefix
    [c1] of [p1] and a prefix [c2] of [p2]; neither remaining list starts at
    or before the new [last]; and the ids from [lo] to the new [last] are
    those up to the old [last] together with those of the consumed ranges. *)
Definition extend_post (lo last : Z) (p1 p2 : list range)
    (res : outcome (Z * list range * list range)) : Prop :=
  exists last' c1 c2 p1' p2',
    res = Ok (last', p1', p2')
    /\ p1 = c1 ++ p1' /\ p2 = c2 ++ p2'
    /\ last <= last'
    /\ head_after last' p1' /\ head_after last' p2'
    /\ (forall x, lo <= x < last' <->
                  lo <= x < last \/ covered c1 x \/ covered c2 x)
    /\ (head_reached last p1 \/ head_reached last p2 ->
        (0 < length c1 + length c2)%nat).

Lemma extend_post_stop lo last p1 p2 :
  head_after last p1 -> head_after last p2 ->
  extend_post lo last p1 p2 (Ok (last, p1, p2)).
Proof.
  intros Ha1 Ha2. exists last, [], [], p1, p2.
  split; [reflexivity |]. split; [reflexivity |]. split; [reflexivity |].
  split; [lia |]. split; [assumption |]. split; [assumption |].
  split.
  - intros x. split; [auto |].
    intros [Hx | [Hx | Hx]]; [exact Hx | |]; destruct (covered_nil _ Hx).
  - intros [Hr | Hr]; [destruct p1 | destruct p2]; cbn in *; lia.
Qed.

Lemma extend_post_left lo last r1 t1 p2 res :
  lo <= fst r1 <= last ->
  extend_post lo (Z.max last (snd r1)) t1 p2 res ->
  extend_post lo last (r1 :: t1) p2 res.
Proof.
  intros Hr1 (last' & c1 & c2 & p1' & p2' & He & -> & -> & Hle & Ha1 & Ha2 & Hcov & _).
  exists last', (r1 :: c1), c2, p1', p2'.
  split; [exact He |]. split; [reflexivity |]. split; [reflexivity |].
  split; [lia |]. split; [assumption |]. split; [assumption |].
  split.
  - intros x. rewrite covered_cons, Hcov. unfold covers.
    assert (lo <= x < Z.max last (snd r1) <->
            lo <= x < last \/ fst r1 <= x < snd r1) as -> by lia.
    tauto.
  - intros _. cbn. lia.
Qed.

Lemma extend_post_right lo last p1 r2 t2 res :
  lo <= fst r2 <= last ->
  extend_post lo (Z.max last (snd r2)) p1 t2 res ->
  extend_post lo last p1 (r2 :: t2) res.
Proof.
  intros Hr2 (last' & c1 & c2 & p1' & p2' & He & -> & -> & Hle & Ha1 & Ha2 & Hcov & _).
  exists last', c1, (r2 :: c2), p1', p2'.
  split; [exact He |]. split; [reflexivity |]. split; [reflexivity |].
  split; [lia |]. split; [assumption |]. split; [assumption |].
  split.
  - intros x. rewrite covered_cons, Hcov. unfold covers.
    assert (lo <= x < Z.max last (snd r2) <->
            lo <= x < last \/ fst r2 <= x < snd r2) as -> by lia.
    tauto.
  - intros _. cbn. lia.
Qed.

Lemma extend_spec fuel :
  forall last p1 p2 lo,
    (length p1 + length p2 < fuel)%nat ->
    lo <= last ->
    Forall (fun r => lo <= fst r) p1 ->
    Forall (fun r => lo <= fst r) p2 ->
    extend_post lo last p1 p2 (extend fuel last p1 p2).
Proof.
  induction fuel as [| fuel IH]; intros last p1 p2 lo Hfuel Hlo H1 H2; [lia |].
  cbn [extend].
  destruct p1 as [| r1 t1].
  - destruct p2 as [| r2 t2]; [apply extend_post_stop; exact I |].
    inversion H2; subst.
    destruct (Z.leb_spec (fst r2) last) as [Hr | Hr].
    + apply extend_post_right; [lia |].
      apply IH; [cbn in Hfuel |- *; lia | lia | assumption | assumption].
    + apply extend_post_stop; cbn; auto.
  - inversion H1; subst.
    destruct (Z.leb_spec (fst r1) last) as [Hr | Hr].
    + apply extend_post_left; [lia |].
      apply IH; [cbn in Hfuel |- *; lia | lia | assumption | assumption].
    + destruct p2 as [| r2 t2]; [apply extend_post_stop; cbn; auto |].
      inversion H2; subst.
      destruct (Z.leb_spec (fst r2) last) as [Hr' | Hr'].
      * apply extend_post_right; [lia |].
        apply IH; [cbn in Hfuel |- *; lia | lia | assumption | assumption].
      * apply extend_post_stop; cbn; auto.
Qed.

Lemma coalesced_cons r l :
  coalesced l -> head_after (snd r) l ->
  match l with r' :: _ => fst r <= fst r' | [] => True end ->
  coalesced (r :: l).
Proof.
  destruct l as [| r' l]; cbn; auto.
Qed.

(** The outer loop, for lists that are sorted and coalesced. *)
Lemma merge_loop_spec fuel :
  forall p1 p2,
    (length p1 + length p2 <= fuel)%nat ->
    coalesced p1 -> coalesced p2 ->
    exists out,
      merge_loop fuel p1 p2 = Ok out
      /\ coalesced out
      /\ (forall b, head_after b p1 -> head_after b p2 -> head_after b out)
      /\ (forall x, covered out x <-> covered p1 x \/ covered p2 x).
Proof.
  induction fuel as [| fuel IH]; intros p1 p2 Hfuel Hc1 Hc2.
  - destruct p1; [| cbn in Hfuel; lia]. destruct p2; [| cbn in Hfuel; lia].
    exists []. cbn. repeat split; auto; tauto.
  - destruct p1 as [| r1 t1].
    { exists p2. cbn. split; [reflexivity |]. split; [assumption |].
      split; [auto |]. intros x. split; [auto |].
      intros [H | H]; [destruct (covered_nil _ H) | exact H]. }
    destruct p2 as [| r2 t2].
    { exists (r1 :: t1). cbn [merge_loop]. rewrite app_nil_r.
      split; [reflexivity |]. split; [assumption |].
      split; [auto |]. intros x. split; [auto |].
      intros [H | H]; [exact H | destruct (covered_nil _ H)]. }
    cbn [merge_loop].
    remember (Z.min (fst r1) (fst r2)) as first eqn:Hfirst.
    destruct (extend_spec (S (length (r1 :: t1) + length (r2 :: t2)))
                first (r1 :: t1) (r2 :: t2) first)
      as (last & c1 & c2 & p1' & p2' & He & E1 & E2 & Hle & Ha1 & Ha2 & Hcov & Hpos).
    { lia. }
    { lia. }
    { apply coalesced_first_le; [assumption | lia]. }
    { apply coalesced_first_le; [assumption | lia]. }
    rewrite He. cbn [bind].
    assert (Hlen : (length (r1 :: t1) + length (r2 :: t2)
                    = length c1 + length c2 + (length p1' + length p2'))%nat).
    { rewrite E1, E2, !length_app. lia. }
    assert (Hcons : (0 < length c1 + length c2)%nat).
    { apply Hpos. cbn. lia. }
    destruct (IH p1' p2') as (rest & Hr & Hcr & Hhead & Hcovr).
    { lia. }
    { apply (coalesced_suffix c1). rewrite <- E1. assumption. }
    { apply (coalesced_suffix c2). rewrite <- E2. assumption. }
    rewrite Hr. cbn [bind].
    exists ((first, last) :: rest).
    split; [reflexivity |].
    split.
    { apply coalesced_cons; [assumption | apply Hhead; assumption |].
      specialize (Hhead last Ha1 Ha2).
      destruct rest as [| r' rest]; [exact I |]. cbn in Hhead |- *. lia. }
    split.
    { intros b Hb1 Hb2. cbn in Hb1, Hb2 |- *. lia. }
    intros x. rewrite covered_cons, Hcovr, E1, E2, !covered_app.
    unfold covers. cbn [fst snd].
    specialize (Hcov x).
    assert (~ first <= x < first) by lia. tauto.
Qed.

(** C10. For two lists of half-open ranges, each sorted by first endpoint
    and maximally coalesced, [merge] returns a list that is sorted by first
    endpoint and maximally coalesced (each range ends strictly before the
    next one starts) and that covers exactly the ids covered by either
    input. *)
Theorem merge_coalesces (l1 l2 : list range) :
  coalesced l1 -> coalesced l2 ->
  exists out,
    merge l1 l2 = Ok out
    /\ coalesced out
    /\ (forall x, covered out x <-> covered l1 x \/ covered l2 x).
Proof.
  intros H1 H2. unfold merge.
  destruct (merge_loop_spec (length l1 + length l2) l1 l2) as
    (out & He & Hc & _ & Hcov); [lia | assumption | assumption |].
  exists out. auto.
Qed.

Lemma merge_coalesces_witness :
  exists out,
    merge [(0, 3); (10, 12)] [(2, 5); (6, 7); (20, 21)] = Ok out
    /\ coalesced out
    /\ (forall x, covered out x <->
                  covered [(0, 3); (10, 12)] x
                  \/ covered [(2, 5); (6, 7); (20, 21)] x).
Proof.
  apply (merge_coalesces [(0, 3); (10, 12)] [(2, 5); (6, 7); (20, 21)]);
    cbn; lia.
Defined.

End MergeFacts.

(* ===================================================================== *)
(** * Facts about splat_set_impl.h: reading a splat stream *)
(* ===================================================================== *)

Module StreamFacts.
Import Outcome SplatSet.

Section Read.

Variable Splat : Type.
Variable isFinite : Splat -> bool.

(** The splats [new] and ids [newIds] that a loop appends to the buffers:
    finite splats of the owner, each at the position its id names. *)
Definition appended (owner : list Splat) (splats splats' : list Splat)
    (ids ids' : list Z) (n : Z) : Prop :=
  exists new newIds,
    splats' = splats ++ new /\ ids' = ids ++ newIds
    /\ Z.of_nat (length new) = n
    /\ Forall (fun s => isFinite s = true) new
    /\ Forall2 (fun s i => owner !! Z.to_nat i = Some s) new newIds.

Lemma appended_refl owner splats ids : appended owner splats splats ids ids 0.
Proof.
  exists [], []. rewrite !app_nil_r.
  split; [reflexivity |]. split; [reflexivity |]. split; [cbn; lia |].
  split; constructor.
Qed.

Lemma appended_trans owner s0 s1 s2 i0 i1 i2 n m :
  appended owner s0 s1 i0 i1 n -> appended owner s1 s2 i1 i2 m ->
  appended owner s0 s2 i0 i2 (n + m).
Proof.
  intros (a & ai & -> & -> & Hn & Hf & Ho) (b & bi & -> & -> & Hm & Hg & Hp).
  exists (a ++ b), (ai ++ bi). rewrite <- !app_assoc.
  split; [reflexivity |]. split; [reflexivity |].
  split; [rewrite length_app; lia |].
  split; [apply Forall_app; auto | apply Forall2_app; auto].
Qed.

Lemma appended_one owner splats ids x c :
  0 <= c -> owner !! Z.to_nat c = Some x -> isFinite x = true ->
  appended owner splats (splats ++ [x]) ids (ids ++ [c]) 1.
Proof.
  intros Hc Hx Hf. exists [x], [c].
  split; [reflexivity |]. split; [reflexivity |]. split; [cbn; lia |].
  split; repeat constructor; assumption.
Qed.

(** The inner loop returns; it stops at the end of the range or when the
    count is used up. *)
Lemma read_range_spec fuel owner endId :
  forall c count splats ids,
    0 <= c -> endId <= Z.of_nat (length owner) ->
    (Z.to_nat (endId - c) < fuel)%nat -> 0 <= count ->
    exists c' count' splats' ids',
      read_range isFinite fuel owner endId c count splats ids
      = Ok (c', count', splats', ids')
      /\ c <= c' /\ 0 <= count' <= count
      /\ (endId <= c' \/ count' = 0)
      /\ appended owner splats splats' ids ids' (count - count').
Proof.
  induction fuel as [| fuel IH]; intros c count splats ids Hc Hend Hfuel Hcount;
    [lia |].
  cbn [read_range].
  destruct (Z.ltb_spec c endId) as [Hlt | Hge]; cbn [andb].
  2:{ exists c, count, splats, ids. split; [reflexivity |].
      replace (count - count) with 0 by lia.
      repeat split; try lia; auto using appended_refl. }
  destruct (Z.ltb_spec 0 count) as [Hpos | Hzero].
  2:{ exists c, count, splats, ids. split; [reflexivity |].
      replace (count - count) with 0 by lia.
      repeat split; try lia; auto using appended_refl. }
  destruct (owner !! Z.to_nat c) as [x |] eqn:Hx.
  2:{ apply lookup_ge_None in Hx. lia. }
  destruct (isFinite x) eqn:Hfin.
  - destruct (IH (c + 1) (count - 1) (splats ++ [x]) (ids ++ [c]))
      as (c' & count' & splats' & ids' & He & Hle & Hcnt & Hexit & Happ);
      try lia.
    exists c', count', splats', ids'. split; [exact He |].
    repeat split; try lia; auto.
    replace (count - count') with (1 + (count - 1 - count')) by lia.
    eapply appended_trans;
      [apply (appended_one owner splats ids x c); assumption | exact Happ].
  - destruct (IH (c + 1) count splats ids)
      as (c' & count' & splats' & ids' & He & Hle & Hcnt & Hexit & Happ);
      try lia.
    exists c', count', splats', ids'. split; [exact He |].
    repeat split; try lia; auto.
Qed.

(** The outer loop returns; when it leaves part of the count unused, no
    range is left. *)
Lemma read_loop_spec fuel owner :
  forall st count splats ids,
    (length (ranges st) <= fuel)%nat ->
    0 <= cur st -> Forall (fun r => 0 <= fst r) (ranges st) -> 0 <= count ->
    exists res,
      read_loop isFinite fuel owner st count splats ids = Ok res
      /\ 0 <= remaining res <= count
      /\ (0 < remaining res -> ranges (position res) = [])
      /\ appended owner splats (outSplats res) ids (outIds res)
                  (count - remaining res).
Proof.
  induction fuel as [| fuel IH]; intros [c rs] count splats ids Hfuel Hc Hrs Hcount;
    cbn [ranges cur] in *.
  - destruct rs; [| cbn in Hfuel; lia].
    exists (mkReading splats ids (mkStream c []) count). cbn.
    replace (count - count) with 0 by lia.
    repeat split; try lia; auto using appended_refl.
  - cbn [read_loop ranges cur].
    destruct rs as [| r rest].
    { exists (mkReading splats ids (mkStream c []) count). cbn.
      replace (count - count) with 0 by lia.
      repeat split; try lia; auto using appended_refl. }
    destruct (Z.ltb_spec 0 count) as [Hpos | Hzero].
    2:{ exists (mkReading splats ids (mkStream c (r :: rest)) count). cbn.
        replace (count - count) with 0 by lia.
        repeat split; try lia; auto using appended_refl. }
    set (endId := if Z.of_nat (length owner) <? snd r
                  then Z.of_nat (length owner) else snd r).
    assert (Hend : endId <= Z.of_nat (length owner)).
    { subst endId. destruct (Z.ltb_spec (Z.of_nat (length owner)) (snd r)); lia. }
    destruct (read_range_spec (S (Z.to_nat (endId - c))) owner endId
                c count splats ids)
      as (c' & count' & splats' & ids' & He & Hle & Hcnt & Hexit & Happ);
      try lia.
    rewrite He. cbn [bind].
    inversion Hrs as [| ? ? Hr Hrest]; subst.
    destruct (Z.leb_spec endId c') as [Hdone | Hmore].
    + destruct (IH (mkStream (match rest with r' :: _ => fst r' | [] => c' end) rest)
                  count' splats' ids')
        as (res & Hres & Hrem & Hempty & Happ'); cbn [ranges cur].
      * cbn in Hfuel. lia.
      * destruct rest as [| r' rest']; [lia |]. inversion Hrest; subst. lia.
      * assumption.
      * lia.
      * exists res. split; [exact Hres |].
        split; [lia |]. split; [assumption |].
        replace (count - remaining res)
          with ((count - count') + (count' - remaining res)) by lia.
        eapply appended_trans; eassumption.
    + assert (count' = 0) as -> by lia.
      exists (mkReading splats' ids' (mkStream c' (r :: rest)) 0).
      split.
      { destruct fuel; reflexivity. }
      cbn. split; [lia |]. split; [lia |].
      replace (count - 0) with (count - 0) by lia. assumption.
Qed.

(** C6. A call [read(splats, splatIds, count)] returns; the returned count
    is at most [count] and is the number of splats written; every splat
    written is finite and is the element of the underlying sequence that
    its id names; and a returned count below [count] leaves the stream at
    the end of its ranges. *)
Theorem read_spec (owner : list Splat) (st : stream) (count : Z) (wantIds : bool) :
  0 <= count -> 0 <= cur st ->
  Forall (fun r => 0 <= fst r) (ranges st) ->
  exists actual res,
    read isFinite owner st count wantIds = Ok (actual, res)
    /\ 0 <= actual <= count
    /\ actual = Z.of_nat (length (outSplats res))
    /\ Forall (fun s => isFinite s = true) (outSplats res)
    /\ (actual < count -> ranges (position res) = [])
    /\ (wantIds = true ->
        Forall2 (fun s i => owner !! Z.to_nat i = Some s)
                (outSplats res) (outIds res)).
Proof.
  intros Hcount Hcur Hrs. unfold read.
  destruct (read_loop_spec (length (ranges st)) owner st count [] [])
    as (res & He & Hrem & Hempty & (new & newIds & Hs & Hi & Hlen & Hfin & Hown));
    try lia; try assumption.
  rewrite He. cbn [bind].
  eexists _, _. split; [reflexivity |].
  cbn [outSplats outIds position remaining].
  cbn [app] in Hs, Hi. rewrite Hs.
  split; [lia |]. split; [lia |]. split; [assumption |].
  split; [intros H; apply Hempty; lia |].
  intros ->. rewrite Hi. assumption.
Qed.

End Read.

Lemma read_spec_witness :
  exists actual res,
    read (fun s => 0 <=? s) [5; -1; 7; 8] (mkStream 0 [(0, 2); (2, 9)]) 3 true
    = Ok (actual, res)
    /\ 0 <= actual <= 3
    /\ actual = Z.of_nat (length (outSplats res))
    /\ Forall (fun s => (0 <=? s) = true) (outSplats res)
    /\ (actual < 3 -> ranges (position res) = [])
    /\ (true = true ->
        Forall2 (fun s i => [5; -1; 7; 8] !! Z.to_nat i = Some s)
                (outSplats res) (outIds res)).
Proof.
  apply (read_spec Z (fun s => 0 <=? s) [5; -1; 7; 8]
                   (mkStream 0 [(0, 2); (2, 9)]) 3 true).
  - lia.
  - cbn. lia.
  - cbn. repeat constructor; cbn; lia.
Defined.

End StreamFacts.

(* ===================================================================== *)
(** * Facts about the blob index *)
(* ===================================================================== *)

Module BlobFacts.
Import Machine MachineFacts Outcome Blob.

(** ** Bit fields as arithmetic *)

Lemma lor_disjoint a b : Z.land a b = 0 -> Z.lor a b = a + b.
Proof.
  intros H. rewrite <- Z.lxor_lor by assumption.
  symmetry. apply Z.add_nocarry_lxor. assumption.
Qed.

(** A value below [2^k] placed at bit [l] does not meet a payload whose bits
    [l .. l+k-1] are clear. *)
Lemma land_field_clear payload v l k :
  0 <= l -> 0 <= k -> 0 <= v < 2 ^ k ->
  (payload / 2 ^ l) mod 2 ^ k = 0 ->
  Z.land payload (v * 2 ^ l) = 0.
Proof.
  intros Hl Hk Hv Hclear.
  apply Z.bits_inj'. intros n Hn.
  rewrite Z.land_spec, Z.bits_0.
  destruct (Z_lt_dec n l) as [Hlow | Hhigh].
  - rewrite Z.mul_pow2_bits_low by lia. apply andb_false_r.
  - rewrite Z.mul_pow2_bits by lia.
    destruct (Z_lt_dec (n - l) k) as [Hin | Hout].
    + replace (Z.testbit payload n) with false; [reflexivity |].
      replace n with ((n - l) + l) by lia.
      rewrite <- Z.div_pow2_bits by lia.
      rewrite <- (Z.mod_pow2_bits_low _ k) by lia.
      rewrite Hclear. symmetry. apply Z.bits_0.
    + replace (Z.testbit v (n - l)) with false; [apply andb_false_r |].
      symmetry. apply Z.testbit_false; [lia |].
      rewrite Z.div_small; [reflexivity |].
      split; [lia |].
      assert (2 ^ k <= 2 ^ (n - l)) by (apply Z.pow_le_mono_r; lia). lia.
Qed.

Lemma lor_field payload v l k :
  0 <= l -> 0 <= k -> 0 <= v < 2 ^ k ->
  (payload / 2 ^ l) mod 2 ^ k = 0 ->
  Z.lor payload (v * 2 ^ l) = payload + v * 2 ^ l.
Proof.
  intros. apply lor_disjoint. apply (land_field_clear payload v l k); assumption.
Qed.

(** Reading [k] bits at bit [l]. *)
Lemma field_value w l k :
  0 <= l -> 0 <= k ->
  Z.land (Z.shiftr w l) (2 ^ k - 1) = (w / 2 ^ l) mod 2 ^ k.
Proof.
  intros Hl Hk.
  rewrite Z.shiftr_div_pow2 by lia.
  replace (2 ^ k - 1) with (Z.ones k) by (rewrite Z.ones_equiv; lia).
  apply Z.land_ones. lia.
Qed.

(** ** Signed 32-bit arithmetic *)

(** A signed value is determined by its residue modulo [2^32]. *)
Lemma s32_congr x y :
  is_s32 y -> (x - y) mod 2 ^ 32 = 0 -> s32 x = y.
Proof.
  intros Hy Hmod.
  rewrite <- (s32_small y Hy), <- (s32_mod x), <- (s32_mod y).
  f_equal.
  apply Z.mod_divide in Hmod; [| lia]. destruct Hmod as [q Hq].
  replace x with (y + q * 2 ^ 32) by lia.
  apply Z.mod_add. lia.
Qed.

(** A difference or sum of two 32-bit values wraps at most once. *)
Lemma s32_cases x :
  - 2 ^ 32 <= x < 2 ^ 32 ->
  (INT32_MIN <= x <= INT32_MAX /\ s32 x = x)
  \/ (x < INT32_MIN /\ s32 x = x + 2 ^ 32)
  \/ (INT32_MAX < x /\ s32 x = x - 2 ^ 32).
Proof.
  unfold INT32_MIN, INT32_MAX. intros Hx.
  destruct (Z_lt_dec x (- 2 ^ 31)) as [Hlo | Hlo].
  - right. left. split; [lia |].
    apply s32_congr; [unfold is_s32, INT32_MIN, INT32_MAX; lia |].
    replace (x - (x + 2 ^ 32)) with ((-1) * 2 ^ 32) by lia.
    apply Z.mod_mul. lia.
  - destruct (Z_lt_dec (2 ^ 31 - 1) x) as [Hhi | Hhi].
    + right. right. split; [lia |].
      apply s32_congr; [unfold is_s32, INT32_MIN, INT32_MAX; lia |].
      replace (x - (x - 2 ^ 32)) with (1 * 2 ^ 32) by lia.
      apply Z.mod_mul. lia.
    + left. split; [lia |]. apply s32_small. unfold is_s32, INT32_MIN, INT32_MAX. lia.
Qed.

Lemma u32_cases x :
  - 2 ^ 32 <= x < 2 ^ 32 ->
  (0 <= x /\ u32 x = x) \/ (x < 0 /\ u32 x = x + 2 ^ 32).
Proof.
  intros Hx. unfold u32, to_unsigned.
  destruct (Z_lt_dec x 0) as [Hneg | Hpos].
  - right. split; [lia |].
    symmetry. apply Z.mod_unique with (q := -1); lia.
  - left. split; [lia |]. apply Z.mod_small. lia.
Qed.

Lemma u32_s32 x : u32 (s32 x) = u32 x.
Proof.
  unfold u32, s32, to_unsigned, to_signed.
  destruct (x mod 2 ^ 32 <? 2 ^ (32 - 1)).
  - apply Z.mod_mod. lia.
  - rewrite <- (Z.mod_add (x mod 2 ^ 32 - 2 ^ 32) 1 (2 ^ 32)) by lia.
    replace (x mod 2 ^ 32 - 2 ^ 32 + 1 * 2 ^ 32) with (x mod 2 ^ 32) by lia.
    apply Z.mod_mod. lia.
Qed.

(** ** The four field functions *)

Section Fields.

Variable assertions : bool.

Lemma c_assert_true : c_assert assertions true = Ok tt.
Proof. unfold c_assert. rewrite andb_false_r. reflexivity. Qed.

Lemma field_asserts_ok l h :
  0 <= l < h -> h <= 32 -> h - l < 32 ->
  field_asserts assertions l h = Ok tt.
Proof.
  intros Hl Hh Hk. unfold field_asserts.
  destruct (Z.leb_spec 0 l); [| lia].
  destruct (Z.ltb_spec l h); [| lia].
  destruct (Z.leb_spec h 32); [| lia].
  destruct (Z.ltb_spec (h - l) 32); [| lia].
  cbn [andb]. rewrite c_assert_true. reflexivity.
Qed.

Lemma shiftl_1 k : 0 <= k < 32 -> u32 (Z.shiftl 1 k) = 2 ^ k.
Proof.
  intros Hk. rewrite Z.shiftl_mul_pow2, Z.mul_1_l by lia.
  apply u32_small. unfold is_u32, UINT32_MAX.
  assert (2 ^ k <= 2 ^ 31) by (apply Z.pow_le_mono_r; lia).
  assert (0 < 2 ^ k) by (apply Z.pow_pos_nonneg; lia).
  lia.
Qed.

Lemma pow2_split l k : 0 <= l -> 0 <= k -> 2 ^ (l + k) = 2 ^ l * 2 ^ k.
Proof. intros. apply Z.pow_add_r; assumption. Qed.

Lemma insertUnsigned_value payload v l h :
  0 <= l < h -> h <= 32 -> h - l < 32 ->
  0 <= v < 2 ^ (h - l) ->
  (payload / 2 ^ l) mod 2 ^ (h - l) = 0 ->
  insertUnsigned assertions payload v l h = Ok (payload + v * 2 ^ l).
Proof.
  intros Hl Hh Hk Hv Hclear. unfold insertUnsigned.
  rewrite field_asserts_ok by assumption. cbn [bind].
  rewrite shiftl_1 by lia.
  destruct (Z.ltb_spec v (2 ^ (h - l))); [| lia].
  rewrite c_assert_true. cbn [bind].
  rewrite Z.shiftl_mul_pow2 by lia.
  assert (Hpl : 0 < 2 ^ l) by (apply Z.pow_pos_nonneg; lia).
  assert (Hph : 2 ^ h <= 2 ^ 32) by (apply Z.pow_le_mono_r; lia).
  assert (Hsplit : 2 ^ h = 2 ^ l * 2 ^ (h - l)).
  { rewrite <- pow2_split by lia. f_equal. lia. }
  rewrite (u32_small (v * 2 ^ l)) by (unfold is_u32, UINT32_MAX; nia).
  f_equal. apply (lor_field payload v l (h - l)); try assumption; lia.
Qed.

(** A three-bit signed field. *)
Lemma insertSigned_value payload v l :
  0 <= l <= 28 -> -4 <= v <= 3 ->
  (payload / 2 ^ l) mod 2 ^ 3 = 0 ->
  insertSigned assertions payload v l (l + 3) = Ok (payload + (v mod 8) * 2 ^ l).
Proof.
  intros Hl Hv Hclear. unfold insertSigned.
  rewrite field_asserts_ok by lia. cbn [bind].
  replace (l + 3 - l) with 3 by lia.
  change (s32 (Z.shiftl 1 3)) with 8. change (u32 (Z.shiftl 1 3)) with 8.
  destruct (Z.leb_spec (Z.opp 8) v); [| lia].
  destruct (Z.ltb_spec v 8); [| lia].
  cbn [andb]. rewrite c_assert_true. cbn [bind].
  assert (Hpl : 0 < 2 ^ l) by (apply Z.pow_pos_nonneg; lia).
  assert (Hp28 : 2 ^ l <= 2 ^ 28) by (apply Z.pow_le_mono_r; lia).
  assert (Hval : (if v <? 0 then s32 (u32 (u32 v + 8)) else v) = v mod 8).
  { destruct (Z.ltb_spec v 0) as [Hneg | Hpos].
    - destruct (u32_cases v) as [[? _] | [_ ->]]; [lia | lia |].
      replace (v mod 8) with (v + 8)
        by (apply Z.mod_unique with (q := -1); lia).
      replace (u32 (v + 2 ^ 32 + 8)) with (v + 8).
      + apply s32_small. unfold is_s32, INT32_MIN, INT32_MAX. lia.
      + unfold u32, to_unsigned. apply Z.mod_unique with (q := 1); lia.
    - symmetry. apply Z.mod_small. lia. }
  rewrite Hval.
  pose proof (Z.mod_pos_bound v 8 ltac:(lia)) as Hm.
  rewrite Z.shiftl_mul_pow2 by lia.
  rewrite u32_s32.
  rewrite (u32_small (v mod 8 * 2 ^ l)) by (unfold is_u32, UINT32_MAX; nia).
  f_equal. apply (lor_field payload (v mod 8) l 3); try assumption; lia.
Qed.

Lemma extractUnsigned_value w l h :
  0 <= l < h -> h <= 32 -> h - l < 32 ->
  extractUnsigned assertions w l h = Ok ((w / 2 ^ l) mod 2 ^ (h - l)).
Proof.
  intros Hl Hh Hk. unfold extractUnsigned.
  rewrite field_asserts_ok by assumption. cbn [bind].
  rewrite shiftl_1 by lia.
  assert (Hp : 0 < 2 ^ (h - l)) by (apply Z.pow_pos_nonneg; lia).
  assert (Hp31 : 2 ^ (h - l) <= 2 ^ 31) by (apply Z.pow_le_mono_r; lia).
  rewrite (u32_small (2 ^ (h - l) - 1)) by (unfold is_u32, UINT32_MAX; lia).
  rewrite field_value by lia.
  pose proof (Z.mod_pos_bound (w / 2 ^ l) (2 ^ (h - l)) Hp).
  rewrite s32_small by (unfold is_s32, INT32_MIN, INT32_MAX; lia).
  reflexivity.
Qed.

(** The signed reading of a three-bit field. *)
Definition signed3 (f : Z) : Z := if f <? 4 then f else f - 8.

Lemma extractSigned_value w l :
  0 <= l <= 28 ->
  extractSigned assertions w l (l + 3)
  = Ok (u32 (signed3 ((w / 2 ^ l) mod 8))).
Proof.
  intros Hl. unfold extractSigned.
  rewrite extractUnsigned_value by lia. cbn [bind].
  replace (l + 3 - l) with 3 by lia.
  change (2 ^ 3) with 8. change (u32 (Z.shiftl 1 (3 - 1))) with 4.
  change (s32 (Z.shiftl 1 3)) with 8.
  pose proof (Z.mod_pos_bound (w / 2 ^ l) 8 ltac:(lia)) as Hf.
  set (f := (w / 2 ^ l) mod 8) in *.
  f_equal. f_equal.
  assert (f = 0 \/ f = 1 \/ f = 2 \/ f = 3 \/ f = 4 \/ f = 5 \/ f = 6 \/ f = 7)
    as [-> | [-> | [-> | [-> | [-> | [-> | [-> | ->]]]]]]] by lia;
    reflexivity.
Qed.

End Fields.

(** ** The test for the differential encoding *)

Import BlobSpec.

Lemma three_axes (P : nat -> Prop) :
  (forall i, (i < 3)%nat -> P i) <-> P 0%nat /\ P 1%nat /\ P 2%nat.
Proof.
  split.
  - intros H. repeat split; apply H; lia.
  - intros (H0 & H1 & H2) i Hi.
    destruct i as [| [| [| i]]]; [assumption | assumption | assumption | lia].
Qed.

Lemma axis_ok_iff prevBlob curBlob i :
  axis_ok prevBlob curBlob i = true <->
  s32 (get (upper curBlob) i - get (lower curBlob) i) <= 1
  /\ s32 (get (upper prevBlob) i - 4) <= get (lower curBlob) i
     <= s32 (get (upper prevBlob) i + 3).
Proof.
  unfold axis_ok. rewrite negb_true_iff, !orb_false_iff, !Z.ltb_ge. lia.
Qed.

(** What the code tests: as the legality conditions, but with a difference
    [upper - lower] that is at most 1 where they ask for 0 or 1. *)
Lemma differential_iff ne prevBlob curBlob :
  differential ne prevBlob curBlob = true <->
  ne = true
  /\ (forall i, (i < 3)%nat ->
        s32 (get (upper curBlob) i - get (lower curBlob) i) <= 1
        /\ s32 (get (upper prevBlob) i - 4) <= get (lower curBlob) i
           <= s32 (get (upper prevBlob) i + 3))
  /\ u64 (lastSplat curBlob - firstSplat curBlob) < 2 ^ 19
  /\ firstSplat curBlob = lastSplat prevBlob.
Proof.
  unfold differential. rewrite three_axes, <- !axis_ok_iff.
  change (u32 (Z.shiftl 1 19)) with (2 ^ 19).
  destruct ne; cbn [andb];
    [| split; [discriminate | intros (? & _); discriminate]].
  destruct (Z.eqb_spec (lastSplat prevBlob) (firstSplat curBlob)) as [He | He];
    cbn [andb]; [| split; [discriminate | intros (_ & _ & _ & ?); congruence]].
  destruct (Z.ltb_spec (u64 (lastSplat curBlob - firstSplat curBlob)) (2 ^ 19))
    as [Hc | Hc]; [| split; [discriminate | intros (_ & _ & ? & _); lia]].
  cbn [fold_left].
  destruct (axis_ok prevBlob curBlob 0), (axis_ok prevBlob curBlob 1),
    (axis_ok prevBlob curBlob 2);
    split; try discriminate; try (intros (_ & (? & ? & ?) & _); discriminate);
    intros _; repeat split; auto.
Qed.

(** For a blob whose box is not empty the test is the legality condition. *)
Lemma differential_legal ne prevBlob curBlob :
  box_nonempty curBlob ->
  (differential ne prevBlob curBlob = true <-> legal ne prevBlob curBlob).
Proof.
  intros Hbox. rewrite differential_iff. unfold legal, axis_legal.
  split; intros (Hne & Hax & Hc & Hf); repeat split; try assumption.
  - specialize (Hax i H). specialize (Hbox i H). lia.
  - specialize (Hax i H). specialize (Hbox i H). lia.
  - specialize (Hax i H). specialize (Hbox i H). lia.
  - specialize (Hax i H). lia.
  - specialize (Hax i H). lia.
  - specialize (Hax i H). lia.
Qed.

(** ** The payload of a differential record *)

(** The payload as a sum of its fields: the tag, and for each axis the
    three-bit difference [e] (already reduced modulo 8) and the size bit
    [s], then the splat count. *)
Definition pack (e0 s0 e1 s1 e2 s2 cnt : Z) : Z :=
  2147483648 + e0 + s0 * 8 + e1 * 16 + s1 * 128 + e2 * 256 + s2 * 2048
  + cnt * 4096.

Definition is_field3 (e : Z) : Prop := 0 <= e < 8.
Definition is_bit (s : Z) : Prop := 0 <= s < 2.

(** The interval test of the code implies that the difference did not wrap. *)
Lemma delta_range u l :
  is_s32 u -> is_s32 l ->
  s32 (u - 4) <= l <= s32 (u + 3) ->
  -4 <= l - u <= 3.
Proof.
  unfold is_s32, INT32_MIN, INT32_MAX. intros Hu Hl Hint.
  destruct (s32_cases (u - 4)) as [[? E1] | [[? E1] | [? E1]]]; [lia | | |];
    destruct (s32_cases (u + 3)) as [[? E2] | [[? E2] | [? E2]]]; try lia;
    unfold INT32_MIN, INT32_MAX in *; rewrite E1, E2 in Hint; lia.
Qed.

Section Payload.

Variable assertions : bool.

Lemma axis_payload_value prevBlob curBlob payload i :
  (i < 3)%nat ->
  wf_blob prevBlob -> wf_blob curBlob ->
  axis_legal prevBlob curBlob i ->
  0 <= payload ->
  (payload / 2 ^ (Z.of_nat i * 4)) mod 16 = 0 ->
  axis_payload assertions prevBlob curBlob payload i
  = Ok (payload
        + ((get (lower curBlob) i - get (upper prevBlob) i) mod 8)
          * 2 ^ (Z.of_nat i * 4)
        + s32 (get (upper curBlob) i - get (lower curBlob) i)
          * 2 ^ (Z.of_nat i * 4 + 3)).
Proof.
  intros Hi (_ & _ & _ & Hpu) (_ & _ & Hcl & _) (Hs & Hint) Hpos Hclear.
  assert (Hu : is_s32 (get (upper prevBlob) i)).
  { destruct Hpu as (? & ? & ?). destruct i as [| [| i]]; assumption. }
  assert (Hl : is_s32 (get (lower curBlob) i)).
  { destruct Hcl as (? & ? & ?). destruct i as [| [| i]]; assumption. }
  pose proof (delta_range _ _ Hu Hl Hint) as Hd.
  unfold axis_payload.
  rewrite (s32_small (get (lower curBlob) i - get (upper prevBlob) i))
    by (unfold is_s32, INT32_MIN, INT32_MAX; lia).
  set (d := get (lower curBlob) i - get (upper prevBlob) i) in *.
  set (s := s32 (get (upper curBlob) i - get (lower curBlob) i)) in *.
  pose proof (Z.mod_pos_bound d 8 ltac:(lia)) as He.
  assert (Hsb : 0 <= s < 2) by lia.
  rewrite (u32_small s) by (unfold is_u32, UINT32_MAX; lia).
  destruct i as [| [| [| i]]]; [| | | lia]; cbn [Z.of_nat Pos.of_succ_nat Pos.succ Z.mul Pos.mul Z.add Pos.add] in *.
  - rewrite insertSigned_value; [| lia | lia |].
    2:{ change (2 ^ 3) with 8. change (2 ^ 0) with 1 in *.
        Z.div_mod_to_equations. lia. }
    cbn [bind].
    rewrite insertUnsigned_value; [reflexivity | lia | lia | lia | |].
    + change (2 ^ (3 - 0)) with 8. lia.
    + change (2 ^ (3 - 0)) with 8. change (2 ^ 0) with 1 in *.
      change (2 ^ (4 - 3)) with 2. change (2 ^ 3) with 8.
      Z.div_mod_to_equations. lia.
  - rewrite insertSigned_value; [| lia | lia |].
    2:{ change (2 ^ 3) with 8. change (2 ^ 4) with 16 in *.
        Z.div_mod_to_equations. lia. }
    cbn [bind].
    rewrite insertUnsigned_value; [reflexivity | lia | lia | lia | |].
    + change (2 ^ (8 - 7)) with 2. lia.
    + change (2 ^ (8 - 7)) with 2. change (2 ^ 4) with 16 in *.
      change (2 ^ 7) with 128.
      Z.div_mod_to_equations. lia.
  - rewrite insertSigned_value; [| lia | lia |].
    2:{ change (2 ^ 3) with 8. change (2 ^ 8) with 256 in *.
        Z.div_mod_to_equations. lia. }
    cbn [bind].
    rewrite insertUnsigned_value; [reflexivity | lia | lia | lia | |].
    + change (2 ^ (12 - 11)) with 2. lia.
    + change (2 ^ (12 - 11)) with 2. change (2 ^ 8) with 256 in *.
      change (2 ^ 11) with 2048.
      Z.div_mod_to_equations. lia.
Qed.

(** The fields of the differential record that encodes [curBlob] after
    [prevBlob]. *)
Definition delta (prevBlob curBlob : BlobInfo) (i : nat) : Z :=
  (get (lower curBlob) i - get (upper prevBlob) i) mod 8.

Definition extent (curBlob : BlobInfo) (i : nat) : Z :=
  s32 (get (upper curBlob) i - get (lower curBlob) i).

Definition splat_count (curBlob : BlobInfo) : Z :=
  u64 (lastSplat curBlob - firstSplat curBlob).

Definition payload_of (prevBlob curBlob : BlobInfo) : Z :=
  pack (delta prevBlob curBlob 0) (extent curBlob 0)
       (delta prevBlob curBlob 1) (extent curBlob 1)
       (delta prevBlob curBlob 2) (extent curBlob 2)
       (splat_count curBlob).

Lemma delta_field prevBlob curBlob i : is_field3 (delta prevBlob curBlob i).
Proof. unfold is_field3, delta. apply Z.mod_pos_bound. lia. Qed.

Lemma differential_payload_value prevBlob curBlob :
  wf_blob prevBlob -> wf_blob curBlob ->
  legal true prevBlob curBlob ->
  differential_payload assertions prevBlob curBlob
  = Ok (payload_of prevBlob curBlob).
Proof.
  intros Hp Hc (_ & Hax & Hcnt & _).
  apply three_axes in Hax. destruct Hax as (A0 & A1 & A2).
  pose proof (delta_field prevBlob curBlob 0) as E0.
  pose proof (delta_field prevBlob curBlob 1) as E1.
  pose proof (delta_field prevBlob curBlob 2) as E2.
  assert (S0 : is_bit (extent curBlob 0)) by (destruct A0 as [? _]; unfold is_bit, extent; lia).
  assert (S1 : is_bit (extent curBlob 1)) by (destruct A1 as [? _]; unfold is_bit, extent; lia).
  assert (S2 : is_bit (extent curBlob 2)) by (destruct A2 as [? _]; unfold is_bit, extent; lia).
  unfold is_field3, is_bit in *.
  unfold differential_payload. change (Z.lor 0 2147483648) with 2147483648.
  rewrite (axis_payload_value prevBlob curBlob _ 0); try assumption; try lia.
  2:{ reflexivity. }
  cbn [bind]. fold (delta prevBlob curBlob 0). fold (extent curBlob 0).
  change (2 ^ (Z.of_nat 0 * 4)) with 1. change (2 ^ (Z.of_nat 0 * 4 + 3)) with 8.
  rewrite (axis_payload_value prevBlob curBlob _ 1); try assumption; try lia.
  2:{ change (2 ^ (Z.of_nat 1 * 4)) with 16. Z.div_mod_to_equations. lia. }
  cbn [bind]. fold (delta prevBlob curBlob 1). fold (extent curBlob 1).
  change (2 ^ (Z.of_nat 1 * 4)) with 16. change (2 ^ (Z.of_nat 1 * 4 + 3)) with 128.
  rewrite (axis_payload_value prevBlob curBlob _ 2); try assumption; try lia.
  2:{ change (2 ^ (Z.of_nat 2 * 4)) with 256. Z.div_mod_to_equations. lia. }
  cbn [bind]. fold (delta prevBlob curBlob 2). fold (extent curBlob 2).
  change (2 ^ (Z.of_nat 2 * 4)) with 256. change (2 ^ (Z.of_nat 2 * 4 + 3)) with 2048.
  fold (splat_count curBlob) in Hcnt |- *.
  assert (Hc0 : 0 <= splat_count curBlob).
  { unfold splat_count. pose proof (u64_range (lastSplat curBlob - firstSplat curBlob)) as H.
    unfold is_u64 in H. lia. }
  rewrite (u32_small (splat_count curBlob)) by (unfold is_u32, UINT32_MAX; lia).
  rewrite insertUnsigned_value; try lia.
  - unfold payload_of, pack. f_equal. change (2 ^ 12) with 4096. ring.
  - change (2 ^ (31 - 12)) with 524288. change (2 ^ 12) with 4096.
    Z.div_mod_to_equations. lia.
Qed.

(** Reading the fields back from a payload. *)
Lemma pack_fields e0 s0 e1 s1 e2 s2 cnt :
  is_field3 e0 -> is_bit s0 -> is_field3 e1 -> is_bit s1 ->
  is_field3 e2 -> is_bit s2 -> 0 <= cnt < 2 ^ 19 ->
  let w := pack e0 s0 e1 s1 e2 s2 cnt in
  (w / 2 ^ 0) mod 8 = e0 /\ (w / 2 ^ 3) mod 2 = s0
  /\ (w / 2 ^ 4) mod 8 = e1 /\ (w / 2 ^ 7) mod 2 = s1
  /\ (w / 2 ^ 8) mod 8 = e2 /\ (w / 2 ^ 11) mod 2 = s2
  /\ (w / 2 ^ 12) mod 2 ^ 19 = cnt
  /\ 2 ^ 31 <= w < 2 ^ 32.
Proof.
  unfold is_field3, is_bit, pack. intros.
  change (2 ^ 0) with 1. change (2 ^ 3) with 8. change (2 ^ 4) with 16.
  change (2 ^ 7) with 128. change (2 ^ 8) with 256. change (2 ^ 11) with 2048.
  change (2 ^ 12) with 4096. change (2 ^ 19) with 524288 in *.
  cbv zeta.
  repeat split; try (Z.div_mod_to_equations; lia).
Qed.

(** Bit 31 of a word between [2^31] and [2^32] is set, and it is clear in a
    word below [2^31]. *)
Lemma tag_set w : 2 ^ 31 <= w < 2 ^ 32 -> Z.land w 2147483648 <> 0.
Proof.
  intros Hw Hz.
  assert (Hbit : Z.testbit (Z.land w 2147483648) 31 = true).
  { rewrite Z.land_spec. change 2147483648 with (2 ^ 31).
    rewrite Z.pow2_bits_true by lia. rewrite andb_true_r.
    apply Z.testbit_true; [lia |].
    Z.div_mod_to_equations. lia. }
  rewrite Hz, Z.bits_0 in Hbit. discriminate.
Qed.

Lemma tag_clear w : 0 <= w < 2 ^ 31 -> Z.land w 2147483648 = 0.
Proof.
  intros Hw. change 2147483648 with (1 * 2 ^ 31).
  apply (land_field_clear w 1 31 1); try lia.
  rewrite Z.div_small by lia. reflexivity.
Qed.

(** ** Reading one record back *)

Lemma signed3_delta d : -4 <= d <= 3 -> signed3 (d mod 8) = d.
Proof.
  intros Hd. unfold signed3.
  destruct (Z_lt_dec d 0) as [Hneg | Hpos].
  - replace (d mod 8) with (d + 8) by (apply Z.mod_unique with (q := -1); lia).
    destruct (Z.ltb_spec (d + 8) 4); lia.
  - rewrite Z.mod_small by lia. destruct (Z.ltb_spec d 4); lia.
Qed.

Lemma multiple_mod x k : x = k * 2 ^ 32 -> x mod 2 ^ 32 = 0.
Proof. intros ->. apply Z.mod_mul. lia. Qed.

(** The lower bound of the decoder: the previous upper bound plus the
    difference, in unsigned arithmetic, read as signed. *)
Lemma decode_lower u l :
  is_s32 u -> is_s32 l -> -4 <= l - u <= 3 ->
  s32 (u32 (u32 u + u32 (l - u))) = l.
Proof.
  unfold is_s32, INT32_MIN, INT32_MAX. intros Hu Hl Hd.
  unfold u32 at 1. unfold to_unsigned. rewrite s32_mod.
  apply s32_congr; [unfold is_s32, INT32_MIN, INT32_MAX; lia |].
  destruct (u32_cases u) as [[_ ->] | [_ ->]]; [lia | |];
    destruct (u32_cases (l - u)) as [[_ ->] | [_ ->]]; try lia.
  - apply (multiple_mod _ 0). lia.
  - apply (multiple_mod _ 1). lia.
  - apply (multiple_mod _ 1). lia.
  - apply (multiple_mod _ 2). lia.
Qed.

(** The upper bound of the decoder. *)
Lemma decode_upper l up :
  is_s32 l -> is_s32 up -> s32 (l + s32 (up - l)) = up.
Proof.
  unfold is_s32, INT32_MIN, INT32_MAX. intros Hl Hup.
  apply s32_congr; [unfold is_s32, INT32_MIN, INT32_MAX; lia |].
  destruct (s32_cases (up - l)) as [[_ ->] | [[_ ->] | [_ ->]]]; [lia | | |].
  - apply (multiple_mod _ 0). lia.
  - apply (multiple_mod _ 1). lia.
  - apply (multiple_mod _ (-1)). lia.
Qed.

Lemma wf_get a i : wf_array3 a -> is_s32 (get a i).
Proof.
  intros (? & ? & ?). destruct i as [| [| i]]; assumption.
Qed.

Lemma axis_delta_range prevBlob curBlob i :
  wf_blob prevBlob -> wf_blob curBlob -> axis_legal prevBlob curBlob i ->
  -4 <= get (lower curBlob) i - get (upper prevBlob) i <= 3.
Proof.
  intros (_ & _ & _ & Hpu) (_ & _ & Hcl & _) (_ & Hint).
  apply delta_range; auto using wf_get.
Qed.

(** One axis of a differential record, decoded into a blob [b] that still
    holds the previous upper bound on this axis. *)
Lemma decode_axis_value prevBlob curBlob b i :
  (i < 3)%nat ->
  wf_blob prevBlob -> wf_blob curBlob ->
  legal true prevBlob curBlob ->
  get (upper b) i = get (upper prevBlob) i ->
  decode_axis assertions (payload_of prevBlob curBlob) b i
  = Ok (mkBlob (firstSplat b) (lastSplat b)
               (set (lower b) i (get (lower curBlob) i))
               (set (upper b) i (get (upper curBlob) i))).
Proof.
  intros Hi Hp Hc Hlegal Hup.
  pose proof Hlegal as (_ & Hax & Hcnt & _).
  pose proof (proj1 (three_axes _) Hax) as (A0 & A1 & A2).
  destruct (pack_fields (delta prevBlob curBlob 0) (extent curBlob 0)
              (delta prevBlob curBlob 1) (extent curBlob 1)
              (delta prevBlob curBlob 2) (extent curBlob 2)
              (splat_count curBlob))
    as (F0 & G0 & F1 & G1 & F2 & G2 & _ & _);
    try apply delta_field;
    try (unfold is_bit, extent;
         destruct A0 as [? _], A1 as [? _], A2 as [? _]; lia).
  { unfold splat_count.
    pose proof (u64_range (lastSplat curBlob - firstSplat curBlob)) as H.
    unfold is_u64 in H. lia. }
  fold (payload_of prevBlob curBlob) in F0, G0, F1, G1, F2, G2.
  pose proof (axis_delta_range prevBlob curBlob i Hp Hc (Hax i Hi)) as Hd.
  destruct Hp as (_ & _ & _ & Hpu), Hc as (_ & _ & Hcl & Hcu).
  pose proof (wf_get _ i Hpu) as Hu. pose proof (wf_get _ i Hcl) as Hl.
  pose proof (wf_get _ i Hcu) as Hupper.
  unfold decode_axis.
  assert (Hfields :
    extractSigned assertions (payload_of prevBlob curBlob)
                  (Z.of_nat i * 4) (Z.of_nat i * 4 + 3)
    = Ok (u32 (get (lower curBlob) i - get (upper prevBlob) i))
    /\ extractUnsigned assertions (payload_of prevBlob curBlob)
                       (Z.of_nat i * 4 + 3) (Z.of_nat i * 4 + 4)
       = Ok (s32 (get (upper curBlob) i - get (lower curBlob) i))).
  { destruct i as [| [| [| i]]]; [| | | lia].
    - change (Z.of_nat 0 * 4 + 4) with 4. change (Z.of_nat 0 * 4 + 3) with (0 + 3).
      change (Z.of_nat 0 * 4) with 0.
      rewrite extractSigned_value, extractUnsigned_value by lia.
      change (2 ^ (4 - (0 + 3))) with 2. change (0 + 3) with 3.
      rewrite F0, G0. unfold delta. rewrite signed3_delta by assumption.
      split; reflexivity.
    - change (Z.of_nat 1 * 4 + 4) with 8. change (Z.of_nat 1 * 4 + 3) with (4 + 3).
      change (Z.of_nat 1 * 4) with 4.
      rewrite extractSigned_value, extractUnsigned_value by lia.
      change (2 ^ (8 - (4 + 3))) with 2. change (4 + 3) with 7.
      rewrite F1, G1. unfold delta. rewrite signed3_delta by assumption.
      split; reflexivity.
    - change (Z.of_nat 2 * 4 + 4) with 12. change (Z.of_nat 2 * 4 + 3) with (8 + 3).
      change (Z.of_nat 2 * 4) with 8.
      rewrite extractSigned_value, extractUnsigned_value by lia.
      change (2 ^ (12 - (8 + 3))) with 2. change (8 + 3) with 11.
      rewrite F2, G2. unfold delta. rewrite signed3_delta by assumption.
      split; reflexivity. }
  destruct Hfields as [-> ->]. cbn [bind].
  rewrite Hup, decode_lower by assumption.
  rewrite decode_upper by assumption.
  reflexivity.
Qed.

Lemma stream_read_app n (ws rest : list Z) :
  length ws = n -> stream_read n (ws ++ rest) = Ok (ws, rest).
Proof.
  intros Hn. unfold stream_read.
  destruct (Nat.leb_spec n (length (ws ++ rest))) as [_ | Hlt].
  - subst n. rewrite take_app_length, drop_app_length. reflexivity.
  - rewrite length_app in Hlt. lia.
Qed.

Lemma stream_read_1 w (rest : list Z) :
  stream_read 1 (w :: rest) = Ok ([w], rest).
Proof. reflexivity. Qed.

(** A differential record written for [curBlob] after [prevBlob] is read
    back as [curBlob] by a reader that holds [prevBlob]. *)
Lemma read_differential prevBlob curBlob b rest :
  wf_blob prevBlob -> wf_blob curBlob ->
  legal true prevBlob curBlob ->
  upper b = upper prevBlob -> lastSplat b = lastSplat prevBlob ->
  read_record assertions (payload_of prevBlob curBlob :: rest) b
  = Ok (rest, curBlob).
Proof.
  intros Hp Hc Hlegal Hup Hlast.
  pose proof Hlegal as (_ & Hax & Hcnt & Hfirst).
  pose proof (proj1 (three_axes _) Hax) as (A0 & A1 & A2).
  destruct (pack_fields (delta prevBlob curBlob 0) (extent curBlob 0)
              (delta prevBlob curBlob 1) (extent curBlob 1)
              (delta prevBlob curBlob 2) (extent curBlob 2)
              (splat_count curBlob))
    as (_ & _ & _ & _ & _ & _ & Hcount & Htag);
    try apply delta_field;
    try (unfold is_bit, extent;
         destruct A0 as [? _], A1 as [? _], A2 as [? _]; lia).
  { unfold splat_count.
    pose proof (u64_range (lastSplat curBlob - firstSplat curBlob)) as H.
    unfold is_u64 in H. lia. }
  fold (payload_of prevBlob curBlob) in Hcount, Htag.
  unfold read_record.
  rewrite stream_read_1. cbn [bind nth].
  destruct (Z.eqb_spec (Z.land (payload_of prevBlob curBlob) 2147483648) 0)
    as [Hz | _]; [destruct (tag_set _ Htag Hz) |].
  cbn [negb]. unfold decode_differential.
  rewrite (decode_axis_value prevBlob curBlob b 0) by (try lia; try assumption; congruence).
  cbn [bind].
  rewrite (decode_axis_value prevBlob curBlob _ 1);
    try lia; try assumption;
    [| cbn [upper]; rewrite Hup; destruct (upper prevBlob); reflexivity].
  cbn [bind].
  rewrite (decode_axis_value prevBlob curBlob _ 2);
    try lia; try assumption;
    [| cbn [upper]; rewrite Hup; destruct (upper prevBlob); reflexivity].
  cbn [bind lastSplat lower upper firstSplat].
  rewrite extractUnsigned_value by lia.
  change (2 ^ (31 - 12)) with (2 ^ 19). rewrite Hcount. cbn [bind].
  f_equal. f_equal.
  destruct Hc as (Hf & Hl & _ & _).
  destruct curBlob as [f l [lx ly lz] [ux uy uz]].
  cbn [firstSplat lastSplat lower upper get set ax ay az splat_count] in *.
  destruct (lower b) as [bx by' bz]. destruct (upper b) as [cx cy cz].
  cbn [set ax ay az]. rewrite Hlast, <- Hfirst.
  f_equal.
  unfold splat_count. cbn [firstSplat lastSplat].
  unfold u64, to_unsigned. rewrite Z.add_mod_idemp_r by lia.
  replace (f + (l - f)) with l by lia.
  apply Z.mod_small. unfold is_u64, UINT64_MAX in Hl. lia.
Qed.

(** A full record is read back as the blob it was written for, provided
    bit 31 of its first word is clear. *)
Lemma read_full curBlob b rest :
  wf_blob curBlob -> firstSplat curBlob < 2 ^ 63 ->
  read_record assertions (full_record curBlob ++ rest) b = Ok (rest, curBlob).
Proof.
  intros (Hf & Hl & Hlo & Hup) H63.
  unfold is_u64, UINT64_MAX in Hf, Hl.
  destruct curBlob as [f l [lx ly lz] [ux uy uz]].
  cbn [firstSplat lastSplat lower upper] in *.
  destruct Hlo as (Hlx & Hly & Hlz), Hup as (Hux & Huy & Huz).
  cbn [ax ay az] in *.
  unfold read_record, full_record.
  cbn [firstSplat lastSplat lower upper get ax ay az app].
  rewrite !Z.shiftr_div_pow2 by lia.
  change 4294967295 with (Z.ones 32). rewrite !Z.land_ones by lia.
  pose proof (Z.mod_pos_bound f (2 ^ 32) ltac:(lia)) as Hfm.
  pose proof (Z.mod_pos_bound l (2 ^ 32) ltac:(lia)) as Hlm.
  assert (Hfd : 0 <= f / 2 ^ 32 < 2 ^ 31).
  { split; [apply Z.div_pos; lia | apply Z.div_lt_upper_bound; lia]. }
  assert (Hld : 0 <= l / 2 ^ 32 < 2 ^ 32).
  { split; [apply Z.div_pos; lia | apply Z.div_lt_upper_bound; lia]. }
  rewrite (u32_small (f / 2 ^ 32)), (u32_small (f mod 2 ^ 32)),
    (u32_small (l / 2 ^ 32)), (u32_small (l mod 2 ^ 32))
    by (unfold is_u32, UINT32_MAX; lia).
  rewrite stream_read_1. cbn [bind nth].
  rewrite tag_clear by lia. cbn [Z.eqb negb].
  set (buffer := [f mod 2 ^ 32; l / 2 ^ 32; l mod 2 ^ 32;
                  u32 lx; u32 ux; u32 ly; u32 uy; u32 lz; u32 uz]).
  change (f mod 2 ^ 32 :: _) with (buffer ++ rest).
  rewrite (stream_read_app 9 buffer) by reflexivity.
  cbn [bind]. f_equal. f_equal.
  unfold decode_full, buffer. cbn [nth].
  rewrite !s32_u32 by assumption.
  rewrite !Z.shiftl_mul_pow2 by lia.
  rewrite (u64_small (f / 2 ^ 32 * 2 ^ 32)), (u64_small (l / 2 ^ 32 * 2 ^ 32))
    by (unfold is_u64, UINT64_MAX; lia).
  rewrite (Z.lor_comm _ (f mod 2 ^ 32)), (Z.lor_comm _ (l mod 2 ^ 32)).
  rewrite (lor_field (f mod 2 ^ 32) (f / 2 ^ 32) 32 32),
    (lor_field (l mod 2 ^ 32) (l / 2 ^ 32) 32 32);
    try lia;
    try (rewrite Z.div_small by lia; reflexivity).
  f_equal.
  - pose proof (Z.div_mod f (2 ^ 32) ltac:(lia)). lia.
  - pose proof (Z.div_mod l (2 ^ 32) ltac:(lia)). lia.
Qed.

(** ** Writing *)

(** The words [addBlob] appends for [curBlob]. *)
Definition record_of (ne : bool) (prevBlob curBlob : BlobInfo) : list Z :=
  if differential ne prevBlob curBlob then [payload_of prevBlob curBlob]
  else full_record curBlob.

Fixpoint records_of (ne : bool) (prevBlob : BlobInfo) (blobs : list BlobInfo)
    : list Z :=
  match blobs with
  | [] => []
  | curBlob :: rest =>
      record_of ne prevBlob curBlob ++ records_of true curBlob rest
  end.

Lemma differential_nonempty ne prevBlob curBlob :
  differential ne prevBlob curBlob = true -> ne = true.
Proof. intros H. apply differential_iff in H. tauto. Qed.

Lemma addBlob_value blobData prevBlob curBlob :
  (nonempty blobData = true -> wf_blob prevBlob) -> wf_blob curBlob ->
  (differential (nonempty blobData) prevBlob curBlob = true ->
   legal (nonempty blobData) prevBlob curBlob) ->
  addBlob assertions blobData prevBlob curBlob
  = Ok (blobData ++ record_of (nonempty blobData) prevBlob curBlob).
Proof.
  intros Hp Hc Hlegal. unfold addBlob, record_of.
  destruct (differential (nonempty blobData) prevBlob curBlob) eqn:Hd;
    [| reflexivity].
  pose proof (differential_nonempty _ _ _ Hd) as Hne.
  specialize (Hlegal eq_refl). rewrite Hne in Hlegal.
  rewrite differential_payload_value by auto.
  reflexivity.
Qed.

Lemma nonempty_app (l1 l2 : list Z) :
  nonempty l2 = true -> nonempty (l1 ++ l2) = true.
Proof. destruct l1, l2; cbn; congruence. Qed.

Lemma record_of_nonempty ne prevBlob curBlob :
  nonempty (record_of ne prevBlob curBlob) = true.
Proof. unfold record_of. destruct (differential _ _ _); reflexivity. Qed.

Lemma addBlobs_value blobs :
  forall blobData prevBlob,
    (nonempty blobData = true -> wf_blob prevBlob) ->
    Forall wf_blob blobs ->
    emitted_legally (nonempty blobData) prevBlob blobs ->
    addBlobs assertions blobData prevBlob blobs
    = Ok (blobData ++ records_of (nonempty blobData) prevBlob blobs).
Proof.
  induction blobs as [| curBlob rest IH]; intros blobData prevBlob Hp Hwf Hleg.
  - cbn. rewrite app_nil_r. reflexivity.
  - inversion Hwf as [| ? ? Hc Hrest]; subst.
    destruct Hleg as [Hl Hlrest].
    cbn [addBlobs records_of].
    rewrite addBlob_value by assumption. cbn [bind].
    rewrite IH.
    + rewrite nonempty_app by apply record_of_nonempty.
      rewrite <- app_assoc. reflexivity.
    + intros _. assumption.
    + assumption.
    + rewrite nonempty_app by apply record_of_nonempty. assumption.
Qed.

(** ** Reading a sequence back *)

(** With blobs left in the open file, [refill] reads one record. *)
Lemma refill_remaining blobFiles cf ws rem b :
  rem <> 0 ->
  refill assertions blobFiles (mkBlobStream cf (Some ws) rem b)
  = (let! (ws', b') := read_record assertions ws b in
     Ok (mkBlobStream cf (Some ws') (u64 (rem - 1)) b')).
Proof.
  intros Hrem. unfold refill. cbn [refill_open remaining].
  destruct (Z.eqb_spec rem 0) as [? | _]; [contradiction |].
  reflexivity.
Qed.

(** The first call, made by the constructor, opens the first file. *)
Lemma refill_first f b :
  nBlobs f <> 0 ->
  refill assertions [f] (mkBlobStream 0 None 0 b)
  = refill assertions [f] (mkBlobStream 0 (Some (words f)) (nBlobs f) b).
Proof.
  intros Hn. unfold refill.
  cbn [refill_open remaining stream curFile length lookup list_lookup Z.eqb].
  destruct (Z.eqb_spec (nBlobs f) 0) as [? | _]; [contradiction |].
  reflexivity.
Qed.

(** After the last blob, [refill] finds no further file and leaves the empty
    blob. *)
Lemma refill_end f ws b :
  exists st,
    refill assertions [f] (mkBlobStream 0 (Some ws) 0 b) = Ok st
    /\ empty st = true.
Proof.
  eexists. split; [reflexivity | reflexivity].
Qed.

Lemma read_encoded blobFiles cf blobs :
  forall ne prevBlob b rest k,
    Forall wf_blob blobs ->
    (ne = true ->
     wf_blob prevBlob /\ upper b = upper prevBlob
     /\ lastSplat b = lastSplat prevBlob) ->
    emitted_legally ne prevBlob blobs ->
    full_records_tagged ne prevBlob blobs ->
    0 <= k -> is_u64 (Z.of_nat (length blobs) + k) ->
    exists b',
      readBlobs assertions (length blobs) blobFiles
        (mkBlobStream cf (Some (records_of ne prevBlob blobs ++ rest))
                      (Z.of_nat (length blobs) + k) b)
      = Ok (blobs, mkBlobStream cf (Some rest) k b').
Proof.
  induction blobs as [| curBlob more IH];
    intros ne prevBlob b rest k Hwf Hprev Hleg Htag Hk Hlen.
  - exists b. cbn. reflexivity.
  - inversion Hwf as [| ? ? Hc Hmore]; subst.
    destruct Hleg as [Hl Hlmore]. destruct Htag as [Ht Htmore].
    cbn [readBlobs records_of length] in Hlen |- *.
    rewrite Nat2Z.inj_succ in Hlen |- *.
    rewrite refill_remaining by lia.
    rewrite <- app_assoc.
    assert (Hrec : read_record assertions
                     (record_of ne prevBlob curBlob
                      ++ records_of true curBlob more ++ rest) b
                   = Ok (records_of true curBlob more ++ rest, curBlob)).
    { unfold record_of.
      destruct (differential ne prevBlob curBlob) eqn:Hd.
      - pose proof (differential_nonempty _ _ _ Hd) as ->.
        destruct (Hprev eq_refl) as (Hp & Hup & Hlast).
        apply read_differential; auto.
      - apply read_full; auto. }
    rewrite Hrec. cbn [bind].
    rewrite (u64_small (Z.succ (Z.of_nat (length more)) + k - 1))
      by (unfold is_u64, UINT64_MAX in *; lia).
    replace (Z.succ (Z.of_nat (length more)) + k - 1)
      with (Z.of_nat (length more) + k) by lia.
    destruct (IH true curBlob curBlob rest k) as [b' Hread]; try assumption.
    + intros _. auto.
    + unfold is_u64, UINT64_MAX in *. lia.
    + exists b'. rewrite Hread. reflexivity.
Qed.

End Payload.

Lemma payload_tag prevBlob curBlob :
  legal true prevBlob curBlob ->
  2 ^ 31 <= payload_of prevBlob curBlob < 2 ^ 32.
Proof.
  intros (_ & Hax & Hcnt & _).
  pose proof (proj1 (three_axes _) Hax) as (A0 & A1 & A2).
  apply pack_fields; try apply delta_field;
    try (unfold is_bit, extent;
         destruct A0 as [? _], A1 as [? _], A2 as [? _]; lia).
  unfold splat_count.
  pose proof (u64_range (lastSplat curBlob - firstSplat curBlob)) as H.
  unfold is_u64 in H. lia.
Qed.

(** C2, as the code has it. For every call of [addBlob] on a blob whose box
    is not empty ([upper - lower] is not negative on any axis), a
    differential record of 4 bytes, with bit 31 set, is appended if and only
    if the legality conditions hold: a previous record exists, [upper -
    lower] is 0 or 1 on every axis, [lower] lies within
    [[prev.upper - 4, prev.upper + 3]] on every axis, the splat count is
    below [2^19], and [firstSplat] is the previous [lastSplat]. Otherwise a
    full record of 40 bytes is appended. *)
Theorem addBlob_differential_iff (assertions : bool) (blobData : list Z)
    (prevBlob curBlob : BlobInfo) :
  wf_blob prevBlob -> wf_blob curBlob -> box_nonempty curBlob ->
  (legal (nonempty blobData) prevBlob curBlob <->
   exists payload,
     addBlob assertions blobData prevBlob curBlob = Ok (blobData ++ [payload]))
  /\ (legal (nonempty blobData) prevBlob curBlob ->
      exists payload,
        addBlob assertions blobData prevBlob curBlob = Ok (blobData ++ [payload])
        /\ record_bytes [payload] = 4
        /\ Z.land payload 2147483648 <> 0)
  /\ (~ legal (nonempty blobData) prevBlob curBlob ->
      addBlob assertions blobData prevBlob curBlob
      = Ok (blobData ++ full_record curBlob)
      /\ record_bytes (full_record curBlob) = 40).
Proof.
  intros Hp Hc Hbox.
  pose proof (differential_legal (nonempty blobData) prevBlob curBlob Hbox)
    as Hiff.
  assert (Hyes : legal (nonempty blobData) prevBlob curBlob ->
                 addBlob assertions blobData prevBlob curBlob
                 = Ok (blobData ++ [payload_of prevBlob curBlob])).
  { intros Hlegal. rewrite addBlob_value; auto.
    - unfold record_of. rewrite (proj2 Hiff Hlegal). reflexivity. }
  assert (Hno : ~ legal (nonempty blobData) prevBlob curBlob ->
                addBlob assertions blobData prevBlob curBlob
                = Ok (blobData ++ full_record curBlob)).
  { intros Hillegal. unfold addBlob.
    destruct (differential (nonempty blobData) prevBlob curBlob) eqn:Hd;
      [| reflexivity].
    destruct (Hillegal (proj1 Hiff eq_refl)). }
  split; [| split].
  - split.
    + intros Hlegal. eexists. apply Hyes. exact Hlegal.
    + intros [payload Hadd].
      destruct (differential (nonempty blobData) prevBlob curBlob) eqn:Hd;
        [apply Hiff; reflexivity |].
      assert (Hillegal : ~ legal (nonempty blobData) prevBlob curBlob).
      { intros Hlegal. apply Hiff in Hlegal. congruence. }
      rewrite (Hno Hillegal) in Hadd. injection Hadd as Hadd.
      apply app_inv_head in Hadd. discriminate.
  - intros Hlegal. exists (payload_of prevBlob curBlob).
    split; [apply Hyes; exact Hlegal |].
    split; [reflexivity |].
    apply tag_set. apply payload_tag.
    destruct Hlegal as (Hne & Hrest).
    split; [reflexivity | exact Hrest].
  - intros Hillegal. split; [apply Hno; exact Hillegal | reflexivity].
Qed.

(** C1, as the code has it. A sequence of blobs written by [addBlob], each
    with the blob before it as [prevBlob], into a blob file, and read back by
    [refill] from a freshly constructed stream, gives the original sequence
    of [(firstSplat, lastSplat, lower, upper)] exactly, and the call after
    the last blob leaves the stream empty, provided every differential
    record was written under the legality conditions and the first splat id
    of every blob written as a full record is below [2^63] (bit 31 of the
    first word of a record tells the two encodings apart). *)
Theorem blob_roundtrip (assertions : bool) (blobs : list BlobInfo)
    (prevBlob curBlob0 : BlobInfo) :
  Forall wf_blob blobs ->
  is_u64 (Z.of_nat (length blobs)) ->
  emitted_legally false prevBlob blobs ->
  full_records_tagged false prevBlob blobs ->
  exists blobData st,
    addBlobs assertions [] prevBlob blobs = Ok blobData
    /\ readBlobs assertions (length blobs)
         [mkBlobFile blobData (Z.of_nat (length blobs))]
         (mkBlobStream 0 None 0 curBlob0)
       = Ok (blobs, st)
    /\ (blobs <> [] ->
        exists st',
          refill assertions [mkBlobFile blobData (Z.of_nat (length blobs))] st
          = Ok st'
          /\ empty st' = true).
Proof.
  intros Hwf Hlen Hleg Htag.
  exists (records_of false prevBlob blobs).
  pose proof (addBlobs_value assertions blobs [] prevBlob) as Hadd.
  cbn [nonempty app] in Hadd.
  rewrite Hadd by (try assumption; discriminate).
  destruct blobs as [| b0 more].
  - eexists. split; [reflexivity |]. split; [reflexivity |].
    intros H. congruence.
  - destruct (read_encoded assertions
                [mkBlobFile (records_of false prevBlob (b0 :: more))
                            (Z.of_nat (length (b0 :: more)))]
                0%nat (b0 :: more) false prevBlob curBlob0 [] 0)
      as [b' Hread];
      [assumption | discriminate | assumption | assumption | lia
      | rewrite Z.add_0_r; assumption |].
    rewrite app_nil_r, Z.add_0_r in Hread.
    exists (mkBlobStream 0 (Some []) 0 b').
    split; [reflexivity |].
    split.
    + cbn [readBlobs length] in Hread |- *.
      rewrite refill_first by (cbn [nBlobs length]; lia).
      exact Hread.
    + intros _. apply refill_end.
Qed.

Definition blob_a : BlobInfo := mkBlob 0 1 (mkArray3 0 0 0) (mkArray3 0 0 0).
Definition blob_b : BlobInfo := mkBlob 1 3 (mkArray3 1 0 (-4)) (mkArray3 2 0 (-4)).

Lemma wf_blob_a : wf_blob blob_a.
Proof.
  unfold wf_blob, wf_array3, is_u64, is_s32, UINT64_MAX, INT32_MIN, INT32_MAX.
  cbn. lia.
Qed.

Lemma wf_blob_b : wf_blob blob_b.
Proof.
  unfold wf_blob, wf_array3, is_u64, is_s32, UINT64_MAX, INT32_MIN, INT32_MAX.
  cbn. lia.
Qed.

Lemma addBlob_differential_iff_witness :
  (legal (nonempty (full_record blob_a)) blob_a blob_b <->
   exists payload,
     addBlob true (full_record blob_a) blob_a blob_b
     = Ok (full_record blob_a ++ [payload]))
  /\ (legal (nonempty (full_record blob_a)) blob_a blob_b ->
      exists payload,
        addBlob true (full_record blob_a) blob_a blob_b
        = Ok (full_record blob_a ++ [payload])
        /\ record_bytes [payload] = 4
        /\ Z.land payload 2147483648 <> 0)
  /\ (~ legal (nonempty (full_record blob_a)) blob_a blob_b ->
      addBlob true (full_record blob_a) blob_a blob_b
      = Ok (full_record blob_a ++ full_record blob_b)
      /\ record_bytes (full_record blob_b) = 40).
Proof.
  apply (addBlob_differential_iff true (full_record blob_a) blob_a blob_b).
  - exact wf_blob_a.
  - exact wf_blob_b.
  - intros i Hi. destruct i as [| [| [| i]]]; vm_compute; congruence.
Defined.

(** A blob whose box is empty on the first axis: [upper - lower] is [-1]. *)
Definition blob_inverted : BlobInfo :=
  mkBlob 1 2 (mkArray3 1 0 0) (mkArray3 0 0 0).

(** C2 as stated fails on a box with [upper < lower]: the legality
    conditions do not hold ([upper - lower] is neither 0 nor 1), yet no full
    record is appended. With assertions compiled in the call stops at the
    assertion of [insertUnsigned]; without them it appends a single word. *)
Lemma addBlob_inverted_box :
  wf_blob blob_a /\ wf_blob blob_inverted
  /\ ~ legal (nonempty (full_record blob_a)) blob_a blob_inverted
  /\ (forall assertions,
        addBlob assertions (full_record blob_a) blob_a blob_inverted
        <> Ok (full_record blob_a ++ full_record blob_inverted))
  /\ addBlob true (full_record blob_a) blob_a blob_inverted
     = Throw AssertFailure
  /\ addBlob false (full_record blob_a) blob_a blob_inverted
     = Ok (full_record blob_a ++ [4294967289]).
Proof.
  split; [exact wf_blob_a |].
  split.
  { unfold wf_blob, wf_array3, is_u64, is_s32, UINT64_MAX, INT32_MIN, INT32_MAX.
    cbn. lia. }
  split.
  { intros (_ & Hax & _). destruct (Hax 0%nat ltac:(lia)) as [[H | H] _];
      vm_compute in H; discriminate. }
  split.
  { intros [|]; vm_compute; discriminate. }
  split; vm_compute; reflexivity.
Qed.

Lemma blob_roundtrip_witness :
  exists blobData st,
    addBlobs true [] blob_a [blob_a; blob_b] = Ok blobData
    /\ readBlobs true (length [blob_a; blob_b])
         [mkBlobFile blobData (Z.of_nat (length [blob_a; blob_b]))]
         (mkBlobStream 0 None 0 blob_b)
       = Ok ([blob_a; blob_b], st)
    /\ ([blob_a; blob_b] <> [] ->
        exists st',
          refill true [mkBlobFile blobData (Z.of_nat (length [blob_a; blob_b]))] st
          = Ok st'
          /\ empty st' = true).
Proof.
  apply (blob_roundtrip true [blob_a; blob_b] blob_a blob_b).
  - constructor; [exact wf_blob_a | constructor; [exact wf_blob_b | constructor]].
  - unfold is_u64, UINT64_MAX. cbn. lia.
  - cbn [emitted_legally]. split; [discriminate |]. split; [| exact I].
    intros _. unfold legal, axis_legal. split; [reflexivity |].
    split; [| split; vm_compute; congruence].
    intros i Hi. destruct i as [| [| [| i]]]; [| | | lia]; vm_compute;
      intuition congruence.
  - cbn [full_records_tagged]. split; [intros _; cbn; lia |].
    split; [| exact I]. vm_compute. discriminate.
Defined.

(** A blob whose first splat id has its top bit set. *)
Definition blob_top : BlobInfo :=
  mkBlob (2 ^ 63) (2 ^ 63 + 1) (mkArray3 0 0 0) (mkArray3 0 0 0).

(** C1 as stated fails for a blob whose first splat id is [2^63] or more:
    the blob is written as a full record (so every differential record was
    written legally), but the first word of that record has bit 31 set and
    [refill] reads it as a differential record; the blob read back is not
    the one written. *)
Lemma blob_roundtrip_top_bit :
  Forall wf_blob [blob_top]
  /\ emitted_legally false blob_a [blob_top]
  /\ forall assertions,
       exists blobData,
         addBlobs assertions [] blob_a [blob_top] = Ok blobData
         /\ forall st,
              readBlobs assertions 1 [mkBlobFile blobData 1]
                        (mkBlobStream 0 None 0 blob_a)
              <> Ok ([blob_top], st).
Proof.
  split.
  { repeat constructor;
      unfold is_u64, wf_array3, is_s32, UINT64_MAX, INT32_MIN, INT32_MAX;
      cbn; lia. }
  split.
  { cbn. split; [discriminate | exact I]. }
  intros assertions. eexists. split; [reflexivity |].
  intros st. destruct assertions; vm_compute; intros H; discriminate H.
Qed.

End BlobFacts.

(* ===================================================================== *)
(** * Facts about workers.cpp: the splat budget of a device *)
(* ===================================================================== *)

Module BudgetFacts.
Import Machine MachineFacts Grids Workers.

Definition inflight_sum (l : list (list SubItem)) : Z :=
  fold_right (fun item acc => totalSplats item + acc) 0 l.

(** An item in flight holds SubItems of non-negative size that fit its
    splat buffer. *)
Definition item_ok (M : Z) (item : list SubItem) : Prop :=
  Forall (fun sub => 0 <= numSplats sub) item /\ totalSplats item <= M.

Lemma totalSplats_cons sub item :
  totalSplats (sub :: item) = numSplats sub + totalSplats item.
Proof. reflexivity. Qed.

Lemma inflight_sum_cons item l :
  inflight_sum (item :: l) = totalSplats item + inflight_sum l.
Proof. reflexivity. Qed.

Lemma totalSplats_app a b : totalSplats (a ++ b) = totalSplats a + totalSplats b.
Proof.
  induction a as [| x a IH]; [reflexivity |].
  cbn [app]. rewrite !totalSplats_cons, IH. lia.
Qed.

Lemma totalSplats_nonneg item :
  Forall (fun sub => 0 <= numSplats sub) item -> 0 <= totalSplats item.
Proof.
  induction 1 as [| sub item Hsub _ IH]; [cbn; lia |].
  rewrite totalSplats_cons. lia.
Qed.

Lemma inflight_sum_app a b : inflight_sum (a ++ b) = inflight_sum a + inflight_sum b.
Proof.
  induction a as [| x a IH]; [reflexivity |].
  cbn [app]. rewrite !inflight_sum_cons, IH. lia.
Qed.

(** Completing the first SubItem of an item takes its splats out of
    flight. *)
Lemma inflight_sum_insert l k sub rest :
  l !! k = Some (sub :: rest) ->
  inflight_sum (<[k := rest]> l) = inflight_sum l - numSplats sub.
Proof.
  intros Hk.
  rewrite insert_take_drop by (eapply lookup_lt_Some; exact Hk).
  rewrite <- (take_drop_middle l k (sub :: rest) Hk) at 3.
  rewrite !inflight_sum_app, !inflight_sum_cons, totalSplats_cons. lia.
Qed.

Lemma inflight_sum_delete l k :
  l !! k = Some [] -> inflight_sum (delete k l) = inflight_sum l.
Proof.
  intros Hk. rewrite delete_take_drop.
  rewrite <- (take_drop_middle l k [] Hk) at 3.
  rewrite !inflight_sum_app, inflight_sum_cons.
  change (totalSplats []) with 0. lia.
Qed.

(** Items that fit their buffers hold at most [M] splats each. *)
Lemma inflight_sum_bound M l :
  0 <= M -> Forall (item_ok M) l ->
  0 <= inflight_sum l <= Z.of_nat (length l) * M.
Proof.
  intros HM. induction 1 as [| item l [Hpos Hle] _ IH].
  - cbn. lia.
  - rewrite inflight_sum_cons. cbn [length].
    pose proof (totalSplats_nonneg item Hpos). rewrite Nat2Z.inj_succ. nia.
Qed.

Section Budget.

Variable Splat : Type.
Variable position : Splat -> nat -> Q.
Variables numWorkers spare maxItemSplats : Z.

Hypothesis numWorkers_nonneg : 0 <= numWorkers.
Hypothesis spare_nonneg : 0 <= spare.
Hypothesis maxItemSplats_nonneg : 0 <= maxItemSplats.
(** [bufferedSplats + work.numSplats] and [maxItemSplats * items] do not
    overflow [std::size_t]. *)
Hypothesis buffer_fits : 2 * maxItemSplats <= UINT64_MAX.
Hypothesis budget_fits : maxItemSplats * (numWorkers + spare) <= UINT64_MAX.

Let items : Z := numWorkers + spare.
Let budget : Z := items * maxItemSplats.

(** The invariant of the copy worker and the device group. *)
Definition budget_inv (s : CopyWorker Splat * DeviceWorkerGroup) : Prop :=
  let (c, g) := s in
  bufferedSplats Splat c = totalSplats (bufferedItems Splat c)
  /\ Forall (fun sub => 0 <= numSplats sub) (bufferedItems Splat c)
  /\ bufferedSplats Splat c <= maxItemSplats
  /\ Z.of_nat (itemPool g) + Z.of_nat (length (inFlight g)) = items
  /\ Forall (item_ok maxItemSplats) (inFlight g)
  /\ 0 <= unallocated_ g
  /\ unallocated_ g + inflight_sum (inFlight g) = budget.

Lemma budget_inv_init pinnedBuffer :
  budget_inv (mkCopyWorker Splat pinnedBuffer [] 0,
              newGroup numWorkers spare maxItemSplats).
Proof.
  unfold budget_inv, newGroup. cbn.
  assert (Hb : 0 <= maxItemSplats * (numWorkers + spare)) by nia.
  rewrite u64_small by (unfold is_u64; lia).
  subst budget items.
  repeat split; try lia; try constructor.
Qed.

(** [flush] keeps the invariant: a group that can deliver has room for a
    full buffer. *)
Lemma budget_inv_flush c g c' g' :
  budget_inv (c, g) -> flush Splat c g = Some (c', g') -> budget_inv (c', g').
Proof.
  intros (Hsum & Hpos & Hle & Hitems & Hok & Hun & Hbud) Hflush.
  unfold flush in Hflush.
  destruct (bufferedItems Splat c) as [| sub subs] eqn:Hbuf.
  { injection Hflush as <- <-. unfold budget_inv. rewrite Hbuf. auto 10. }
  destruct (canGet g) eqn:Hcan; [| discriminate].
  injection Hflush as <- <-.
  unfold canGet in Hcan. apply negb_true_iff, Nat.eqb_neq in Hcan.
  pose proof (inflight_sum_bound maxItemSplats (inFlight g)
                maxItemSplats_nonneg Hok) as Hbound.
  pose proof (totalSplats_nonneg _ Hpos) as Hnn.
  assert (Hroom : bufferedSplats Splat c <= unallocated_ g).
  { subst budget. nia. }
  unfold budget_inv, get. cbn [bufferedItems bufferedSplats unallocated_ itemPool inFlight].
  rewrite u64_small by (unfold is_u64; lia).
  rewrite length_app, inflight_sum_app. cbn [length inflight_sum fold_right].
  split; [reflexivity |]. split; [constructor |]. split; [lia |].
  split; [lia |].
  split.
  { apply Forall_app. split; [assumption |].
    constructor; [| constructor]. split; [assumption | lia]. }
  split; lia.
Qed.

Lemma copy_splats_progress fuel g input :
  forall progress out,
    0 <= progress ->
    0 <= fst (copy_splats Splat position fuel g input progress out).
Proof.
  revert input. induction fuel as [| fuel IH]; intros input progress out Hp;
    cbn [copy_splats]; [assumption |].
  destruct input as [| s rest]; [assumption |].
  apply IH. destruct (inside Splat position g s); lia.
Qed.

Lemma budget_inv_copy c g work c' g' :
  0 <= work_numSplats Splat work <= maxItemSplats ->
  budget_inv (c, g) ->
  copy_operator Splat position maxItemSplats c g work = Some (c', g') ->
  budget_inv (c', g').
Proof.
  intros Hwork Hinv Hop. unfold copy_operator in Hop.
  assert (Hstep :
    forall c1 g1,
      budget_inv (c1, g1) ->
      bufferedSplats Splat c1 + work_numSplats Splat work <= maxItemSplats ->
      (let (subItem, out) := copy_item Splat position c1 work in
       Some (mkCopyWorker Splat out (bufferedItems Splat c1 ++ [subItem])
               (u64 (bufferedSplats Splat c1 + work_numSplats Splat work)), g1))
      = Some (c', g') ->
      budget_inv (c', g')).
  { intros c1 g1 (Hsum & Hpos & Hle & Hrest) Hfit Heq.
    unfold copy_item in Heq.
    destruct (copy_splats Splat position _ _ _ _ _) as [progress out].
    injection Heq as <- <-.
    pose proof (totalSplats_nonneg _ Hpos) as Hnn.
    unfold budget_inv. cbn [bufferedItems bufferedSplats].
    rewrite u64_small by (unfold is_u64; lia).
    rewrite totalSplats_app. cbn [totalSplats fold_right numSplats].
    split; [lia |]. split; [| split; [lia | exact Hrest]].
    apply Forall_app. split; [assumption |].
    constructor; [cbn; lia | constructor]. }
  destruct (Z.ltb_spec maxItemSplats
              (u64 (bufferedSplats Splat c + work_numSplats Splat work)))
    as [Hover | Hfits].
  - destruct (flush Splat c g) as [[c1 g1] |] eqn:Hflush; [| discriminate].
    pose proof (budget_inv_flush c g c1 g1 Hinv Hflush) as Hinv1.
    apply (Hstep c1 g1 Hinv1); [| exact Hop].
    unfold flush in Hflush.
    destruct Hinv as (Hsum & Hpos & Hle & _).
    destruct (bufferedItems Splat c) as [| sub subs] eqn:Hbuf.
    + injection Hflush as <- <-. cbn in Hsum. lia.
    + destruct (canGet g); [| discriminate].
      injection Hflush as <- <-. cbn. lia.
  - apply (Hstep c g Hinv); [| exact Hop].
    destruct Hinv as (Hsum & Hpos & Hle & _).
    pose proof (totalSplats_nonneg _ Hpos) as Hnn.
    rewrite u64_small in Hfits by (unfold is_u64; lia).
    exact Hfits.
Qed.

Lemma budget_inv_complete c g k g' :
  budget_inv (c, g) -> complete g k = Some g' -> budget_inv (c, g').
Proof.
  intros (Hsum & Hpos & Hle & Hitems & Hok & Hun & Hbud) Hc.
  unfold complete in Hc.
  destruct (inFlight g !! k) as [[| sub rest] |] eqn:Hk; try discriminate.
  injection Hc as <-.
  pose proof (Forall_lookup_1 _ _ _ _ Hok Hk) as [Hitem Htot].
  inversion Hitem as [| ? ? Hsub Hrest]; subst.
  cbn [totalSplats fold_right] in Htot. fold (totalSplats rest) in Htot.
  pose proof (totalSplats_nonneg _ Hrest) as Hnn.
  pose proof (inflight_sum_bound maxItemSplats (inFlight g)
                maxItemSplats_nonneg Hok) as Hbound.
  pose proof (inflight_sum_insert _ _ _ _ Hk) as Hins.
  assert (Hsub_le : numSplats sub <= inflight_sum (inFlight g)).
  { rewrite <- (take_drop_middle _ _ _ Hk), inflight_sum_app.
    cbn [inflight_sum fold_right totalSplats].
    fold (totalSplats rest). fold (inflight_sum (drop (S k) (inFlight g))).
    pose proof (inflight_sum_bound maxItemSplats (take k (inFlight g))
                  maxItemSplats_nonneg (Forall_take _ _ _ Hok)).
    pose proof (inflight_sum_bound maxItemSplats (drop (S k) (inFlight g))
                  maxItemSplats_nonneg (Forall_drop _ _ _ Hok)).
    lia. }
  unfold budget_inv. cbn [unallocated_ itemPool inFlight].
  rewrite u64_small by (unfold is_u64; subst budget items; nia).
  rewrite length_insert, Hins.
  repeat split; try assumption; try lia.
  apply Forall_insert; [assumption |]. split; [assumption | lia].
Qed.

Lemma budget_inv_free c g k g' :
  budget_inv (c, g) -> freeItem g k = Some g' -> budget_inv (c, g').
Proof.
  intros (Hsum & Hpos & Hle & Hitems & Hok & Hun & Hbud) Hf.
  unfold freeItem in Hf.
  destruct (inFlight g !! k) as [[| sub rest] |] eqn:Hk; try discriminate.
  injection Hf as <-.
  pose proof (lookup_lt_Some _ _ _ Hk) as Hlt.
  unfold budget_inv. cbn [unallocated_ itemPool inFlight].
  rewrite length_delete by (rewrite Hk; eauto).
  rewrite inflight_sum_delete by assumption.
  repeat split; try assumption; try lia.
  apply Forall_delete. assumption.
Qed.

Lemma budget_inv_reachable s :
  reachable Splat position numWorkers spare maxItemSplats s -> budget_inv s.
Proof.
  induction 1 as [pinnedBuffer | s s' _ IH Hstep].
  - apply budget_inv_init.
  - destruct Hstep as [c g work c' g' Hwork Hop | c g c' g' Hflush
                       | c g k g' Hc | c g k g' Hf].
    + eapply budget_inv_copy; eassumption.
    + eapply budget_inv_flush; eassumption.
    + eapply budget_inv_complete; eassumption.
    + eapply budget_inv_free; eassumption.
Qed.

(** C8. In every state that the copy worker and the workers of a device
    group can reach, [unallocated_] plus the splats of the SubItems in
    flight is [(numWorkers + spare) * maxItemSplats]; so the splats in flight
    never exceed that budget, and [unallocated_] is back at its initial
    value once no item is in flight. *)
Theorem device_budget (s : CopyWorker Splat * DeviceWorkerGroup) :
  reachable Splat position numWorkers spare maxItemSplats s ->
  unallocated_ (snd s) + splatsInFlight (snd s)
  = (numWorkers + spare) * maxItemSplats
  /\ 0 <= splatsInFlight (snd s) <= (numWorkers + spare) * maxItemSplats
  /\ (inFlight (snd s) = [] ->
      unallocated_ (snd s)
      = unallocated_ (newGroup numWorkers spare maxItemSplats)).
Proof.
  intros Hreach. apply budget_inv_reachable in Hreach.
  destruct s as [c g]. destruct Hreach as (_ & _ & _ & Hitems & Hok & Hun & Hbud).
  cbn [snd]. unfold splatsInFlight. fold (inflight_sum (inFlight g)).
  pose proof (inflight_sum_bound maxItemSplats (inFlight g)
                maxItemSplats_nonneg Hok) as Hbound.
  subst budget items.
  split; [lia |]. split; [nia |].
  intros Hempty. rewrite Hempty in Hbud. cbn in Hbud.
  unfold newGroup. cbn [unallocated_].
  rewrite u64_small by (unfold is_u64; nia). lia.
Qed.

End Budget.

(** A run of one worker and one spare item of ten splats: a bucket of three
    splats is copied, then flushed to the device group. *)
Definition unit_cell : Grid := mkGrid (0, 1) (0, 1) (0, 1).

Definition origin (_ : unit) (_ : nat) : Q := 0%Q.

Definition three_splats : WorkItem unit := mkWorkItem unit 0 unit_cell 3 [tt; tt; tt].

Definition flushed_state : CopyWorker unit * DeviceWorkerGroup :=
  (mkCopyWorker unit [tt; tt; tt] [] 0,
   mkGroup 17 1 [[mkSubItem 0 unit_cell 3 0 3]]).

Lemma flushed_state_reachable : reachable unit origin 1 1 10 flushed_state.
Proof.
  eapply reachable_step.
  - eapply reachable_step.
    + apply (reachable_init unit origin 1 1 10 []).
    + apply (step_copy unit origin 10 _ _ three_splats).
      * cbn. lia.
      * reflexivity.
  - apply step_flush. reflexivity.
Qed.

Lemma device_budget_witness :
  reachable unit origin 1 1 10 flushed_state
  /\ unallocated_ (snd flushed_state) + splatsInFlight (snd flushed_state) = 20
  /\ 0 <= splatsInFlight (snd flushed_state) <= 20.
Proof.
  split; [exact flushed_state_reachable |].
  assert (H1 : 0 <= 1) by lia.
  assert (H10 : 0 <= 10) by lia.
  assert (Hb : 2 * 10 <= UINT64_MAX) by (vm_compute; discriminate).
  assert (Hf : 10 * (1 + 1) <= UINT64_MAX) by (vm_compute; discriminate).
  destruct (device_budget unit origin 1 1 10 H1 H1 H10 Hb Hf flushed_state
              flushed_state_reachable) as (Hsum & Hbound & _).
  split; [exact Hsum | exact Hbound].
Defined.

End BudgetFacts.

(* ===================================================================== *)
(** * Facts about workers.cpp: progress accounting *)
(* ===================================================================== *)

Module ProgressFacts.
Import Machine Grids Workers ProgressSpec.

(** ** The conversion of the extents *)

(** An [int] of magnitude up to [2 ^ 24] is a [float]. *)
Lemma float_of_int_exact z : - 2 ^ 24 <= z <= 2 ^ 24 -> float_of_int z = z.
Proof.
  intros Hz. unfold float_of_int.
  destruct (Z.eq_dec (Z.abs z) (2 ^ 24)) as [Hmax | Hlt].
  - assert (z = 2 ^ 24 \/ z = - 2 ^ 24) as [-> | ->] by lia; reflexivity.
  - assert (Hlog : Z.log2 (Z.abs z) - 23 <= 0).
    { destruct (Z.eq_dec (Z.abs z) 0) as [-> | Hne]; [cbn; lia |].
      assert (Z.log2 (Z.abs z) < 24) by (apply Z.log2_lt_pow2; lia).
      lia. }
    destruct (Z.leb_spec (Z.log2 (Z.abs z) - 23) 0); [reflexivity | lia].
Qed.

(** The extents of the grid are of magnitude up to [2 ^ 24]. *)
Definition small_extents (g : Grid) : Prop :=
  forall j, (j < 3)%nat ->
    - 2 ^ 24 <= fst (getExtent g j) <= 2 ^ 24
    /\ - 2 ^ 24 <= snd (getExtent g j) <= 2 ^ 24.

Section Progress.

Variable Splat : Type.
Variable position : Splat -> nat -> Q.

Local Abbreviation inside := (inside Splat position).
Local Abbreviation in_extents := (in_extents Splat position).
Local Abbreviation count_in_extents := (count_in_extents Splat position).

(** What [in_extents] says. *)
Lemma in_extents_spec g s :
  in_extents g s = true <->
  forall j, (j < 3)%nat ->
    (inject_Z (fst (getExtent g j)) <= position s j)%Q
    /\ (position s j < inject_Z (snd (getExtent g j)))%Q.
Proof.
  unfold ProgressSpec.in_extents. cbn [forallb]. rewrite andb_true_r.
  assert (Haxis : forall j,
            Qle_bool (inject_Z (fst (getExtent g j))) (position s j)
            && negb (Qle_bool (inject_Z (snd (getExtent g j))) (position s j))
            = true
            <-> (inject_Z (fst (getExtent g j)) <= position s j)%Q
                /\ (position s j < inject_Z (snd (getExtent g j)))%Q).
  { intros j. rewrite andb_true_iff, negb_true_iff, Qle_bool_iff.
    split; intros [Hlo Hhi]; (split; [exact Hlo |]).
    - apply Qnot_le_lt. intros Hle. apply Qle_bool_iff in Hle. congruence.
    - destruct (Qle_bool _ _) eqn:Hle; [| reflexivity].
      apply Qle_bool_iff in Hle. exfalso. exact (Qlt_not_le _ _ Hhi Hle). }
  split.
  - intros H. apply andb_true_iff in H as [H0 H].
    apply andb_true_iff in H as [H1 H2].
    intros [| [| [| j]]] Hj; [apply Haxis; assumption .. | lia].
  - intros H. apply andb_true_iff. split; [apply Haxis, H; lia |].
    apply andb_true_iff. split; apply Haxis, H; lia.
Qed.

(** On extents that are floats the test of the code is the test of the
    specification. *)
Lemma inside_exact g s : small_extents g -> inside g s = in_extents g s.
Proof.
  intros Hg. unfold Workers.inside, inside_axis, ProgressSpec.in_extents.
  cbn [fold_left forallb andb].
  destruct (Hg 0%nat ltac:(lia)) as [Hx0 Hx1].
  destruct (Hg 1%nat ltac:(lia)) as [Hy0 Hy1].
  destruct (Hg 2%nat ltac:(lia)) as [Hz0 Hz1].
  rewrite !float_of_int_exact by assumption.
  rewrite andb_true_r, <- !andb_assoc. reflexivity.
Qed.

(** The loop over the splats of an item adds one for each splat that passes
    the test among the [fuel] splats it visits. *)
Lemma copy_splats_count fuel g :
  forall input progress out,
    fst (copy_splats Splat position fuel g input progress out)
    = progress + Z.of_nat (length (List.filter (inside g) (take fuel input))).
Proof.
  induction fuel as [| fuel IH]; intros input progress out.
  - rewrite take_0. cbn. lia.
  - destruct input as [| s rest]; [rewrite take_nil; cbn; lia |].
    rewrite firstn_cons. cbn [copy_splats List.filter]. rewrite IH.
    destruct (inside g s); cbn [length]; lia.
Qed.

(** The SubItem made for a work item. *)
Lemma copy_item_progress c work :
  small_extents (work_grid Splat work) ->
  progressSplats (fst (copy_item Splat position c work))
  = count_in_extents (work_grid Splat work) (item_splats Splat work)
  /\ grid (fst (copy_item Splat position c work)) = work_grid Splat work
  /\ numSplats (fst (copy_item Splat position c work))
     = work_numSplats Splat work.
Proof.
  intros Hg. unfold copy_item.
  pose proof (copy_splats_count (Z.to_nat (work_numSplats Splat work))
                (work_grid Splat work) (work_splats Splat work) 0
                (take (Z.to_nat (bufferedSplats Splat c)) (pinned Splat c)))
    as Hcount.
  destruct (copy_splats Splat position _ _ _ _ _) as [progress out].
  cbn [fst progressSplats grid numSplats] in *.
  split; [| split; reflexivity].
  rewrite Hcount, Z.add_0_l. unfold ProgressSpec.count_in_extents, item_splats.
  do 2 f_equal. apply filter_ext. intros s. apply inside_exact, Hg.
Qed.

(** What a call of [operator()] leaves in [bufferedItems]: the items that
    were there, or none of them after a flush, and the SubItem of the work
    item. *)
Lemma copy_operator_appends maxDeviceItemSplats c g work c' g' :
  copy_operator Splat position maxDeviceItemSplats c g work = Some (c', g') ->
  exists c1 before,
    bufferedItems Splat c'
    = before ++ [fst (copy_item Splat position c1 work)].
Proof.
  unfold copy_operator. intros Hcall.
  destruct (if maxDeviceItemSplats
               <? u64 (bufferedSplats Splat c + work_numSplats Splat work)
            then flush Splat c g else Some (c, g)) as [[c1 g1] |];
    [| discriminate].
  destruct (copy_item Splat position c1 work) as [subItem out] eqn:Hitem.
  inversion Hcall; subst. cbn [bufferedItems].
  exists c1, (bufferedItems Splat c1). rewrite Hitem. reflexivity.
Qed.

(** The sum of the numbers of a list. *)
Definition total (l : list Z) : Z := fold_right Z.add 0 l.

Lemma process_progress maxDeviceItemSplats (items : list (WorkItem Splat)) :
  forall c g subs st,
    Forall (fun work => small_extents (work_grid Splat work)) items ->
    process Splat position maxDeviceItemSplats items c g = Some (subs, st) ->
    map progressSplats subs
    = map (fun work => count_in_extents (work_grid Splat work)
                                        (item_splats Splat work)) items
    /\ map grid subs = map (work_grid Splat) items.
Proof.
  induction items as [| work rest IH]; intros c g subs st Hsmall Hrun.
  - cbn in Hrun. inversion Hrun; subst. split; reflexivity.
  - apply Forall_cons in Hsmall as [Hwork Hrest].
    cbn [process] in Hrun.
    destruct (copy_operator Splat position maxDeviceItemSplats c g work)
      as [[c' g'] |] eqn:Hcall; [| discriminate].
    destruct (process Splat position maxDeviceItemSplats rest c' g')
      as [[subs' st'] |] eqn:Hrec; [| discriminate].
    inversion Hrun; subst. clear Hrun.
    destruct (copy_operator_appends _ _ _ _ _ _ Hcall) as (c1 & before & Happ).
    rewrite Happ, last_snoc.
    change (option_list (Some (fst (copy_item Splat position c1 work)))
            ++ subs')
      with (fst (copy_item Splat position c1 work) :: subs').
    cbn [map].
    destruct (copy_item_progress c1 work Hwork) as (Hp & Hg & _).
    destruct (IH _ _ _ _ Hrest Hrec) as [IHp IHg].
    rewrite Hp, Hg, IHp, IHg. split; reflexivity.
Qed.


End Progress.

(** ** Two work items and an extent that is no float *)

(** A splat given by its position. *)
Definition at_position (s : Q * Q * Q) (j : nat) : Q :=
  match j with
  | O => fst (fst s)
  | S O => snd (fst s)
  | _ => snd s
  end.

(** Six splats for the grid [[0, 4) x [1, 3) x [-2, 2)]: three lie inside
    it, and one lies outside on each axis. *)
Definition first_item : WorkItem (Q * Q * Q) :=
  mkWorkItem (Q * Q * Q) 0 (mkGrid (0, 4) (1, 3) (-2, 2)) 6
             [ (1, 2, 0); (1, 3, 0); (5, 2, 0); (0, 1, -2);
               (7 # 2, 5 # 2, 3 # 2); (1, 2, 2) ]%Q.

(** Two splats for the grid [[4, 6) x [1, 3) x [-2, 2)], one inside it. *)
Definition second_item : WorkItem (Q * Q * Q) :=
  mkWorkItem (Q * Q * Q) 0 (mkGrid (4, 6) (1, 3) (-2, 2)) 2
             [ (5, 2, 0); (1, 2, 0) ]%Q.

Lemma two_items_small :
  Forall (fun work => small_extents (work_grid (Q * Q * Q) work))
         [first_item; second_item].
Proof.
  assert (H : forall x0 x1,
             - 2 ^ 24 <= x0 <= 2 ^ 24 -> - 2 ^ 24 <= x1 <= 2 ^ 24 ->
             small_extents (mkGrid (x0, x1) (1, 3) (-2, 2))).
  { intros x0 x1 H0 H1 [| [| j]] _; cbn [getExtent extentX extentY extentZ fst snd];
      lia. }
  repeat apply List.Forall_cons; try apply List.Forall_nil;
    cbn [first_item second_item work_grid]; apply H; lia.
Qed.


(** A work item whose grid starts at [2 ^ 24 + 1] on the first axis, with
    one splat at [2 ^ 24], before the grid. *)
Definition far_item : WorkItem (Q * Q * Q) :=
  mkWorkItem (Q * Q * Q) 0 (mkGrid (16777217, 16777219) (0, 1) (0, 1)) 1
             [ (16777216, 0, 0) ]%Q.


End ProgressFacts.

(* ===================================================================== *)
(** * Facts about splat_tree.cpp: the tree of a single splat *)
(* ===================================================================== *)

Module SplatTreeInitFacts.
Import Machine Outcome SplatTree Grids SplatTreeInit MachineFacts SplatTreeFacts.

(** ** The number of levels *)

Lemma shiftl_1_small m : 0 <= m <= 10 -> u32 (Z.shiftl 1 m) = 2 ^ m.
Proof.
  intros Hm. rewrite Z.shiftl_1_l. apply u32_small. unfold is_u32, UINT32_MAX.
  assert (2 ^ m <= 2 ^ 10) by (apply Z.pow_le_mono_r; lia).
  assert (0 < 2 ^ m) by (apply Z.pow_pos_nonneg; lia). lia.
Qed.

(** From [m] on, the loop stops at the first level whose side holds [size]
    vertices, after at most [10 - m] turns. *)
Lemma maxLevel_loop_from (k : nat) :
  forall m fuel size,
    0 <= m -> m + Z.of_nat k = 10 -> (k <= fuel)%nat -> size <= 1024 ->
    exists L, m <= L <= 10 /\ maxLevel_loop fuel size m = Ok L /\ size <= 2 ^ L.
Proof.
  induction k as [| k IH]; intros m fuel size Hm Hk Hfuel Hsize.
  - assert (m = 10) by lia. subst m. exists 10.
    split; [lia |]. split; [| exact Hsize].
    destruct fuel; cbn [maxLevel_loop]; rewrite shiftl_1_small by lia;
      destruct (Z.ltb_spec (2 ^ 10) size); try reflexivity; lia.
  - destruct fuel as [| fuel]; [lia |]. cbn [maxLevel_loop].
    rewrite shiftl_1_small by lia.
    destruct (Z.ltb_spec (2 ^ m) size) as [Hlt | Hge].
    + rewrite u32_small by (unfold is_u32, UINT32_MAX; lia).
      destruct (IH (m + 1) fuel size) as (L & HL & Hrun & Hle); try lia.
      exists L. split; [lia |]. split; assumption.
    + exists m. split; [lia |]. split; [reflexivity | exact Hge].
Qed.

Lemma maxLevel_loop_bound fuel size :
  2 <= size <= 1024 -> (10 <= fuel)%nat ->
  exists L, 1 <= L <= 10 /\ maxLevel_loop fuel size 0 = Ok L /\ size <= 2 ^ L.
Proof.
  intros Hsize Hfuel.
  destruct (maxLevel_loop_from 10 0 fuel size) as (L & HL & Hrun & Hle);
    try lia.
  exists L. split; [| split; assumption].
  destruct (Z.eq_dec L 0) as [-> | Hne]; [| lia].
  change (2 ^ 0) with 1 in Hle. lia.
Qed.

(** ** The entries of a splat over the vertices [0, 1] of every axis *)

Definition unit_cube : list (Z * Z * Z) :=
  [(0, 0, 0); (1, 0, 0); (0, 1, 0); (1, 1, 0);
   (0, 0, 1); (1, 0, 1); (0, 1, 1); (1, 1, 1)].

(** The entries in the order of creation and in sorted order. *)
Definition created (L : Z) : list Entry :=
  map (fun c => mkEntry L c 0) [0; 1; 2; 3; 4; 5; 6; 7].

Definition sorted (L : Z) : list Entry :=
  map (fun c => mkEntry L c 0) [7; 6; 5; 4; 3; 2; 1; 0].

Lemma shift_loop_unit fuel : shift_loop fuel 0 1 0 = Ok 0.
Proof. destruct fuel; reflexivity. Qed.

Lemma push_unit_cube L id entries :
  push_cells L id unit_cube entries
  = Ok (entries ++ map (fun c => mkEntry L c id) [0; 1; 2; 3; 4; 5; 6; 7]).
Proof.
  unfold unit_cube. cbn [push_cells].
  change (makeCode 0 0 0) with (Ok (A := Z) 0).
  change (makeCode 1 0 0) with (Ok (A := Z) 1).
  change (makeCode 0 1 0) with (Ok (A := Z) 2).
  change (makeCode 1 1 0) with (Ok (A := Z) 3).
  change (makeCode 0 0 1) with (Ok (A := Z) 4).
  change (makeCode 1 0 1) with (Ok (A := Z) 5).
  change (makeCode 0 1 1) with (Ok (A := Z) 6).
  change (makeCode 1 1 1) with (Ok (A := Z) 7).
  cbn [bind map]. rewrite <- !app_assoc. reflexivity.
Qed.

Lemma entry_lt_level L c i c' i' :
  entry_lt (mkEntry L c i) (mkEntry L c' i') = (c' <? c).
Proof. unfold entry_lt. cbn. rewrite Z.eqb_refl. reflexivity. Qed.

Lemma stable_sort_created L : stable_sort (created L) = sorted L.
Proof.
  unfold stable_sort, created, sorted. cbn [map fold_right insert_entry].
  repeat (rewrite entry_lt_level;
          match goal with
          | |- context [?a <? ?b] =>
              let v := eval vm_compute in (a <? b) in
              change (a <? b) with v
          end;
          cbn [insert_entry]).
  reflexivity.
Qed.

Lemma numCommands_sorted L : numCommands (sorted L) = 16.
Proof.
  unfold numCommands, sorted. cbn [map key_changes length entry_level entry_code].
  rewrite !Z.eqb_refl. reflexivity.
Qed.

Section Single.

Variable Splat : Type.
Variables ilo_of ihi_of : Splat -> nat -> Z.
Variable assertions : bool.
Variable stray : Entry.

(** The influence box of [s] covers the vertices [0] and [1] of every
    axis. *)
Definition covers_unit_cube (s : Splat) : Prop :=
  forall i, (i < 3)%nat -> ilo_of s i = 0 /\ ihi_of s i = 1.

Lemma axis_shift_unit fuel dims s i :
  covers_unit_cube s -> (i < 3)%nat -> 2 <= dims i <= 1024 ->
  axis_shift Splat ilo_of ihi_of fuel dims s 0 i = Ok 0.
Proof.
  intros Hs Hi Hdim. unfold axis_shift.
  destruct (Hs i Hi) as [-> ->].
  rewrite s32_small by (unfold is_s32, INT32_MIN, INT32_MAX; lia).
  destruct (Z.ltb_spec 1 (dims i)); [| lia].
  destruct (Z.ltb_spec 0 (dims i)); [| lia].
  cbn. apply shift_loop_unit.
Qed.

Lemma all_entries_unit fuel dims L s :
  covers_unit_cube s -> 1 <= L <= 10 ->
  (forall i, (i < 3)%nat -> 2 <= dims i <= 1024) ->
  all_entries Splat ilo_of ihi_of assertions fuel dims L (u32 (L + 1)) 0 [s] []
  = Ok (created L).
Proof.
  intros Hs HL Hdims. cbn [all_entries]. unfold splat_entries.
  do 3 (rewrite axis_shift_unit by (try apply Hdims; auto); cbn [bind]).
  rewrite (u32_small (L + 1)) by (unfold is_u32, UINT32_MAX; lia).
  unfold Blob.c_assert. destruct (Z.ltb_spec 0 (L + 1)); [| lia].
  rewrite andb_false_r. cbn [bind negb].
  unfold cells.
  destruct (Hs 0%nat ltac:(lia)) as [-> ->].
  destruct (Hs 1%nat ltac:(lia)) as [-> ->].
  destruct (Hs 2%nat ltac:(lia)) as [-> ->].
  rewrite Z.sub_0_r, (u32_small L) by (unfold is_u32, UINT32_MAX; lia).
  change (flat_map _ _) with unit_cube.
  rewrite push_unit_cube. reflexivity.
Qed.

(** ** One cell of the build loop *)

(** An entry that does not carry the key [(level, code)]. *)
Definition misses (e : Entry) (level code : Z) : Prop :=
  entry_level e <> level \/ entry_code e <> code.

Lemma misses_false e level code :
  misses e level code ->
  (entry_level e =? level) && (entry_code e =? code) = false.
Proof.
  intros [H | H]; [apply Z.eqb_neq in H | apply Z.eqb_neq in H]; rewrite H;
    [reflexivity | apply andb_false_r].
Qed.

Lemma scan_miss fuel entries level code q :
  misses (nth q entries stray) level code ->
  scan stray fuel entries level code q = Ok q.
Proof.
  intros H. apply misses_false in H. destruct fuel; cbn [scan]; rewrite H;
    reflexivity.
Qed.

Lemma scan_one fuel entries level code q id :
  nth q entries stray = mkEntry level code id ->
  misses (nth (S q) entries stray) level code ->
  scan stray (S fuel) entries level code q = Ok (S q).
Proof.
  intros Hq Hnext. cbn [scan]. rewrite Hq. cbn [entry_level entry_code].
  rewrite !Z.eqb_refl. cbn [andb]. apply scan_miss. exact Hnext.
Qed.

Lemma shiftr_3_le c : 0 <= c -> 0 <= Z.shiftr c 3 <= c.
Proof.
  intros Hc. rewrite Z.shiftr_div_pow2 by lia. change (2 ^ 3) with 8.
  Z.div_mod_to_equations. lia.
Qed.

(** A cell without entries, while [start] holds nothing but [-1]. *)
Lemma build_cell_miss fuel entries level c st N :
  start st = replicate N (-1) -> 0 <= c -> (Z.to_nat c < N)%nat ->
  misses (nth (next_entry st) entries stray) level c ->
  build_cell stray fuel entries level c st = Ok st.
Proof.
  intros Hstart Hc HN Hmiss. unfold build_cell.
  rewrite scan_miss by exact Hmiss. cbn [bind].
  rewrite Nat.ltb_irrefl. rewrite Hstart, nth_lookup.
  pose proof (shiftr_3_le c Hc) as Hup.
  rewrite lookup_replicate_2 by lia. cbn [default].
  rewrite insert_replicate. rewrite <- Hstart. destruct st; reflexivity.
Qed.

(** A cell with one entry, under a parent without commands. *)
Lemma build_cell_hit fuel entries level c id st :
  nth (next_entry st) entries stray = mkEntry level c id ->
  misses (nth (S (next_entry st)) entries stray) level c ->
  nth (Z.to_nat (Z.shiftr c 3)) (start st) 0 = -1 ->
  build_cell stray (S fuel) entries level c st
  = Ok (mkBuild (<[Z.to_nat c := curCommand st]> (start st))
                (commands st ++ [id; -1])
                (command (curCommand st + 1 + 1))
                (S (next_entry st))).
Proof.
  intros Hp Hnext Hup. unfold build_cell.
  rewrite (scan_one fuel entries level c (next_entry st) id Hp Hnext).
  cbn [bind]. rewrite Hup.
  replace (next_entry st <? S (next_entry st))%nat with true
    by (symmetry; apply Nat.ltb_lt; lia).
  replace (S (next_entry st) - next_entry st)%nat with 1%nat by lia.
  cbn [seq map]. rewrite Nat.add_0_r, Hp. reflexivity.
Qed.

(** ** The loops over the codes and the levels *)

(** Cells without entries leave the state as it is. *)
Lemma build_codes_skip (m : nat) :
  forall k fuel entries level st N,
    start st = replicate N (-1) -> (m + k <= N)%nat ->
    (forall c, Z.of_nat k <= c < Z.of_nat (m + k) ->
               misses (nth (next_entry st) entries stray) level c) ->
    build_codes stray fuel entries level (m + k) st
    = build_codes stray fuel entries level k st.
Proof.
  induction m as [| m IH]; intros k fuel entries level st N Hstart HN Hmiss.
  - reflexivity.
  - cbn [Nat.add build_codes].
    rewrite (build_cell_miss fuel entries level (Z.of_nat (m + k)) st N)
      by (try apply Hmiss; try assumption; lia).
    cbn [bind]. apply (IH k fuel entries level st N); [assumption | lia |].
    intros c Hc. apply Hmiss. lia.
Qed.

Lemma code_shiftl l : 0 <= l <= 10 -> code (Z.shiftl 1 (3 * l)) = 2 ^ (3 * l).
Proof.
  intros Hl. rewrite Z.shiftl_1_l. unfold code, to_unsigned, code_digits.
  apply Z.mod_small.
  assert (2 ^ (3 * l) <= 2 ^ 30) by (apply Z.pow_le_mono_r; lia).
  assert (0 < 2 ^ (3 * l)) by (apply Z.pow_pos_nonneg; lia).
  change (2 ^ 30) with 1073741824 in *. change (2 ^ 32) with 4294967296. lia.
Qed.

(** The levels above the level of the entries. *)
Lemma build_levels_below (levels : list Z) :
  forall fuel entries st L,
    1 <= L <= 10 ->
    start st = replicate (Z.to_nat (2 ^ (3 * L))) (-1) ->
    Forall (fun l => 0 <= l < L) levels ->
    entry_level (nth (next_entry st) entries stray) = L ->
    build_levels stray fuel entries levels st = Ok st.
Proof.
  induction levels as [| l rest IH]; intros fuel entries st L HL Hstart Hlv He.
  - reflexivity.
  - apply Forall_cons in Hlv as [Hl Hrest]. cbn [build_levels].
    rewrite code_shiftl by lia.
    assert (Hpow : 2 ^ (3 * l) <= 2 ^ (3 * L)) by (apply Z.pow_le_mono_r; lia).
    pose proof (build_codes_skip (Z.to_nat (2 ^ (3 * l))) 0 fuel entries l st
                  _ Hstart) as Hskip.
    rewrite Nat.add_0_r in Hskip. rewrite Hskip.
    + cbn [build_codes bind]. apply (IH fuel entries st L); assumption.
    + lia.
    + intros c _. left. lia.
Qed.

(** ** The level of the entries *)

(** The state in which the build loop ends: the eight cells of the cube
    start a run each, in decreasing order of code. *)
Definition final_start (m : nat) : list Z :=
  [14; 12; 10; 8; 6; 4; 2; 0] ++ replicate m (-1).

Definition final_commands : list Z := concat (replicate 8 [0; -1]).

Ltac hit_cell Hstray :=
  rewrite (build_cell_hit _ _ _ _ 0);
  [ cbn [bind next_entry start commands curCommand]
  | reflexivity
  | first [ exact Hstray | right; cbn; discriminate ]
  | reflexivity ].

Lemma build_codes_top fuel L m :
  misses stray L 0 ->
  build_codes stray (S fuel) (sorted L) L (m + 8)
              (mkBuild (replicate (8 + m) (-1)) [] 0 0)
  = Ok (mkBuild (final_start m) final_commands 16 8).
Proof.
  intros Hstray.
  rewrite (build_codes_skip m 8 (S fuel) (sorted L) L _ (8 + m));
    [| reflexivity | lia | intros c Hc; right; cbn; lia].
  cbn [build_codes].
  do 8 hit_cell Hstray.
  reflexivity.
Qed.

Lemma build_levels_app fuel entries l1 :
  forall l2 st,
    build_levels stray fuel entries (l1 ++ l2) st
    = let! st' := build_levels stray fuel entries l1 st in
      build_levels stray fuel entries l2 st'.
Proof.
  induction l1 as [| l rest IH]; intros l2 st; [reflexivity |].
  cbn [app build_levels].
  destruct (build_codes stray fuel entries l _ st) as [st' | e |];
    cbn [bind]; [apply IH | reflexivity | reflexivity].
Qed.

(** ** The loops over ranges of integers *)

Lemma in_from_to v lo hi : In v (from_to lo hi) <-> lo <= v <= hi.
Proof.
  unfold from_to. rewrite in_map_iff. split.
  - intros (k & <- & Hk). apply in_seq in Hk. lia.
  - intros Hv. exists (Z.to_nat (v - lo)). split; [lia |].
    apply in_seq. lia.
Qed.

Lemma from_to_snoc L : 0 <= L -> from_to 0 L = from_to 0 (L - 1) ++ [L].
Proof.
  intros HL. unfold from_to.
  replace (Z.to_nat (L - 0 + 1)) with (S (Z.to_nat L)) by lia.
  replace (Z.to_nat (L - 1 - 0 + 1)) with (Z.to_nat L) by lia.
  rewrite seq_S, map_app. cbn [map]. f_equal. f_equal. lia.
Qed.

Lemma in_cells x y z lo hi :
  In (x, y, z) (cells lo hi) ->
  lo 0%nat <= x <= hi 0%nat /\ lo 1%nat <= y <= hi 1%nat
  /\ lo 2%nat <= z <= hi 2%nat.
Proof.
  unfold cells. rewrite in_flat_map. intros (z' & Hz & Hin).
  apply in_flat_map in Hin. destruct Hin as (y' & Hy & Hin).
  apply in_map_iff in Hin. destruct Hin as (x' & Heq & Hx).
  inversion Heq; subst. rewrite in_from_to in Hx, Hy, Hz. tauto.
Qed.

(** ** The transfer to the backing store *)

Lemma transfer_total L st (todo : list (Z * Z * Z)) :
  forall real,
    1 <= L <= 10 ->
    (forall x y z, In (x, y, z) todo -> in_cube L x y z) ->
    transfer st todo real
    = Ok (real ++ map (fun c : Z * Z * Z =>
                         let (xy, z) := c in
                         let (x, y) := xy in
                         (x, y, z,
                          nth (Z.to_nat (interleave (Z.to_nat L) x y z)) st 0))
                      todo).
Proof.
  induction todo as [| [[x y] z] rest IH]; intros real HL Hin.
  - cbn. rewrite app_nil_r. reflexivity.
  - cbn [transfer map].
    rewrite (makeCode_interleave L x y z)
      by (unfold code_digits; try lia; apply Hin; left; reflexivity).
    cbn [bind]. rewrite IH; [| exact HL | intros; apply Hin; right; assumption].
    rewrite <- app_assoc. reflexivity.
Qed.

(** ** The codes of the vertices *)

Lemma code_unit_cube x y z :
  0 <= x < 2 -> 0 <= y < 2 -> 0 <= z < 2 ->
  makeCode x y z = Ok (x + 2 * y + 4 * z).
Proof.
  intros Hx Hy Hz.
  assert (Hx' : x = 0 \/ x = 1) by lia.
  assert (Hy' : y = 0 \/ y = 1) by lia.
  assert (Hz' : z = 0 \/ z = 1) by lia.
  destruct Hx' as [-> | ->], Hy' as [-> | ->], Hz' as [-> | ->]; reflexivity.
Qed.

Lemma half_zero x : 0 <= x -> x / 2 = 0 -> x < 2.
Proof. intros Hx H. Z.div_mod_to_equations. lia. Qed.

(** A vertex outside the unit cube has a code of 8 or more. *)
Lemma code_outside L x y z :
  1 <= L <= 10 -> in_cube L x y z -> ~ (x < 2 /\ y < 2 /\ z < 2) ->
  exists c, makeCode x y z = Ok c /\ 8 <= c < 2 ^ (3 * L).
Proof.
  intros HL Hcube Hout.
  exists (interleave (Z.to_nat L) x y z).
  split; [apply makeCode_interleave; unfold code_digits; try lia; assumption |].
  pose proof (interleave_range (Z.to_nat L) x y z) as Hrange.
  rewrite <- pow2_3L in Hrange by lia. split; [| lia].
  destruct (Z.to_nat L) as [| n] eqn:Hn; [lia |].
  cbn [interleave].
  pose proof (interleave_range n (x / 2) (y / 2) (z / 2)) as Hr.
  destruct (Z.eq_dec (interleave n (x / 2) (y / 2) (z / 2)) 0) as [H0 | Hne].
  - exfalso. apply Hout. destruct Hcube as (Hx & Hy & Hz).
    assert (Hpow : 2 ^ L = 2 * 2 ^ Z.of_nat n).
    { replace L with (Z.succ (Z.of_nat n)) by lia.
      apply Z.pow_succ_r. lia. }
    rewrite Hpow in Hx, Hy, Hz.
    rewrite <- (interleave_zero n) in H0.
    apply interleave_inj in H0; try (apply half_range; assumption);
      try (split; [lia | apply Z.pow_pos_nonneg; lia]).
    destruct H0 as (Hx0 & Hy0 & Hz0).
    repeat split; apply half_zero; tauto || lia.
  - pose proof (Z.mod_pos_bound x 2 ltac:(lia)).
    pose proof (Z.mod_pos_bound y 2 ltac:(lia)).
    pose proof (Z.mod_pos_bound z 2 ltac:(lia)). lia.
Qed.

(** ** The tree of a single splat *)

Lemma code_small x : 0 <= x <= 1024 -> code x = x.
Proof.
  intros Hx. unfold code, to_unsigned, code_digits. apply Z.mod_small.
  change (2 ^ 32) with 4294967296. lia.
Qed.

Lemma initialize_single (g : Grid) (s : Splat) (fuel : nat) :
  covers_unit_cube s ->
  (forall i, (i < 3)%nat -> 2 <= numVertices g i <= 1024) ->
  ~ (entry_code stray = 0 /\ 1 <= entry_level stray <= 10) ->
  (10 <= fuel)%nat ->
  exists L real,
    1 <= L <= 10
    /\ (forall i, (i < 3)%nat -> numVertices g i <= 2 ^ L)
    /\ initialize Splat ilo_of ihi_of assertions stray fuel g [s]
       = Ok (mkTree (L + 1) final_commands 16
                    (final_start (Z.to_nat (2 ^ (3 * L)) - 8)) real).
Proof.
  intros Hs Hdims Hstray Hfuel.
  pose (dims := fun i : nat => code (numVertices g i)).
  assert (Hd : forall i, (i < 3)%nat -> dims i = numVertices g i).
  { intros i Hi. apply code_small. specialize (Hdims i Hi). lia. }
  assert (Hd' : forall i, (i < 3)%nat -> 2 <= dims i <= 1024).
  { intros i Hi. rewrite Hd by exact Hi. apply Hdims, Hi. }
  pose proof (Hd' 0%nat ltac:(lia)) as H0.
  pose proof (Hd' 1%nat ltac:(lia)) as H1.
  pose proof (Hd' 2%nat ltac:(lia)) as H2.
  destruct (maxLevel_loop_bound fuel
              (Z.max (Z.max (dims 0%nat) (dims 1%nat)) (dims 2%nat)))
    as (L & HL & Hrun & Hsize); [lia | exact Hfuel |].
  exists L. eexists. split; [exact HL |]. split.
  { intros i Hi. rewrite <- Hd by exact Hi. destruct i as [| [| [| i]]]; lia. }
  unfold initialize. cbv zeta. fold dims.
  change (code (numVertices g 0)) with (dims 0%nat).
  change (code (numVertices g 1)) with (dims 1%nat).
  change (code (numVertices g 2)) with (dims 2%nat).
  rewrite Hrun. cbn [bind].
  rewrite (all_entries_unit fuel dims L s Hs HL Hd'). cbn [bind].
  rewrite stable_sort_created, numCommands_sorted.
  rewrite (u32_small (L + 1)) by (unfold is_u32, UINT32_MAX; lia).
  replace (L + 1 - 1) with L by lia.
  rewrite from_to_snoc, build_levels_app by lia.
  rewrite code_shiftl by lia.
  assert (Hpow : 2 ^ 3 <= 2 ^ (3 * L)) by (apply Z.pow_le_mono_r; lia).
  change (2 ^ 3) with 8 in Hpow.
  set (m := (Z.to_nat (2 ^ (3 * L)) - 8)%nat).
  rewrite (build_levels_below (from_to 0 (L - 1)) fuel (sorted L) _ L);
    [| exact HL | reflexivity
     | apply Forall_forall; intros l Hl; apply list_elem_of_In, in_from_to in Hl; lia
     | reflexivity ].
  cbn [bind build_levels]. rewrite code_shiftl by lia.
  replace (Z.to_nat (2 ^ (3 * L))) with (m + 8)%nat by lia.
  replace (m + 8)%nat with (8 + m)%nat at 2 by lia.
  destruct fuel as [| fuel]; [lia |].
  rewrite build_codes_top.
  - cbn [bind start commands].
    rewrite (transfer_total L).
    + cbn [bind app]. reflexivity.
    + exact HL.
    + intros x y z Hin. apply in_cells in Hin. cbv beta in Hin.
      change (code (numVertices g 0)) with (dims 0%nat) in Hin.
      change (code (numVertices g 1)) with (dims 1%nat) in Hin.
      change (code (numVertices g 2)) with (dims 2%nat) in Hin.
      unfold in_cube. lia.
  - unfold misses.
    destruct (Z.eq_dec (entry_level stray) L) as [Hl | Hl]; [| tauto].
    destruct (Z.eq_dec (entry_code stray) 0) as [Hc | Hc]; [| tauto].
    exfalso. apply Hstray. lia.
Qed.

(** C9. The tree of one splat whose influence box covers the vertices
    [0, 1] x [0, 1] x [0, 1], in a grid of 2 to 1024 vertices a side:
    [initialize] returns; the commands are eight runs, each the id of the
    splat followed by the terminator [-1], one run for each covered cell;
    the start entry of the covered cell of code [c] points at the run at
    [2 * (7 - c)]; the start entries of the other vertices of the grid, and
    of every code from 8 on, are [-1]. The entry [stray] that the loop reads
    at [entries[entries.size()]], one past the end of the vector, is taken
    not to carry code 0 together with a level from 1 to 10. *)
Theorem single_splat_tree (g : Grid) (s : Splat) (fuel : nat) :
  covers_unit_cube s ->
  (forall i, (i < 3)%nat -> 2 <= numVertices g i <= 1024) ->
  ~ (entry_code stray = 0 /\ 1 <= entry_level stray <= 10) ->
  (10 <= fuel)%nat ->
  exists t,
    SplatTree_new [s] = Ok tt
    /\ initialize Splat ilo_of ihi_of assertions stray fuel g [s] = Ok t
    /\ tree_commands t
       = [0; -1; 0; -1; 0; -1; 0; -1; 0; -1; 0; -1; 0; -1; 0; -1]
    /\ tree_numCommands t = 16
    /\ (forall x y z, 0 <= x < 2 -> 0 <= y < 2 -> 0 <= z < 2 ->
          exists c, makeCode x y z = Ok c
            /\ tree_start t !! Z.to_nat c = Some (2 * (7 - c))
            /\ tree_commands t !! Z.to_nat (2 * (7 - c)) = Some 0
            /\ tree_commands t !! Z.to_nat (2 * (7 - c) + 1) = Some (-1))
    /\ (forall x y z,
          0 <= x < numVertices g 0 -> 0 <= y < numVertices g 1 ->
          0 <= z < numVertices g 2 -> ~ (x < 2 /\ y < 2 /\ z < 2) ->
          exists c, makeCode x y z = Ok c
            /\ tree_start t !! Z.to_nat c = Some (-1))
    /\ (forall c, (8 <= c < length (tree_start t))%nat ->
          tree_start t !! c = Some (-1)).
Proof.
  intros Hs Hdims Hstray Hfuel.
  destruct (initialize_single g s fuel Hs Hdims Hstray Hfuel)
    as (L & real & HL & Hside & Hrun).
  eexists. split; [reflexivity |]. split; [exact Hrun |].
  cbn [tree_commands tree_numCommands tree_start].
  assert (Hpow : 2 ^ 3 <= 2 ^ (3 * L)) by (apply Z.pow_le_mono_r; lia).
  change (2 ^ 3) with 8 in Hpow.
  set (m := (Z.to_nat (2 ^ (3 * L)) - 8)%nat).
  assert (Hhigh : forall c, (8 <= c < 8 + m)%nat -> final_start m !! c = Some (-1)).
  { intros c Hc. unfold final_start. rewrite lookup_app_r by (cbn; lia).
    apply lookup_replicate_2. cbn [length]. lia. }
  split; [reflexivity |]. split; [reflexivity |]. split; [| split].
  - intros x y z Hx Hy Hz. exists (x + 2 * y + 4 * z).
    split; [apply code_unit_cube; assumption |].
    assert (Hx' : x = 0 \/ x = 1) by lia.
    assert (Hy' : y = 0 \/ y = 1) by lia.
    assert (Hz' : z = 0 \/ z = 1) by lia.
    destruct Hx' as [-> | ->], Hy' as [-> | ->], Hz' as [-> | ->];
      repeat split; reflexivity.
  - intros x y z Hx Hy Hz Hout.
    pose proof (Hside 0%nat ltac:(lia)). pose proof (Hside 1%nat ltac:(lia)).
    pose proof (Hside 2%nat ltac:(lia)).
    destruct (code_outside L x y z HL) as (c & Hc & Hrange);
      [unfold in_cube; lia | exact Hout |].
    exists c. split; [exact Hc |]. apply Hhigh. lia.
  - intros c Hc. apply Hhigh. unfold final_start in Hc.
    rewrite length_app, length_replicate in Hc. cbn [length] in Hc. lia.
Qed.

End Single.

(** A grid of three vertices a side, and one splat over the vertices 0 and 1
    of every axis. *)
Definition two_cells : Grid := mkGrid (0, 2) (0, 2) (0, 2).

Definition lo_corner (_ : unit) (_ : nat) : Z := 0.

Definition hi_corner (_ : unit) (_ : nat) : Z := 1.

Definition no_entry : Entry := mkEntry 0 0 0.

Lemma single_splat_tree_witness :
  exists t,
    initialize unit lo_corner hi_corner true no_entry 10 two_cells [tt] = Ok t
    /\ tree_commands t
       = [0; -1; 0; -1; 0; -1; 0; -1; 0; -1; 0; -1; 0; -1; 0; -1]
    /\ tree_start t !! 7%nat = Some 0
    /\ tree_start t !! 8%nat = Some (-1).
Proof.
  assert (Hs : covers_unit_cube unit lo_corner hi_corner tt)
    by (intros i _; split; reflexivity).
  assert (Hdims : forall i, (i < 3)%nat -> 2 <= numVertices two_cells i <= 1024).
  { intros i Hi. destruct i as [| [| [| i]]]; [| | | lia];
      unfold numVertices, numCells; cbn; lia. }
  assert (Hstray : ~ (entry_code no_entry = 0 /\ 1 <= entry_level no_entry <= 10))
    by (cbn; lia).
  assert (Hfuel : (10 <= 10)%nat) by lia.
  destruct (single_splat_tree unit lo_corner hi_corner true no_entry two_cells
              tt 10%nat Hs Hdims Hstray Hfuel)
    as (t & _ & Hrun & Hcommands & _ & Hcube & _ & Hhigh).
  exists t. split; [exact Hrun |]. split; [exact Hcommands |]. split.
  - destruct (Hcube 1 1 1 ltac:(lia) ltac:(lia) ltac:(lia))
      as (c & Hc & Hstart & _).
    change (makeCode 1 1 1) with (Ok (A := Z) 7) in Hc.
    inversion Hc; subst c. exact Hstart.
  - apply Hhigh. split; [lia |].
    vm_compute in Hrun. inversion Hrun; subst t. cbn. lia.
Defined.

(** With the same input the commands are not the single run [[0; -1]], and
    two covered cells start different runs. *)
Lemma single_splat_eight_runs :
  exists t,
    initialize unit lo_corner hi_corner true no_entry 10 two_cells [tt] = Ok t
    /\ tree_commands t <> [0; -1]
    /\ length (tree_commands t) = 16%nat
    /\ tree_start t !! 0%nat = Some 14
    /\ tree_start t !! 7%nat = Some 0.
Proof.
  eexists. split; [vm_compute; reflexivity |].
  cbn [tree_commands tree_start].
  split; [discriminate |]. split; [reflexivity |]. split; reflexivity.
Qed.

End SplatTreeInitFacts.

(* ===================================================================== *)
(** * Facts about bucket.cpp: the bucket recursion *)
(* ===================================================================== *)

Module BucketingFacts.
Import Machine Outcome Bucket Grids Bucketing.

(** The two caps on a call of the processing function: the number of
    splats, and the sides of the grid in cells. *)
Definition within_caps (maxSplats maxCells : Z) (c : Call) : Prop :=
  call_numSplats c <= maxSplats
  /\ forall i, (i < 3)%nat -> u64 (numCells (call_grid c) i) <= maxCells.

Lemma maxDim_sides g maxCells :
  maxDim (cell_dims g) <= maxCells ->
  forall i, (i < 3)%nat -> u64 (numCells g i) <= maxCells.
Proof.
  unfold maxDim, cell_dims. cbn [axis fst snd]. intros Hmax i Hi.
  destruct i as [| [| [| i]]]; lia.
Qed.

Section Caps.

Variable Splat : Type.
Variable box : Splat -> nat -> Q * Q.
Variable assertions : bool.
Variable files : list (list Splat).
Variables maxSplats maxCells maxSplit : Z.

Local Abbreviation recurse :=
  (bucketRecurse Splat box assertions files maxSplats maxCells maxSplit).

(** Whatever the run does, the processing function is only called within
    the caps. *)
Lemma emitted_within_caps (depth : nat) :
  forall loops first_last numSplats g log,
    Forall (within_caps maxSplats maxCells) log ->
    Forall (within_caps maxSplats maxCells)
           (fst (recurse depth loops first_last numSplats g log)).
Proof.
  induction depth as [| depth IH]; intros loops first_last numSplats g log Hlog.
  - exact Hlog.
  - cbn [bucketRecurse].
    destruct ((numSplats <=? maxSplats) && (maxDim (cell_dims g) <=? maxCells))
      eqn:Hbase.
    + apply andb_true_iff in Hbase. destruct Hbase as [Hn Hd].
      apply Z.leb_le in Hn, Hd. cbn [fst]. apply Forall_app. split; [exact Hlog |].
      constructor; [| constructor]. split; [exact Hn |].
      apply maxDim_sides. exact Hd.
    + destruct (bucketSplit _ _ _ _ _ _ _ _ _ _) as [children | e |];
        [| exact Hlog | exact Hlog].
      revert log Hlog. induction children as [| child rest IHrest];
        intros log Hlog; [exact Hlog |].
      specialize (IH loops (call_ranges child) (call_numSplats child)
                     (call_grid child) log Hlog).
      destruct (recurse depth loops (call_ranges child) (call_numSplats child)
                        (call_grid child) log) as [log' [[] | e |]];
        cbn [fst] in IH; [apply IHrest; exact IH | exact IH | exact IH].
Qed.

End Caps.

(** ** Ten splats inside one cell *)

(** A grid of two cells a side, and ten splats whose boxes lie inside its
    first cell; at most five splats a bucket. *)
Definition dense_grid : Grid := mkGrid (0, 2) (0, 2) (0, 2).

Definition dense_box (_ : unit) (_ : nat) : Q * Q := ((1 # 4)%Q, (3 # 4)%Q).

Definition dense_files : list (list unit) := [replicate 10 tt].

Definition dense_root : list SplatRange := [mkRange 0 10 0].

Definition dense_recurse (assertions : bool) :=
  bucketRecurse unit dense_box assertions dense_files 5 8 8.

(** The splats of the first cell of a row of eight, two to a cell; at most
    five splats a bucket and two cells a side. *)
Definition sparse_grid : Grid := mkGrid (0, 8) (0, 8) (0, 8).

Definition sparse_box (n : nat) (_ : nat) : Q * Q :=
  ((inject_Z (Z.of_nat n) + (1 # 4))%Q, (inject_Z (Z.of_nat n) + (3 # 4))%Q).

Definition sparse_files : list (list nat) := [seq 0 8].

(** The root of the dense input is all ten splats in one range. *)
Lemma dense_makeRoot : makeRoot unit dense_files = (10, dense_root).
Proof. reflexivity. Qed.

(** The microblock is the whole grid: it holds all ten splats and is picked,
    so the one recursive call has the arguments of the call that made it. *)
Lemma dense_split assertions loops :
  bucketSplit unit dense_box assertions dense_files 5 8 8 (S loops)
              dense_root dense_grid
  = Ok [mkCall 10 dense_root dense_grid].
Proof. destruct assertions; vm_compute; reflexivity. Qed.

Lemma dense_step assertions depth loops :
  dense_recurse assertions (S depth) (S loops) dense_root 10 dense_grid []
  = dense_recurse assertions depth (S loops) dense_root 10 dense_grid [].
Proof.
  unfold dense_recurse. cbn [bucketRecurse].
  change ((10 <=? 5) && (maxDim (cell_dims dense_grid) <=? 8)) with false.
  cbv iota. rewrite dense_split.
  change (call_ranges (mkCall 10 dense_root dense_grid)) with dense_root.
  change (call_numSplats (mkCall 10 dense_root dense_grid)) with 10.
  change (call_grid (mkCall 10 dense_root dense_grid)) with dense_grid.
  destruct (bucketRecurse unit dense_box assertions dense_files 5 8 8 depth
                          (S loops) dense_root 10 dense_grid [])
    as [log' [[] | e |]]; reflexivity.
Qed.

Lemma dense_never assertions (depth : nat) :
  forall loops,
    dense_recurse assertions depth loops dense_root 10 dense_grid []
    = ([], OutOfFuel).
Proof.
  induction depth as [| depth IH]; intros loops; [reflexivity |].
  destruct loops as [| loops].
  - destruct assertions; reflexivity.
  - rewrite dense_step. apply IH.
Qed.

(** C3. Every call of the processing function is within the two caps:
    at most [maxSplats] splats and at most [maxCells] cells a side. But a
    microblock that holds more than [maxSplats] splats is picked like any
    other, and no [DensityError] is raised: with ten splats inside one cell
    and [maxSplats = 5] the microblock is the whole grid, the recursive call
    has the arguments of the call that made it, and for no bound on the
    depth and on the loops does [bucket] return or raise. *)
Theorem bucket_dense_cell :
  (forall Splat box assertions files maxSplats maxCells maxSplit
          depth loops first_last numSplats g log,
     Forall (within_caps maxSplats maxCells) log ->
     Forall (within_caps maxSplats maxCells)
            (fst (bucketRecurse Splat box assertions files maxSplats maxCells
                                maxSplit depth loops first_last numSplats g
                                log)))
  /\ (forall assertions loops,
        bucketSplit unit dense_box assertions dense_files 5 8 8 (S loops)
                    dense_root dense_grid
        = Ok [mkCall 10 dense_root dense_grid])
  /\ (forall assertions depth loops,
        dense_recurse assertions (S depth) (S loops) dense_root 10 dense_grid []
        = dense_recurse assertions depth (S loops) dense_root 10 dense_grid [])
  /\ (forall assertions depth loops,
        bucket unit dense_box assertions dense_files 5 8 8 depth loops
               dense_grid
        = ([], OutOfFuel))
  /\ (forall assertions depth loops,
        snd (bucket unit dense_box assertions dense_files 5 8 8 depth loops
                    dense_grid)
        <> Throw (DensityError 10)).
Proof.
  assert (Hnever : forall assertions depth loops,
            bucket unit dense_box assertions dense_files 5 8 8 depth loops
                   dense_grid
            = ([], OutOfFuel)).
  { intros assertions depth loops. unfold bucket. rewrite dense_makeRoot.
    apply (dense_never assertions depth loops). }
  split; [intros; apply emitted_within_caps; assumption |].
  split; [exact dense_split |]. split; [exact dense_step |].
  split; [exact Hnever |].
  intros assertions depth loops. rewrite Hnever. cbn [snd]. discriminate.
Qed.

(** On the sparse input the recursion returns after four calls of the
    processing function, all within the caps. *)
Lemma bucket_dense_cell_witness :
  Forall (within_caps 5 2)
         (fst (bucketRecurse nat sparse_box true sparse_files 5 2 8 5 4
                             [mkRange 0 8 0] 8 sparse_grid []))
  /\ length (fst (bucketRecurse nat sparse_box true sparse_files 5 2 8 5 4
                                [mkRange 0 8 0] 8 sparse_grid [])) = 4%nat
  /\ snd (bucketRecurse nat sparse_box true sparse_files 5 2 8 5 4
                        [mkRange 0 8 0] 8 sparse_grid []) = Ok tt.
Proof.
  split; [| split; reflexivity].
  apply (proj1 bucket_dense_cell). constructor.
Defined.

End BucketingFacts.

(* ===================================================================== *)
(** * Facts about the bit fields of a blob record *)
(* ===================================================================== *)

Module FieldFacts.
Import Machine Outcome Blob MachineFacts BlobFacts.

(** The bits of a value below [2 ^ k] from bit [k] on are clear. *)
Lemma small_bits_high v k n : 0 <= v < 2 ^ k -> k <= n -> Z.testbit v n = false.
Proof.
  intros Hv Hn. destruct (Z_lt_dec k 0) as [Hneg | Hk].
  - rewrite Z.pow_neg_r in Hv by lia. lia.
  - rewrite <- (Z.mod_small v (2 ^ k)) by lia.
    apply Z.mod_pow2_bits_high. lia.
Qed.

(** The bits of the field of [k] bits at bit [l]. *)
Lemma field_bits w l k i :
  0 <= l -> 0 <= k -> 0 <= i ->
  Z.testbit ((w / 2 ^ l) mod 2 ^ k) i
  = (i <? k) && Z.testbit w (i + l).
Proof.
  intros Hl Hk Hi. destruct (Z.ltb_spec i k) as [Hlow | Hhigh].
  - rewrite Z.mod_pow2_bits_low by lia. rewrite Z.div_pow2_bits by lia.
    reflexivity.
  - apply Z.mod_pow2_bits_high. lia.
Qed.

(** A value placed in a clear field leaves the fields beside it alone. *)
Lemma field_beside payload v l k l' k' :
  0 <= l -> 0 <= k -> 0 <= v < 2 ^ k ->
  (payload / 2 ^ l) mod 2 ^ k = 0 ->
  0 <= l' -> 0 <= k' -> l' + k' <= l \/ l + k <= l' ->
  ((payload + v * 2 ^ l) / 2 ^ l') mod 2 ^ k' = (payload / 2 ^ l') mod 2 ^ k'.
Proof.
  intros Hl Hk Hv Hclear Hl' Hk' Hside.
  rewrite <- (lor_field payload v l k) by assumption.
  apply Z.bits_inj'. intros i Hi. rewrite !field_bits by lia.
  destruct (Z.ltb_spec i k') as [Hlow | Hhigh]; [| reflexivity].
  cbn [andb]. rewrite Z.lor_spec.
  destruct (Z_lt_dec (i + l') l) as [Hbelow | Habove].
  - rewrite Z.mul_pow2_bits_low by lia. apply orb_false_r.
  - rewrite Z.mul_pow2_bits by lia.
    rewrite (small_bits_high v k) by lia. apply orb_false_r.
Qed.

Lemma field_inserted payload v l k :
  0 <= l -> 0 <= k -> 0 <= v < 2 ^ k ->
  (payload / 2 ^ l) mod 2 ^ k = 0 ->
  ((payload + v * 2 ^ l) / 2 ^ l) mod 2 ^ k = v.
Proof.
  intros Hl Hk Hv Hclear.
  assert (Hp : 0 < 2 ^ l) by (apply Z.pow_pos_nonneg; lia).
  rewrite Z.div_add by lia.
  rewrite Z.add_mod by lia. rewrite Hclear, Z.add_0_l.
  rewrite Z.mod_mod by lia. apply Z.mod_small. lia.
Qed.

(** X1. A value that fits a field and is inserted with [insertUnsigned] into
    a payload whose field is clear is read back by [extractUnsigned], and
    every field beside it reads as it did before. *)
Theorem insert_extract_unsigned (assertions : bool) (payload v l h : Z) :
  0 <= l < h -> h <= 32 -> h - l < 32 ->
  0 <= v < 2 ^ (h - l) ->
  (payload / 2 ^ l) mod 2 ^ (h - l) = 0 ->
  exists p,
    insertUnsigned assertions payload v l h = Ok p
    /\ extractUnsigned assertions p l h = Ok v
    /\ forall l' h',
         0 <= l' < h' -> h' <= 32 -> h' - l' < 32 -> h' <= l \/ h <= l' ->
         extractUnsigned assertions p l' h'
         = extractUnsigned assertions payload l' h'.
Proof.
  intros Hl Hh Hk Hv Hclear. exists (payload + v * 2 ^ l).
  split; [apply insertUnsigned_value; assumption |]. split.
  - rewrite extractUnsigned_value by assumption.
    rewrite field_inserted by (assumption || lia). reflexivity.
  - intros l' h' Hl' Hh' Hk' Hside.
    rewrite !extractUnsigned_value by assumption.
    rewrite (field_beside payload v l (h - l)) by (assumption || lia).
    reflexivity.
Qed.

Lemma insert_extract_unsigned_witness :
  exists p,
    insertUnsigned true 2147483648 5 12 31 = Ok p
    /\ extractUnsigned true p 12 31 = Ok 5.
Proof.
  assert (Hl : 0 <= 12 < 31) by lia.
  assert (Hh : 31 <= 32) by lia.
  assert (Hk : 31 - 12 < 32) by lia.
  assert (Hv : 0 <= 5 < 2 ^ (31 - 12)) by (split; [lia | reflexivity]).
  assert (Hclear : (2147483648 / 2 ^ 12) mod 2 ^ (31 - 12) = 0) by reflexivity.
  destruct (insert_extract_unsigned true 2147483648 5 12 31 Hl Hh Hk Hv Hclear)
    as (p & Hins & Hext & _).
  exists p. split; assumption.
Defined.

(** X2. A difference from -4 to 3 that [insertSigned] puts into a clear
    field of three bits is read back by [extractSigned], as the [uint32_t]
    that converts to it. *)
Theorem insert_extract_signed (assertions : bool) (payload v l : Z) :
  0 <= l <= 28 -> -4 <= v <= 3 ->
  (payload / 2 ^ l) mod 2 ^ 3 = 0 ->
  exists p,
    insertSigned assertions payload v l (l + 3) = Ok p
    /\ extractSigned assertions p l (l + 3) = Ok (u32 v)
    /\ s32 (u32 v) = v.
Proof.
  intros Hl Hv Hclear. exists (payload + (v mod 8) * 2 ^ l).
  split; [apply insertSigned_value; assumption |].
  pose proof (Z.mod_pos_bound v 8 ltac:(lia)) as Hf.
  split.
  - rewrite extractSigned_value by assumption.
    change 8 with (2 ^ 3) at 2.
    rewrite (field_inserted payload (v mod 8) l 3)
      by (try assumption; try lia; change (2 ^ 3) with 8; lia).
    f_equal. f_equal. unfold signed3.
    destruct (Z.ltb_spec (v mod 8) 4) as [Hlow | Hhigh];
      Z.div_mod_to_equations; lia.
  - apply s32_u32. unfold is_s32, INT32_MIN, INT32_MAX. lia.
Qed.

Lemma insert_extract_signed_witness :
  exists p,
    insertSigned true 2147483648 (-3) 4 (4 + 3) = Ok p
    /\ extractSigned true p 4 (4 + 3) = Ok (u32 (-3))
    /\ s32 (u32 (-3)) = -3.
Proof.
  assert (Hl : 0 <= 4 <= 28) by lia.
  assert (Hv : -4 <= -3 <= 3) by lia.
  assert (Hclear : (2147483648 / 2 ^ 4) mod 2 ^ 3 = 0) by reflexivity.
  exact (insert_extract_signed true 2147483648 (-3) 4 Hl Hv Hclear).
Defined.

End FieldFacts.

(* ===================================================================== *)
(** * Facts about bucket.cpp: the choice of the microblocks *)
(* ===================================================================== *)

Module MicroblockFacts.
Import Machine Outcome Bucket Grids Bucketing MachineFacts.

Lemma u64_max_value : UINT64_MAX = 18446744073709551615.
Proof. reflexivity. Qed.

(** X3. [mulSat] multiplies two [std::size_t] values and clamps the product
    to the largest value of the type. *)
Theorem mulSat_min (a b : Z) :
  is_u64 a -> is_u64 b -> mulSat a b = Z.min (a * b) UINT64_MAX.
Proof.
  unfold is_u64, mulSat. rewrite u64_max_value. intros Ha Hb.
  destruct (Z.eqb_spec a 0) as [-> | Hne]; cbn [orb].
  - rewrite Z.mul_0_l. reflexivity.
  - destruct (Z.leb_spec b (18446744073709551615 / a)) as [Hfit | Hover].
    + assert (Hab : a * b <= 18446744073709551615).
      { transitivity (a * (18446744073709551615 / a)).
        - apply Z.mul_le_mono_nonneg_l; lia.
        - apply Z.mul_div_le. lia. }
      rewrite u64_small by (unfold is_u64; rewrite u64_max_value; nia). lia.
    + assert (Hab : 18446744073709551615 < a * b).
      { pose proof (Z.div_mod 18446744073709551615 a Hne) as Hdm.
        pose proof (Z.mod_pos_bound 18446744073709551615 a ltac:(lia)) as Hr.
        nia. }
      lia.
Qed.

Lemma mulSat_min_witness :
  mulSat 4294967296 4294967296 = Z.min (4294967296 * 4294967296) UINT64_MAX.
Proof.
  apply mulSat_min; unfold is_u64; rewrite u64_max_value; lia.
Defined.

(** X4. [divUp] by a positive [b] is the quotient rounded up, as long as
    [a + b - 1] fits [std::size_t]. *)
Theorem divUp_ceiling (a b : Z) :
  0 <= a -> 0 < b -> a + b - 1 <= UINT64_MAX ->
  exists q, divUp a b = Ok q /\ (q - 1) * b < a <= q * b.
Proof.
  intros Ha Hb Hfit. unfold divUp.
  destruct (Z.eqb_spec b 0) as [Hz | _]; [lia |].
  rewrite u64_small by (unfold is_u64; lia).
  eexists. split; [reflexivity |].
  Z.div_mod_to_equations. nia.
Qed.

Lemma divUp_ceiling_witness :
  exists q, divUp 7 2 = Ok q /\ (q - 1) * 2 < 7 <= q * 2.
Proof.
  apply divUp_ceiling; [lia | lia | rewrite u64_max_value; lia].
Defined.

(** ** The size of the microblocks *)

(** The number of microblocks of side [m] that tile a cell of sides [d], as
    the loop of [bucketRecurse] computes it. *)
Definition ceil_div (a b : Z) : Z := (a + b - 1) / b.

Definition microBlocks (d : Z * Z * Z) (m : Z) : Z :=
  mulSat (mulSat (mulSat 1 (ceil_div (axis d 0) m)) (ceil_div (axis d 1) m))
         (ceil_div (axis d 2) m).

Definition sides_fit (d : Z * Z * Z) : Prop :=
  forall i, (i < 3)%nat -> 0 <= axis d i < 2 ^ 63.

Lemma divUp_ok a s :
  0 <= a < 2 ^ 63 -> 0 <= s <= 63 ->
  divUp a (2 ^ s) = Ok (ceil_div a (2 ^ s)).
Proof.
  intros Ha Hs. unfold divUp, ceil_div.
  assert (Hp : 0 < 2 ^ s) by (apply Z.pow_pos_nonneg; lia).
  assert (Hle : 2 ^ s <= 2 ^ 63) by (apply Z.pow_le_mono_r; lia).
  destruct (Z.eqb_spec (2 ^ s) 0) as [Hz | _]; [lia |].
  rewrite u64_small; [reflexivity |].
  unfold is_u64. rewrite u64_max_value.
  change (2 ^ 63) with 9223372036854775808 in *. lia.
Qed.

Lemma ceil_div_small a m : 0 <= a <= m -> 0 < m -> 0 <= ceil_div a m <= 1.
Proof. intros Ha Hm. unfold ceil_div. Z.div_mod_to_equations. nia. Qed.

Lemma mulSat_small a b : 0 <= a <= 1 -> 0 <= b <= 1 -> 0 <= mulSat a b <= 1.
Proof.
  intros Ha Hb. unfold mulSat.
  assert (Ha' : a = 0 \/ a = 1) by lia. assert (Hb' : b = 0 \/ b = 1) by lia.
  destruct Ha' as [-> | ->], Hb' as [-> | ->]; vm_compute; split; discriminate.
Qed.

(** Microblocks at least as large as the cell: there is at most one. *)
Lemma microBlocks_one d m :
  sides_fit d -> 0 < m ->
  (forall i, (i < 3)%nat -> axis d i <= m) ->
  microBlocks d m <= 1.
Proof.
  intros Hd Hm Hle. unfold microBlocks.
  pose proof (Hd 0%nat ltac:(lia)). pose proof (Hd 1%nat ltac:(lia)).
  pose proof (Hd 2%nat ltac:(lia)).
  pose proof (Hle 0%nat ltac:(lia)). pose proof (Hle 1%nat ltac:(lia)).
  pose proof (Hle 2%nat ltac:(lia)).
  apply mulSat_small; [| apply ceil_div_small; lia].
  apply mulSat_small; [| apply ceil_div_small; lia].
  apply mulSat_small; [lia | apply ceil_div_small; lia].
Qed.

Section Micro.

Variable maxSplit : Z.
Variable d : Z * Z * Z.
Hypothesis maxSplit_pos : 1 <= maxSplit.
Hypothesis d_fit : sides_fit d.

(** One turn of the loop from [microSize = 2 ^ s]. *)
Lemma micro_loop_turn fuel (s : nat) :
  Z.of_nat s <= 62 ->
  micro_loop maxSplit (S fuel) d (2 ^ Z.of_nat s) s
  = if maxSplit <? microBlocks d (2 ^ Z.of_nat (S s))
    then micro_loop maxSplit fuel d (2 ^ Z.of_nat (S s)) (S s)
    else Ok (2 ^ Z.of_nat (S s), S s).
Proof.
  intros Hs. cbn [micro_loop].
  assert (Hm : u64 (2 ^ Z.of_nat s * 2) = 2 ^ Z.of_nat (S s)).
  { rewrite Nat2Z.inj_succ, Z.pow_succ_r by lia.
    assert (Hle : 2 ^ Z.of_nat s <= 2 ^ 62) by (apply Z.pow_le_mono_r; lia).
    assert (Hp : 0 < 2 ^ Z.of_nat s) by (apply Z.pow_pos_nonneg; lia).
    rewrite u64_small; [lia |]. unfold is_u64. rewrite u64_max_value.
    change (2 ^ 62) with 4611686018427387904 in Hle. lia. }
  rewrite Hm.
  rewrite !divUp_ok by (try (apply d_fit; lia); lia).
  cbn [bind]. reflexivity.
Qed.

Lemma micro_loop_from (k : nat) :
  forall (s : nat) fuel,
    Z.of_nat s + Z.of_nat k = 62 -> (k < fuel)%nat ->
    (forall t, 1 <= t <= Z.of_nat s -> maxSplit < microBlocks d (2 ^ t)) ->
    exists shift : nat,
      (s < shift)%nat /\ Z.of_nat shift <= 63
      /\ micro_loop maxSplit fuel d (2 ^ Z.of_nat s) s
         = Ok (2 ^ Z.of_nat shift, shift)
      /\ microBlocks d (2 ^ Z.of_nat shift) <= maxSplit
      /\ (forall t, 1 <= t < Z.of_nat shift ->
                    maxSplit < microBlocks d (2 ^ t)).
Proof.
  induction k as [| k IH]; intros s fuel Hk Hfuel Hinv;
    (destruct fuel as [| fuel]; [lia |]); rewrite micro_loop_turn by lia;
    destruct (Z.ltb_spec maxSplit (microBlocks d (2 ^ Z.of_nat (S s))))
      as [Hmore | Hdone].
  - exfalso.
    assert (Hone : microBlocks d (2 ^ Z.of_nat (S s)) <= 1).
    { apply microBlocks_one; [exact d_fit | apply Z.pow_pos_nonneg; lia |].
      intros i Hi. specialize (d_fit i Hi).
      replace (Z.of_nat (S s)) with 63 by lia. lia. }
    lia.
  - exists (S s). split; [lia |]. split; [lia |]. split; [reflexivity |].
    split; [exact Hdone |]. intros t Ht. apply Hinv. lia.
  - destruct (IH (S s) fuel) as (shift & Hlt & Hle & Hrun & Hfits & Hmin);
      [lia | lia | |].
    + intros t Ht. destruct (Z.eq_dec t (Z.of_nat (S s))) as [-> | Hne];
        [exact Hmore | apply Hinv; lia].
    + exists shift. split; [lia |]. split; [exact Hle |].
      split; [exact Hrun |]. split; assumption.
  - exists (S s). split; [lia |]. split; [lia |]. split; [reflexivity |].
    split; [exact Hdone |]. intros t Ht. apply Hinv. lia.
Qed.

End Micro.

(** X5. For a cell whose sides fit 63 bits and [maxSplit >= 1], the loop
    that chooses the microblocks ends within 63 turns with
    [microSize = 2 ^ microShift], [microShift >= 1]: the smallest such size
    for which the microblocks that tile the cell number at most
    [maxSplit]. *)
Theorem micro_loop_choice (maxSplit : Z) (d : Z * Z * Z) (fuel : nat) :
  1 <= maxSplit -> sides_fit d -> (63 <= fuel)%nat ->
  exists shift : nat,
    (1 <= shift <= 63)%nat
    /\ micro_loop maxSplit fuel d 1 0 = Ok (2 ^ Z.of_nat shift, shift)
    /\ microBlocks d (2 ^ Z.of_nat shift) <= maxSplit
    /\ (forall t, 1 <= t < Z.of_nat shift ->
                  maxSplit < microBlocks d (2 ^ t)).
Proof.
  intros Hsplit Hd Hfuel.
  destruct (micro_loop_from maxSplit d Hsplit Hd 62 0 fuel)
    as (shift & Hlt & Hle & Hrun & Hfits & Hmin); [lia | lia | |].
  - intros t Ht. cbn in Ht. lia.
  - exists shift. split; [lia |]. split; [exact Hrun |]. split; assumption.
Qed.

Lemma micro_loop_choice_witness :
  exists shift : nat,
    (1 <= shift <= 63)%nat
    /\ micro_loop 8 63 (16, 16, 16) 1 0 = Ok (2 ^ Z.of_nat shift, shift)
    /\ microBlocks (16, 16, 16) (2 ^ Z.of_nat shift) <= 8.
Proof.
  assert (Hsplit : 1 <= 8) by lia.
  assert (Hd : sides_fit (16, 16, 16)).
  { intros i Hi. destruct i as [| [| [| i]]]; cbn [axis fst snd];
      (split; [lia | reflexivity]). }
  assert (Hfuel : (63 <= 63)%nat) by lia.
  destruct (micro_loop_choice 8 (16, 16, 16) 63 Hsplit Hd Hfuel)
    as (shift & Hshift & Hrun & Hfits & _).
  exists shift. split; [exact Hshift |]. split; assumption.
Defined.

(** ** The levels of the octree *)

Section Macro.

Variable shift : nat.
Variable size : Z.
Hypothesis shift_range : (1 <= shift <= 63)%nat.
Hypothesis size_fits : 0 <= size < 2 ^ 63.

Lemma macro_side (levels : nat) :
  (1 <= levels)%nat -> Z.of_nat shift + Z.of_nat levels - 1 <= 63 ->
  u64 (Z.shiftl (2 ^ Z.of_nat shift) (Z.of_nat levels - 1))
  = 2 ^ (Z.of_nat shift + Z.of_nat levels - 1).
Proof.
  intros Hl Hle. rewrite Z.shiftl_mul_pow2 by lia.
  rewrite <- Z.pow_add_r by lia.
  replace (Z.of_nat shift + (Z.of_nat levels - 1))
    with (Z.of_nat shift + Z.of_nat levels - 1) by lia.
  assert (Hp : 2 ^ (Z.of_nat shift + Z.of_nat levels - 1) <= 2 ^ 63)
    by (apply Z.pow_le_mono_r; lia).
  assert (H0 : 0 < 2 ^ (Z.of_nat shift + Z.of_nat levels - 1))
    by (apply Z.pow_pos_nonneg; lia).
  apply u64_small. unfold is_u64. rewrite u64_max_value.
  change (2 ^ 63) with 9223372036854775808 in Hp. lia.
Qed.

Lemma macro_loop_from (k : nat) :
  forall (levels : nat) fuel,
    (1 <= levels)%nat ->
    Z.of_nat shift + Z.of_nat levels - 1 + Z.of_nat k = 63 ->
    (k <= fuel)%nat ->
    exists L : nat,
      (levels <= L)%nat /\ Z.of_nat shift + Z.of_nat L - 1 <= 63
      /\ macro_loop fuel (2 ^ Z.of_nat shift) size levels = Ok L
      /\ size <= 2 ^ (Z.of_nat shift + Z.of_nat L - 1)
      /\ (L = levels \/ 2 ^ (Z.of_nat shift + Z.of_nat L - 2) < size).
Proof.
  induction k as [| k IH]; intros levels fuel Hl Hk Hfuel.
  - exists levels. split; [lia |]. split; [lia |].
    assert (Hexit : macro_loop fuel (2 ^ Z.of_nat shift) size levels = Ok levels).
    { destruct fuel; cbn [macro_loop]; rewrite macro_side by lia;
        replace (Z.of_nat shift + Z.of_nat levels - 1) with 63 by lia;
        destruct (Z.ltb_spec (2 ^ 63) size); try reflexivity; lia. }
    split; [exact Hexit |]. split; [| left; reflexivity].
    replace (Z.of_nat shift + Z.of_nat levels - 1) with 63 by lia. lia.
  - destruct fuel as [| fuel]; [lia |]. cbn [macro_loop].
    rewrite macro_side by lia.
    destruct (Z.ltb_spec (2 ^ (Z.of_nat shift + Z.of_nat levels - 1)) size)
      as [Hmore | Hdone].
    + destruct (IH (S levels) fuel) as (L & HL & Hle & Hrun & Hfit & Hmin);
        [lia | lia | lia |].
      exists L. split; [lia |]. split; [exact Hle |]. split; [exact Hrun |].
      split; [exact Hfit |]. right. destruct Hmin as [-> | Hmin]; [| exact Hmin].
      replace (Z.of_nat shift + Z.of_nat (S levels) - 2)
        with (Z.of_nat shift + Z.of_nat levels - 1) by lia.
      exact Hmore.
    + exists levels. split; [lia |]. split; [lia |]. split; [reflexivity |].
      split; [exact Hdone | left; reflexivity].
Qed.

End Macro.

(** X6. For microblocks of side [2 ^ shift] and a cell whose sides fit 63
    bits, the loop that counts the levels of the octree ends with the
    smallest number of levels whose top cell is at least as large as the
    cell; so none of the assertions of [forEachCell] fails on the octree of
    [bucketRecurse], and the walk starts at the top cell. *)
Theorem macro_loop_choice (S : Type) (assertions : bool) (d : Z * Z * Z)
    (shift fuel : nat) :
  sides_fit d -> (1 <= shift <= 63)%nat -> (63 <= fuel)%nat ->
  exists L : nat,
    (1 <= L)%nat
    /\ macro_loop fuel (2 ^ Z.of_nat shift) (maxDim d) 1 = Ok L
    /\ maxDim d <= 2 ^ (Z.of_nat shift + Z.of_nat L - 1)
    /\ (L = 1%nat \/ 2 ^ (Z.of_nat shift + Z.of_nat L - 2) < maxDim d)
    /\ forall (func : Cell -> S -> outcome (bool * S)) (st : S),
         forEachCell assertions d (shift + L) func st
         = forEachCell_r func d (shift + L - 1) (0, 0, 0) st.
Proof.
  intros Hd Hshift Hfuel.
  pose proof (Hd 0%nat ltac:(lia)) as H0. pose proof (Hd 1%nat ltac:(lia)) as H1.
  pose proof (Hd 2%nat ltac:(lia)) as H2.
  assert (Hsize : 0 <= maxDim d < 2 ^ 63) by (unfold maxDim; lia).
  destruct (macro_loop_from shift (maxDim d) Hshift Hsize
              (63 - shift) 1 fuel)
    as (L & HL & Hle & Hrun & Hfit & Hmin); [lia | lia | lia |].
  exists L. split; [exact HL |]. split; [exact Hrun |].
  split; [exact Hfit |]. split; [exact Hmin |].
  intros func st. unfold forEachCell.
  replace (Nat.pred (shift + L)) with (shift + L - 1)%nat by lia.
  assert (Htop : u64 (Z.shiftl 1 (Z.of_nat (shift + L - 1)))
                 = 2 ^ (Z.of_nat shift + Z.of_nat L - 1)).
  { rewrite Z.shiftl_1_l.
    replace (Z.of_nat (shift + L - 1)) with (Z.of_nat shift + Z.of_nat L - 1)
      by lia.
    assert (Hp : 2 ^ (Z.of_nat shift + Z.of_nat L - 1) <= 2 ^ 63)
      by (apply Z.pow_le_mono_r; lia).
    assert (Hpos : 0 < 2 ^ (Z.of_nat shift + Z.of_nat L - 1))
      by (apply Z.pow_pos_nonneg; lia).
    apply u64_small. unfold is_u64. rewrite u64_max_value.
    change (2 ^ 63) with 9223372036854775808 in Hp. lia. }
  rewrite Htop. unfold maxDim in Hfit.
  destruct (Z.leb_spec 1 (Z.of_nat (shift + L))); [| lia].
  destruct (Z.leb_spec (axis d 0) (2 ^ (Z.of_nat shift + Z.of_nat L - 1)));
    [| lia].
  destruct (Z.leb_spec (axis d 1) (2 ^ (Z.of_nat shift + Z.of_nat L - 1)));
    [| lia].
  destruct (Z.leb_spec (axis d 2) (2 ^ (Z.of_nat shift + Z.of_nat L - 1)));
    [| lia].
  rewrite BlobFacts.c_assert_true. reflexivity.
Qed.

Lemma macro_loop_choice_witness :
  exists L : nat,
    (1 <= L)%nat
    /\ macro_loop 63 (2 ^ Z.of_nat 1) (maxDim (16, 16, 16)) 1 = Ok L
    /\ maxDim (16, 16, 16) <= 2 ^ (Z.of_nat 1 + Z.of_nat L - 1).
Proof.
  assert (Hd : sides_fit (16, 16, 16)).
  { intros i Hi. destruct i as [| [| [| i]]]; cbn [axis fst snd];
      (split; [lia | reflexivity]). }
  assert (Hshift : (1 <= 1 <= 63)%nat) by lia.
  assert (Hfuel : (63 <= 63)%nat) by lia.
  destruct (macro_loop_choice unit true (16, 16, 16) 1 63 Hd Hshift Hfuel)
    as (L & HL & Hrun & Hfit & _).
  exists L. split; [exact HL |]. split; assumption.
Defined.

End MicroblockFacts.

(* ===================================================================== *)
(** * Facts about bucket.cpp: the root bucket and the walk over its splats *)
(* ===================================================================== *)

Module RootFacts.
Import Machine Outcome Bucket Grids Bucketing MachineFacts.

Section Root.

Variable Splat : Type.

(** The vertices of a file with their indices from [j] on, and the splats of
    the files from file [i] on, each with its file and its index: file
    after file, and in a file by increasing index. *)
Fixpoint number_from (j : nat) (file : list Splat) : list (Z * Splat) :=
  match file with
  | [] => []
  | s :: rest => (Z.of_nat j, s) :: number_from (S j) rest
  end.

Fixpoint splats_from (i : nat) (files : list (list Splat))
    : list (Z * Z * Splat) :=
  match files with
  | [] => []
  | file :: rest =>
      map (fun js => (Z.of_nat i, fst js, snd js)) (number_from 0 file)
      ++ splats_from (S i) rest
  end.

(** [func] called on the splats of a list, in order. *)
Definition visit {St : Type} (func : Z -> Z -> Splat -> St -> outcome St)
    (todo : list (Z * Z * Splat)) (acc : outcome St) : outcome St :=
  fold_left (fun acc x =>
               let! st := acc in func (fst (fst x)) (snd (fst x)) (snd x) st)
            todo acc.

(** The ranges of a file that fits one range. *)
Lemma file_ranges_file i (file : list Splat) :
  Z.of_nat (length file) <= SIZE_MAX ->
  file_ranges (S (length file)) i (Z.of_nat (length file)) 0
  = match file with
    | [] => []
    | _ :: _ => [mkRange i (Z.of_nat (length file)) 0]
    end.
Proof.
  intros Hlen. destruct file as [| s rest]; [reflexivity |].
  set (n := Z.of_nat (length (s :: rest))) in *.
  assert (Hn : 0 < n) by (subst n; cbn [length]; lia).
  unfold SIZE_MAX, UINT32_MAX in Hlen. change (2 ^ 32 - 1) with 4294967295 in Hlen.
  cbn [length file_ranges].
  destruct (Z.ltb_spec 0 n) as [_ | Hbad]; [| lia].
  assert (Hsize : (if n <? u64 (0 + SIZE_MAX) then u32 (n - 0) else SIZE_MAX) = n).
  { change (u64 (0 + SIZE_MAX)) with 4294967295.
    destruct (Z.ltb_spec n 4294967295) as [Hlt | Hge].
    - rewrite Z.sub_0_r. apply u32_small. unfold is_u32, UINT32_MAX.
      change (2 ^ 32 - 1) with 4294967295. lia.
    - change SIZE_MAX with 4294967295. lia. }
  rewrite Hsize. f_equal.
  rewrite (u64_small (0 + n))
    by (unfold is_u64; change UINT64_MAX with 18446744073709551615; lia).
  rewrite Z.add_0_l.
  destruct (length rest); cbn [file_ranges]; rewrite Z.ltb_irrefl; reflexivity.
Qed.

Section Walk.

Variable files : list (list Splat).
Context {St : Type}.
Variable func : Z -> Z -> Splat -> St -> outcome St.

(** The body of the loop of [forEachSplat] over the splats of a range. *)
Definition range_body (r : SplatRange) (acc : outcome St) (j : nat)
    : outcome St :=
  let! st' := acc in
  let id := u64 (start r + Z.of_nat j) in
  match files !! Z.to_nat (scan r) with
  | Some file =>
      match file !! Z.to_nat id with
      | Some s => func (scan r) id s st'
      | None => Throw OutOfRange
      end
  | None => Throw OutOfRange
  end.

Lemma forEachSplat_fold first_last st :
  forEachSplat Splat files first_last func st
  = fold_left (fun acc r =>
                 fold_left (range_body r) (seq 0 (Z.to_nat (size r))) acc)
              first_last (Ok st).
Proof. reflexivity. Qed.

(** The range of a whole file visits its vertices in order. *)
Lemma range_visit (i : nat) (file : list Splat) (n : Z) :
  files !! i = Some file -> Z.of_nat (length file) <= SIZE_MAX ->
  forall (rest : list Splat) (j : nat) acc,
    (forall k, file !! (j + k)%nat = rest !! k) ->
    (j + length rest <= length file)%nat ->
    fold_left (range_body (mkRange (Z.of_nat i) n 0)) (seq j (length rest)) acc
    = visit func (map (fun js => (Z.of_nat i, fst js, snd js))
                      (number_from j rest)) acc.
Proof.
  intros Hfile Hlen rest.
  unfold SIZE_MAX, UINT32_MAX in Hlen. change (2 ^ 32 - 1) with 4294967295 in Hlen.
  induction rest as [| s rest IH]; intros j acc Hrest Hj; [reflexivity |].
  cbn [length seq fold_left number_from map visit].
  cbn [length] in Hj.
  assert (Hstep : range_body (mkRange (Z.of_nat i) n 0) acc j
                  = let! st := acc in func (Z.of_nat i) (Z.of_nat j) s st).
  { unfold range_body. destruct acc as [st | e |]; cbn [bind]; try reflexivity.
    cbn [scan start]. rewrite Nat2Z.id, Hfile.
    rewrite (u64_small (0 + Z.of_nat j))
      by (unfold is_u64; change UINT64_MAX with 18446744073709551615; lia).
    rewrite Z.add_0_l, Nat2Z.id.
    specialize (Hrest 0%nat). rewrite Nat.add_0_r in Hrest. rewrite Hrest.
    reflexivity. }
  rewrite Hstep. cbn [fst snd]. apply IH; [| lia].
  intros k. transitivity (file !! (j + S k)%nat); [f_equal; lia |].
  exact (Hrest (S k)).
Qed.

End Walk.

(** The ranges of the root, file after file. *)
Fixpoint ranges_from (i : nat) (files : list (list Splat)) : list SplatRange :=
  match files with
  | [] => []
  | file :: rest =>
      file_ranges (S (length file)) (Z.of_nat i) (Z.of_nat (length file)) 0
      ++ ranges_from (S i) rest
  end.

Lemma imap_ranges (files : list (list Splat)) :
  forall i,
    concat (imap (fun k file =>
                    let vertices := Z.of_nat (length file) in
                    file_ranges (S (length file)) (Z.of_nat (i + k)) vertices 0)
                 files)
    = ranges_from i files.
Proof.
  induction files as [| file rest IH]; intros i; [reflexivity |].
  rewrite imap_cons. cbn [concat ranges_from]. rewrite Nat.add_0_r. f_equal.
  rewrite <- (IH (S i)). f_equal. apply imap_ext. intros k x _. cbn.
  replace (i + S k)%nat with (S (i + k)) by lia. reflexivity.
Qed.

Lemma makeRoot_ranges (files : list (list Splat)) :
  snd (makeRoot Splat files) = ranges_from 0 files.
Proof. unfold makeRoot. cbn [snd]. apply (imap_ranges files 0). Qed.

Lemma makeRoot_count (files : list (list Splat)) :
  forall n,
    0 <= n -> n + Z.of_nat (length (concat files)) <= UINT64_MAX ->
    fold_left (fun n file => u64 (n + Z.of_nat (length file))) files n
    = n + Z.of_nat (length (concat files)).
Proof.
  induction files as [| file rest IH]; intros n Hn Hfit.
  - cbn. lia.
  - cbn [fold_left concat] in *. rewrite length_app in *.
    rewrite u64_small by (unfold is_u64; lia).
    rewrite IH by lia. lia.
Qed.

Lemma visit_app {St : Type} (func : Z -> Z -> Splat -> St -> outcome St) a b acc :
  visit func (a ++ b) acc = visit func b (visit func a acc).
Proof. unfold visit. apply fold_left_app. Qed.

Lemma walk_from {St : Type} (files : list (list Splat))
    (func : Z -> Z -> Splat -> St -> outcome St) :
  Forall (fun file => Z.of_nat (length file) <= SIZE_MAX) files ->
  forall suf pre acc,
    files = pre ++ suf ->
    fold_left (fun acc r =>
                 fold_left (range_body files func r)
                           (seq 0 (Z.to_nat (size r))) acc)
              (ranges_from (length pre) suf) acc
    = visit func (splats_from (length pre) suf) acc.
Proof.
  intros Hsmall suf. induction suf as [| file rest IH]; intros pre acc Hfiles;
    [reflexivity |].
  assert (Hfile : files !! length pre = Some file).
  { rewrite Hfiles. rewrite lookup_app_r by lia.
    rewrite Nat.sub_diag. reflexivity. }
  assert (Hlen : Z.of_nat (length file) <= SIZE_MAX).
  { rewrite Forall_forall in Hsmall. apply Hsmall.
    apply list_elem_of_lookup. exists (length pre). exact Hfile. }
  cbn [ranges_from splats_from]. rewrite fold_left_app, visit_app.
  rewrite file_ranges_file by exact Hlen.
  assert (Hnext : length (pre ++ [file]) = S (length pre))
    by (rewrite length_app; cbn; lia).
  rewrite <- Hnext.
  rewrite (IH (pre ++ [file])) by (rewrite <- app_assoc; exact Hfiles).
  f_equal. destruct file as [| s more]; [reflexivity |].
  cbn [fold_left size]. rewrite Nat2Z.id.
  apply (range_visit files func (length pre) (s :: more) _ Hfile Hlen
                     (s :: more) 0%nat acc); [intros k; reflexivity | lia].
Qed.

End Root.

Arguments number_from {Splat} j file.
Arguments splats_from {Splat} i files.
Arguments visit {Splat St} func todo acc.
Arguments ranges_from {Splat} i files.

(** X7. When every file holds at most [2 ^ 32 - 1] vertices and the total
    fits 64 bits, [makeRoot] returns the total number of vertices, and
    [forEachSplat] over the ranges of the root calls [func] on every vertex
    of every file exactly once, with the number of its file and its index
    in the file: file after file, and in a file by increasing index. *)
Theorem forEachSplat_root (Splat St : Type) (files : list (list Splat))
    (func : Z -> Z -> Splat -> St -> outcome St) (st : St) :
  Forall (fun file => Z.of_nat (length file) <= SIZE_MAX) files ->
  Z.of_nat (length (concat files)) <= UINT64_MAX ->
  fst (makeRoot Splat files) = Z.of_nat (length (concat files))
  /\ forEachSplat Splat files (snd (makeRoot Splat files)) func st
     = visit func (splats_from 0 files) (Ok st).
Proof.
  intros Hsmall Hfit. split.
  - unfold makeRoot. cbn [fst]. rewrite makeRoot_count by lia. lia.
  - rewrite makeRoot_ranges, forEachSplat_fold.
    apply (walk_from Splat files func Hsmall files [] (Ok st)). reflexivity.
Qed.

Lemma forEachSplat_root_witness :
  fst (makeRoot Z [[5; 6]; []; [7]]) = 3
  /\ forEachSplat Z [[5; 6]; []; [7]] (snd (makeRoot Z [[5; 6]; []; [7]]))
                  (fun sc id s log => Ok (log ++ [(sc, id, s)])) []
     = Ok [(0, 0, 5); (0, 1, 6); (2, 0, 7)].
Proof.
  assert (Hsmall : Forall (fun file : list Z => Z.of_nat (length file) <= SIZE_MAX)
                          [[5; 6]; []; [7]]).
  { repeat constructor; cbn; unfold SIZE_MAX, UINT32_MAX; lia. }
  assert (Hfit : Z.of_nat (length (concat [[5; 6]; []; [7]])) <= UINT64_MAX)
    by (cbn; unfold UINT64_MAX; lia).
  destruct (forEachSplat_root Z (list (Z * Z * Z)) [[5; 6]; []; [7]]
              (fun sc id s log => Ok (log ++ [(sc, id, s)])) [] Hsmall Hfit)
    as [Hcount Hwalk].
  split; [exact Hcount |]. rewrite Hwalk. reflexivity.
Defined.

(** X8. When the caps admit the whole input (all the splats are at most
    [maxSplats] and the sides of the grid at most [maxCells] cells),
    [bucket] calls the processing function exactly once, with all the
    splats, the ranges of the root and the grid it was given, and
    returns. *)
Theorem bucket_single (Splat : Type) (box : Splat -> nat -> Q * Q)
    (assertions : bool) (files : list (list Splat))
    (maxSplats maxCells maxSplit : Z) (depth loops : nat) (bbox : Grid) :
  Z.of_nat (length (concat files)) <= UINT64_MAX ->
  Z.of_nat (length (concat files)) <= maxSplats ->
  maxDim (cell_dims bbox) <= maxCells ->
  bucket Splat box assertions files maxSplats maxCells maxSplit (S depth) loops
         bbox
  = ([mkCall (Z.of_nat (length (concat files))) (ranges_from 0 files) bbox],
     Ok tt).
Proof.
  intros Hfit Hsplats Hcells. unfold bucket.
  pose proof (makeRoot_ranges Splat files) as Hranges.
  assert (Hcount : fst (makeRoot Splat files) = Z.of_nat (length (concat files))).
  { unfold makeRoot. cbn [fst]. rewrite makeRoot_count by lia. lia. }
  destruct (makeRoot Splat files) as [numSplats root]. cbn [fst snd] in *.
  subst numSplats root. cbn [bucketRecurse].
  destruct (Z.leb_spec (Z.of_nat (length (concat files))) maxSplats); [| lia].
  destruct (Z.leb_spec (maxDim (cell_dims bbox)) maxCells); [| lia].
  reflexivity.
Qed.

Lemma bucket_single_witness :
  bucket Z (fun _ _ => (0%Q, 1%Q)) true [[5; 6]; []; [7]] 3 4 8 1 0
         (mkGrid (0, 4) (0, 4) (0, 4))
  = ([mkCall 3 [mkRange 0 2 0; mkRange 2 1 0] (mkGrid (0, 4) (0, 4) (0, 4))],
     Ok tt).
Proof.
  apply (bucket_single Z (fun _ _ => (0%Q, 1%Q)) true [[5; 6]; []; [7]] 3 4 8
                       0 0 (mkGrid (0, 4) (0, 4) (0, 4))).
  - cbn. unfold UINT64_MAX. lia.
  - cbn. lia.
  - vm_compute. discriminate.
Defined.

End RootFacts.

(* ===================================================================== *)
(** * Facts about bucket.cpp: the counter of ranges *)
(* ===================================================================== *)

Module CounterFacts.
Import Machine Outcome Bucket Bucketing MachineFacts.

(** The counter after the splats [(scan, id)] of a list are appended in
    order. *)
Definition count_all (c : SplatRangeCounter) (l : list (Z * Z))
    : SplatRangeCounter :=
  fold_left (fun c x => counter_append c (fst x) (snd x)) l c.

(** What the counter keeps: [ranges] is zero only before the first splat,
    and never more than [splats]. *)
Definition counted (n : Z) (c : SplatRangeCounter) : Prop :=
  splats c = n /\ (n = 0 -> ranges c = 0) /\ (0 < n -> 1 <= ranges c <= n).

Lemma counted_append n c sc id :
  0 <= n -> n + 1 <= UINT64_MAX -> counted n c ->
  counted (n + 1) (counter_append c sc id).
Proof.
  intros Hn Hfit (Hs & Hzero & Hpos). unfold counted, counter_append.
  rewrite Hs. rewrite (u64_small (n + 1)) by (unfold is_u64; lia).
  destruct (Z.eqb_spec (ranges c) 0) as [Hr | Hr].
  - cbn [splats ranges]. rewrite Hr. change (u64 (0 + 1)) with 1.
    split; [reflexivity |]. split; lia.
  - assert (Hn' : 0 < n) by (destruct (Z.eq_dec n 0); [tauto | lia]).
    specialize (Hpos Hn').
    destruct (append (current c) sc id) as [[|] r]; cbn [splats ranges].
    + split; [reflexivity |]. split; lia.
    + rewrite (u64_small (ranges c + 1)) by (unfold is_u64; lia).
      split; [reflexivity |]. split; lia.
Qed.

Lemma count_all_counted (l : list (Z * Z)) :
  forall n c,
    0 <= n -> n + Z.of_nat (length l) <= UINT64_MAX -> counted n c ->
    counted (n + Z.of_nat (length l)) (count_all c l).
Proof.
  induction l as [| x rest IH]; intros n c Hn Hfit Hc.
  - cbn. rewrite Z.add_0_r. exact Hc.
  - cbn [count_all fold_left length] in *.
    replace (n + Z.of_nat (S (length rest)))
      with (n + 1 + Z.of_nat (length rest)) by lia.
    apply IH; [lia | lia |]. apply counted_append; [lia | lia | exact Hc].
Qed.

(** X9. A [SplatRangeCounter] counts every splat appended to it, and its
    count of ranges is zero exactly when nothing was appended and never
    more than its count of splats. *)
Theorem counter_counts (l : list (Z * Z)) :
  Z.of_nat (length l) <= UINT64_MAX ->
  splats (count_all newCounter l) = Z.of_nat (length l)
  /\ (l = [] -> ranges (count_all newCounter l) = 0)
  /\ (l <> [] ->
      1 <= ranges (count_all newCounter l) <= Z.of_nat (length l)).
Proof.
  intros Hfit.
  destruct (count_all_counted l 0 newCounter) as (Hs & Hzero & Hpos).
  - lia.
  - lia.
  - split; [reflexivity |]. split; [reflexivity | lia].
  - rewrite Z.add_0_l in *. split; [exact Hs |]. split.
    + intros ->. reflexivity.
    + intros Hne. apply Hpos. destruct l; [congruence | cbn; lia].
Qed.

Lemma counter_counts_witness :
  splats (count_all newCounter [(0, 4); (0, 5); (1, 5)]) = 3
  /\ 1 <= ranges (count_all newCounter [(0, 4); (0, 5); (1, 5)]) <= 3.
Proof.
  assert (Hfit : Z.of_nat (length [(0, 4); (0, 5); (1, 5)]) <= UINT64_MAX)
    by (cbn; unfold UINT64_MAX; lia).
  destruct (counter_counts [(0, 4); (0, 5); (1, 5)] Hfit) as (Hs & _ & Hpos).
  split; [exact Hs |]. apply Hpos. discriminate.
Defined.

(** The splats [first], [first + 1], ... of one scan, [n] of them. *)
Definition run (sc first : Z) (from n : nat) : list (Z * Z) :=
  map (fun j => (sc, first + Z.of_nat j)) (seq from n).

Lemma count_run sc first (m : nat) :
  forall k : nat,
    (1 <= k)%nat -> Z.of_nat (k + m) <= SIZE_MAX ->
    0 <= first -> first + Z.of_nat (k + m) <= UINT64_MAX ->
    count_all (mkCounter 1 (Z.of_nat k) (mkRange sc (Z.of_nat k) first))
              (run sc first k m)
    = mkCounter 1 (Z.of_nat (k + m)) (mkRange sc (Z.of_nat (k + m)) first).
Proof.
  unfold SIZE_MAX, UINT32_MAX, UINT64_MAX.
  change (2 ^ 32 - 1) with 4294967295. change (2 ^ 64 - 1) with 18446744073709551615.
  induction m as [| m IH]; intros k Hk Hsize Hfirst Hfit.
  - cbn. rewrite Nat.add_0_r. reflexivity.
  - unfold run. cbn [seq map count_all fold_left fst snd].
    assert (Hstep : counter_append
                      (mkCounter 1 (Z.of_nat k) (mkRange sc (Z.of_nat k) first))
                      sc (first + Z.of_nat k)
                    = mkCounter 1 (Z.of_nat (S k))
                                (mkRange sc (Z.of_nat (S k)) first)).
    { unfold counter_append, append. cbn [ranges splats current size scan start].
      change (1 =? 0) with false. cbv iota.
      destruct (Z.eqb_spec (Z.of_nat k) 0) as [Hz | _]; [lia |].
      rewrite Z.eqb_refl.
      destruct (Z.leb_spec first (first + Z.of_nat k)) as [_ | Hbad]; [| lia].
      replace (first + Z.of_nat k - first) with (Z.of_nat k) by lia.
      rewrite (u64_small (Z.of_nat k))
        by (unfold is_u64; change UINT64_MAX with 18446744073709551615; lia).
      rewrite Z.leb_refl, Z.eqb_refl. cbn [andb].
      destruct (Z.eqb_spec (Z.of_nat k) SIZE_MAX) as [Hmax | _].
      { unfold SIZE_MAX, UINT32_MAX in Hmax.
        change (2 ^ 32 - 1) with 4294967295 in Hmax. lia. }
      rewrite (u64_small (Z.of_nat k + 1))
        by (unfold is_u64; change UINT64_MAX with 18446744073709551615; lia).
      rewrite (u32_small (Z.of_nat k + 1))
        by (unfold is_u32, UINT32_MAX; change (2 ^ 32 - 1) with 4294967295; lia).
      replace (Z.of_nat k + 1) with (Z.of_nat (S k)) by lia. reflexivity. }
    rewrite Hstep. replace (k + S m)%nat with (S k + m)%nat by lia.
    apply (IH (S k)); lia.
Qed.

(** X10. Appending [n] splats with consecutive ids of one scan to an empty
    counter leaves one range that holds them all. *)
Theorem counter_run (sc first : Z) (n : nat) :
  (1 <= n)%nat -> Z.of_nat n <= SIZE_MAX ->
  0 <= first -> first + Z.of_nat n <= UINT64_MAX ->
  count_all newCounter (run sc first 0 n)
  = mkCounter 1 (Z.of_nat n) (mkRange sc (Z.of_nat n) first).
Proof.
  intros Hn Hsize Hfirst Hfit. destruct n as [| n]; [lia |].
  unfold run. cbn [seq map count_all fold_left fst snd].
  assert (Hone : counter_append newCounter sc (first + Z.of_nat 0)
                 = mkCounter 1 (Z.of_nat 1) (mkRange sc (Z.of_nat 1) first)).
  { unfold counter_append, newCounter. cbn [ranges splats].
    change (0 =? 0) with true. cbv iota. rewrite Z.add_0_r. reflexivity. }
  rewrite Hone. apply (count_run sc first n 1); try lia.
Qed.

Lemma counter_run_witness :
  count_all newCounter (run 2 10 0 3) = mkCounter 1 3 (mkRange 2 3 10).
Proof.
  apply (counter_run 2 10 3); [lia | | lia |].
  - cbn. unfold SIZE_MAX, UINT32_MAX. lia.
  - cbn. unfold UINT64_MAX. lia.
Defined.

End CounterFacts.

(* ===================================================================== *)
(** * Facts about bucket.cpp: what the walks over cells and splats keep *)
(* ===================================================================== *)

Module SplitFacts.
Import Machine Outcome Bucket Grids Bucketing MachineFacts.

Section Invariant.

Context {St : Type}.
Variable P : St -> Prop.

(** An outcome that, when it is a state, is a state with [P]. *)
Definition okP (acc : outcome St) : Prop := forall st, acc = Ok st -> P st.

Lemma okP_Ok st : P st -> okP (Ok st).
Proof. intros H st' Heq. inversion Heq; subst. exact H. Qed.

Lemma okP_fold {A : Type} (f : outcome St -> A -> outcome St) (l : list A) :
  (forall acc a, okP acc -> okP (f acc a)) ->
  forall acc, okP acc -> okP (fold_left f l acc).
Proof.
  intros Hf. induction l as [| a rest IH]; intros acc Hacc; [exact Hacc |].
  cbn [fold_left]. apply IH, Hf, Hacc.
Qed.

Lemma okP_bind (acc : outcome St) (k : St -> outcome St) :
  okP acc -> (forall st, P st -> okP (k st)) -> okP (let! st := acc in k st).
Proof.
  intros Hacc Hk. destruct acc as [st | e |]; cbn [bind].
  - apply Hk, Hacc. reflexivity.
  - intros st Heq. discriminate.
  - intros st Heq. discriminate.
Qed.

(** A property of the state that the functor keeps is kept by the walk over
    the cells. *)
Lemma forEachCell_r_keeps (func : Cell -> St -> outcome (bool * St))
    (d : Z * Z * Z) :
  (forall c st go st', P st -> func c st = Ok (go, st') -> P st') ->
  forall lvl b st, P st -> okP (forEachCell_r func d lvl b st).
Proof.
  intros Hfunc. induction lvl as [| lvl IH]; intros b st Hst.
  - cbn [forEachCell_r].
    destruct (func (mkCell b 0) st) as [[go st1] | e |] eqn:Hcall; cbn [bind];
      [| intros ? ?; discriminate | intros ? ?; discriminate].
    pose proof (Hfunc _ _ _ _ Hst Hcall) as H1.
    destruct go; apply okP_Ok; exact H1.
  - cbn [forEachCell_r].
    destruct (func (mkCell b (S lvl)) st) as [[go st1] | e |] eqn:Hcall;
      cbn [bind]; [| intros ? ?; discriminate | intros ? ?; discriminate].
    pose proof (Hfunc _ _ _ _ Hst Hcall) as H1.
    destruct go; [| apply okP_Ok; exact H1].
    apply okP_fold; [| apply okP_Ok; exact H1].
    intros acc i Hacc. apply okP_bind; [exact Hacc |].
    intros st' Hst'. cbv zeta.
    match goal with |- okP (if ?c then _ else _) => destruct c end;
      [apply IH; exact Hst' | apply okP_Ok; exact Hst'].
Qed.

Lemma forEachCell_keeps (assertions : bool)
    (func : Cell -> St -> outcome (bool * St)) (d : Z * Z * Z) (levels : nat) :
  (forall c st go st', P st -> func c st = Ok (go, st') -> P st') ->
  forall st, P st -> okP (forEachCell assertions d levels func st).
Proof.
  intros Hfunc st Hst. unfold forEachCell.
  repeat match goal with
         | |- okP (let! _ := ?a in _) =>
             destruct a as [[] | e |]; cbn [bind];
             [| intros ? ?; discriminate | intros ? ?; discriminate]
         end.
  apply forEachCell_r_keeps; assumption.
Qed.

End Invariant.

Section Passes.

Variable Splat : Type.
Variable box : Splat -> nat -> Q * Q.
Variable assertions : bool.
Variable files : list (list Splat).
Variables maxSplats maxCells maxSplit : Z.

(** A property that the functor keeps is kept by the walk over the
    splats. *)
Lemma forEachSplat_keeps {St : Type} (P : St -> Prop)
    (func : Z -> Z -> Splat -> St -> outcome St) (first_last : list SplatRange) :
  (forall sc id s st, P st -> okP P (func sc id s st)) ->
  forall st, P st -> okP P (forEachSplat Splat files first_last func st).
Proof.
  intros Hfunc st Hst. unfold forEachSplat.
  apply okP_fold; [| apply okP_Ok; exact Hst].
  intros acc r Hacc. apply okP_fold; [| exact Hacc].
  intros acc' j Hacc'. apply okP_bind; [exact Hacc' |].
  intros st' Hst'. cbv zeta.
  destruct (files !! Z.to_nat (scan r)) as [file |];
    [| intros ? ?; discriminate].
  destruct (file !! _) as [s |]; [| intros ? ?; discriminate].
  apply Hfunc. exact Hst'.
Qed.

(** The counter of a cell. *)
Definition counter_of (st : BucketState) (c : Cell) : SplatRangeCounter :=
  counter (getCellState st c).

(** Giving a cell a block id leaves every counter as it is. *)
Lemma counter_of_set st c b c' :
  counter_of (setCellState st c (mkCellState (counter (getCellState st c)) b)) c'
  = counter_of st c'.
Proof.
  unfold counter_of, getCellState, setCellState.
  cbn [cellStates]. unfold cell_key at 1 3. cbn [microShift].
  fold (cell_key st c'). fold (cell_key st c).
  destruct (decide (cell_key st c = cell_key st c')) as [Heq | Hne].
  - rewrite Heq, lookup_insert_eq. reflexivity.
  - rewrite lookup_insert_ne by exact Hne. reflexivity.
Qed.

(** The picked cells hold splats. *)
Definition picked_hold (st : BucketState) : Prop :=
  Forall (fun c => splats (counter_of st c) <> 0) (picked st).

Lemma PickCells_keeps c st go st' :
  picked_hold st -> PickCells maxSplats maxCells c st = Ok (go, st') ->
  picked_hold st'.
Proof.
  unfold PickCells. intros Hst Hcall.
  destruct (Z.eqb_spec (splats (counter (getCellState st c))) 0) as [Hz | Hnz].
  { inversion Hcall; subst. exact Hst. }
  match type of Hcall with
  | (if ?cond then _ else _) = _ => destruct cond
  end; [| inversion Hcall; subst; exact Hst].
  inversion Hcall; subst. clear Hcall.
  unfold picked_hold in *. cbn [picked].
  assert (Hsame : forall c',
            counter_of
              {| dims := dims (setCellState st c
                                 (mkCellState (counter (getCellState st c))
                                              (Z.of_nat (length (picked st)))));
                 microShift := microShift st;
                 macroLevels := macroLevels st;
                 cellStates :=
                   cellStates (setCellState st c
                                 (mkCellState (counter (getCellState st c))
                                              (Z.of_nat (length (picked st)))));
                 picked := picked st ++ [c];
                 pickedOffset := pickedOffset st ++ [nextOffset st];
                 nextOffset := u64 (nextOffset st
                                    + ranges (counter (getCellState st c)));
                 childCur := childCur st;
                 childRanges := childRanges st |} c'
            = counter_of st c').
  { intros c'.
    rewrite <- (counter_of_set st c (Z.of_nat (length (picked st))) c').
    reflexivity. }
  apply Forall_app. split.
  - eapply Forall_impl; [exact Hst |]. intros c' Hc'. cbn beta.
    cbn [setCellState microShift macroLevels picked pickedOffset nextOffset
         childCur childRanges dims] in *.
    rewrite Hsame. exact Hc'.
  - constructor; [| constructor].
    cbn [setCellState microShift macroLevels picked pickedOffset nextOffset
         childCur childRanges dims] in *.
    rewrite Hsame. exact Hnz.
Qed.

(** The histogram pass picks no cell. *)
Lemma CountSplat_keeps g sc id s st :
  picked st = [] ->
  okP (fun st' => picked st' = [])
      (CountSplat Splat box assertions g sc id s st).
Proof.
  intros Hst. unfold CountSplat.
  apply forEachCell_keeps; [| exact Hst].
  intros c st0 go st' H0 Hcall. unfold CountOneSplat in Hcall.
  destruct (Blob.c_assert assertions _) as [[] | e |]; cbn [bind] in Hcall;
    [| discriminate | discriminate].
  destruct (negb (splatCellIntersect Splat box s c g));
    inversion Hcall; subst; exact H0.
Qed.

(** The partition pass leaves the cells and the picked cells alone. *)
Definition same_cells (st0 st : BucketState) : Prop :=
  cellStates st = cellStates st0 /\ picked st = picked st0
  /\ microShift st = microShift st0.

Lemma BucketSplats_keeps st0 g sc id s st :
  same_cells st0 st ->
  okP (same_cells st0) (BucketSplats Splat box assertions g sc id s st).
Proof.
  intros Hst. unfold BucketSplats.
  apply forEachCell_keeps; [| exact Hst].
  intros c st1 go st' H1 Hcall. unfold BucketOneSplat in Hcall.
  destruct (Blob.c_assert assertions _) as [[] | e |]; cbn [bind] in Hcall;
    [| discriminate | discriminate].
  destruct (negb (splatCellIntersect Splat box s c g));
    [inversion Hcall; subst; exact H1 |].
  destruct (blockId (getCellState st1 c) =? BAD_BLOCK);
    [inversion Hcall; subst; exact H1 |].
  destruct (Blob.c_assert assertions _) as [[] | e |]; cbn [bind] in Hcall;
    [| discriminate | discriminate].
  destruct (childCur st1 !! _) as [col |];
    [| inversion Hcall; subst; exact H1].
  destruct (collector_append col (childRanges st1) sc id) as [col' buffer].
  inversion Hcall; subst. exact H1.
Qed.

(** Every recursive call that [bucketRecurse] prepares has splats. *)
Lemma bucketSplit_nonempty loops first_last g children :
  bucketSplit Splat box assertions files maxSplats maxCells maxSplit loops
              first_last g = Ok children ->
  Forall (fun child => call_numSplats child <> 0) children.
Proof.
  unfold bucketSplit. intros Hsplit.
  destruct (micro_loop maxSplit loops (cell_dims g) 1 0)
    as [[microSize shift] | e |]; cbn [bind] in Hsplit; try discriminate.
  destruct (macro_loop loops microSize (maxDim (cell_dims g)) 1)
    as [levels | e |]; cbn [bind] in Hsplit; try discriminate.
  destruct (forEachSplat Splat files first_last (CountSplat Splat box assertions g) _)
    as [st1 | e |] eqn:Hpass1; cbn [bind] in Hsplit; try discriminate.
  assert (H1 : picked st1 = []).
  { refine (forEachSplat_keeps (fun st' => picked st' = []) _ first_last _ _ _
                               st1 Hpass1); [| reflexivity].
    intros sc id s st Hst. apply CountSplat_keeps. exact Hst. }
  destruct (forEachCell assertions (dims st1) _ (PickCells maxSplats maxCells) st1)
    as [st2 | e |] eqn:Hpass2; cbn [bind] in Hsplit; try discriminate.
  assert (H2 : picked_hold st2).
  { refine (forEachCell_keeps picked_hold assertions _ _ _ _ st1 _ st2 Hpass2).
    - intros c st go st'. apply PickCells_keeps.
    - unfold picked_hold. rewrite H1. constructor. }
  match type of Hsplit with
  | (let! st4 := forEachSplat _ _ _ _ ?init in _) = _ => set (st3 := init) in *
  end.
  destruct (forEachSplat Splat files first_last (BucketSplats Splat box assertions g) st3)
    as [st4 | e |] eqn:Hpass3; cbn [bind] in Hsplit; try discriminate.
  assert (H3 : same_cells st3 st4).
  { refine (forEachSplat_keeps (same_cells st3) _ first_last _ _ _ st4 Hpass3).
    - intros sc id s st Hst. apply BucketSplats_keeps. exact Hst.
    - repeat split. }
  destruct H3 as (Hcells & Hpicked & Hshift).
  inversion Hsplit; subst children. clear Hsplit.
  apply Forall_forall. intros child Hchild.
  apply list_elem_of_In, in_map_iff in Hchild.
  destruct Hchild as (i & <- & Hi). apply in_seq in Hi.
  cbn [call_numSplats].
  assert (Hcell : In (nth i (picked st4) (mkCell (0, 0, 0) 0)) (picked st2)).
  { rewrite Hpicked. subst st3. cbn [picked]. apply nth_In. lia. }
  unfold picked_hold in H2. rewrite Forall_forall in H2.
  apply list_elem_of_In in Hcell. specialize (H2 _ Hcell).
  unfold counter_of, getCellState, cell_key in *.
  rewrite Hcells, Hshift. subst st3. cbn [cellStates microShift]. exact H2.
Qed.

End Passes.

(** X11. Empty regions are skipped: when [bucketRecurse] is called with at
    least one splat, every call of the processing function that it or a
    recursive call makes has at least one splat. *)
Theorem buckets_nonempty (Splat : Type) (box : Splat -> nat -> Q * Q)
    (assertions : bool) (files : list (list Splat))
    (maxSplats maxCells maxSplit : Z) (depth : nat) :
  forall loops first_last numSplats g log,
    numSplats <> 0 ->
    Forall (fun c => call_numSplats c <> 0) log ->
    Forall (fun c => call_numSplats c <> 0)
           (fst (bucketRecurse Splat box assertions files maxSplats maxCells
                               maxSplit depth loops first_last numSplats g log)).
Proof.
  induction depth as [| depth IH];
    intros loops first_last numSplats g log Hn Hlog; [exact Hlog |].
  cbn [bucketRecurse].
  destruct ((numSplats <=? maxSplats) && (maxDim (cell_dims g) <=? maxCells)).
  - cbn [fst]. apply Forall_app. split; [exact Hlog |].
    constructor; [exact Hn | constructor].
  - destruct (bucketSplit Splat box assertions files maxSplats maxCells maxSplit
                          loops first_last g) as [children | e |] eqn:Hsplit;
      [| exact Hlog | exact Hlog].
    pose proof (bucketSplit_nonempty Splat box assertions files maxSplats
                  maxCells maxSplit loops first_last g children Hsplit) as Hkids.
    clear Hsplit. revert log Hlog.
    induction children as [| child rest IHrest]; intros log Hlog; [exact Hlog |].
    apply Forall_cons in Hkids. destruct Hkids as [Hchild Hrest].
    specialize (IH loops (call_ranges child) (call_numSplats child)
                   (call_grid child) log Hchild Hlog).
    destruct (bucketRecurse Splat box assertions files maxSplats maxCells
                            maxSplit depth loops (call_ranges child)
                            (call_numSplats child) (call_grid child) log)
      as [log' [[] | e |]]; cbn [fst] in IH;
      [apply (IHrest Hrest); exact IH | exact IH | exact IH].
Qed.

Lemma buckets_nonempty_witness :
  Forall (fun c => call_numSplats c <> 0)
         (fst (bucketRecurse nat
                 (fun n _ => ((inject_Z (Z.of_nat n) + (1 # 4))%Q,
                              (inject_Z (Z.of_nat n) + (3 # 4))%Q))
                 true [seq 0 8] 5 2 8 5 4 [mkRange 0 8 0] 8
                 (mkGrid (0, 8) (0, 8) (0, 8)) []))
  /\ length (fst (bucketRecurse nat
                    (fun n _ => ((inject_Z (Z.of_nat n) + (1 # 4))%Q,
                                 (inject_Z (Z.of_nat n) + (3 # 4))%Q))
                    true [seq 0 8] 5 2 8 5 4 [mkRange 0 8 0] 8
                    (mkGrid (0, 8) (0, 8) (0, 8)) [])) = 4%nat.
Proof.
  split; [| reflexivity].
  apply buckets_nonempty; [lia | constructor].
Defined.

End SplitFacts.

(* ===================================================================== *)
(** * Facts about splat_set_impl.h: the blobs of a buffer of splats *)
(* ===================================================================== *)

Module BlobComputeFacts.
Import Machine Outcome Blob BlobCompute BlobSpec MachineFacts BlobFacts.

(** ** The subblocks of the threads *)

(** The cut before the subblock of thread [k]. *)
Definition cut (n T : Z) (k : Z) : Z := k * n / T.

Section Cuts.

Variables n T : Z.
Hypothesis n_nonneg : 0 <= n.
Hypothesis T_pos : 1 <= T.
Hypothesis T_int : T <= INT32_MAX.
Hypothesis fits : T * n <= UINT64_MAX.

Lemma sub_first_cut k : 0 <= k <= T -> sub_first k n T = cut n T k.
Proof.
  intros Hk. unfold sub_first, cut.
  unfold INT32_MAX in T_int. change (2 ^ 31 - 1) with 2147483647 in T_int.
  assert (Hmax : UINT64_MAX = 18446744073709551615) by reflexivity.
  rewrite (u64_small k) by (unfold is_u64; lia).
  rewrite (u64_small T) by (unfold is_u64; lia).
  rewrite u64_small by (unfold is_u64; nia). reflexivity.
Qed.

Lemma sub_last_cut k : 0 <= k < T -> sub_last k n T = cut n T (k + 1).
Proof.
  intros Hk. unfold sub_last, cut.
  unfold INT32_MAX in T_int. change (2 ^ 31 - 1) with 2147483647 in T_int.
  assert (Hmax : UINT64_MAX = 18446744073709551615) by reflexivity.
  rewrite (s32_small (k + 1))
    by (unfold is_s32, INT32_MIN, INT32_MAX;
        change (2 ^ 31 - 1) with 2147483647; change (- 2 ^ 31) with (-2147483648);
        lia).
  rewrite (u64_small (k + 1)) by (unfold is_u64; lia).
  rewrite (u64_small T) by (unfold is_u64; lia).
  rewrite u64_small by (unfold is_u64; nia). reflexivity.
Qed.

Lemma cut_0 : cut n T 0 = 0.
Proof. unfold cut. rewrite Z.mul_0_l. apply Z.div_0_l. lia. Qed.

Lemma cut_T : cut n T T = n.
Proof. unfold cut. rewrite Z.mul_comm. apply Z.div_mul. lia. Qed.

Lemma cut_mono k : 0 <= k -> 0 <= cut n T k <= cut n T (k + 1).
Proof.
  intros Hk. unfold cut. split.
  - apply Z.div_pos; nia.
  - apply Z.div_le_mono; nia.
Qed.

End Cuts.

Lemma subblocks_prefix {A : Type} (buffer : list A) (nThreads : nat) :
  (1 <= nThreads)%nat -> Z.of_nat nThreads <= INT32_MAX ->
  Z.of_nat nThreads * Z.of_nat (length buffer) <= UINT64_MAX ->
  forall j : nat,
    (j <= nThreads)%nat ->
    concat (map (fun tid => subblock buffer (Z.of_nat tid) (Z.of_nat nThreads))
                (seq 0 j))
    = take (Z.to_nat (cut (Z.of_nat (length buffer)) (Z.of_nat nThreads)
                          (Z.of_nat j)))
           buffer.
Proof.
  intros HT Hint Hfit.
  set (n := Z.of_nat (length buffer)) in *. set (T := Z.of_nat nThreads) in *.
  assert (Hn : 0 <= n) by (subst n; lia). assert (HT' : 1 <= T) by (subst T; lia).
  induction j as [| j IH]; intros Hj.
  - cbn [seq map concat]. change (Z.of_nat 0) with 0.
    rewrite (cut_0 n T) by lia. reflexivity.
  - rewrite seq_S, map_app, concat_app, IH by lia.
    cbn [map concat Nat.add]. rewrite app_nil_r. unfold subblock. fold n.
    rewrite (sub_first_cut n T) by (subst T; lia).
    rewrite (sub_last_cut n T) by (subst T; lia).
    pose proof (cut_mono n T Hn HT' (Z.of_nat j) ltac:(lia)) as Hmono.
    replace (Z.of_nat (S j)) with (Z.of_nat j + 1) by lia.
    rewrite take_take_drop. f_equal. lia.
Qed.

(** X12. The subblocks that the threads of [computeBlobsRange] take from a
    buffer, in order of thread number, are consecutive pieces of the buffer
    that together make up the whole of it: no splat is left out and none is
    taken twice. *)
Theorem subblocks_partition (A : Type) (buffer : list A) (nThreads : nat) :
  (1 <= nThreads)%nat -> Z.of_nat nThreads <= INT32_MAX ->
  Z.of_nat nThreads * Z.of_nat (length buffer) <= UINT64_MAX ->
  concat (map (fun tid => subblock buffer (Z.of_nat tid) (Z.of_nat nThreads))
              (seq 0 nThreads))
  = buffer.
Proof.
  intros HT Hint Hfit.
  rewrite (subblocks_prefix buffer nThreads HT Hint Hfit nThreads) by lia.
  rewrite cut_T by lia. rewrite Nat2Z.id. apply firstn_all.
Qed.

Lemma subblocks_partition_witness :
  concat (map (fun tid => subblock [1; 2; 3; 4; 5; 6; 7] (Z.of_nat tid)
                                   (Z.of_nat 3))
              (seq 0 3))
  = [1; 2; 3; 4; 5; 6; 7].
Proof.
  apply (subblocks_partition Z [1; 2; 3; 4; 5; 6; 7] 3).
  - lia.
  - vm_compute. discriminate.
  - vm_compute. discriminate.
Defined.

(** ** The blobs of a subblock *)

Lemma array3_eqb_eq a b : array3_eqb a b = true -> a = b.
Proof.
  unfold array3_eqb. intros H.
  apply andb_true_iff in H. destruct H as [H Hz].
  apply andb_true_iff in H. destruct H as [Hx Hy].
  apply Z.eqb_eq in Hx, Hy, Hz. destruct a, b. cbn in *. congruence.
Qed.

(** Two blobs that the loop would make one: the same buckets, and the
    second starts where the first ends. *)
Definition mergeable (b b' : BlobInfo) : bool :=
  array3_eqb (lower b) (lower b') && array3_eqb (upper b) (upper b')
  && (lastSplat b =? firstSplat b').

Definition grow (b : BlobInfo) : BlobInfo :=
  mkBlob (firstSplat b) (u64 (lastSplat b + 1)) (lower b) (upper b).

(** The blobs that the loop adds, from the blob [cur] that it holds. *)
Fixpoint coalesce_from (cur : BlobInfo) (todo : list (array3 * array3 * Z))
    : list BlobInfo :=
  match todo with
  | [] => [cur]
  | x :: rest =>
      if mergeable cur (splat_blob x) then coalesce_from (grow cur) rest
      else cur :: coalesce_from (splat_blob x) rest
  end.

Definition coalesce (todo : list (array3 * array3 * Z)) : list BlobInfo :=
  match todo with
  | [] => []
  | x :: rest => coalesce_from (splat_blob x) rest
  end.

(** The splats that a blob stands for. *)
Definition expand (b : BlobInfo) : list (array3 * array3 * Z) :=
  map (fun k => (lower b, upper b, firstSplat b + Z.of_nat k))
      (seq 0 (Z.to_nat (lastSplat b - firstSplat b))).

(** No two blobs in a row could have been one. *)
Fixpoint separate (blobs : list BlobInfo) : Prop :=
  match blobs with
  | b :: ((b' :: _) as rest) => mergeable b b' = false /\ separate rest
  | _ => True
  end.

Lemma u64_succ a : u64 (u64 a + 1) = u64 (a + 1).
Proof. unfold u64, to_unsigned. apply Zplus_mod_idemp_l. Qed.

Section Loop.

Variable assertions : bool.

(** The end of [thread_blobs]: the last blob is added. *)
Definition finish (st : thread) : outcome (list Z * Z) :=
  match thread_curBlob st with
  | Some cur =>
      let! data := addBlob assertions (threadBlobData st)
                           (thread_prevBlob st) cur in
      Ok (data, u64 (threadBlobs st + 1))
  | None => Ok (threadBlobData st, threadBlobs st)
  end.

Lemma thread_loop_from (todo : list (array3 * array3 * Z)) :
  forall data prev cur n,
    (let! st := thread_loop assertions (mkThread data prev (Some cur) n) todo in
     finish st)
    = let! data' := addBlobs assertions data prev (coalesce_from cur todo) in
      Ok (data', u64 (n + Z.of_nat (length (coalesce_from cur todo)))).
Proof.
  induction todo as [| x rest IH]; intros data prev cur n.
  - cbn [thread_loop bind finish thread_curBlob threadBlobData thread_prevBlob
         threadBlobs coalesce_from addBlobs length].
    destruct (addBlob assertions data prev cur); reflexivity.
  - cbn [thread_loop coalesce_from]. unfold thread_step.
    cbn [thread_curBlob threadBlobData thread_prevBlob threadBlobs].
    fold (mergeable cur (splat_blob x)).
    destruct (mergeable cur (splat_blob x)).
    + cbn [bind]. apply IH.
    + cbn [addBlobs length].
      destruct (addBlob assertions data prev cur) as [data' | e |];
        cbn [bind]; [| reflexivity | reflexivity].
      rewrite IH.
      destruct (addBlobs assertions data' cur (coalesce_from (splat_blob x) rest));
        cbn [bind]; [| reflexivity | reflexivity].
      do 2 f_equal. unfold u64, to_unsigned.
      rewrite Zplus_mod_idemp_l. f_equal. lia.
Qed.

Lemma thread_blobs_coalesce garbage todo :
  thread_blobs assertions garbage todo
  = let! data := addBlobs assertions [] garbage (coalesce todo) in
    Ok (data, u64 (Z.of_nat (length (coalesce todo)))).
Proof.
  unfold thread_blobs. fold finish. destruct todo as [| x rest]; [reflexivity |].
  cbn [thread_loop coalesce]. unfold thread_step. cbn [thread_curBlob bind].
  cbn [threadBlobData thread_prevBlob threadBlobs].
  apply (thread_loop_from rest [] garbage (splat_blob x) 0).
Qed.

Lemma addBlob_first garbage b :
  addBlob assertions [] garbage b = Ok (full_record b).
Proof. reflexivity. Qed.

Lemma addBlobs_first garbage b rest :
  addBlobs assertions [] garbage (b :: rest)
  = addBlobs assertions (full_record b) b rest.
Proof. reflexivity. Qed.

Lemma addBlobs_extends blobs :
  forall data prev data',
    addBlobs assertions data prev blobs = Ok data' ->
    exists tail, data' = data ++ tail.
Proof.
  induction blobs as [| b rest IH]; intros data prev data' H.
  - cbn in H. injection H as <-. exists []. symmetry. apply app_nil_r.
  - cbn [addBlobs] in H.
    destruct (addBlob assertions data prev b) as [d | |] eqn:Hadd;
      cbn [bind] in H; try discriminate.
    destruct (IH _ _ _ H) as [tail ->].
    unfold addBlob in Hadd.
    destruct (differential (nonempty data) prev b).
    + destruct (differential_payload assertions prev b) as [w | |];
        cbn [bind] in Hadd; try discriminate.
      injection Hadd as <-. exists ([w] ++ tail). symmetry. apply app_assoc.
    + injection Hadd as <-. exists (full_record b ++ tail).
      symmetry. apply app_assoc.
Qed.

End Loop.

Definition valid_id (x : array3 * array3 * Z) : Prop :=
  0 <= snd x < UINT64_MAX.

Lemma coalesce_from_head todo :
  forall cur, exists h tl,
    coalesce_from cur todo = h :: tl
    /\ firstSplat h = firstSplat cur
    /\ lower h = lower cur /\ upper h = upper cur.
Proof.
  induction todo as [| x rest IH]; intros cur; cbn [coalesce_from].
  - exists cur, []. auto.
  - destruct (mergeable cur (splat_blob x)).
    + destruct (IH (grow cur)) as (h & tl & -> & ? & ? & ?).
      exists h, tl. auto.
    + exists cur, (coalesce_from (splat_blob x) rest). auto.
Qed.

Lemma coalesce_from_separate todo :
  forall cur, separate (coalesce_from cur todo).
Proof.
  induction todo as [| x rest IH]; intros cur; cbn [coalesce_from].
  - exact I.
  - destruct (mergeable cur (splat_blob x)) eqn:Hm; [apply IH |].
    pose proof (IH (splat_blob x)) as Hsep.
    destruct (coalesce_from_head rest (splat_blob x))
      as (h & tl & Heq & Hf & Hl & Hu).
    rewrite Heq in *. cbn [separate]. split; [| exact Hsep].
    unfold mergeable in *. rewrite Hf, Hl, Hu. exact Hm.
Qed.

Lemma expand_splat x : valid_id x -> expand (splat_blob x) = [x].
Proof.
  unfold valid_id. intros Hx. destruct x as [[lo up] id]. cbn [snd] in Hx.
  unfold expand, splat_blob.
  cbn [firstSplat lastSplat lower upper fst snd].
  rewrite u64_small by (unfold is_u64; lia).
  replace (id + 1 - id) with 1 by lia.
  change (Z.to_nat 1) with 1%nat. cbn [seq map Z.of_nat].
  rewrite Z.add_0_r. reflexivity.
Qed.

Lemma expand_grow cur x :
  valid_id x -> firstSplat cur < lastSplat cur ->
  mergeable cur (splat_blob x) = true ->
  expand (grow cur) = expand cur ++ [x]
  /\ firstSplat (grow cur) < lastSplat (grow cur).
Proof.
  unfold valid_id. intros Hx Hcur Hm. destruct x as [[lo up] id]. cbn [snd] in Hx.
  unfold mergeable, splat_blob in Hm.
  cbn [firstSplat lastSplat lower upper fst snd] in Hm.
  apply andb_true_iff in Hm. destruct Hm as [Hm Hid].
  apply andb_true_iff in Hm. destruct Hm as [Hlo Hup].
  apply array3_eqb_eq in Hlo, Hup. apply Z.eqb_eq in Hid.
  unfold expand, grow. cbn [firstSplat lastSplat lower upper].
  rewrite u64_small by (unfold is_u64; lia).
  split; [| lia].
  replace (Z.to_nat (lastSplat cur + 1 - firstSplat cur))
    with (S (Z.to_nat (lastSplat cur - firstSplat cur))) by lia.
  rewrite seq_S, map_app. cbn [map Nat.add]. do 2 f_equal.
  rewrite Hlo, Hup. f_equal. lia.
Qed.

Lemma coalesce_from_expand todo :
  forall cur,
    Forall valid_id todo -> firstSplat cur < lastSplat cur ->
    concat (map expand (coalesce_from cur todo)) = expand cur ++ todo
    /\ Forall (fun b => firstSplat b < lastSplat b) (coalesce_from cur todo).
Proof.
  induction todo as [| x rest IH]; intros cur Hok Hcur; cbn [coalesce_from].
  - cbn. split; [reflexivity | repeat constructor; exact Hcur].
  - apply Forall_cons in Hok as [Hx Hrest].
    destruct (mergeable cur (splat_blob x)) eqn:Hm.
    + destruct (expand_grow cur x Hx Hcur Hm) as [He Hlt].
      destruct (IH (grow cur) Hrest Hlt) as [Hc Hall].
      split; [| exact Hall]. rewrite Hc, He, <- app_assoc. reflexivity.
    + assert (Hlt : firstSplat (splat_blob x) < lastSplat (splat_blob x)).
      { unfold valid_id in Hx. unfold splat_blob. cbn [firstSplat lastSplat].
        rewrite u64_small by (unfold is_u64; lia). lia. }
      destruct (IH (splat_blob x) Hrest Hlt) as [Hc Hall].
      split; [| constructor; assumption].
      cbn [map concat]. rewrite Hc, expand_splat by exact Hx. reflexivity.
Qed.

(** X13. The loop of [computeBlobsRange] over the splats of a subblock adds
    the blobs of a list that stands for exactly these splats, in order: each
    blob is a run of at least one splat with consecutive ids and the same
    buckets, and no blob could have been joined to the one before it. The
    number of blobs counted is the length of that list. *)
Theorem thread_blobs_runs (assertions : bool) (garbage : BlobInfo)
    (todo : list (array3 * array3 * Z)) :
  Forall valid_id todo ->
  exists blobs,
    thread_blobs assertions garbage todo
    = (let! data := addBlobs assertions [] garbage blobs in
       Ok (data, u64 (Z.of_nat (length blobs))))
    /\ concat (map expand blobs) = todo
    /\ Forall (fun b => firstSplat b < lastSplat b) blobs
    /\ separate blobs.
Proof.
  intros Hok. exists (coalesce todo).
  split; [apply thread_blobs_coalesce |].
  destruct todo as [| x rest]; cbn [coalesce].
  - repeat split. constructor.
  - apply Forall_cons in Hok as [Hx Hrest].
    assert (Hlt : firstSplat (splat_blob x) < lastSplat (splat_blob x)).
    { unfold valid_id in Hx. unfold splat_blob. cbn [firstSplat lastSplat].
      rewrite u64_small by (unfold is_u64; lia). lia. }
    destruct (coalesce_from_expand rest (splat_blob x) Hrest Hlt) as [Hc Hall].
    split; [| split; [exact Hall | apply coalesce_from_separate]].
    rewrite Hc, expand_splat by exact Hx. reflexivity.
Qed.

Definition three_in_a_subblock : list (array3 * array3 * Z) :=
  [ (mkArray3 0 0 0, mkArray3 1 1 1, 5);
    (mkArray3 0 0 0, mkArray3 1 1 1, 6);
    (mkArray3 2 0 0, mkArray3 2 1 1, 7) ].

Lemma thread_blobs_runs_witness :
  Forall valid_id three_in_a_subblock
  /\ exists blobs,
       thread_blobs true (mkBlob 0 0 (mkArray3 0 0 0) (mkArray3 0 0 0))
                    three_in_a_subblock
       = (let! data := addBlobs true []
                         (mkBlob 0 0 (mkArray3 0 0 0) (mkArray3 0 0 0)) blobs in
          Ok (data, u64 (Z.of_nat (length blobs))))
       /\ concat (map expand blobs) = three_in_a_subblock
       /\ Forall (fun b => firstSplat b < lastSplat b) blobs
       /\ separate blobs.
Proof.
  assert (H : Forall valid_id three_in_a_subblock).
  { unfold three_in_a_subblock, valid_id.
    repeat constructor; cbn; try lia; reflexivity. }
  split; [exact H | apply (thread_blobs_runs true _ _ H)].
Defined.

(** X14. What [prevBlob] holds before the first blob of a subblock is added
    (it is not initialized) has no effect on what the loop of
    [computeBlobsRange] writes for the subblock nor on the number of blobs,
    also when an assertion fails. *)
Theorem thread_blobs_garbage (assertions : bool) (garbage garbage' : BlobInfo)
    (todo : list (array3 * array3 * Z)) :
  thread_blobs assertions garbage todo = thread_blobs assertions garbage' todo.
Proof.
  rewrite !thread_blobs_coalesce.
  destruct (coalesce todo) as [| b rest]; [reflexivity |].
  rewrite !addBlobs_first. reflexivity.
Qed.

(** X15. When the loop of [computeBlobsRange] over a subblock that is not
    empty ends normally, the words written start with the ten words of a
    full record, that of a blob which starts at the first splat of the
    subblock and has its buckets. *)
Theorem thread_blobs_first (assertions : bool) (garbage : BlobInfo)
    (x : array3 * array3 * Z) (rest : list (array3 * array3 * Z))
    (data : list Z) (n : Z) :
  thread_blobs assertions garbage (x :: rest) = Ok (data, n) ->
  exists b tail,
    data = full_record b ++ tail
    /\ firstSplat b = snd x
    /\ lower b = fst (fst x) /\ upper b = snd (fst x).
Proof.
  rewrite thread_blobs_coalesce. cbn [coalesce].
  destruct (coalesce_from_head rest (splat_blob x))
    as (h & tl & -> & Hf & Hl & Hu).
  rewrite addBlobs_first.
  destruct (addBlobs assertions (full_record h) h tl) as [d | |] eqn:Hadd;
    cbn [bind]; try discriminate.
  intros H. injection H as <- _.
  destruct (addBlobs_extends _ _ _ _ _ Hadd) as [tail ->].
  exists h, tail. auto.
Qed.

Lemma thread_blobs_first_witness :
  thread_blobs true (mkBlob 0 0 (mkArray3 0 0 0) (mkArray3 0 0 0))
               three_in_a_subblock
  = Ok ([0; 5; 0; 7; 0; 1; 0; 1; 0; 1; 2147491825], 2)
  /\ exists b tail,
       [0; 5; 0; 7; 0; 1; 0; 1; 0; 1; 2147491825] = full_record b ++ tail
       /\ firstSplat b = 5
       /\ lower b = mkArray3 0 0 0 /\ upper b = mkArray3 1 1 1.
Proof.
  assert (H : thread_blobs true (mkBlob 0 0 (mkArray3 0 0 0) (mkArray3 0 0 0))
                           three_in_a_subblock
              = Ok ([0; 5; 0; 7; 0; 1; 0; 1; 0; 1; 2147491825], 2))
    by (vm_compute; reflexivity).
  split; [exact H |].
  exact (thread_blobs_first true _ _ _ _ _ H).
Defined.

(** ** Reading back the blobs of a buffer *)

(** What [toBuckets] gives for a splat that [computeBlobsRange] can write
    and [MyBlobStream] read back: bucket coordinates with [lower] not above
    [upper], and an id whose top bit is clear. *)
Definition valid_splat (x : array3 * array3 * Z) : Prop :=
  wf_array3 (fst (fst x)) /\ wf_array3 (snd (fst x))
  /\ (forall i, (i < 3)%nat ->
        0 <= s32 (get (snd (fst x)) i - get (fst (fst x)) i))
  /\ 0 <= snd x < 2 ^ 63.

Definition good_blob (b : BlobInfo) : Prop :=
  wf_blob b /\ box_nonempty b
  /\ 0 <= firstSplat b < lastSplat b /\ lastSplat b <= 2 ^ 63.

Lemma valid_splat_id x : valid_splat x -> valid_id x.
Proof.
  unfold valid_splat, valid_id, UINT64_MAX. intros (_ & _ & _ & H). lia.
Qed.

Lemma good_splat_blob x : valid_splat x -> good_blob (splat_blob x).
Proof.
  intros (Hlo & Hup & Hbox & Hid). unfold good_blob, wf_blob, box_nonempty, splat_blob.
  cbn [firstSplat lastSplat lower upper].
  rewrite u64_small by (unfold is_u64, UINT64_MAX; lia).
  unfold is_u64, UINT64_MAX.
  split; [| split; [exact Hbox | lia]].
  split; [lia | split; [lia | split; assumption]].
Qed.

Lemma good_grow b x :
  good_blob b -> valid_splat x -> mergeable b (splat_blob x) = true ->
  good_blob (grow b).
Proof.
  intros ((Hf & Hl & Hlo & Hup) & Hbox & Hlt & H63) (_ & _ & _ & Hid) Hm.
  unfold mergeable, splat_blob in Hm.
  cbn [firstSplat lastSplat lower upper] in Hm.
  apply andb_true_iff in Hm. destruct Hm as [_ Hlast].
  apply Z.eqb_eq in Hlast.
  unfold good_blob, wf_blob, box_nonempty, grow.
  cbn [firstSplat lastSplat lower upper].
  rewrite u64_small by (unfold is_u64, UINT64_MAX; lia).
  unfold is_u64, UINT64_MAX in *.
  split; [| split; [exact Hbox | lia]].
  split; [lia | split; [lia | split; assumption]].
Qed.

Lemma coalesce_from_good todo :
  forall cur,
    Forall valid_splat todo -> good_blob cur ->
    Forall good_blob (coalesce_from cur todo).
Proof.
  induction todo as [| x rest IH]; intros cur Hok Hcur; cbn [coalesce_from].
  - constructor; [exact Hcur | constructor].
  - apply Forall_cons in Hok as [Hx Hrest].
    destruct (mergeable cur (splat_blob x)) eqn:Hm.
    + apply IH; [exact Hrest | exact (good_grow cur x Hcur Hx Hm)].
    + constructor; [exact Hcur |].
      apply IH; [exact Hrest | exact (good_splat_blob x Hx)].
Qed.

Lemma coalesce_good todo :
  Forall valid_splat todo -> Forall good_blob (coalesce todo).
Proof.
  destruct todo as [| x rest]; intros Hok; cbn [coalesce]; [constructor |].
  apply Forall_cons in Hok as [Hx Hrest].
  apply coalesce_from_good; [exact Hrest | exact (good_splat_blob x Hx)].
Qed.

Lemma coalesce_from_length todo :
  forall cur, (length (coalesce_from cur todo) <= S (length todo))%nat.
Proof.
  induction todo as [| x rest IH]; intros cur; cbn [coalesce_from length].
  - lia.
  - destruct (mergeable cur (splat_blob x)).
    + pose proof (IH (grow cur)). lia.
    + pose proof (IH (splat_blob x)). cbn [length]. lia.
Qed.

Lemma coalesce_length todo : (length (coalesce todo) <= length todo)%nat.
Proof.
  destruct todo as [| x rest]; cbn [coalesce length]; [lia |].
  apply coalesce_from_length.
Qed.

Lemma coalesce_expand todo :
  Forall valid_id todo -> concat (map expand (coalesce todo)) = todo.
Proof.
  destruct todo as [| x rest]; intros Hok; cbn [coalesce]; [reflexivity |].
  apply Forall_cons in Hok as [Hx Hrest].
  assert (Hlt : firstSplat (splat_blob x) < lastSplat (splat_blob x)).
  { unfold valid_id in Hx. unfold splat_blob. cbn [firstSplat lastSplat].
    rewrite u64_small by (unfold is_u64; lia). lia. }
  destruct (coalesce_from_expand rest (splat_blob x) Hrest Hlt) as [Hc _].
  rewrite Hc, expand_splat by exact Hx. reflexivity.
Qed.

(** Blobs with boxes that are not empty are written under the legality
    conditions, and their full records can be told from differential
    ones. *)
Lemma good_emitted blobs :
  forall ne prev,
    Forall good_blob blobs ->
    Forall wf_blob blobs
    /\ emitted_legally ne prev blobs /\ full_records_tagged ne prev blobs.
Proof.
  induction blobs as [| b rest IH]; intros ne prev Hgood.
  - repeat split. constructor.
  - apply Forall_cons in Hgood as [(Hwf & Hbox & Hlt & H63) Hrest].
    destruct (IH true b Hrest) as (Hw & He & Ht).
    split; [constructor; assumption |].
    cbn [emitted_legally full_records_tagged].
    split; (split; [| assumption]).
    + intros Hd. apply (differential_legal ne prev b Hbox), Hd.
    + intros _. lia.
Qed.

Lemma thread_blobs_records assertions garbage todo :
  Forall valid_splat todo ->
  thread_blobs assertions garbage todo
  = Ok (records_of false garbage (coalesce todo),
        u64 (Z.of_nat (length (coalesce todo)))).
Proof.
  intros Hok. rewrite thread_blobs_coalesce.
  destruct (good_emitted (coalesce todo) false garbage (coalesce_good todo Hok))
    as (Hwf & Hleg & _).
  rewrite (addBlobs_value assertions (coalesce todo) [] garbage);
    [reflexivity | discriminate | exact Hwf | exact Hleg].
Qed.

Lemma u64_add_l a b : u64 (u64 a + b) = u64 (a + b).
Proof. unfold u64, to_unsigned. apply Zplus_mod_idemp_l. Qed.

Lemma u64_add_r a b : u64 (a + u64 b) = u64 (a + b).
Proof. unfold u64, to_unsigned. apply Zplus_mod_idemp_r. Qed.

(** The loop over the threads, on subblocks that are given. *)
Lemma threads_fold assertions garbage (todos : list (list (array3 * array3 * Z))) :
  forall out nBlobs,
    is_u64 nBlobs ->
    Forall (Forall valid_splat) todos ->
    fold_left
      (fun acc todo =>
         let! (out, nBlobs) := acc in
         let! (data, n) := thread_blobs assertions garbage todo in
         Ok (out ++ data, u64 (nBlobs + n)))
      todos (Ok (out, nBlobs))
    = Ok (out ++ concat (map (fun todo => records_of false garbage (coalesce todo))
                             todos),
          u64 (nBlobs + Z.of_nat (length (concat (map coalesce todos))))).
Proof.
  induction todos as [| todo rest IH]; intros out nBlobs Hn Hok.
  - cbn. rewrite app_nil_r, Z.add_0_r, u64_small by exact Hn. reflexivity.
  - apply Forall_cons in Hok as [Hx Hrest].
    cbn [fold_left bind]. rewrite thread_blobs_records by exact Hx.
    cbn [bind]. rewrite IH by (try apply u64_range; exact Hrest).
    cbn [map concat]. rewrite <- app_assoc. f_equal. f_equal.
    rewrite length_app, Nat2Z.inj_add.
    rewrite u64_add_l, Z.add_shuffle0, u64_add_r. f_equal. lia.
Qed.

Lemma readBlobs_app assertions blobFiles (n m : nat) :
  forall st,
    readBlobs assertions (n + m) blobFiles st
    = (let! (bs, st') := readBlobs assertions n blobFiles st in
       let! (bs', st'') := readBlobs assertions m blobFiles st' in
       Ok (bs ++ bs', st'')).
Proof.
  induction n as [| n IH]; intros st.
  - cbn [Nat.add readBlobs bind].
    destruct (readBlobs assertions m blobFiles st) as [[bs st'] | |]; reflexivity.
  - cbn [Nat.add readBlobs].
    destruct (refill assertions blobFiles st) as [st1 | |]; cbn [bind];
      try reflexivity.
    rewrite IH.
    destruct (readBlobs assertions n blobFiles st1) as [[bs st2] | |];
      cbn [bind]; try reflexivity.
    destruct (readBlobs assertions m blobFiles st2) as [[bs' st3] | |];
      reflexivity.
Qed.

(** Reading the records of several threads: each thread's records start
    with a full record, so that the blob before it does not matter. *)
Lemma read_segments assertions blobFiles cf garbage (segs : list (list BlobInfo)) :
  forall b rest k,
    Forall (Forall good_blob) segs ->
    0 <= k -> is_u64 (Z.of_nat (length (concat segs)) + k) ->
    exists b',
      readBlobs assertions (length (concat segs)) blobFiles
        (mkBlobStream cf
           (Some (concat (map (records_of false garbage) segs) ++ rest))
           (Z.of_nat (length (concat segs)) + k) b)
      = Ok (concat segs, mkBlobStream cf (Some rest) k b').
Proof.
  induction segs as [| seg more IH]; intros b rest k Hgood Hk Hlen.
  - exists b. reflexivity.
  - apply Forall_cons in Hgood as [Hseg Hmore].
    cbn [map concat] in *. rewrite length_app, Nat2Z.inj_add in *.
    destruct (good_emitted seg false garbage Hseg) as (Hwf & Hleg & Htag).
    destruct (read_encoded assertions blobFiles cf seg false garbage b
                (concat (map (records_of false garbage) more) ++ rest)
                (Z.of_nat (length (concat more)) + k))
      as [b1 Hread1]; try assumption; try discriminate; try lia.
    { unfold is_u64 in *. lia. }
    destruct (IH b1 rest k Hmore Hk) as [b2 Hread2].
    { unfold is_u64 in *. lia. }
    exists b2. rewrite readBlobs_app, <- app_assoc, <- Z.add_assoc, Hread1.
    cbn [bind]. rewrite Hread2. reflexivity.
Qed.

Lemma fold_left_over_map {A B C : Type} (f : A -> B -> A) (g : C -> B)
    (l : list C) :
  forall a, fold_left f (map g l) a = fold_left (fun a x => f a (g x)) l a.
Proof. induction l as [| x l IH]; intros a; [reflexivity | apply IH]. Qed.

Lemma segments_expand (todos : list (list (array3 * array3 * Z))) :
  Forall (Forall valid_splat) todos ->
  concat (map expand (concat (map coalesce todos))) = concat todos.
Proof.
  induction todos as [| todo rest IH]; intros Hvalid; [reflexivity |].
  apply Forall_cons in Hvalid as [Hx Hrest].
  cbn [map concat]. rewrite map_app, concat_app, IH by exact Hrest.
  rewrite coalesce_expand; [reflexivity |].
  eapply Forall_impl; [exact Hx | exact valid_splat_id].
Qed.

Lemma segments_length (todos : list (list (array3 * array3 * Z))) :
  (length (concat (map coalesce todos)) <= length (concat todos))%nat.
Proof.
  induction todos as [| todo rest IH]; [reflexivity |].
  cbn [map concat]. rewrite !length_app.
  pose proof (coalesce_length todo). lia.
Qed.

Lemma segments_good (todos : list (list (array3 * array3 * Z))) :
  Forall (Forall valid_splat) todos ->
  Forall (Forall good_blob) (map coalesce todos).
Proof.
  induction todos as [| todo rest IH]; intros Hvalid; [constructor |].
  apply Forall_cons in Hvalid as [Hx Hrest].
  cbn [map]. constructor; [apply coalesce_good, Hx | apply IH, Hrest].
Qed.

(** X16. The words and the number of blobs that the threads of
    [computeBlobsRange] write for a buffer, taken as a blob file and read
    with [MyBlobStream], give back blobs that stand for exactly the splats
    of the buffer, in order, whatever the number of threads. *)
Theorem buffer_roundtrip (assertions : bool) (garbage curBlob0 : BlobInfo)
    (nThreads : nat) (buffer : list (array3 * array3 * Z)) :
  (1 <= nThreads)%nat -> Z.of_nat nThreads <= INT32_MAX ->
  Z.of_nat nThreads * Z.of_nat (length buffer) <= UINT64_MAX ->
  Forall valid_splat buffer ->
  exists data blobs st,
    buffer_blobs assertions garbage nThreads buffer [] 0
    = Ok (data, Z.of_nat (length blobs))
    /\ readBlobs assertions (length blobs)
         [mkBlobFile data (Z.of_nat (length blobs))]
         (mkBlobStream 0 None 0 curBlob0)
       = Ok (blobs, st)
    /\ concat (map expand blobs) = buffer.
Proof.
  intros HT Hint Hfit Hok.
  remember (map (fun tid => subblock buffer (Z.of_nat tid) (Z.of_nat nThreads))
                (seq 0 nThreads)) as todos eqn:Htodos.
  assert (Hparts : concat todos = buffer).
  { subst todos.
    rewrite (subblocks_prefix buffer nThreads HT Hint Hfit nThreads) by lia.
    rewrite cut_T by lia. rewrite Nat2Z.id. apply firstn_all. }
  assert (Hvalid : Forall (Forall valid_splat) todos).
  { subst todos. apply Forall_map, Forall_forall. intros tid _.
    unfold subblock. apply Forall_take, Forall_drop, Hok. }
  pose proof (segments_expand todos Hvalid) as Hexp.
  pose proof (segments_length todos) as Hlen.
  pose proof (segments_good todos Hvalid) as Hgood.
  rewrite Hparts in Hexp, Hlen.
  remember (map coalesce todos) as segs eqn:Hsegs.
  assert (Hsmall : is_u64 (Z.of_nat (length (concat segs)))).
  { unfold is_u64. nia. }
  remember (concat (map (records_of false garbage) segs)) as data eqn:Hdata.
  assert (Hwrite : buffer_blobs assertions garbage nThreads buffer [] 0
                   = Ok (data, Z.of_nat (length (concat segs)))).
  { unfold buffer_blobs.
    assert (H0 : is_u64 0) by (unfold is_u64, UINT64_MAX; lia).
    pose proof (threads_fold assertions garbage todos [] 0 H0 Hvalid) as Hfold.
    rewrite Htodos in Hfold at 1. rewrite fold_left_over_map in Hfold.
    rewrite Hfold. cbn [app]. subst data segs. rewrite map_map.
    f_equal. f_equal. rewrite Z.add_0_l. apply u64_small, Hsmall. }
  destruct (read_segments assertions
              [mkBlobFile data (Z.of_nat (length (concat segs)))]
              0%nat garbage segs curBlob0 [] 0 Hgood)
    as [b' Hread]; [lia | rewrite Z.add_0_r; exact Hsmall |].
  rewrite <- Hdata, app_nil_r, Z.add_0_r in Hread.
  exists data, (concat segs).
  destruct (concat segs) as [| b0 more] eqn:Hblobs.
  - eexists. split; [exact Hwrite |]. split; [reflexivity | exact Hexp].
  - exists (mkBlobStream 0 (Some []) 0 b').
    split; [exact Hwrite |]. split; [| exact Hexp].
    cbn [readBlobs length] in Hread |- *.
    rewrite refill_first by (cbn [nBlobs length]; lia).
    exact Hread.
Qed.

Definition four_in_a_buffer : list (array3 * array3 * Z) :=
  [ (mkArray3 0 0 0, mkArray3 1 1 1, 5);
    (mkArray3 0 0 0, mkArray3 1 1 1, 6);
    (mkArray3 0 0 0, mkArray3 1 1 1, 7);
    (mkArray3 2 0 0, mkArray3 2 1 1, 8) ].

Lemma four_in_a_buffer_valid : Forall valid_splat four_in_a_buffer.
Proof.
  assert (H : forall lx ux id,
             0 <= lx <= ux -> ux <= 2 -> 0 <= id < 100 ->
             valid_splat (mkArray3 lx 0 0, mkArray3 ux 1 1, id)).
  { intros lx ux id Hl Hu Hid.
    unfold valid_splat, wf_array3, is_s32, INT32_MIN, INT32_MAX.
    cbn [fst snd ax ay az].
    split; [lia | split; [lia | split; [| lia]]].
    intros [| [| i]] _; cbn [get ax ay az];
      rewrite s32_small
        by (unfold is_s32, INT32_MIN, INT32_MAX; lia); lia. }
  unfold four_in_a_buffer.
  repeat (apply List.Forall_cons; [apply H; lia |]). apply List.Forall_nil.
Qed.

Lemma buffer_roundtrip_witness :
  exists data blobs st,
    buffer_blobs true (mkBlob 9 9 (mkArray3 9 9 9) (mkArray3 9 9 9)) 2
                 four_in_a_buffer [] 0
    = Ok (data, Z.of_nat (length blobs))
    /\ readBlobs true (length blobs)
         [mkBlobFile data (Z.of_nat (length blobs))]
         (mkBlobStream 0 None 0 (mkBlob 0 0 (mkArray3 0 0 0) (mkArray3 0 0 0)))
       = Ok (blobs, st)
    /\ concat (map expand blobs) = four_in_a_buffer.
Proof.
  apply (buffer_roundtrip true _ _ 2 four_in_a_buffer).
  - lia.
  - vm_compute. discriminate.
  - vm_compute. discriminate.
  - exact four_in_a_buffer_valid.
Defined.

End BlobComputeFacts.

(* ===================================================================== *)
(** * Facts about splat_tree.cpp: the guard of [makeCode] and the entries of a splat *)
(* ===================================================================== *)

Module EntryFacts.
Import Machine Outcome SplatTree Grids SplatTreeInit MachineFacts SplatTreeFacts
  SplatTreeInitFacts.

(** ** The number of turns of the loop of [makeCode] *)

Lemma makeCode_loop_turns (n : nat) :
  forall fuel x y z shift ans,
    (n <= fuel)%nat ->
    0 <= x < 2 ^ Z.of_nat n -> 0 <= y < 2 ^ Z.of_nat n ->
    0 <= z < 2 ^ Z.of_nat n ->
    n = 0%nat \/ 2 ^ (Z.of_nat n - 1) <= x \/ 2 ^ (Z.of_nat n - 1) <= y
    \/ 2 ^ (Z.of_nat n - 1) <= z ->
    exists ans',
      makeCode_loop fuel x y z shift ans = Ok (shift + 3 * Z.of_nat n, ans').
Proof.
  induction n as [| n IH]; intros fuel x y z shift ans Hfuel Hx Hy Hz Hbig.
  - exists ans.
    assert (x = 0 /\ y = 0 /\ z = 0) as (-> & -> & ->) by (simpl in *; lia).
    destruct fuel; simpl; repeat f_equal; lia.
  - destruct Hbig as [Hbig | Hbig]; [discriminate |].
    rewrite Nat2Z.inj_succ in *.
    replace (Z.succ (Z.of_nat n) - 1) with (Z.of_nat n) in Hbig by lia.
    assert (Hpos : 0 < 2 ^ Z.of_nat n) by (apply Z.pow_pos_nonneg; lia).
    destruct ((x =? 0) && (y =? 0) && (z =? 0)) eqn:Hzero.
    { apply andb_prop in Hzero as [Hxy Hz0]. apply andb_prop in Hxy as [Hx0 Hy0].
      apply Z.eqb_eq in Hx0, Hy0, Hz0. lia. }
    destruct fuel as [| fuel]; [lia |].
    cbn [makeCode_loop]. rewrite Hzero.
    rewrite !Z.shiftr_div_pow2 by lia. change (2 ^ 1) with 2.
    rewrite Z.pow_succ_r in Hx, Hy, Hz by lia.
    match goal with
    | |- context [makeCode_loop fuel _ _ _ _ ?a] =>
        destruct (IH fuel (x / 2) (y / 2) (z / 2) (shift + 3) a)
          as [ans' Heq]
    end.
    + lia.
    + split; [apply Z.div_pos; lia | apply Z.div_lt_upper_bound; lia].
    + split; [apply Z.div_pos; lia | apply Z.div_lt_upper_bound; lia].
    + split; [apply Z.div_pos; lia | apply Z.div_lt_upper_bound; lia].
    + destruct n as [| n]; [left; reflexivity | right].
      rewrite Nat2Z.inj_succ in *.
      replace (Z.succ (Z.of_nat n) - 1) with (Z.of_nat n) by lia.
      rewrite Z.pow_succ_r in Hbig by lia.
      destruct Hbig as [H | [H | H]];
        [left | right; left | right; right];
        apply Z.div_le_lower_bound; lia.
    + exists ans'. rewrite Heq. do 2 f_equal. lia.
Qed.

(** X17. On coordinates of at most eleven bits, [makeCode] raises
    [std::range_error] exactly when a coordinate does not fit in ten bits:
    the eleventh turn of its loop takes [shift] to 33, which the check
    against the 32 bits of a code refuses. *)
Theorem makeCode_guard (x y z : Z) :
  in_cube 11 x y z ->
  (makeCode x y z = Throw RangeError <-> ~ in_cube 10 x y z).
Proof.
  intros (Hx & Hy & Hz). split.
  - intros Hthrow Hin.
    rewrite (makeCode_interleave 10 x y z) in Hthrow;
      [discriminate | lia | unfold code_digits; lia | exact Hin].
  - intros Hout. unfold in_cube in Hout.
    destruct (makeCode_loop_turns 11 (Z.to_nat code_digits) x y z 0 0)
      as [ans' Heq]; try assumption.
    + unfold code_digits. lia.
    + right. change (2 ^ (Z.of_nat 11 - 1)) with (2 ^ 10). lia.
    + unfold makeCode. rewrite Heq. reflexivity.
Qed.

Lemma makeCode_guard_witness :
  in_cube 11 1024 0 0
  /\ (makeCode 1024 0 0 = Throw RangeError <-> ~ in_cube 10 1024 0 0).
Proof.
  assert (H : in_cube 11 1024 0 0) by (unfold in_cube; cbn; lia).
  split; [exact H | exact (makeCode_guard 1024 0 0 H)].
Defined.

(** ** The coarsening of [shift] *)

Lemma shiftr_high v M : 0 <= M -> 0 <= v < 2 ^ M -> Z.shiftr v M = 0.
Proof.
  intros HM Hv. rewrite Z.shiftr_div_pow2 by exact HM. apply Z.div_small, Hv.
Qed.

Lemma shiftr_below v s M :
  0 <= s <= M -> 0 <= v < 2 ^ M -> 0 <= Z.shiftr v s < 2 ^ (M - s).
Proof.
  intros Hs Hv. rewrite Z.shiftr_div_pow2 by lia.
  assert (Hpos : 0 < 2 ^ s) by (apply Z.pow_pos_nonneg; lia).
  split; [apply Z.div_pos; lia |].
  apply Z.div_lt_upper_bound; [exact Hpos |].
  rewrite <- Z.pow_add_r by lia. replace (s + (M - s)) with M by lia. lia.
Qed.

(** Once two bounds are at most one cell apart, they stay so at every
    coarser level. *)
Lemma shift_keeps lo hi s s' :
  0 <= s <= s' -> Z.shiftr hi s - Z.shiftr lo s <= 1 ->
  Z.shiftr hi s' - Z.shiftr lo s' <= 1.
Proof.
  intros Hs Hd.
  replace s' with (s + (s' - s)) by lia.
  rewrite <- !Z.shiftr_shiftr by lia.
  set (a := Z.shiftr hi s) in *. set (b := Z.shiftr lo s) in *.
  rewrite !Z.shiftr_div_pow2 by lia.
  assert (Hpos : 0 < 2 ^ (s' - s)) by (apply Z.pow_pos_nonneg; lia).
  assert (a / 2 ^ (s' - s) <= (b + 1 * 2 ^ (s' - s)) / 2 ^ (s' - s))
    by (apply Z.div_le_mono; lia).
  rewrite Z.div_add in H by lia. lia.
Qed.

Lemma shift_loop_from (n : nat) :
  forall fuel lo hi shift M,
    0 <= lo < 2 ^ M -> 0 <= hi < 2 ^ M -> 0 <= shift ->
    shift + Z.of_nat n = M -> M <= 31 -> (n <= fuel)%nat ->
    exists s',
      shift_loop fuel lo hi shift = Ok s'
      /\ shift <= s' <= M /\ Z.shiftr hi s' - Z.shiftr lo s' <= 1.
Proof.
  induction n as [| n IH]; intros fuel lo hi shift M Hlo Hhi Hs HM H31 Hfuel.
  - assert (shift = M) by lia. subst shift. exists M.
    assert (Hzero : Z.shiftr hi M - Z.shiftr lo M = 0)
      by (rewrite !shiftr_high by lia; reflexivity).
    split; [| split; [lia | lia]].
    destruct fuel; cbn [shift_loop]; rewrite Hzero; reflexivity.
  - assert (Hle : 2 ^ M <= 2 ^ 31) by (apply Z.pow_le_mono_r; lia).
    change (2 ^ 31) with 2147483648 in Hle.
    pose proof (shiftr_below lo shift M ltac:(lia) Hlo) as Hl.
    pose proof (shiftr_below hi shift M ltac:(lia) Hhi) as Hh.
    assert (Hle' : 2 ^ (M - shift) <= 2 ^ M) by (apply Z.pow_le_mono_r; lia).
    destruct fuel as [| fuel]; [lia |]. cbn [shift_loop].
    rewrite s32_small
      by (unfold is_s32, INT32_MIN, INT32_MAX;
          change (2 ^ 31 - 1) with 2147483647;
          change (- 2 ^ 31) with (-2147483648); lia).
    destruct (Z.ltb_spec 1 (Z.shiftr hi shift - Z.shiftr lo shift))
      as [Hfar | Hnear].
    + rewrite u32_small by (unfold is_u32, UINT32_MAX; lia).
      destruct (IH fuel lo hi (shift + 1) M) as (s' & Hrun & Hs' & Hd);
        try assumption; try lia.
      exists s'. split; [exact Hrun | split; [lia | exact Hd]].
    + exists shift. split; [reflexivity | split; [lia | exact Hnear]].
Qed.

(** ** The entries of a splat *)

Lemma from_to_short lo hi :
  hi - lo <= 1 -> (length (from_to lo hi) <= 2)%nat.
Proof. intros H. unfold from_to. rewrite length_map, length_seq. lia. Qed.

Lemma flat_map_short {A B : Type} (f : A -> list B) (n : nat) (l : list A) :
  (forall a, (length (f a) <= n)%nat) ->
  (length (flat_map f l) <= length l * n)%nat.
Proof.
  intros Hf. induction l as [| a l IH]; [cbn; lia |].
  cbn [flat_map length]. rewrite length_app. specialize (Hf a). lia.
Qed.

Lemma cells_short (lo hi : nat -> Z) :
  (forall i, (i < 3)%nat -> hi i - lo i <= 1) ->
  (length (cells lo hi) <= 8)%nat.
Proof.
  intros H. unfold cells.
  pose proof (from_to_short _ _ (H 0%nat ltac:(lia))) as H0.
  pose proof (from_to_short _ _ (H 1%nat ltac:(lia))) as H1.
  pose proof (from_to_short _ _ (H 2%nat ltac:(lia))) as H2.
  etransitivity.
  - apply (flat_map_short _ 4). intros z.
    etransitivity.
    + apply (flat_map_short _ 2). intros y. rewrite length_map. exact H0.
    + lia.
  - lia.
Qed.

Lemma push_cells_spec L level id (todo : list (Z * Z * Z)) :
  0 <= L <= 10 ->
  (forall x y z, In (x, y, z) todo -> in_cube L x y z) ->
  forall entries,
    exists new,
      push_cells level id todo entries = Ok (entries ++ new)
      /\ length new = length todo
      /\ Forall (fun e => entry_splatId e = id /\ entry_level e = level
                          /\ 0 <= entry_code e < 8 ^ L) new.
Proof.
  intros HL. induction todo as [| [[x y] z] rest IH]; intros Hin entries.
  - exists []. cbn. rewrite app_nil_r. repeat split. constructor.
  - cbn [push_cells].
    rewrite (makeCode_interleave L x y z);
      [| lia | unfold code_digits; lia | apply Hin; left; reflexivity].
    cbn [bind].
    destruct (IH (fun x y z H => Hin x y z (or_intror H))
                 (entries ++ [mkEntry level (interleave (Z.to_nat L) x y z) id]))
      as (new & Hrun & Hlen & Hall).
    exists (mkEntry level (interleave (Z.to_nat L) x y z) id :: new).
    split; [rewrite Hrun, <- app_assoc; reflexivity |].
    split; [cbn [length]; lia |].
    constructor; [| exact Hall].
    cbn [entry_splatId entry_level entry_code].
    pose proof (interleave_range (Z.to_nat L) x y z) as Hr.
    rewrite Z2Nat.id in Hr by lia. auto.
Qed.

Section Entries.

Variable Splat : Type.
Variables ilo_of ihi_of : Splat -> nat -> Z.
Variable assertions : bool.

(** The bounds of a splat are vertices of the grid on axis [i]. *)
Definition in_range_axis (dims : nat -> Z) (s : Splat) (i : nat) : Prop :=
  0 <= ilo_of s i < dims i /\ 0 <= ihi_of s i < dims i.

Definition in_range (dims : nat -> Z) (s : Splat) : Prop :=
  forall i, (i < 3)%nat -> in_range_axis dims s i.

(** What [initialize] has when it comes to the splats: no side of the grid
    has more than [2 ^ maxLevel] vertices, and there are ten levels at
    most below the top. *)
Definition levels_fit (dims : nat -> Z) (maxLevel : Z) : Prop :=
  0 <= maxLevel <= 10
  /\ forall i, (i < 3)%nat -> 0 <= dims i <= 2 ^ maxLevel.

Lemma dims_int dims M i :
  levels_fit dims M -> (i < 3)%nat -> s32 (dims i) = dims i /\ dims i <= 2 ^ M
  /\ 2 ^ M <= 1024.
Proof.
  intros (HM & Hd) Hi. specialize (Hd i Hi).
  assert (H : 2 ^ M <= 2 ^ 10) by (apply Z.pow_le_mono_r; lia).
  change (2 ^ 10) with 1024 in H.
  split; [| lia].
  apply s32_small. unfold is_s32, INT32_MIN, INT32_MAX.
  change (2 ^ 31 - 1) with 2147483647. change (- 2 ^ 31) with (-2147483648). lia.
Qed.

Lemma axis_shift_in fuel dims M s shift i :
  levels_fit dims M -> (i < 3)%nat -> in_range_axis dims s i ->
  0 <= shift <= M -> (10 <= fuel)%nat ->
  exists s',
    axis_shift Splat ilo_of ihi_of fuel dims s shift i = Ok s'
    /\ shift <= s' <= M
    /\ Z.shiftr (ihi_of s i) s' - Z.shiftr (ilo_of s i) s' <= 1.
Proof.
  intros Hfit Hi (Hlo & Hhi) Hs Hfuel.
  destruct (dims_int dims M i Hfit Hi) as (Hint & Hd & _).
  destruct Hfit as (HM & _).
  unfold axis_shift. rewrite Hint.
  destruct (Z.leb_spec 0 (ihi_of s i)); [| lia].
  destruct (Z.ltb_spec (ihi_of s i) (dims i)); [| lia].
  destruct (Z.leb_spec 0 (ilo_of s i)); [| lia].
  destruct (Z.ltb_spec (ilo_of s i) (dims i)); [| lia].
  cbn [andb mlsgpu_assert bind].
  apply (shift_loop_from (Z.to_nat (M - shift)) fuel _ _ shift M); lia.
Qed.

Lemma axis_shift_out fuel dims M s shift i :
  levels_fit dims M -> (i < 3)%nat -> ~ in_range_axis dims s i ->
  axis_shift Splat ilo_of ihi_of fuel dims s shift i = Throw OutOfRange.
Proof.
  intros Hfit Hi Hout.
  destruct (dims_int dims M i Hfit Hi) as (Hint & _ & _).
  unfold in_range_axis in Hout. unfold axis_shift. rewrite Hint.
  destruct (Z.leb_spec 0 (ihi_of s i)); [| reflexivity].
  destruct (Z.ltb_spec (ihi_of s i) (dims i)); [| reflexivity].
  destruct (Z.leb_spec 0 (ilo_of s i)); [| reflexivity].
  destruct (Z.ltb_spec (ilo_of s i) (dims i)); [| reflexivity].
  lia.
Qed.

Lemma in_range_axis_dec dims s i :
  in_range_axis dims s i \/ ~ in_range_axis dims s i.
Proof. unfold in_range_axis. lia. Qed.

(** The entries that a splat adds. *)
Definition entries_of (maxLevel splatId : Z) (new : list Entry) : Prop :=
  (length new <= 8)%nat
  /\ exists shift,
       0 <= shift <= maxLevel
       /\ Forall (fun e => entry_splatId e = command splatId
                           /\ entry_level e = maxLevel - shift
                           /\ 0 <= entry_code e < 8 ^ entry_level e) new.

Lemma splat_entries_in fuel dims M numLevels splatId s entries :
  levels_fit dims M -> M < numLevels -> (10 <= fuel)%nat ->
  in_range dims s ->
  exists new,
    splat_entries Splat ilo_of ihi_of assertions fuel dims M numLevels
                  splatId s entries
    = Ok (entries ++ new)
    /\ entries_of M splatId new.
Proof.
  intros Hfit Hlevels Hfuel Hin.
  pose proof Hfit as (HM & Hdims).
  destruct (axis_shift_in fuel dims M s 0 0%nat Hfit ltac:(lia)
              (Hin 0%nat ltac:(lia)) ltac:(lia) Hfuel)
    as (s0 & Hrun0 & Hs0 & Hd0).
  destruct (axis_shift_in fuel dims M s s0 1%nat Hfit ltac:(lia)
              (Hin 1%nat ltac:(lia)) ltac:(lia) Hfuel)
    as (s1 & Hrun1 & Hs1 & Hd1).
  destruct (axis_shift_in fuel dims M s s1 2%nat Hfit ltac:(lia)
              (Hin 2%nat ltac:(lia)) ltac:(lia) Hfuel)
    as (shift & Hrun2 & Hs2 & Hd2).
  unfold splat_entries. rewrite Hrun0. cbn [bind]. rewrite Hrun1. cbn [bind].
  rewrite Hrun2. cbn [bind].
  destruct (Z.ltb_spec shift numLevels); [| lia].
  rewrite BlobFacts.c_assert_true. cbn [bind].
  assert (Hnear : forall i, (i < 3)%nat ->
            Z.shiftr (ihi_of s i) shift - Z.shiftr (ilo_of s i) shift <= 1).
  { intros [| [| [| i]]] Hi; [| | | lia].
    - apply (shift_keeps _ _ s0); [lia | exact Hd0].
    - apply (shift_keeps _ _ s1); [lia | exact Hd1].
    - exact Hd2. }
  rewrite u32_small.
  2:{ assert (2 ^ M <= 2 ^ 10) by (apply Z.pow_le_mono_r; lia).
      unfold is_u32, UINT32_MAX. lia. }
  match goal with
  | |- context [push_cells _ _ (cells ?lo ?hi) _] =>
      destruct (push_cells_spec (M - shift) (M - shift) (command splatId)
                  (cells lo hi) ltac:(lia)) with (entries := entries)
        as (new & Hrun & Hlen & Hall);
        [| exists new; split; [exact Hrun |];
           split; [rewrite Hlen; apply cells_short; exact Hnear |];
           exists shift; split; [lia |] ]
  end.
  - intros x y z Hcell. apply in_cells in Hcell.
    assert (Hbelow : forall i, (i < 3)%nat ->
              0 <= Z.shiftr (ilo_of s i) shift
              /\ Z.shiftr (ihi_of s i) shift < 2 ^ (M - shift)).
    { intros i Hi. destruct (Hin i Hi) as (Hlo & Hhi).
      specialize (Hdims i Hi).
      pose proof (shiftr_below (ilo_of s i) shift M ltac:(lia) ltac:(lia)).
      pose proof (shiftr_below (ihi_of s i) shift M ltac:(lia) ltac:(lia)).
      lia. }
    pose proof (Hbelow 0%nat ltac:(lia)). pose proof (Hbelow 1%nat ltac:(lia)).
    pose proof (Hbelow 2%nat ltac:(lia)).
    unfold in_cube. lia.
  - eapply Forall_impl; [exact Hall |].
    intros e (Hid & Hlv & Hcode). rewrite Hlv. auto.
Qed.

Lemma splat_entries_out fuel dims M numLevels splatId s entries :
  levels_fit dims M -> (10 <= fuel)%nat ->
  ~ in_range dims s ->
  splat_entries Splat ilo_of ihi_of assertions fuel dims M numLevels
                splatId s entries
  = Throw OutOfRange.
Proof.
  intros Hfit Hfuel Hout.
  pose proof Hfit as (HM & _).
  unfold splat_entries.
  destruct (in_range_axis_dec dims s 0) as [H0 | H0];
    [| rewrite (axis_shift_out fuel dims M s 0 0%nat Hfit ltac:(lia) H0);
       reflexivity].
  destruct (axis_shift_in fuel dims M s 0 0%nat Hfit ltac:(lia) H0
              ltac:(lia) Hfuel) as (s0 & -> & Hs0 & _).
  cbn [bind].
  destruct (in_range_axis_dec dims s 1) as [H1 | H1];
    [| rewrite (axis_shift_out fuel dims M s s0 1%nat Hfit ltac:(lia) H1);
       reflexivity].
  destruct (axis_shift_in fuel dims M s s0 1%nat Hfit ltac:(lia) H1
              ltac:(lia) Hfuel) as (s1 & -> & Hs1 & _).
  cbn [bind].
  destruct (in_range_axis_dec dims s 2) as [H2 | H2];
    [| rewrite (axis_shift_out fuel dims M s s1 2%nat Hfit ltac:(lia) H2);
       reflexivity].
  exfalso. apply Hout. intros [| [| [| i]]] Hi; [assumption .. | lia].
Qed.

(** X18. In [SplatTree::initialize], over a grid of at most [2 ^ maxLevel]
    vertices a side with [maxLevel] at most 10: a splat whose bounds are
    vertices of the grid on every axis adds at most eight entries, all with
    its id and at one level [maxLevel - shift], with codes below
    [8 ^ level]; the loop that coarsens [shift] ends and the check that
    [shift] is below [numLevels] holds. A splat with a bound that is not a
    vertex of the grid raises [std::out_of_range]. *)
Theorem splat_entries_range (fuel : nat) (dims : nat -> Z)
    (maxLevel numLevels splatId : Z) (s : Splat) (entries : list Entry) :
  levels_fit dims maxLevel -> maxLevel < numLevels -> (10 <= fuel)%nat ->
  (in_range dims s ->
   exists new,
     splat_entries Splat ilo_of ihi_of assertions fuel dims maxLevel numLevels
                   splatId s entries
     = Ok (entries ++ new)
     /\ entries_of maxLevel splatId new)
  /\ (~ in_range dims s ->
      splat_entries Splat ilo_of ihi_of assertions fuel dims maxLevel numLevels
                    splatId s entries
      = Throw OutOfRange).
Proof.
  intros Hfit Hlevels Hfuel. split.
  - intros Hin. apply splat_entries_in; assumption.
  - intros Hout. apply (splat_entries_out fuel dims maxLevel); assumption.
Qed.

(** ** The entries of all the splats *)

Lemma all_entries_in fuel dims M numLevels (splats : list Splat) :
  levels_fit dims M -> M < numLevels -> (10 <= fuel)%nat ->
  forall splatId entries,
    0 <= splatId -> splatId + Z.of_nat (length splats) <= INT32_MAX ->
    Forall (in_range dims) splats ->
    exists new,
      all_entries Splat ilo_of ihi_of assertions fuel dims M numLevels
                  splatId splats entries
      = Ok (entries ++ new)
      /\ (length new <= 8 * length splats)%nat
      /\ Forall (fun e =>
                   splatId <= entry_splatId e
                   < splatId + Z.of_nat (length splats)
                   /\ 0 <= entry_level e <= M
                   /\ 0 <= entry_code e < 8 ^ entry_level e) new.
Proof.
  intros Hfit Hlevels Hfuel.
  induction splats as [| s rest IH]; intros splatId entries Hid Hmax Hin.
  - exists []. cbn. rewrite app_nil_r. repeat split; [lia | constructor].
  - apply Forall_cons in Hin as [Hs Hrest].
    cbn [length] in Hmax. rewrite Nat2Z.inj_succ in Hmax.
    cbn [all_entries].
    destruct (splat_entries_in fuel dims M numLevels splatId s entries
                Hfit Hlevels Hfuel Hs)
      as (new1 & -> & Hlen1 & shift & Hshift & Hall1).
    cbn [bind].
    destruct (IH (splatId + 1) (entries ++ new1) ltac:(lia) ltac:(lia) Hrest)
      as (new2 & -> & Hlen2 & Hall2).
    exists (new1 ++ new2).
    split; [rewrite <- app_assoc; reflexivity |].
    split; [rewrite length_app; cbn [length]; lia |].
    apply Forall_app. split.
    + eapply Forall_impl; [exact Hall1 |].
      intros e (He & Hlv & Hcode). cbn beta.
      rewrite He. unfold command.
      rewrite s32_small
        by (unfold is_s32, INT32_MIN; unfold INT32_MAX in *; lia).
      cbn [length]. rewrite Nat2Z.inj_succ. lia.
    + eapply Forall_impl; [exact Hall2 |].
      intros e (He & Hlv & Hcode). cbn beta.
      cbn [length]. rewrite Nat2Z.inj_succ. lia.
Qed.

End Entries.

Lemma key_changes_bound (entries : list Entry) :
  0 <= key_changes entries <= Z.of_nat (length entries).
Proof.
  induction entries as [| a rest IH]; [cbn; lia |].
  destruct rest as [| b rest']; [cbn; lia |].
  cbn [key_changes]. cbn [key_changes] in IH.
  change (length (a :: b :: rest')) with (S (length (b :: rest'))).
  rewrite Nat2Z.inj_succ.
  destruct (negb (entry_level b =? entry_level a)
            || negb (entry_code b =? entry_code a)); lia.
Qed.

Lemma insert_entry_length e sorted :
  length (insert_entry e sorted) = S (length sorted).
Proof.
  induction sorted as [| x rest IH]; [reflexivity |].
  cbn [insert_entry]. destruct (entry_lt x e); cbn [length]; lia.
Qed.

Lemma stable_sort_length entries :
  length (stable_sort entries) = length entries.
Proof.
  induction entries as [| e rest IH]; [reflexivity |].
  unfold stable_sort in *. cbn [fold_right length].
  rewrite insert_entry_length, IH. reflexivity.
Qed.

Lemma insert_entry_Forall (P : Entry -> Prop) e sorted :
  P e -> Forall P sorted -> Forall P (insert_entry e sorted).
Proof.
  intros He. induction sorted as [| x rest IH]; intros Hall.
  - constructor; [exact He | constructor].
  - apply Forall_cons in Hall as [Hx Hrest]. cbn [insert_entry].
    destruct (entry_lt x e).
    + constructor; [exact Hx | apply IH, Hrest].
    + constructor; [exact He |]. constructor; assumption.
Qed.

Lemma stable_sort_Forall (P : Entry -> Prop) entries :
  Forall P entries -> Forall P (stable_sort entries).
Proof.
  induction entries as [| e rest IH]; intros Hall; [constructor |].
  apply Forall_cons in Hall as [He Hrest].
  unfold stable_sort in *. cbn [fold_right].
  apply insert_entry_Forall; [exact He | apply IH, Hrest].
Qed.


(** A splat given by its bounds, the same on every axis. *)
Definition bounds_lo (s : Z * Z) (_ : nat) : Z := fst s.
Definition bounds_hi (s : Z * Z) (_ : nat) : Z := snd s.
Definition eight_a_side (_ : nat) : Z := 8.

Lemma eight_a_side_fit : levels_fit eight_a_side 3.
Proof.
  split; [lia |]. intros i _. unfold eight_a_side. change (2 ^ 3) with 8. lia.
Qed.

Lemma splat_entries_range_witness :
  (in_range (Z * Z) bounds_lo bounds_hi eight_a_side (1, 6) ->
   exists new,
     splat_entries (Z * Z) bounds_lo bounds_hi true 10 eight_a_side 3 4
                   0 (1, 6) []
     = Ok ([] ++ new)
     /\ entries_of 3 0 new)
  /\ (~ in_range (Z * Z) bounds_lo bounds_hi eight_a_side (1, 6) ->
      splat_entries (Z * Z) bounds_lo bounds_hi true 10 eight_a_side 3 4
                    0 (1, 6) []
      = Throw OutOfRange).
Proof.
  apply (splat_entries_range (Z * Z) bounds_lo bounds_hi true 10 eight_a_side
           3 4 0 (1, 6) []).
  - exact eight_a_side_fit.
  - lia.
  - lia.
Defined.


End EntryFacts.

(* ===================================================================== *)
(** * Facts about workers.cpp: the device group that [flush] chooses *)
(* ===================================================================== *)

Module ChoiceFacts.
Import Machine Workers.

(** The group of index [k] can deliver an item, no group that can has more
    unallocated splats, and of those with as many it is the last. *)
Definition chosen (groups : list DeviceWorkerGroup) (k : nat) : Prop :=
  exists g,
    groups !! k = Some g /\ canGet g = true
    /\ forall j g', groups !! j = Some g' -> canGet g' = true ->
         unallocated_ g' <= unallocated_ g
         /\ (unallocated_ g' = unallocated_ g -> (j <= k)%nat).

Definition none_ready (groups : list DeviceWorkerGroup) : Prop :=
  Forall (fun g => canGet g = false) groups.

(** What the loop holds after the groups [pre]. *)
Definition picked (pre : list DeviceWorkerGroup) (best : Z)
    (outGroup : option nat) : Prop :=
  match outGroup with
  | None => best = 0 /\ none_ready pre
  | Some k => chosen pre k
              /\ exists g, pre !! k = Some g /\ unallocated_ g = best
  end.

Lemma lookup_snoc (pre : list DeviceWorkerGroup) g j g' :
  (pre ++ [g]) !! j = Some g' ->
  (pre !! j = Some g' /\ (j < length pre)%nat) \/ (j = length pre /\ g' = g).
Proof.
  intros H. destruct (Nat.lt_ge_cases j (length pre)) as [Hlt | Hge].
  - left. rewrite lookup_app_l in H by exact Hlt. auto.
  - right. rewrite lookup_app_r in H by exact Hge.
    destruct (j - length pre)%nat as [| d] eqn:Hd; cbn in H; [| discriminate].
    injection H as <-. split; [lia | reflexivity].
Qed.

Lemma picked_turn pre best outGroup g :
  0 <= unallocated_ g ->
  picked pre best outGroup ->
  picked (pre ++ [g])
         (if canGet g then
            if best <=? unallocated_ g then unallocated_ g else best
          else best)
         (if canGet g then
            if best <=? unallocated_ g then Some (length pre) else outGroup
          else outGroup).
Proof.
  intros Hu Hinv.
  destruct (canGet g) eqn:Hget.
  - destruct (Z.leb_spec best (unallocated_ g)) as [Hle | Hlt].
    + assert (Hhere : (pre ++ [g]) !! length pre = Some g).
      { rewrite lookup_app_r by lia. rewrite Nat.sub_diag. reflexivity. }
      split; [| exists g; auto].
      exists g. split; [exact Hhere |]. split; [exact Hget |].
      intros j g' Hj Hget'.
      destruct (lookup_snoc pre g j g' Hj) as [[Hpre Hlt] | [-> ->]];
        [| split; [lia | intros _; lia]].
      split; [| intros _; lia].
      destruct outGroup as [k |].
      * destruct Hinv as ((gk & Hk & _ & Hmax) & (gk' & Hk' & Hbest)).
        assert (gk' = gk) by congruence. subst gk'.
        destruct (Hmax j g' Hpre Hget') as [Hle' _]. lia.
      * destruct Hinv as [_ Hnone].
        apply (proj1 (Forall_lookup _ _) Hnone j g') in Hpre. congruence.
    + destruct outGroup as [k |].
      * destruct Hinv as ((gk & Hk & Hgetk & Hmax) & (gk' & Hk' & Hbest)).
        assert (gk' = gk) by congruence. subst gk'.
        assert (Hlook : (pre ++ [g]) !! k = Some gk)
          by (apply lookup_app_l_Some, Hk).
        split; [| exists gk; auto].
        exists gk. split; [exact Hlook |]. split; [exact Hgetk |].
        intros j g' Hj Hget'.
        destruct (lookup_snoc pre g j g' Hj) as [[Hpre _] | [-> ->]];
          [exact (Hmax j g' Hpre Hget') | split; lia].
      * destruct Hinv as [Hbest _]. lia.
  - destruct outGroup as [k |].
    + destruct Hinv as ((gk & Hk & Hgetk & Hmax) & (gk' & Hk' & Hbest)).
      assert (gk' = gk) by congruence. subst gk'.
      assert (Hlook : (pre ++ [g]) !! k = Some gk)
        by (apply lookup_app_l_Some, Hk).
      split; [| exists gk; auto].
      exists gk. split; [exact Hlook |]. split; [exact Hgetk |].
      intros j g' Hj Hget'.
      destruct (lookup_snoc pre g j g' Hj) as [[Hpre _] | [-> ->]];
        [exact (Hmax j g' Hpre Hget') | congruence].
    + destruct Hinv as [Hbest Hnone]. split; [exact Hbest |].
      apply Forall_app. split; [exact Hnone |].
      constructor; [exact Hget | constructor].
Qed.

Lemma pick_from_spec (rest : list DeviceWorkerGroup) :
  forall pre best outGroup,
    Forall (fun g => 0 <= unallocated_ g) rest ->
    picked pre best outGroup ->
    exists best',
      picked (pre ++ rest) best' (pick_from (length pre) rest best outGroup).
Proof.
  induction rest as [| g rest IH]; intros pre best outGroup Hu Hinv.
  - exists best. rewrite app_nil_r. exact Hinv.
  - apply Forall_cons in Hu as [Hg Hrest].
    pose proof (picked_turn pre best outGroup g Hg Hinv) as Hturn.
    cbn [pick_from].
    replace (pre ++ g :: rest) with ((pre ++ [g]) ++ rest)
      by (rewrite <- app_assoc; reflexivity).
    replace (S (length pre)) with (length (pre ++ [g]))
      by (rewrite length_app; cbn [length]; lia).
    destruct (canGet g); [destruct (best <=? unallocated_ g) |];
      apply IH; assumption.
Qed.

(** X20. In [flush], one pass over the device groups chooses a group that
    can deliver an item and has the most unallocated splats among those
    that can, the last of them on a tie; it chooses none, and the worker
    waits, exactly when no group can deliver. *)
Theorem pick_group_best (outGroups : list DeviceWorkerGroup) :
  Forall (fun g => 0 <= unallocated_ g) outGroups ->
  match pick_group outGroups with
  | Some k => chosen outGroups k
  | None => none_ready outGroups
  end.
Proof.
  intros Hu.
  destruct (pick_from_spec outGroups [] 0 None Hu) as [best' H].
  { split; [reflexivity | constructor]. }
  cbn [app length] in H. fold (pick_group outGroups) in H.
  destruct (pick_group outGroups) as [k |]; [apply H | apply H].
Qed.

Definition three_groups : list DeviceWorkerGroup :=
  [mkGroup 40 1 []; mkGroup 90 0 []; mkGroup 40 2 []].

Lemma pick_group_best_witness :
  Forall (fun g => 0 <= unallocated_ g) three_groups
  /\ match pick_group three_groups with
     | Some k => chosen three_groups k
     | None => none_ready three_groups
     end.
Proof.
  assert (H : Forall (fun g => 0 <= unallocated_ g) three_groups).
  { unfold three_groups.
    repeat (apply List.Forall_cons; [cbn; lia |]). apply List.Forall_nil. }
  split; [exact H | exact (pick_group_best three_groups H)].
Defined.

End ChoiceFacts.

(* ===================================================================== *)
(** * Facts about bucket.cpp: the cells that [forEachCell] visits *)
(* ===================================================================== *)

Module TraversalFacts.
Import Machine Outcome Bucket Grids Bucketing MachineFacts.

(** A functor that records the cell and asks for its children. *)
Definition visit (c : Cell) (st : list Cell) : outcome (bool * list Cell) :=
  Ok (true, st ++ [c]).

(** The base of child [i] of a cell, as [forEachCell_r] computes it. *)
Definition child (b : Z * Z * Z) (half : Z) (i : nat) : Z * Z * Z :=
  (u64 (axis b 0 + (if Nat.testbit i 0 then half else 0)),
   u64 (axis b 1 + (if Nat.testbit i 1 then half else 0)),
   u64 (axis b 2 + (if Nat.testbit i 2 then half else 0))).

Definition below (p d : Z * Z * Z) : Prop :=
  axis p 0 < axis d 0 /\ axis p 1 < axis d 1 /\ axis p 2 < axis d 2.

(** [p] is in the cube of side [w] at [b]. *)
Definition in_box (b : Z * Z * Z) (w : Z) (p : Z * Z * Z) : Prop :=
  axis b 0 <= axis p 0 < axis b 0 + w
  /\ axis b 1 <= axis p 1 < axis b 1 + w
  /\ axis b 2 <= axis p 2 < axis b 2 + w.

(** The cube of side [w] at [b] is within the range of [std::size_t]. *)
Definition fits (b : Z * Z * Z) (w : Z) : Prop :=
  (0 <= axis b 0 /\ axis b 0 + w <= 2 ^ 63)
  /\ (0 <= axis b 1 /\ axis b 1 + w <= 2 ^ 63)
  /\ (0 <= axis b 2 /\ axis b 2 + w <= 2 ^ 63).

(** One turn of the loop over the children. *)
Definition turn (d : Z * Z * Z) (lvl : nat) (b : Z * Z * Z)
    (acc : outcome (list Cell)) (i : nat) : outcome (list Cell) :=
  let! st' := acc in
  let b' := child b (u64 (Z.shiftl 1 (Z.of_nat lvl))) i in
  if (axis b' 0 <? axis d 0) && (axis b' 1 <? axis d 1)
     && (axis b' 2 <? axis d 2)
  then forEachCell_r visit d lvl b' st'
  else Ok st'.

Lemma forEachCell_r_children d lvl b st :
  forEachCell_r visit d (S lvl) b st
  = fold_left (turn d lvl b) (seq 0 8) (Ok (st ++ [mkCell b (S lvl)])).
Proof. reflexivity. Qed.

Lemma forEachCell_r_leaf d b st :
  forEachCell_r visit d 0 b st = Ok (st ++ [mkCell b 0]).
Proof. reflexivity. Qed.

(** The cells visited below the cell of level [lvl] at [b]: none twice, all
    within the cell and the grid, and every cell of level 0 that is in
    both. *)
Definition walked (d b : Z * Z * Z) (lvl : nat) (new : list Cell) : Prop :=
  NoDup new
  /\ (forall c, c ∈ new ->
        (level c <= lvl)%nat /\ in_box b (2 ^ Z.of_nat lvl) (base c)
        /\ below (base c) d)
  /\ (forall p, in_box b (2 ^ Z.of_nat lvl) p -> below p d ->
        mkCell p 0 ∈ new).

Lemma bits_eq (i j : nat) :
  (i < 8)%nat -> (j < 8)%nat ->
  Nat.testbit i 0 = Nat.testbit j 0 -> Nat.testbit i 1 = Nat.testbit j 1 ->
  Nat.testbit i 2 = Nat.testbit j 2 -> i = j.
Proof.
  intros Hi Hj.
  do 8 (destruct i as [| i];
        [do 8 (destruct j as [| j]; [cbn; congruence |]); lia |]).
  lia.
Qed.

Lemma child_value b half i :
  0 <= half -> fits b (2 * half) ->
  child b half i
  = (axis b 0 + (if Nat.testbit i 0 then half else 0),
     axis b 1 + (if Nat.testbit i 1 then half else 0),
     axis b 2 + (if Nat.testbit i 2 then half else 0)).
Proof.
  intros Hh ((H0 & H0') & (H1 & H1') & (H2 & H2')). unfold child.
  assert (Hmax : 2 ^ 63 <= UINT64_MAX) by (unfold UINT64_MAX; lia).
  rewrite !u64_small;
    [reflexivity | unfold is_u64; destruct (Nat.testbit i 2); lia
    | unfold is_u64; destruct (Nat.testbit i 1); lia
    | unfold is_u64; destruct (Nat.testbit i 0); lia].
Qed.

Lemma child_fits b half i :
  0 <= half -> fits b (2 * half) -> fits (child b half i) half.
Proof.
  intros Hh Hfit. rewrite child_value by assumption.
  destruct Hfit as ((H0 & H0') & (H1 & H1') & (H2 & H2')).
  unfold fits. cbn [axis fst snd] in *.
  destruct (Nat.testbit i 0), (Nat.testbit i 1), (Nat.testbit i 2); lia.
Qed.

Lemma child_in_box b half i p :
  0 <= half -> fits b (2 * half) ->
  in_box (child b half i) half p -> in_box b (2 * half) p.
Proof.
  intros Hh Hfit. rewrite child_value by assumption.
  unfold in_box. cbn [axis fst snd].
  destruct (Nat.testbit i 0), (Nat.testbit i 1), (Nat.testbit i 2);
    cbn [axis fst snd]; lia.
Qed.

Lemma children_apart b half i j p :
  0 <= half -> fits b (2 * half) -> (i < 8)%nat -> (j < 8)%nat ->
  in_box (child b half i) half p -> in_box (child b half j) half p -> i = j.
Proof.
  intros Hh Hfit Hi Hj. rewrite !child_value by assumption.
  unfold in_box. cbn [axis fst snd]. intros Hpi Hpj.
  apply bits_eq; try assumption.
  - destruct (Nat.testbit i 0), (Nat.testbit j 0); try reflexivity; lia.
  - destruct (Nat.testbit i 1), (Nat.testbit j 1); try reflexivity; lia.
  - destruct (Nat.testbit i 2), (Nat.testbit j 2); try reflexivity; lia.
Qed.

Lemma child_of_point b half p :
  0 <= half -> fits b (2 * half) -> in_box b (2 * half) p ->
  exists i, (i < 8)%nat /\ in_box (child b half i) half p.
Proof.
  intros Hh Hfit Hp.
  exists ((if (axis b 0 + half <=? axis p 0)%Z then 1 else 0)
          + (if (axis b 1 + half <=? axis p 1)%Z then 2 else 0)
          + (if (axis b 2 + half <=? axis p 2)%Z then 4 else 0))%nat.
  rewrite child_value by assumption.
  destruct b as [[bx by'] bz], p as [[x y] z].
  unfold in_box in *. cbn [axis fst snd] in *.
  destruct (Z.leb_spec (bx + half) x), (Z.leb_spec (by' + half) y),
    (Z.leb_spec (bz + half) z);
    cbn [Nat.add Nat.testbit Nat.odd Nat.div2 negb Nat.even];
    (split; [lia |]); cbn; lia.
Qed.

Section Walk.

Variable d : Z * Z * Z.

Lemma children_walked (lvl : nat) (b : Z * Z * Z) :
  let half := 2 ^ Z.of_nat lvl in
  fits b (2 * half) -> (lvl < 63)%nat ->
  (forall b' st, fits b' half -> below b' d ->
     exists new, forEachCell_r visit d lvl b' st = Ok (st ++ new)
                 /\ walked d b' lvl new) ->
  forall idxs st,
    NoDup idxs -> (forall i, i ∈ idxs -> (i < 8)%nat) ->
    exists new,
      fold_left (turn d lvl b) idxs (Ok st) = Ok (st ++ new)
      /\ NoDup new
      /\ (forall c, c ∈ new ->
            exists i, i ∈ idxs /\ (level c <= lvl)%nat
                      /\ in_box (child b half i) half (base c)
                      /\ below (base c) d)
      /\ (forall i p, i ∈ idxs -> in_box (child b half i) half p ->
            below p d -> mkCell p 0 ∈ new).
Proof.
  intros half Hfit Hlvl IH.
  assert (Hhalf : 0 <= half) by (subst half; apply Z.pow_nonneg; lia).
  assert (Hu : u64 (Z.shiftl 1 (Z.of_nat lvl)) = half).
  { rewrite Z.shiftl_1_l. apply u64_small. unfold is_u64, UINT64_MAX.
    assert (2 ^ Z.of_nat lvl < 2 ^ 64) by (apply Z.pow_lt_mono_r; lia).
    subst half. lia. }
  induction idxs as [| i rest IHr]; intros st Hnd Hlt.
  - exists []. cbn [fold_left]. rewrite app_nil_r.
    split; [reflexivity |]. split; [apply NoDup_nil_2 |].
    split; [intros c Hc | intros i p Hi]; inversion Hc || inversion Hi.
  - apply NoDup_cons in Hnd as [Hfresh Hnd].
    assert (Hi : (i < 8)%nat) by (apply Hlt; left).
    assert (Hrest : forall j, j ∈ rest -> (j < 8)%nat)
      by (intros j Hj; apply Hlt; right; exact Hj).
    cbn [fold_left]. unfold turn at 2. cbn [bind]. rewrite Hu. cbv zeta.
    set (b' := child b half i).
    destruct ((axis b' 0 <? axis d 0) && (axis b' 1 <? axis d 1)
              && (axis b' 2 <? axis d 2)) eqn:Hin.
    + assert (Hbelow : below b' d).
      { apply andb_prop in Hin as [Hin H2]. apply andb_prop in Hin as [H0 H1].
        unfold below. lia. }
      destruct (IH b' st (child_fits b half i Hhalf Hfit) Hbelow)
        as (new1 & -> & Hnd1 & Hin1 & Hall1).
      destruct (IHr (st ++ new1) Hnd Hrest)
        as (new2 & -> & Hnd2 & Hin2 & Hall2).
      exists (new1 ++ new2). split; [rewrite <- app_assoc; reflexivity |].
      split; [| split].
      * apply NoDup_app. split; [exact Hnd1 |]. split; [| exact Hnd2].
        intros c Hc1 Hc2.
        destruct (Hin1 c Hc1) as (_ & Hbox1 & _).
        destruct (Hin2 c Hc2) as (j & Hj & _ & Hbox2 & _).
        assert (i = j)
          by (apply (children_apart b half i j (base c)); auto).
        subst j. contradiction.
      * intros c Hc. apply elem_of_app in Hc as [Hc | Hc].
        -- destruct (Hin1 c Hc) as (Hl & Hbox & Hb).
           exists i. split; [left |]. auto.
        -- destruct (Hin2 c Hc) as (j & Hj & Hrestj).
           exists j. split; [right; exact Hj | exact Hrestj].
      * intros j p Hj Hbox Hb. apply elem_of_app.
        apply elem_of_cons in Hj as [-> | Hj].
        -- left. apply Hall1; assumption.
        -- right. apply (Hall2 j p); assumption.
    + destruct (IHr st Hnd Hrest) as (new2 & -> & Hnd2 & Hin2 & Hall2).
      exists new2. split; [reflexivity |]. split; [exact Hnd2 |].
      split.
      * intros c Hc. destruct (Hin2 c Hc) as (j & Hj & Hrestj).
        exists j. split; [right; exact Hj | exact Hrestj].
      * intros j p Hj Hbox Hb.
        apply elem_of_cons in Hj as [-> | Hj];
          [| apply (Hall2 j p); assumption].
        exfalso. fold b' in Hbox.
        destruct Hbox as (H0 & H1 & H2), Hb as (B0 & B1 & B2).
        apply andb_false_iff in Hin as [Hin | Hin];
          [apply andb_false_iff in Hin as [Hin | Hin] |];
          apply Z.ltb_ge in Hin; lia.
Qed.

Lemma forEachCell_r_walked (lvl : nat) :
  forall b st,
    fits b (2 ^ Z.of_nat lvl) -> below b d ->
    exists new,
      forEachCell_r visit d lvl b st = Ok (st ++ new) /\ walked d b lvl new.
Proof.
  induction lvl as [| lvl IH]; intros b st Hfit Hb.
  - exists [mkCell b 0]. rewrite forEachCell_r_leaf.
    split; [reflexivity |]. split; [apply NoDup_singleton |].
    change (2 ^ Z.of_nat 0) with 1.
    split.
    + intros c Hc. apply list_elem_of_singleton in Hc. subst c.
      cbn [level base]. split; [lia |]. split; [unfold in_box; lia | exact Hb].
    + intros p Hp _. apply list_elem_of_singleton.
      destruct p as [[x y] z], b as [[bx by'] bz].
      unfold in_box in Hp. cbn [axis fst snd] in Hp.
      do 3 f_equal; lia.
  - assert (Hpow : 2 ^ Z.of_nat (S lvl) = 2 * 2 ^ Z.of_nat lvl)
      by (rewrite Nat2Z.inj_succ, Z.pow_succ_r by lia; reflexivity).
    rewrite Hpow in Hfit.
    assert (Hpos : 0 < 2 ^ Z.of_nat lvl) by (apply Z.pow_pos_nonneg; lia).
    assert (Hlvl : (lvl < 63)%nat).
    { destruct Hfit as ((H0 & H0') & _).
      destruct (Nat.lt_ge_cases lvl 63) as [H | H]; [exact H |].
      assert (2 ^ 63 <= 2 ^ Z.of_nat lvl) by (apply Z.pow_le_mono_r; lia).
      lia. }
    destruct (children_walked lvl b Hfit Hlvl IH (seq 0 8)
                (st ++ [mkCell b (S lvl)]))
      as (new & Hrun & Hnd & Hin & Hall).
    { apply NoDup_seq. }
    { intros i Hi. apply elem_of_seq in Hi. lia. }
    exists (mkCell b (S lvl) :: new).
    rewrite forEachCell_r_children, Hrun.
    split; [rewrite <- app_assoc; reflexivity |].
    split; [| split].
    + apply NoDup_cons. split; [| exact Hnd].
      intros Hroot. destruct (Hin _ Hroot) as (i & _ & Hl & _).
      cbn [level] in Hl. lia.
    + intros c Hc. rewrite Hpow. apply elem_of_cons in Hc as [-> | Hc].
      * cbn [level base]. split; [lia |].
        split; [unfold in_box; lia | exact Hb].
      * destruct (Hin c Hc) as (i & _ & Hl & Hbox & Hbelow).
        split; [lia |]. split; [| exact Hbelow].
        apply (child_in_box b _ i); [lia | exact Hfit | exact Hbox].
    + intros p Hp Hbelow. rewrite Hpow in Hp. right.
      destruct (child_of_point b (2 ^ Z.of_nat lvl) p ltac:(lia) Hfit Hp)
        as (i & Hi & Hbox).
      apply (Hall i p); [apply elem_of_seq; lia | exact Hbox | exact Hbelow].
Qed.

End Walk.

(** X21. With a functor that asks for the children of every cell,
    [forEachCell] over a grid of at least one cell a side that fits the top
    level visits no cell twice and no cell whose base is outside the grid,
    and it visits every cell of level 0 of the grid. *)
Theorem forEachCell_covers (assertions : bool) (d : Z * Z * Z) (levels : nat) :
  (1 <= levels <= 64)%nat ->
  (forall i, (i < 3)%nat -> 1 <= axis d i <= 2 ^ (Z.of_nat levels - 1)) ->
  exists cells,
    forEachCell assertions d levels visit [] = Ok cells
    /\ NoDup cells
    /\ (forall c, c ∈ cells ->
          (level c < levels)%nat
          /\ forall i, (i < 3)%nat -> 0 <= axis (base c) i < axis d i)
    /\ (forall p, (forall i, (i < 3)%nat -> 0 <= axis p i < axis d i) ->
          mkCell p 0 ∈ cells).
Proof.
  intros Hlevels Hd.
  pose proof (Hd 0%nat ltac:(lia)) as H0. pose proof (Hd 1%nat ltac:(lia)) as H1.
  pose proof (Hd 2%nat ltac:(lia)) as H2.
  destruct d as [[dx dy] dz]. cbn [axis fst snd] in H0, H1, H2. clear Hd.
  destruct levels as [| lvl]; [lia |].
  replace (Z.of_nat (S lvl) - 1) with (Z.of_nat lvl) in * by lia.
  assert (Hle : 2 ^ Z.of_nat lvl <= 2 ^ 63) by (apply Z.pow_le_mono_r; lia).
  assert (Htop : u64 (Z.shiftl 1 (Z.of_nat lvl)) = 2 ^ Z.of_nat lvl).
  { rewrite Z.shiftl_1_l. apply u64_small. unfold is_u64, UINT64_MAX.
    assert (0 < 2 ^ Z.of_nat lvl) by (apply Z.pow_pos_nonneg; lia). lia. }
  destruct (forEachCell_r_walked (dx, dy, dz) lvl (0, 0, 0) [])
    as (cells & Hrun & Hnd & Hin & Hall).
  { unfold fits. cbn [axis fst snd]. lia. }
  { unfold below. cbn [axis fst snd]. lia. }
  exists cells. split; [| split; [exact Hnd | split]].
  - unfold forEachCell. cbn [Nat.pred axis fst snd]. rewrite Htop.
    destruct (Z.leb_spec 1 (Z.of_nat (S lvl))); [| lia].
    destruct (Z.leb_spec dx (2 ^ Z.of_nat lvl)); [| lia].
    destruct (Z.leb_spec dy (2 ^ Z.of_nat lvl)); [| lia].
    destruct (Z.leb_spec dz (2 ^ Z.of_nat lvl)); [| lia].
    rewrite BlobFacts.c_assert_true. cbn [bind]. exact Hrun.
  - intros c Hc. destruct (Hin c Hc) as (Hl & Hbox & Hbelow).
    split; [lia |].
    destruct (base c) as [[x y] z].
    unfold in_box, below in *. cbn [axis fst snd] in *.
    intros [| [| [| i]]] Hi; cbn [axis fst snd]; lia.
  - intros p Hp. 
    pose proof (Hp 0%nat ltac:(lia)) as P0.
    pose proof (Hp 1%nat ltac:(lia)) as P1.
    pose proof (Hp 2%nat ltac:(lia)) as P2.
    destruct p as [[x y] z]. cbn [axis fst snd] in P0, P1, P2.
    apply Hall.
    + unfold in_box. cbn [axis fst snd]. lia.
    + unfold below. cbn [axis fst snd]. lia.
Qed.

Lemma forEachCell_covers_witness :
  exists cells,
    forEachCell true (3, 2, 1) 3 visit [] = Ok cells
    /\ NoDup cells
    /\ (forall c, c ∈ cells ->
          (level c < 3)%nat
          /\ forall i, (i < 3)%nat -> 0 <= axis (base c) i < axis (3, 2, 1) i)
    /\ (forall p, (forall i, (i < 3)%nat -> 0 <= axis p i < axis (3, 2, 1) i) ->
          mkCell p 0 ∈ cells).
Proof.
  apply (forEachCell_covers true (3, 2, 1) 3).
  - lia.
  - intros [| [| [| i]]] Hi; cbn; lia.
Defined.

End TraversalFacts.

(* ===================================================================== *)
(** * Facts about splat_set_impl.h: reading several blob files *)
(* ===================================================================== *)

Module BlobFilesFacts.
Import Machine Outcome Blob BlobCompute BlobSpec MachineFacts BlobFacts
  BlobComputeFacts.

(** The file that the loop of [refill] turns to. *)
Definition next_file (st : MyBlobStream) : nat :=
  match stream st with
  | Some _ => S (curFile st)
  | None => curFile st
  end.

Lemma refill_open_stop fuel blobFiles st :
  remaining st <> 0 -> refill_open fuel blobFiles st = Ok (st, false).
Proof.
  intros H. apply Z.eqb_neq in H. destruct fuel; cbn [refill_open]; rewrite H;
    reflexivity.
Qed.

(** The files from [next_file st] on: [k] files without blobs. *)
Definition no_blobs (blobFiles : list BlobFile) (from k : nat) : Prop :=
  forall j, (j < k)%nat ->
    exists e, blobFiles !! (from + j)%nat = Some e /\ nBlobs e = 0.

Lemma no_blobs_tail blobFiles from k :
  no_blobs blobFiles from (S k) -> no_blobs blobFiles (S from) k.
Proof.
  intros H j Hj. destruct (H (S j) ltac:(lia)) as (e & He & Hn).
  exists e. split; [| exact Hn].
  replace (S from + j)%nat with (from + S j)%nat by lia. exact He.
Qed.

Lemma refill_open_next (k : nat) :
  forall fuel blobFiles st f,
    remaining st = 0 ->
    no_blobs blobFiles (next_file st) k ->
    blobFiles !! (next_file st + k)%nat = Some f -> nBlobs f <> 0 ->
    (k + 2 <= fuel)%nat ->
    refill_open fuel blobFiles st
    = Ok (mkBlobStream (next_file st + k) (Some (words f)) (nBlobs f)
                       (curBlob st), false).
Proof.
  induction k as [| k IH]; intros fuel blobFiles st f Hrem Hnone Hf Hn Hfuel.
  - destruct fuel as [| fuel]; [lia |]. cbn [refill_open].
    rewrite Hrem. cbn [Z.eqb]. fold (next_file st).
    rewrite Nat.add_0_r in *. rewrite Hf.
    apply refill_open_stop. exact Hn.
  - destruct fuel as [| fuel]; [lia |]. cbn [refill_open].
    rewrite Hrem. cbn [Z.eqb]. fold (next_file st).
    destruct (Hnone 0%nat ltac:(lia)) as (e & He & He0).
    rewrite Nat.add_0_r in He. rewrite He, He0.
    rewrite (IH fuel blobFiles _ f); cbn [remaining next_file stream curFile curBlob];
      try reflexivity; try assumption; try lia.
    + do 3 f_equal. lia.
    + apply no_blobs_tail, Hnone.
    + replace (S (next_file st) + k)%nat with (next_file st + S k)%nat by lia.
      exact Hf.
Qed.

Lemma refill_open_last (k : nat) :
  forall fuel blobFiles st,
    remaining st = 0 ->
    no_blobs blobFiles (next_file st) k ->
    blobFiles !! (next_file st + k)%nat = None ->
    (k + 1 <= fuel)%nat ->
    refill_open fuel blobFiles st
    = Ok (mkBlobStream (next_file st + k) None 0
            (mkBlob 1 0 (lower (curBlob st)) (upper (curBlob st))), true).
Proof.
  induction k as [| k IH]; intros fuel blobFiles st Hrem Hnone Hf Hfuel.
  - destruct fuel as [| fuel]; [lia |]. cbn [refill_open].
    rewrite Hrem. cbn [Z.eqb]. fold (next_file st).
    rewrite Nat.add_0_r in *. rewrite Hf. reflexivity.
  - destruct fuel as [| fuel]; [lia |]. cbn [refill_open].
    rewrite Hrem. cbn [Z.eqb]. fold (next_file st).
    destruct (Hnone 0%nat ltac:(lia)) as (e & He & He0).
    rewrite Nat.add_0_r in He. rewrite He, He0.
    rewrite (IH fuel blobFiles); cbn [remaining next_file stream curFile curBlob];
      try reflexivity; try lia.
    + do 3 f_equal. lia.
    + apply no_blobs_tail, Hnone.
    + replace (S (next_file st) + k)%nat with (next_file st + S k)%nat by lia.
      exact Hf.
Qed.

(** The file written for a list of blobs. *)
Definition file_of (garbage : BlobInfo) (blobs : list BlobInfo) : BlobFile :=
  mkBlobFile (records_of false garbage blobs) (Z.of_nat (length blobs)).

Lemma split_empties {A : Type} (segs : list (list A)) :
  Forall (fun seg => seg = []) segs
  \/ exists empties x seg more,
       segs = empties ++ (x :: seg) :: more
       /\ Forall (fun seg => seg = []) empties.
Proof.
  induction segs as [| s rest IH]; [left; constructor |].
  destruct s as [| x seg].
  - destruct IH as [Hall | (empties & x & seg & more & -> & Hall)].
    + left. constructor; [reflexivity | exact Hall].
    + right. exists ([] :: empties), x, seg, more.
      split; [reflexivity | constructor; [reflexivity | exact Hall]].
  - right. exists [], x, seg, rest. split; [reflexivity | constructor].
Qed.

Lemma concat_empties {A : Type} (empties : list (list A)) :
  Forall (fun seg => seg = []) empties -> concat empties = [].
Proof.
  induction empties as [| s rest IH]; intros H; [reflexivity |].
  apply Forall_cons in H as [-> Hrest]. cbn [concat app]. apply IH, Hrest.
Qed.

Lemma no_blobs_empties garbage pre (empties : list (list BlobInfo)) post :
  Forall (fun seg => seg = []) empties ->
  no_blobs (pre ++ map (file_of garbage) empties ++ post) (length pre)
           (length empties).
Proof.
  intros Hall j Hj.
  destruct (lookup_lt_is_Some_2 empties j Hj) as [seg Hseg].
  pose proof (proj1 (Forall_lookup _ _) Hall j seg Hseg) as Hnil.
  cbn beta in Hnil. subst seg.
  exists (file_of garbage []). split; [| reflexivity].
  rewrite lookup_app_r by lia.
  replace (length pre + j - length pre)%nat with j by lia.
  rewrite lookup_app_l by (rewrite length_map; exact Hj).
  rewrite list_lookup_fmap, Hseg. reflexivity.
Qed.

Section Files.

Variable assertions : bool.
Variable garbage : BlobInfo.

(** Reading from a point between two files: the blobs of the files that
    follow, one file after another, then the empty blob. *)
Lemma read_files (n : nat) :
  forall segs pre st,
    (length segs <= n)%nat ->
    remaining st = 0 -> next_file st = length pre ->
    Forall (Forall good_blob) segs ->
    Forall (fun seg => is_u64 (Z.of_nat (length seg))) segs ->
    exists st' st'',
      readBlobs assertions (length (concat segs))
                (pre ++ map (file_of garbage) segs) st
      = Ok (concat segs, st')
      /\ refill assertions (pre ++ map (file_of garbage) segs) st' = Ok st''
      /\ empty st'' = true.
Proof.
  induction n as [| n IH]; intros segs pre st Hlen Hrem Hnext Hgood Hsmall.
  - destruct segs; [| cbn in Hlen; lia].
    cbn [concat length readBlobs map]. rewrite app_nil_r.
    exists st. eexists. split; [reflexivity |].
    unfold refill.
    rewrite (refill_open_last 0 _ pre st Hrem);
      [cbn [bind]; split; reflexivity | intros j Hj; lia | | cbn; lia].
    rewrite Hnext, Nat.add_0_r. apply lookup_ge_None_2. lia.
  - destruct (split_empties segs)
      as [Hall | (empties & x & seg & more & -> & Hall)].
    + rewrite (concat_empties segs Hall). cbn [length readBlobs].
      exists st. eexists. split; [reflexivity |].
      unfold refill.
      rewrite (refill_open_last (length segs) _ _ st Hrem);
        [cbn [bind]; split; reflexivity | | |].
      * rewrite Hnext.
        pose proof (no_blobs_empties garbage pre segs [] Hall) as H.
        rewrite app_nil_r in H. exact H.
      * rewrite Hnext. apply lookup_ge_None_2.
        rewrite length_app, length_map. lia.
      * rewrite length_app, length_map. lia.
    + rewrite concat_app, (concat_empties empties Hall). cbn [app concat].
      apply Forall_app in Hgood as [_ Hgood].
      apply Forall_cons in Hgood as [Hseg Hmore].
      apply Forall_app in Hsmall as [_ Hsmall].
      apply Forall_cons in Hsmall as [Hsegn Hmoren].
      rewrite length_app in Hlen. cbn [length] in Hlen.
      set (files := pre ++ map (file_of garbage) (empties ++ (x :: seg) :: more)).
      set (cf := (length pre + length empties)%nat).
      assert (Hfile : files !! cf = Some (file_of garbage (x :: seg))).
      { subst files cf. rewrite lookup_app_r by lia.
        replace (length pre + length empties - length pre)%nat
          with (length empties) by lia.
        rewrite map_app, lookup_app_r by (rewrite length_map; lia).
        rewrite length_map, Nat.sub_diag. reflexivity. }
      assert (Hopen : refill_open (S (S (length files))) files st
                      = Ok (mkBlobStream cf
                              (Some (words (file_of garbage (x :: seg))))
                              (nBlobs (file_of garbage (x :: seg)))
                              (curBlob st), false)).
      { rewrite (refill_open_next (length empties) _ files st
                   (file_of garbage (x :: seg)) Hrem).
        - rewrite Hnext. reflexivity.
        - rewrite Hnext. subst files. rewrite map_app.
          apply no_blobs_empties, Hall.
        - rewrite Hnext. exact Hfile.
        - cbn [file_of nBlobs length]. lia.
        - apply lookup_lt_Some in Hfile. subst cf. lia. }
      set (st1 := mkBlobStream cf (Some (words (file_of garbage (x :: seg))))
                               (nBlobs (file_of garbage (x :: seg)))
                               (curBlob st)) in *.
      assert (Hrefill : refill assertions files st = refill assertions files st1).
      { unfold refill. rewrite Hopen.
        rewrite (refill_open_stop _ files st1)
          by (subst st1; cbn [remaining file_of nBlobs length]; lia).
        reflexivity. }
      destruct (good_emitted (x :: seg) false garbage Hseg)
        as (Hwf & Hleg & Htag).
      destruct (read_encoded assertions files cf (x :: seg) false garbage
                  (curBlob st) [] 0 Hwf ltac:(discriminate) Hleg Htag
                  ltac:(lia) ltac:(rewrite Z.add_0_r; exact Hsegn))
        as [b1 Hread1].
      rewrite app_nil_r, Z.add_0_r in Hread1.
      set (st2 := mkBlobStream cf (Some []) 0 b1) in *.
      destruct (IH more (pre ++ map (file_of garbage) (empties ++ [x :: seg]))
                  st2 ltac:(lia) eq_refl)
        as (st' & st'' & Hread2 & Hend & Hempty); try assumption.
      { subst st2 cf. cbn [next_file stream curFile].
        rewrite length_app, length_map, length_app. cbn [length]. lia. }
      assert (Hfiles : (pre ++ map (file_of garbage) (empties ++ [x :: seg]))
                       ++ map (file_of garbage) more = files).
      { subst files. rewrite <- app_assoc, <- map_app, <- app_assoc.
        reflexivity. }
      rewrite Hfiles in Hread2, Hend.
      exists st', st''. split; [| split; assumption].
      change (x :: seg ++ concat more) with ((x :: seg) ++ concat more).
      rewrite length_app, readBlobs_app.
      assert (Hfirst : readBlobs assertions (length (x :: seg)) files st
                       = readBlobs assertions (length (x :: seg)) files st1).
      { cbn [length readBlobs]. rewrite Hrefill. reflexivity. }
      rewrite Hfirst. subst st1. cbn [file_of words nBlobs] in *.
      rewrite Hread1. cbn [bind]. rewrite Hread2. reflexivity.
Qed.

End Files.

(** X22. Blob files written with [addBlob], each from an empty
    [threadBlobData], and given to [MyBlobStream] in a list: the calls of
    [refill] give the blobs of the first file in order, then those of the
    next, and so on, passing over files that hold no blob; the call after
    the last blob leaves the empty blob that marks the end. *)
Theorem files_roundtrip (assertions : bool) (garbage curBlob0 : BlobInfo)
    (segs : list (list BlobInfo)) (blobFiles : list BlobFile) :
  Forall (Forall good_blob) segs ->
  Forall2 (fun seg f =>
             addBlobs assertions [] garbage seg = Ok (words f)
             /\ nBlobs f = Z.of_nat (length seg) /\ is_u64 (nBlobs f))
          segs blobFiles ->
  exists st st',
    readBlobs assertions (length (concat segs)) blobFiles
              (mkBlobStream 0 None 0 curBlob0)
    = Ok (concat segs, st)
    /\ refill assertions blobFiles st = Ok st'
    /\ empty st' = true.
Proof.
  intros Hgood Hfiles.
  assert (Heq : blobFiles = map (file_of garbage) segs
                /\ Forall (fun seg => is_u64 (Z.of_nat (length seg))) segs).
  { clear curBlob0. induction Hfiles as [| seg f segs fs (Hadd & Hn & Hu) _ IH].
    - split; [reflexivity | constructor].
    - apply Forall_cons in Hgood as [Hseg Hrest].
      destruct (IH Hrest) as [-> Hsmall].
      destruct (good_emitted seg false garbage Hseg) as (Hwf & Hleg & _).
      rewrite (addBlobs_value assertions seg [] garbage) in Hadd;
        [| discriminate | exact Hwf | exact Hleg].
      cbn [app nonempty] in Hadd. injection Hadd as Hwords.
      destruct f as [ws nb]. cbn [words nBlobs] in *. subst ws nb.
      split; [reflexivity |]. constructor; assumption. }
  destruct Heq as [-> Hsmall].
  destruct (read_files assertions garbage (length segs) segs []
              (mkBlobStream 0 None 0 curBlob0))
    as (st & st' & H); try assumption; try reflexivity.
  exists st, st'. exact H.
Qed.

Definition first_blob : BlobInfo := mkBlob 0 2 (mkArray3 0 0 0) (mkArray3 1 1 1).
Definition second_blob : BlobInfo := mkBlob 2 3 (mkArray3 2 0 0) (mkArray3 2 1 1).
Definition third_blob : BlobInfo := mkBlob 7 9 (mkArray3 0 0 0) (mkArray3 0 0 0).

Lemma three_blobs_good :
  Forall (Forall good_blob) [[first_blob; second_blob]; []; [third_blob]].
Proof.
  assert (H : forall f l lx ux,
             0 <= f < l -> l <= 100 -> 0 <= lx <= ux -> ux <= 2 ->
             good_blob (mkBlob f l (mkArray3 lx 0 0) (mkArray3 ux 1 1))
             /\ good_blob (mkBlob f l (mkArray3 lx 0 0) (mkArray3 ux 0 0))).
  { intros f l lx ux Hf Hl Hlx Hux.
    unfold good_blob, wf_blob, wf_array3, box_nonempty, is_u64, is_s32,
      UINT64_MAX, INT32_MIN, INT32_MAX.
    cbn [firstSplat lastSplat lower upper ax ay az].
    split; (split; [lia |]); (split; [| lia]);
      intros [| [| i]] _; cbn [get ax ay az];
      rewrite s32_small
        by (unfold is_s32, INT32_MIN, INT32_MAX; lia); lia. }
  repeat apply List.Forall_cons; try apply List.Forall_nil.
  - apply (H 0 2 0 1); lia.
  - apply (H 2 3 2 2); lia.
  - apply (H 7 9 0 0); lia.
Qed.

Lemma files_roundtrip_witness :
  exists st st',
    readBlobs true (length (concat [[first_blob; second_blob]; []; [third_blob]]))
              [mkBlobFile [0; 0; 0; 2; 0; 1; 0; 1; 0; 1; 2147491825] 2;
               mkBlobFile [] 0;
               mkBlobFile [0; 7; 0; 9; 0; 0; 0; 0; 0; 0] 1]
              (mkBlobStream 0 None 0 third_blob)
    = Ok (concat [[first_blob; second_blob]; []; [third_blob]], st)
    /\ refill true
         [mkBlobFile [0; 0; 0; 2; 0; 1; 0; 1; 0; 1; 2147491825] 2;
          mkBlobFile [] 0;
          mkBlobFile [0; 7; 0; 9; 0; 0; 0; 0; 0; 0] 1] st
       = Ok st'
    /\ empty st' = true.
Proof.
  apply (files_roundtrip true third_blob third_blob
           [[first_blob; second_blob]; []; [third_blob]]).
  - exact three_blobs_good.
  - repeat apply List.Forall2_cons; try apply List.Forall2_nil;
      (split; [vm_compute; reflexivity |]);
      (split; [reflexivity | vm_compute; split; discriminate]).
Defined.

End BlobFilesFacts.

(* ===================================================================== *)
(** * Facts about splat_set_impl.h: the file ranges of a reader thread *)
(* ===================================================================== *)

Module FileRangeFacts.
Import Machine Outcome FileRanges MachineFacts.

Section Layout.

Variables scanIdShift splatIdMask : Z.
Variable files : list Reader.
Variable ranges : list (Z * Z).
Variable maxSize : Z.

(** The layout of the splat ids and what a reader thread has: the index of
    a splat takes the low [scanIdShift] bits of its id; the ids of all the
    files, and one buffer more, are 64-bit numbers; the ranges hold 64-bit
    ids; a file has no more vertices than the index can hold, and the
    buffer of [maxSize] bytes takes at least one vertex of every file. *)
Definition well_formed : Prop :=
  0 <= scanIdShift < 64
  /\ splatIdMask = Z.ones scanIdShift
  /\ 0 < maxSize
  /\ Z.of_nat (length files) * 2 ^ scanIdShift + maxSize <= 2 ^ 64
  /\ Forall (fun r => 0 <= fst r <= UINT64_MAX /\ 0 <= snd r <= UINT64_MAX)
            ranges
  /\ Forall (fun f => 0 <= reader_size f <= 2 ^ scanIdShift
                      /\ 1 <= vertexSize f <= maxSize
                      /\ reader_size f * vertexSize f <= UINT64_MAX) files.

(** The iterator is at the end. *)
Definition at_end (it : FileRangeIterator) : Prop :=
  curRange it = length ranges /\ first it = 0.

(** The iterator is at a splat of a file, inside the current range. *)
Definition at_splat (it : FileRangeIterator) (r : Z * Z) (f : Reader) : Prop :=
  ranges !! curRange it = Some r
  /\ 0 <= first it < snd r
  /\ files !! Z.to_nat (first it / 2 ^ scanIdShift) = Some f
  /\ first it mod 2 ^ scanIdShift < reader_size f.

Definition settled (it : FileRangeIterator) : Prop :=
  at_end it \/ exists r f, at_splat it r f.

(** A bound on the turns of the loop of [refill]. *)
Definition turns (cur : nat) (first : Z) : Z :=
  (Z.of_nat (length ranges) - Z.of_nat cur - 1) * (Z.of_nat (length files) + 1)
  + (Z.of_nat (length files)
     - Z.min (Z.of_nat (length files)) (first / 2 ^ scanIdShift))
  + 1.

Hypothesis layout : well_formed.

Lemma pow_shift_pos : 0 < 2 ^ scanIdShift.
Proof. destruct layout as (Hs & _). apply Z.pow_pos_nonneg; lia. Qed.

Lemma file_of_id first :
  Z.shiftr first scanIdShift = first / 2 ^ scanIdShift.
Proof. destruct layout as (Hs & _). apply Z.shiftr_div_pow2. lia. Qed.

Lemma index_of_id first :
  Z.land first splatIdMask = first mod 2 ^ scanIdShift.
Proof.
  destruct layout as (Hs & -> & _). apply Z.land_ones. lia.
Qed.

Lemma next_file_id fid :
  0 <= fid < Z.of_nat (length files) ->
  u64 (Z.shiftl (u64 (fid + 1)) scanIdShift) = (fid + 1) * 2 ^ scanIdShift.
Proof.
  intros Hfid. destruct layout as (Hs & _ & Hmax & Hfit & _).
  pose proof pow_shift_pos as Hpos.
  change (2 ^ 64) with 18446744073709551616 in Hfit.
  assert (Hle : (fid + 1) * 2 ^ scanIdShift
                <= Z.of_nat (length files) * 2 ^ scanIdShift) by nia.
  assert (Hfid' : fid + 1 <= (fid + 1) * 2 ^ scanIdShift) by nia.
  rewrite (u64_small (fid + 1)) by (unfold is_u64, UINT64_MAX; cbn; lia).
  rewrite Z.shiftl_mul_pow2 by lia.
  apply u64_small. unfold is_u64, UINT64_MAX. cbn. nia.
Qed.

Lemma refill_loop_settles (fuel : nat) :
  forall cur first,
    (cur < length ranges)%nat -> 0 <= first <= UINT64_MAX ->
    turns cur first <= Z.of_nat fuel ->
    exists it,
      refill_loop scanIdShift splatIdMask files ranges fuel cur first = Ok it
      /\ settled it
      /\ ((cur < curRange it)%nat
          \/ (curRange it = cur /\ first <= FileRanges.first it)).
Proof.
  pose proof pow_shift_pos as Hpos.
  pose proof layout as (Hs & Hmask & Hmax & Hfit & Hranges & Hfiles).
  induction fuel as [| fuel IH]; intros cur first Hcur Hfirst Hturns.
  - exfalso. unfold turns in Hturns.
    assert (0 <= first / 2 ^ scanIdShift) by (apply Z.div_pos; lia).
    assert (0 <= (Z.of_nat (length ranges) - Z.of_nat cur - 1)
                 * (Z.of_nat (length files) + 1)) by nia.
    lia.
  - cbn [refill_loop].
    destruct (lookup_lt_is_Some_2 ranges cur Hcur) as [r Hr]. rewrite Hr.
    rewrite file_of_id, index_of_id.
    assert (Hfid : 0 <= first / 2 ^ scanIdShift) by (apply Z.div_pos; lia).
    destruct (Z.leb_spec (snd r) first) as [Hpast | Hin];
      [| destruct (Z.leb_spec (Z.of_nat (length files))
                              (first / 2 ^ scanIdShift)) as [Hnofile | Hfile]];
      cbn [orb].
    + (* the range is used up *)
      destruct (ranges !! S cur) as [r' |] eqn:Hr'.
      * pose proof (proj1 (Forall_lookup _ _) Hranges (S cur) r' Hr') as Hr'u.
        cbn beta in Hr'u.
        apply lookup_lt_Some in Hr'.
        destruct (IH (S cur) (fst r') Hr' ltac:(lia)) as (it & Hrun & Hset & Hgo).
        { unfold turns in *.
          assert (0 <= fst r' / 2 ^ scanIdShift) by (apply Z.div_pos; lia).
          nia. }
        exists it. split; [exact Hrun | split; [exact Hset | left; lia]].
      * apply lookup_ge_None_1 in Hr'.
        exists (mkIter (S cur) 0). split; [reflexivity |].
        split; [left; split; cbn; lia | left; cbn; lia].
    + (* no such file *)
      destruct (ranges !! S cur) as [r' |] eqn:Hr'.
      * pose proof (proj1 (Forall_lookup _ _) Hranges (S cur) r' Hr') as Hr'u.
        cbn beta in Hr'u.
        apply lookup_lt_Some in Hr'.
        destruct (IH (S cur) (fst r') Hr' ltac:(lia)) as (it & Hrun & Hset & Hgo).
        { unfold turns in *.
          assert (0 <= fst r' / 2 ^ scanIdShift) by (apply Z.div_pos; lia).
          nia. }
        exists it. split; [exact Hrun | split; [exact Hset | left; lia]].
      * apply lookup_ge_None_1 in Hr'.
        exists (mkIter (S cur) 0). split; [reflexivity |].
        split; [left; split; cbn; lia | left; cbn; lia].
    + destruct (lookup_lt_is_Some_2 files (Z.to_nat (first / 2 ^ scanIdShift))
                  ltac:(lia)) as [f Hf].
      rewrite Hf.
      destruct (Z.leb_spec (reader_size f) (first mod 2 ^ scanIdShift))
        as [Hnone | Hsome].
      * (* the file is used up *)
        rewrite next_file_id by lia.
        set (fid := first / 2 ^ scanIdShift) in *.
        assert (Hnew : (fid + 1) * 2 ^ scanIdShift / 2 ^ scanIdShift = fid + 1)
          by (apply Z.div_mul; lia).
        assert (Hgrow : first < (fid + 1) * 2 ^ scanIdShift).
        { pose proof (Z.div_mod first (2 ^ scanIdShift) ltac:(lia)).
          pose proof (Z.mod_pos_bound first (2 ^ scanIdShift) Hpos).
          subst fid. nia. }
        destruct (IH cur ((fid + 1) * 2 ^ scanIdShift) Hcur)
          as (it & Hrun & Hset & Hgo).
        { change (2 ^ 64) with 18446744073709551616 in Hfit.
          unfold UINT64_MAX. cbn. nia. }
        { unfold turns in *. rewrite Hnew. fold fid in Hturns. lia. }
        exists it. split; [exact Hrun | split; [exact Hset |]].
        destruct Hgo as [Hgo | [Hsame Hle]]; [left; exact Hgo | right].
        split; [exact Hsame | lia].
      * exists (mkIter cur first). split; [reflexivity |].
        split; [| right; cbn; lia].
        right. exists r, f. unfold at_splat. cbn [curRange FileRanges.first].
        split; [exact Hr |]. split; [lia |]. split; [exact Hf | exact Hsome].
Qed.

Lemma turns_bound cur first :
  (cur < length ranges)%nat -> 0 <= first ->
  turns cur first
  <= Z.of_nat (length ranges) * (Z.of_nat (length files) + 1).
Proof.
  intros Hcur Hfirst. unfold turns. pose proof pow_shift_pos as Hpos.
  assert (0 <= first / 2 ^ scanIdShift) by (apply Z.div_pos; lia).
  nia.
Qed.

Lemma file_facts f :
  f ∈ files ->
  0 <= reader_size f <= 2 ^ scanIdShift
  /\ 1 <= vertexSize f <= maxSize
  /\ reader_size f * vertexSize f <= UINT64_MAX.
Proof.
  intros Hf. destruct layout as (_ & _ & _ & _ & _ & Hfiles).
  exact (proj1 (Forall_forall _ _) Hfiles f Hf).
Qed.

(** The end of a chunk that starts at [start] in a file that goes on to
    [end0]: the chunk is cut to the vertices that [maxSize] bytes hold. *)
Lemma chunk_end f start end0 :
  f ∈ files -> 0 <= start < end0 -> end0 <= reader_size f ->
  exists e,
    (if maxSize <? u64 (u64 (end0 - start) * vertexSize f)
     then if vertexSize f =? 0 then None
          else Some (u64 (start + maxSize / vertexSize f))
     else Some end0) = Some e
    /\ start < e <= end0
    /\ (e - start) * vertexSize f <= maxSize.
Proof.
  intros Hf Hstart Hend.
  destruct (file_facts f Hf) as (Hsize & Hvs & Hbytes).
  assert (Hu : UINT64_MAX = 18446744073709551615) by reflexivity.
  rewrite (u64_small (end0 - start)) by (unfold is_u64; nia).
  rewrite u64_small by (unfold is_u64; nia).
  destruct (Z.ltb_spec maxSize ((end0 - start) * vertexSize f)) as [Hcut | Hall].
  - destruct (Z.eqb_spec (vertexSize f) 0) as [H0 | _]; [lia |].
    pose proof (Z.mul_div_le maxSize (vertexSize f) ltac:(lia)) as Hq.
    assert (Hq1 : 1 <= maxSize / vertexSize f)
      by (apply Z.div_le_lower_bound; lia).
    assert (Hlt : maxSize / vertexSize f < end0 - start) by nia.
    exists (start + maxSize / vertexSize f).
    rewrite u64_small by (unfold is_u64; nia).
    split; [reflexivity |]. split; [lia |].
    replace (start + maxSize / vertexSize f - start)
      with (maxSize / vertexSize f) by lia.
    lia.
  - exists end0. split; [reflexivity |]. split; [lia | exact Hall].
Qed.

(** X23. The constructor of a [FileRangeIterator] ends, and leaves the
    iterator either at the end, with [first] zero, or at a splat that
    exists: inside the current range, in a file of the set and below the
    size of that file. *)
Theorem new_settles (fuel : nat) :
  Z.of_nat (length ranges) * (Z.of_nat (length files) + 1) <= Z.of_nat fuel ->
  exists it,
    FileRangeIterator_new scanIdShift splatIdMask files ranges maxSize fuel
    = Ok it
    /\ settled it.
Proof.
  intros Hfuel. pose proof layout as (_ & _ & Hmax & _ & Hranges & _).
  unfold FileRangeIterator_new.
  destruct (Z.ltb_spec 0 maxSize); [| lia]. cbn [mlsgpu_assert bind].
  unfold refill. cbn [curRange first].
  destruct (ranges !! 0%nat) as [r0 |] eqn:Hr0.
  - pose proof (lookup_lt_Some _ _ _ Hr0) as Hlen.
    destruct (Nat.ltb_spec 0 (length ranges)); [| lia].
    pose proof (proj1 (Forall_lookup _ _) Hranges 0%nat r0 Hr0) as Hu.
    cbn beta in Hu.
    destruct (refill_loop_settles fuel 0 (fst r0) Hlen ltac:(lia))
      as (it & Hrun & Hset & _).
    + pose proof (turns_bound 0 (fst r0) Hlen ltac:(lia)). lia.
    + exists it. split; [exact Hrun | exact Hset].
  - pose proof (lookup_ge_None_1 _ _ Hr0) as Hlen.
    destruct (Nat.ltb_spec 0 (length ranges)); [lia |].
    exists (mkIter 0 0). split; [reflexivity |].
    left. split; cbn [curRange first]; lia.
Qed.

(** X24. Dereferencing an iterator at a splat gives a chunk of the file of
    that splat which starts at the splat, is not empty, ends within the
    file and the current range, and takes at most [maxSize] bytes.
    Dereferencing an iterator at the end raises [state_error]. *)
Theorem dereference_chunk (assertions : bool) (it : FileRangeIterator) :
  (at_end it -> dereference scanIdShift splatIdMask files ranges maxSize
                            assertions it = Throw StateError)
  /\ (forall r f, at_splat it r f ->
        exists e,
          dereference scanIdShift splatIdMask files ranges maxSize
                      assertions it
          = Ok (mkFileRange (first it / 2 ^ scanIdShift)
                            (first it mod 2 ^ scanIdShift) e)
          /\ first it mod 2 ^ scanIdShift < e <= reader_size f
          /\ (e - first it mod 2 ^ scanIdShift) * vertexSize f <= maxSize
          /\ first it / 2 ^ scanIdShift * 2 ^ scanIdShift + e <= snd r).
Proof.
  pose proof pow_shift_pos as Hpos. split.
  - intros (Hcur & _). unfold dereference. rewrite Hcur.
    rewrite (lookup_ge_None_2 ranges (length ranges)) by lia. reflexivity.
  - intros r f (Hr & Hfirst & Hf & Hindex).
    assert (Hin : f ∈ files) by (eapply list_elem_of_lookup_2; exact Hf).
    destruct (file_facts f Hin) as (Hsize & Hvs & Hbytes).
    unfold dereference. rewrite Hr. cbv zeta.
    rewrite !file_of_id, !index_of_id.
    set (fid := first it / 2 ^ scanIdShift) in *.
    set (start := first it mod 2 ^ scanIdShift) in *.
    assert (Hfid : 0 <= fid) by (subst fid; apply Z.div_pos; lia).
    assert (Hstart : 0 <= start < 2 ^ scanIdShift)
      by (subst start; apply Z.mod_pos_bound; exact Hpos).
    assert (Hsplit : first it = 2 ^ scanIdShift * fid + start)
      by (subst fid start; apply Z.div_mod; lia).
    pose proof (Z.div_mod (snd r) (2 ^ scanIdShift) ltac:(lia)) as Hsplit2.
    pose proof (Z.mod_pos_bound (snd r) (2 ^ scanIdShift) Hpos) as Hm2.
    assert (Hmono : fid <= snd r / 2 ^ scanIdShift)
      by (subst fid; apply Z.div_le_mono; lia).
    apply lookup_lt_Some in Hf as Hlt.
    destruct (Z.ltb_spec fid (Z.of_nat (length files))); [| lia].
    rewrite BlobFacts.c_assert_true. cbn [bind]. rewrite Hf.
    destruct (Z.eqb_spec (snd r / 2 ^ scanIdShift) fid) as [Hsame | Hother].
    + destruct (chunk_end f start
                  (Z.min (reader_size f) (snd r mod 2 ^ scanIdShift)) Hin)
        as (e & -> & He & Hfit); [nia | lia |].
      exists e. split; [reflexivity |]. split; [lia |]. split; [exact Hfit |].
      nia.
    + destruct (chunk_end f start (reader_size f) Hin)
        as (e & -> & He & Hfit); [lia | lia |].
      exists e. split; [reflexivity |]. split; [lia |]. split; [exact Hfit |].
      nia.
Qed.

(** X25. Incrementing an iterator at a splat ends, and leaves the iterator
    at the end or at a splat again, further on: in a later range, or in the
    same range at a greater id. Incrementing an iterator at the end raises
    [state_error]. *)
Theorem increment_settles (fuel : nat) (it : FileRangeIterator) :
  Z.of_nat (length ranges) * (Z.of_nat (length files) + 1) <= Z.of_nat fuel ->
  (at_end it -> increment scanIdShift splatIdMask files ranges maxSize
                          fuel it = Throw StateError)
  /\ (forall r f, at_splat it r f ->
        exists it',
          increment scanIdShift splatIdMask files ranges maxSize fuel it
          = Ok it'
          /\ settled it'
          /\ ((curRange it < curRange it')%nat
              \/ (curRange it' = curRange it /\ first it < first it'))).
Proof.
  intros Hfuel. pose proof pow_shift_pos as Hpos. split.
  - intros (Hcur & _). unfold increment. rewrite Hcur.
    rewrite (lookup_ge_None_2 ranges (length ranges)) by lia. reflexivity.
  - intros r f (Hr & Hfirst & Hf & Hindex).
    pose proof layout as (_ & _ & Hmax & Hfit & Hranges & _).
    assert (Hin : f ∈ files) by (eapply list_elem_of_lookup_2; exact Hf).
    destruct (file_facts f Hin) as (Hsize & Hvs & Hbytes).
    pose proof (proj1 (Forall_lookup _ _) Hranges _ r Hr) as Hru.
    cbn beta in Hru.
    unfold increment. rewrite Hr. cbv zeta. rewrite file_of_id, Hf.
    destruct (Z.eqb_spec (vertexSize f) 0) as [H0 | _]; [lia |].
    pose proof (Z.mul_div_le maxSize (vertexSize f) ltac:(lia)) as Hq.
    assert (Hq1 : 1 <= maxSize / vertexSize f)
      by (apply Z.div_le_lower_bound; lia).
    assert (Hqmax : maxSize / vertexSize f <= maxSize) by nia.
    apply lookup_lt_Some in Hf as Hlt.
    assert (Hbelow : first it < Z.of_nat (length files) * 2 ^ scanIdShift).
    { pose proof (Z.div_mod (first it) (2 ^ scanIdShift) ltac:(lia)).
      pose proof (Z.mod_pos_bound (first it) (2 ^ scanIdShift) Hpos).
      assert (0 <= first it / 2 ^ scanIdShift) by (apply Z.div_pos; lia).
      nia. }
    change (2 ^ 64) with 18446744073709551616 in Hfit.
    assert (Hu : UINT64_MAX = 18446744073709551615) by reflexivity.
    rewrite u64_small by (unfold is_u64; lia).
    unfold refill. cbn [curRange first].
    apply lookup_lt_Some in Hr as Hcur.
    destruct (Nat.ltb_spec (curRange it) (length ranges)); [| lia].
    set (first' := Z.min (first it + maxSize / vertexSize f) (snd r)).
    destruct (refill_loop_settles fuel (curRange it) first' Hcur)
      as (it' & Hrun & Hset & Hgo).
    + subst first'. lia.
    + pose proof (turns_bound (curRange it) first' Hcur
                    ltac:(subst first'; lia)).
      lia.
    + exists it'. split; [exact Hrun |]. split; [exact Hset |].
      destruct Hgo as [Hgo | [Hsame Hle]]; [left; exact Hgo | right].
      split; [exact Hsame | subst first'; lia].
Qed.

End Layout.

(** Three files of 5, 0 and 3 vertices of two bytes, ids with four bits of
    index, one range from the third splat of the first file on, and a
    buffer of four bytes. *)
Definition three_files : list Reader :=
  [mkReader 5 2; mkReader 0 2; mkReader 3 2].

Definition one_range : list (Z * Z) := [(2, 40)].

Lemma three_files_layout : well_formed 4 15 three_files one_range 4.
Proof.
  unfold well_formed, three_files, one_range, UINT64_MAX.
  split; [lia |]. split; [reflexivity |]. split; [lia |].
  split; [cbn; lia |].
  split; repeat (apply List.Forall_cons; [cbn; lia |]); apply List.Forall_nil.
Qed.

Lemma third_splat :
  at_splat 4 three_files one_range (mkIter 0 2) (2, 40) (mkReader 5 2).
Proof.
  unfold at_splat. cbn [curRange first fst snd reader_size].
  split; [reflexivity |]. split; [lia |]. split; [reflexivity |].
  vm_compute. reflexivity.
Qed.

Lemma new_settles_witness :
  exists it,
    FileRangeIterator_new 4 15 three_files one_range 4 4 = Ok it
    /\ settled 4 three_files one_range it.
Proof.
  apply (new_settles 4 15 three_files one_range 4 three_files_layout 4).
  cbn. lia.
Defined.

Lemma dereference_chunk_witness :
  exists e,
    dereference 4 15 three_files one_range 4 true (mkIter 0 2)
    = Ok (mkFileRange (2 / 2 ^ 4) (2 mod 2 ^ 4) e)
    /\ 2 mod 2 ^ 4 < e <= 5
    /\ (e - 2 mod 2 ^ 4) * 2 <= 4
    /\ 2 / 2 ^ 4 * 2 ^ 4 + e <= 40.
Proof.
  exact (proj2 (dereference_chunk 4 15 three_files one_range 4
                  three_files_layout true (mkIter 0 2))
               (2, 40) (mkReader 5 2) third_splat).
Defined.

Lemma increment_settles_witness :
  exists it',
    increment 4 15 three_files one_range 4 4 (mkIter 0 2) = Ok it'
    /\ settled 4 three_files one_range it'
    /\ ((0 < curRange it')%nat \/ (curRange it' = 0%nat /\ 2 < first it')).
Proof.
  assert (Hfuel : Z.of_nat (length one_range)
                  * (Z.of_nat (length three_files) + 1) <= Z.of_nat 4)
    by (cbn; lia).
  exact (proj2 (increment_settles 4 15 three_files one_range 4
                  three_files_layout 4 (mkIter 0 2) Hfuel)
               (2, 40) (mkReader 5 2) third_splat).
Defined.

End FileRangeFacts.

(* ===================================================================== *)
(** * Facts about bucket.cpp: the offsets of the picked cells *)
(* ===================================================================== *)

Module OffsetFacts.
Import Machine Outcome Bucket Grids Bucketing MachineFacts SplitFacts.

(** The offsets with the next offset after them. *)
Definition offsets (st : BucketState) : list Z :=
  pickedOffset st ++ [nextOffset st].

(** Every picked cell has an offset, and the offset after it is further by
    the number of ranges counted for the cell. *)
Definition offsets_run (st : BucketState) : Prop :=
  length (pickedOffset st) = length (picked st)
  /\ forall i c, picked st !! i = Some c ->
       exists o,
         offsets st !! i = Some o
         /\ offsets st !! S i = Some (u64 (o + ranges (counter_of st c))).

Lemma PickCells_offsets maxSplats maxCells c st go st' :
  offsets_run st -> PickCells maxSplats maxCells c st = Ok (go, st') ->
  offsets_run st'
  /\ (exists more, picked st' = picked st ++ more)
  /\ offsets st' !! 0%nat = offsets st !! 0%nat.
Proof.
  unfold PickCells. intros Hst Hcall.
  assert (Hkeep : offsets_run st
                  /\ (exists more, picked st = picked st ++ more)
                  /\ offsets st !! 0%nat = offsets st !! 0%nat).
  { split; [exact Hst |]. split; [exists []; symmetry; apply app_nil_r |].
    reflexivity. }
  destruct (Z.eqb_spec (splats (counter (getCellState st c))) 0) as [Hz | Hnz].
  { inversion Hcall; subst. exact Hkeep. }
  match type of Hcall with
  | (if ?cond then _ else _) = _ => destruct cond
  end; [| inversion Hcall; subst; exact Hkeep].
  inversion Hcall; subst. clear Hcall Hkeep.
  destruct Hst as [Hlen Hrun].
  set (st' := {| dims := _; microShift := _; macroLevels := _;
                 cellStates := _; picked := _; pickedOffset := _;
                 nextOffset := _; childCur := _; childRanges := _ |}).
  assert (Hsame : forall c', counter_of st' c' = counter_of st c').
  { intros c'.
    rewrite <- (counter_of_set st c (Z.of_nat (length (picked st))) c').
    reflexivity. }
  assert (Hoff : offsets st'
                 = offsets st
                   ++ [u64 (nextOffset st + ranges (counter_of st c))]).
  { reflexivity. }
  assert (Hpicked : picked st' = picked st ++ [c]) by reflexivity.
  assert (Hofflen : length (offsets st) = S (length (picked st))).
  { unfold offsets. rewrite length_app. cbn [length]. lia. }
  split; [| split].
  - split.
    + subst st'. cbn [pickedOffset picked setCellState].
      rewrite !length_app. cbn [length]. lia.
    + intros i c' Hi. rewrite Hpicked in Hi. rewrite Hoff, Hsame.
      destruct (Nat.lt_ge_cases i (length (picked st))) as [Hlt | Hge].
      * rewrite lookup_app_l in Hi by exact Hlt.
        destruct (Hrun i c' Hi) as (o & Ho & Ho').
        exists o. rewrite !lookup_app_l by lia. split; assumption.
      * rewrite lookup_app_r in Hi by exact Hge.
        destruct (i - length (picked st))%nat as [| k] eqn:Hk;
          [| cbn in Hi; discriminate].
        cbn in Hi. injection Hi as <-.
        assert (i = length (picked st)) by lia. subst i.
        exists (nextOffset st). split.
        -- rewrite lookup_app_l by lia. unfold offsets.
           rewrite lookup_app_r by lia. rewrite Hlen, Nat.sub_diag.
           reflexivity.
        -- rewrite lookup_app_r by lia.
           rewrite Hofflen, Nat.sub_diag. reflexivity.
  - exists [c]. exact Hpicked.
  - rewrite Hoff. rewrite lookup_app_l by lia. reflexivity.
Qed.

(** X26. The pass of [PickCells] over the cells, started with no cell
    picked, gives every picked cell an offset: the first is the offset the
    pass started with, and each next one, and [nextOffset] after the last,
    is further by [countRanges()] of the cell before it. Every picked cell
    so has a stretch of the buffer of ranges as long as the number of its
    ranges. *)
Theorem picked_offsets (assertions : bool) (maxSplats maxCells : Z)
    (d : Z * Z * Z) (levels : nat) (st st' : BucketState) :
  picked st = [] -> pickedOffset st = [] ->
  forEachCell assertions d levels (PickCells maxSplats maxCells) st = Ok st' ->
  offsets_run st' /\ offsets st' !! 0%nat = Some (nextOffset st).
Proof.
  intros Hpicked Hoffsets Hrun.
  set (P := fun s : BucketState =>
              offsets_run s /\ offsets s !! 0%nat = Some (nextOffset st)).
  refine (forEachCell_keeps P assertions _ d levels _ st _ st' Hrun).
  - intros c s go s' [Hs H0] Hcall.
    destruct (PickCells_offsets maxSplats maxCells c s go s' Hs Hcall)
      as (Hs' & _ & H0').
    split; [exact Hs' | rewrite H0'; exact H0].
  - split.
    + split; [rewrite Hpicked, Hoffsets; reflexivity |].
      intros i c Hi. rewrite Hpicked in Hi. discriminate.
    + unfold offsets. rewrite Hoffsets. reflexivity.
Qed.

(** One cell, a microblock, for which two ranges of five splats in all were
    counted. *)
Definition one_counted : BucketState :=
  mkState (1, 1, 1) 0 1
          {[ (0%nat, (0, 0, 0)) :=
               mkCellState (mkCounter 2 5 (mkRange 0 3 7)) BAD_BLOCK ]}
          [] [] 0 [] [].

Lemma picked_offsets_witness :
  exists st',
    forEachCell true (1, 1, 1) 1 (PickCells 10 4) one_counted = Ok st'
    /\ picked st' = [mkCell (0, 0, 0) 0]
    /\ offsets_run st' /\ offsets st' !! 0%nat = Some 0.
Proof.
  eexists. split; [vm_compute; reflexivity |].
  split; [reflexivity |].
  apply (picked_offsets true 10 4 (1, 1, 1) 1 one_counted);
    [reflexivity | reflexivity | vm_compute; reflexivity].
Defined.

End OffsetFacts.
